(** * Particle effects of the scene manager: a shallow embedding

    The development follows [SceneManager] (the particle-effect service) and
    the hand-pose logic of the controls panel.

    Numbers.  JavaScript numbers are modelled as exact rationals [Q]: the
    rounding of binary64 and of [Float32Array] storage is abstracted away and
    so is overflow.  The operations of the program that can yield [NaN]
    (remainder by zero, [Math.acos] outside [-1,1], [Math.sqrt] of a negative
    number, a read of [undefined]) are modelled as faults of the computation,
    so "the result is finite" reads "the computation returns [Ok]".

    Host.  [Math.random], the transcendental functions, the colour parser and
    the sRGB transfer function of the rendering library and the 2D canvas
    are supplied by the host; they are collected in the record [Host] and
    every definition is parametric in it. *)

From Stdlib Require Import QArith Qround Qabs ZArith List Bool Lia Lqa String Arith.
Import ListNotations.

Open Scope Q_scope.

(* ================================================================== *)
(** ** Rational helpers *)

Definition Qltb (x y : Q) : bool := negb (Qle_bool y x).

Definition Qleb (x y : Q) : bool := Qle_bool x y.

(** [Math.floor] and [Math.ceil] on a non-negative quantity, as a count. *)
Definition Math_floor (x : Q) : nat := Z.to_nat (Qfloor x).
Definition Math_ceil (x : Q) : nat := Z.to_nat (Qceiling x).

Definition ofNat (n : nat) : Q := inject_Z (Z.of_nat n).

(** Truncation toward zero, as used by the remainder operator. *)
Definition Qtrunc (x : Q) : Z := Z.quot (Qnum x) (Zpos (Qden x)).

(** [Math.PI], the binary64 constant written in decimal. *)
Definition Math_PI : Q := 3141592653589793 # 1000000000000000.

(* ================================================================== *)
(** ** Faults and the runtime monad *)

Inductive Fault : Type :=
| NaNProduced      (* an arithmetic operation left the finite numbers *)
| TypeError        (* a property of [undefined] or [null] was read *)
| RangeError.      (* a typed array was asked for with a negative length *)

Inductive Res (A : Type) : Type :=
| Ok (a : A)
| Err (f : Fault).
Arguments Ok {A} a.
Arguments Err {A} f.

(** What the program does to the world outside its own variables.  The
    times of [OscillatorPlay] are seconds on the clock of the audio context,
    which starts at 0 when the context is created. *)
Inductive Event : Type :=
| SceneAdd (obj : nat)
| SceneRemove (obj : nat)
| GeometryDispose (geo : nat)
| MaterialDispose (mat : nat)
| AudioContextNew (ctx : nat)
| AudioContextClose (ctx : nat)
| OscillatorPlay (ctx : nat) (note start stop : Q)
| SetTimeout (timer : nat) (delayMs : Q)
| TimerFire (timer : nat).

(** The ambient runtime: how many [Math.random] draws were consumed, the
    next fresh object identity, the wall clock in milliseconds, the pending
    timeouts with their due times, and the events so far (newest first),
    each stamped with the clock. *)
Record Runtime : Type := mkRuntime {
  drawn : nat;
  fresh : nat;
  clock : Q;
  timers : list (nat * Q);
  events : list (Q * Event)
}.

Definition M (A : Type) : Type := Runtime -> Res (A * Runtime).

Definition ret {A} (a : A) : M A := fun rt => Ok (a, rt).

Definition bind {A B} (m : M A) (k : A -> M B) : M B :=
  fun rt => match m rt with
            | Ok (a, rt') => k a rt'
            | Err f => Err f
            end.

Definition fail {A} (f : Fault) : M A := fun _ => Err f.

Definition lift {A} (r : Res A) : M A :=
  fun rt => match r with Ok a => Ok (a, rt) | Err f => Err f end.

Declare Scope monad_scope.
Delimit Scope monad_scope with monad.
Notation "x <- m ;; k" := (bind m (fun x => k))
  (at level 61, m at next level, right associativity) : monad_scope.
Notation "' pat <- m ;; k" := (bind m (fun x => match x with pat => k end))
  (at level 61, pat pattern, m at next level, right associativity) : monad_scope.
Notation "m ;;; k" := (bind m (fun _ => k))
  (at level 61, right associativity) : monad_scope.
Open Scope monad_scope.

Definition emit (e : Event) : M unit :=
  fun rt => Ok (tt, mkRuntime (drawn rt) (fresh rt) (clock rt) (timers rt)
                              ((clock rt, e) :: events rt)).

(** A fresh identity for an object created with [new]. *)
Definition newObject : M nat :=
  fun rt => Ok (fresh rt, mkRuntime (drawn rt) (S (fresh rt)) (clock rt)
                                    (timers rt) (events rt)).

(** [for (let i = from; i < from + n; i++) body(i)], threading the
    variables the body assigns. *)
Fixpoint forRange {S : Type} (from n : nat) (body : nat -> S -> M S) (s : S) : M S :=
  match n with
  | O => ret s
  | Datatypes.S n' => s' <- body from s ;; forRange (Datatypes.S from) n' body s'
  end.

Definition forUpTo {S : Type} (n : nat) (body : nat -> S -> M S) (s : S) : M S :=
  forRange 0 n body s.

(* ================================================================== *)
(** ** Typed arrays *)

Record Float32Array : Type := mkF32 {
  buffer : nat;          (* identity of the underlying storage *)
  elems : list Q
}.

Definition f32_length (a : Float32Array) : nat := List.length (elems a).

Fixpoint upd (i : nat) (v : Q) (l : list Q) : list Q :=
  match l, i with
  | [], _ => []
  | _ :: t, O => v :: t
  | h :: t, Datatypes.S i' => h :: upd i' v t
  end.

(** [a[i]]: [undefined] out of range, which no arithmetic survives. *)
Definition f32_get (a : Float32Array) (i : nat) : Res Q :=
  match nth_error (elems a) i with
  | Some v => Ok v
  | None => Err NaNProduced
  end.

(** [a[i] = v]: a write out of range is ignored.  The stored number is kept
    in lowest terms, which does not change its value. *)
Definition f32_set (a : Float32Array) (i : nat) (v : Q) : Float32Array :=
  mkF32 (buffer a) (upd i (Qred v) (elems a)).

(** [new Float32Array(n)]: zero-filled, with a storage of its own. *)
Definition newFloat32Array (n : nat) : M Float32Array :=
  id <- newObject ;; ret (mkF32 id (repeat 0 n)).

Definition get (a : Float32Array) (i : nat) : M Q := lift (f32_get a i).

(** [a[i] op= ...]: read, compute, write back. *)
Definition modify (a : Float32Array) (i : nat) (f : Q -> Q) : M Float32Array :=
  v <- get a i ;; ret (f32_set a i (f v)).

(* ================================================================== *)
(** ** The host *)

(** [THREE.Color]: three channels. *)
Record Color : Type := mkColor { r : Q; g : Q; b : Q }.

Record Host : Type := mkHost {
  (** the stream behind [Math.random()], each draw in [0,1) *)
  random_stream : nat -> Q;
  Math_sin : Q -> Q;
  Math_cos : Q -> Q;
  (** [Math.acos] on its domain [-1,1] *)
  acos_value : Q -> Q;
  (** [Math.sqrt] on the non-negative numbers *)
  sqrt_value : Q -> Q;
  (** [new THREE.Color(string)] *)
  parseColor : string -> Color;
  (** the transfer function of the rendering library that takes a channel
      from sRGB to the linear working colour space *)
  SRGBToLinear : Q -> Q;
  (** whether [canvas.getContext('2d')] yields a context *)
  context2d : bool;
  (** [getImageData(0,0,512,512).data] after the text (and, when the flag is
      set, the extra drawing) was painted: byte index to byte *)
  imageData : string -> bool -> Z -> Z;
  (** whether the window has an [AudioContext] class *)
  hasAudioContext : bool
}.

Definition Math_random (h : Host) : M Q :=
  fun rt => Ok (random_stream h (drawn rt),
                mkRuntime (S (drawn rt)) (fresh rt) (clock rt) (timers rt)
                          (events rt)).

Definition Math_acos (h : Host) (x : Q) : M Q :=
  if Qleb (-1) x && Qleb x 1 then ret (acos_value h x) else fail NaNProduced.

Definition Math_sqrt (h : Host) (x : Q) : M Q :=
  if Qleb 0 x then ret (sqrt_value h x) else fail NaNProduced.

(** [Math.pow(x, 2)] and [Math.pow(x, 3)]. *)
Definition Math_pow2 (x : Q) : Q := x * x.
Definition Math_pow3 (x : Q) : Q := x * x * x.

(** [new THREE.Color(0xRRGGBB)]: each channel is its byte over 255, and
    the colour is then converted from sRGB to the working colour space,
    channel by channel. *)
Definition hexColor (h : Host) (hex : Z) : Color :=
  mkColor (SRGBToLinear h (inject_Z (Z.land (Z.shiftr hex 16) 255) / 255))
          (SRGBToLinear h (inject_Z (Z.land (Z.shiftr hex 8) 255) / 255))
          (SRGBToLinear h (inject_Z (Z.land hex 255) / 255)).

(** [c.clone().lerp(target, alpha)]: each channel moves by
    [(target - c) * alpha]. *)
Definition lerp (c target : Color) (alpha : Q) : Color :=
  mkColor (r c + (r target - r c) * alpha)
          (g c + (g target - g c) * alpha)
          (b c + (b target - b c) * alpha).

(** The smoothing assignment [current += (target - current) * rate]. *)
Definition smooth (rate target current : Q) : Q :=
  current + (target - current) * rate.

(* ================================================================== *)
(** ** Types of the service (types.ts) *)

Inductive EffectType : Type :=
| GALAXY | WAVE | RAIN | SPHERE
| CREATIVE_TEXT | CREATIVE_HEART_FIREWORK | CREATIVE_CAT_CAKE.

Record EffectConfig : Type := mkConfig {
  count : nat;
  size : Q;
  speed : Q;
  color : string
}.

(** [THREE.Points] with the geometry and material it was built from. *)
Record Points : Type := mkPoints {
  object_id : nat;
  geometry_id : nat;
  material_id : nat;
  position : Float32Array;            (* geometry.attributes.position.array *)
  colorAttr : option Float32Array;    (* geometry.attributes.color, if set *)
  rotation_y : Q;
  rotation_z : Q;
  scale : Q
}.

Definition setPosition (p : Points) (a : Float32Array) : Points :=
  mkPoints (object_id p) (geometry_id p) (material_id p) a (colorAttr p)
           (rotation_y p) (rotation_z p) (scale p).

Definition setColorAttr (p : Points) (a : Float32Array) : Points :=
  mkPoints (object_id p) (geometry_id p) (material_id p) (position p) (Some a)
           (rotation_y p) (rotation_z p) (scale p).

Definition setRotationY (p : Points) (v : Q) : Points :=
  mkPoints (object_id p) (geometry_id p) (material_id p) (position p) (colorAttr p)
           v (rotation_z p) (scale p).

Definition setRotationZ (p : Points) (v : Q) : Points :=
  mkPoints (object_id p) (geometry_id p) (material_id p) (position p) (colorAttr p)
           (rotation_y p) v (scale p).

Definition setScale (p : Points) (v : Q) : Points :=
  mkPoints (object_id p) (geometry_id p) (material_id p) (position p) (colorAttr p)
           (rotation_y p) (rotation_z p) v.

(** [geometry.attributes.color.array]: reading it off a geometry without a
    colour attribute is a [TypeError]. *)
Definition colorArray (p : Points) : M Float32Array :=
  match colorAttr p with
  | Some a => ret a
  | None => fail TypeError
  end.

(* ================================================================== *)
(** ** Closures of the per-frame callbacks

    Each [init...] method leaves a closure in [updateCallback].  A closure is
    modelled by the record of the variables it captured; the variables it
    assigns ([phase], [launchHeight], [isCatDetected], ...) are fields that
    the callback returns updated. *)

Record GalaxyClosure : Type := mkGalaxy {
  galaxy_config : EffectConfig
}.

Record CreativeTextClosure : Type := mkCreativeText {
  text_config : EffectConfig;
  galaxyPositions : Float32Array;
  textPositions : Float32Array;
  colorText : Color;
  text_colorOutside : Color;
  currentRotationY : Q
}.

Record HeartFireworkClosure : Type := mkHeartFirework {
  heart_count : nat;
  heartPositions : Float32Array;
  heartColors : Float32Array;
  skyBlue : Color;
  phase : nat;                       (* 0 heart, 1 launch, 2 explode *)
  launchHeight : Q;
  explosionVelocities : Float32Array
}.

Record CatCakeClosure : Type := mkCatCake {
  cake_config : EffectConfig;
  cake_velocities : Float32Array;
  cakePositions : Float32Array;
  cakeColors : Float32Array;
  flameStartIndex : nat;
  isCatDetected : bool
}.

Record WaveClosure : Type := mkWave {
  wave_config : EffectConfig
}.

Record RainClosure : Type := mkRain {
  rain_config : EffectConfig;
  rain_velocities : Float32Array
}.

Record SphereClosure : Type := mkSphere {
  sphere_config : EffectConfig
}.

Inductive Callback : Type :=
| GalaxyUpdate (c : GalaxyClosure)
| CreativeTextUpdate (c : CreativeTextClosure)
| HeartFireworkUpdate (c : HeartFireworkClosure)
| CatCakeUpdate (c : CatCakeClosure)
| WaveUpdate (c : WaveClosure)
| RainUpdate (c : RainClosure)
| SphereUpdate (c : SphereClosure).

(** The fields of [SceneManager] that the effects touch.  [scene] lists the
    children of the THREE scene. *)
Record SceneManager : Type := mkManager {
  scene : list nat;
  particles : option Points;
  updateCallback : option Callback;
  handStateIsActive : bool;
  audioContext : option nat;
  isPlayingAudio : bool
}.

Definition withParticles (m : SceneManager) (p : option Points) : SceneManager :=
  mkManager (scene m) p (updateCallback m) (handStateIsActive m)
            (audioContext m) (isPlayingAudio m).

Definition withScene (m : SceneManager) (s : list nat) : SceneManager :=
  mkManager s (particles m) (updateCallback m) (handStateIsActive m)
            (audioContext m) (isPlayingAudio m).

Definition withCallback (m : SceneManager) (c : option Callback) : SceneManager :=
  mkManager (scene m) (particles m) c (handStateIsActive m)
            (audioContext m) (isPlayingAudio m).

Definition withAudio (m : SceneManager) (ctx : option nat) (playing : bool) : SceneManager :=
  mkManager (scene m) (particles m) (updateCallback m) (handStateIsActive m)
            ctx playing.

(** [updateHandState(isActive)]. *)
Definition updateHandState (isActive : bool) (m : SceneManager) : SceneManager :=
  mkManager (scene m) (particles m) (updateCallback m) isActive
            (audioContext m) (isPlayingAudio m).

(* ================================================================== *)
(** ** Shared steps of the callbacks *)

(** [a[i] += (target - a[i]) * rate]. *)
Definition smoothAt (rate target : Q) (a : Float32Array) (i : nat) : M Float32Array :=
  modify a i (smooth rate target).

(** [a[i] += (targets[i] - a[i]) * rate]. *)
Definition smoothToward (rate : Q) (targets a : Float32Array) (i : nat) : M Float32Array :=
  t <- get targets i ;; smoothAt rate t a i.

(** Three consecutive channels smoothed toward a colour. *)
Definition smoothColor (rate : Q) (c : Color) (col : Float32Array) (i3 : nat) : M Float32Array :=
  col <- smoothAt rate (r c) col i3 ;;
  col <- smoothAt rate (g c) col (i3 + 1) ;;
  smoothAt rate (b c) col (i3 + 2).

(** Three consecutive slots smoothed toward the same slots of [targets]. *)
Definition smoothTriple (rate : Q) (targets a : Float32Array) (i3 : nat) : M Float32Array :=
  a <- smoothToward rate targets a i3 ;;
  a <- smoothToward rate targets a (i3 + 1) ;;
  smoothToward rate targets a (i3 + 2).

Definition setTriple (a : Float32Array) (i3 : nat) (x y z : Q) : Float32Array :=
  f32_set (f32_set (f32_set a i3 x) (i3 + 1) y) (i3 + 2) z.

Definition setColor (a : Float32Array) (i3 : nat) (c : Color) : Float32Array :=
  setTriple a i3 (r c) (g c) (b c).

(* ================================================================== *)
(** ** initHeartFirework *)

(** The velocity [setExplosionVelocity] computes from its three draws. *)
Definition explosionVelocity (h : Host) (theta phi speed : Q) : Q * Q * Q :=
  (Math_sin h phi * Math_cos h theta * speed,
   Math_sin h phi * Math_sin h theta * speed,
   Math_cos h phi * speed).

Definition setExplosionVelocity (h : Host) (index3 : nat)
    (explosionVelocities : Float32Array) : M Float32Array :=
  u1 <- Math_random h ;;
  let theta := u1 * Math_PI * 2 in
  u2 <- Math_random h ;;
  phi <- Math_acos h (u2 * 2 - 1) ;;
  u3 <- Math_random h ;;
  let speed := u3 * 1.5 + 0.5 in
  let '(vx, vy, vz) := explosionVelocity h theta phi speed in
  ret (setTriple explosionVelocities index3 vx vy vz).

(** The gesture gate at the head of the callback. *)
Definition heartGate (active : bool) (phase : nat) (launchHeight : Q) : nat * Q :=
  if active then
    if Nat.eqb phase 0 then (1%nat, 0) else (phase, launchHeight)
  else
    if negb (Nat.eqb phase 0) then (0%nat, launchHeight) else (phase, launchHeight).

(** Phase 0, one particle: position and colour move toward the heart. *)
Definition heartIdleBody (cl : HeartFireworkClosure) (i : nat)
    (s : Float32Array * Float32Array) : M (Float32Array * Float32Array) :=
  let '(pos, col) := s in
  let i3 := (i * 3)%nat in
  pos <- smoothTriple 0.08 (heartPositions cl) pos i3 ;;
  col <- smoothTriple 0.08 (heartColors cl) col i3 ;;
  ret (pos, col).

(** Phase 1, one particle: toward the rising column, colour toward sky blue. *)
Definition heartLaunchBody (h : Host) (cl : HeartFireworkClosure) (launchHeight : Q)
    (i : nat) (s : Float32Array * Float32Array) : M (Float32Array * Float32Array) :=
  let '(pos, col) := s in
  let i3 := (i * 3)%nat in
  u <- Math_random h ;;
  let tx := 0 in
  let ty := (u - 0.5) * 5 in
  let tz := 0 in
  pos <- smoothAt 0.15 tx pos i3 ;;
  pos <- smoothAt 0.15 tz pos (i3 + 2) ;;
  pos <- smoothAt 0.15 (launchHeight + ty) pos (i3 + 1) ;;
  col <- smoothColor 0.15 (skyBlue cl) col i3 ;;
  ret (pos, col).

(** Phase 2, one particle: integrate, damp, and respawn below the floor
    while the hand is active. *)
Definition heartExplodeBody (h : Host) (cl : HeartFireworkClosure) (active : bool)
    (i : nat) (s : Float32Array * Float32Array * Float32Array)
    : M (Float32Array * Float32Array * Float32Array) :=
  let '(pos, col, vel) := s in
  let i3 := (i * 3)%nat in
  vx <- get vel i3 ;;
  pos <- modify pos i3 (fun x => x + vx) ;;
  vy <- get vel (i3 + 1) ;;
  pos <- modify pos (i3 + 1) (fun y => y + vy) ;;
  vz <- get vel (i3 + 2) ;;
  pos <- modify pos (i3 + 2) (fun z => z + vz) ;;
  vel <- modify vel (i3 + 1) (fun v => v - 0.02) ;;
  vel <- modify vel i3 (fun v => v * 0.98) ;;
  vel <- modify vel (i3 + 1) (fun v => v * 0.98) ;;
  vel <- modify vel (i3 + 2) (fun v => v * 0.98) ;;
  y <- get pos (i3 + 1) ;;
  if Qltb y (-100) && active then
    u1 <- Math_random h ;;
    let pos := f32_set pos i3 ((u1 - 0.5) * 2) in
    u2 <- Math_random h ;;
    let pos := f32_set pos (i3 + 1) (60 + (u2 - 0.5) * 5) in
    u3 <- Math_random h ;;
    let pos := f32_set pos (i3 + 2) ((u3 - 0.5) * 2) in
    vel <- setExplosionVelocity h i3 vel ;;
    ret (pos, setColor col i3 (skyBlue cl), vel)
  else ret (pos, col, vel).

Definition withPhase (cl : HeartFireworkClosure) (ph : nat) (lh : Q)
    (vel : Float32Array) : HeartFireworkClosure :=
  mkHeartFirework (heart_count cl) (heartPositions cl) (heartColors cl)
                  (skyBlue cl) ph lh vel.

(** The callback on the points object, after the [!this.particles] test. *)
Definition heartFireworkFrame (h : Host) (time : Q) (active : bool)
    (cl : HeartFireworkClosure) (p : Points) : M (HeartFireworkClosure * Points) :=
  let pos := position p in
  col <- colorArray p ;;
  let '(ph, lh) := heartGate active (phase cl) (launchHeight cl) in
  let n := heart_count cl in
  if Nat.eqb ph 0 then
    let p := setRotationY p (Math_sin h (time * 0.5) * 0.3) in
    '(pos, col) <- forUpTo n (heartIdleBody cl) (pos, col) ;;
    ret (withPhase cl ph lh (explosionVelocities cl),
         setColorAttr (setPosition p pos) col)
  else if Nat.eqb ph 1 then
    let p := setRotationY p (rotation_y p + 0.1) in
    let lh := lh + 1.5 in
    '(pos, col) <- forUpTo n (heartLaunchBody h cl lh) (pos, col) ;;
    let p := setColorAttr (setPosition p pos) col in
    if Qltb 60 lh then
      vel <- forUpTo n (fun i => setExplosionVelocity h (i * 3))
                     (explosionVelocities cl) ;;
      ret (withPhase cl 2 lh vel, p)
    else ret (withPhase cl ph lh (explosionVelocities cl), p)
  else if Nat.eqb ph 2 then
    '(pos, col, vel) <- forUpTo n (heartExplodeBody h cl active)
                                (pos, col, explosionVelocities cl) ;;
    ret (withPhase cl ph lh vel, setColorAttr (setPosition p pos) col)
  else ret (withPhase cl ph lh (explosionVelocities cl), p).

Definition heartFireworkCallback (h : Host) (time : Q) (cl : HeartFireworkClosure)
    (m : SceneManager) : M (HeartFireworkClosure * SceneManager) :=
  match particles m with
  | None => ret (cl, m)
  | Some p =>
      '(cl, p) <- heartFireworkFrame h time (handStateIsActive m) cl p ;;
      ret (cl, withParticles m (Some p))
  end.

(** One particle of the heart curve with its colour. *)
Definition heartParticle (h : Host) (colorBase colorEdge : Color) (i : nat)
    (s : Float32Array * Float32Array * Float32Array * Float32Array)
    : M (Float32Array * Float32Array * Float32Array * Float32Array) :=
  let '(positions, colors, heartPositions, heartColors) := s in
  let i3 := (i * 3)%nat in
  u1 <- Math_random h ;;
  let t := u1 * Math_PI * 2 in
  u2 <- Math_random h ;;
  let thickness := (u2 - 0.5) * 4 in
  let x := 16 * Math_pow3 (Math_sin h t) in
  let y := 13 * Math_cos h t - 5 * Math_cos h (2 * t) - 2 * Math_cos h (3 * t)
           - Math_cos h (4 * t) in
  let z := thickness in
  u3 <- Math_random h ;;
  let x := x * ((0.8 + u3 * 0.2) * 1.2) in
  u4 <- Math_random h ;;
  let y := y * ((0.8 + u4 * 0.2) * 1.2) in
  let z := z * 2 in
  let heartPositions := setTriple heartPositions i3 x y z in
  let mixedColor := lerp colorBase colorEdge ((y + 15) / 30) in
  let heartColors := setColor heartColors i3 mixedColor in
  let positions := setTriple positions i3 x y z in
  let colors := setColor colors i3 mixedColor in
  ret (positions, colors, heartPositions, heartColors).

Definition initHeartFirework (h : Host) (config : EffectConfig) (m : SceneManager)
    : M SceneManager :=
  let count := count config in
  geometry <- newObject ;;
  positions <- newFloat32Array (count * 3) ;;
  colors <- newFloat32Array (count * 3) ;;
  heartPositions <- newFloat32Array (count * 3) ;;
  heartColors <- newFloat32Array (count * 3) ;;
  let colorBase := parseColor h (color config) in
  let colorEdge := hexColor h 0xff0066 in
  let skyBlue := hexColor h 0x87CEEB in
  '(positions, colors, heartPositions, heartColors) <-
     forUpTo count (heartParticle h colorBase colorEdge)
             (positions, colors, heartPositions, heartColors) ;;
  material <- newObject ;;
  points <- newObject ;;
  let p := mkPoints points geometry material positions (Some colors) 0 0 1 in
  emit (SceneAdd points) ;;;
  explosionVelocities <- newFloat32Array (count * 3) ;;
  let cl := mkHeartFirework count heartPositions heartColors skyBlue 0 0
                            explosionVelocities in
  ret (mkManager (points :: scene m) (Some p) (Some (HeartFireworkUpdate cl))
                 (handStateIsActive m) (audioContext m) (isPlayingAudio m)).

(* ================================================================== *)
(** ** generateCanvasPositions *)

(** [new Float32Array(len)] for a number [len]: the length is truncated
    toward zero to an integer, and a negative integer is a [RangeError]. *)
Definition newFloat32ArrayOf (len : Q) : M Float32Array :=
  if (Qtrunc len <? 0)%Z then fail RangeError
  else newFloat32Array (Z.to_nat (Qtrunc len)).

Definition canvasWidth : Z := 512.
Definition canvasHeight : Z := 512.

(** The pixel test of the scan at column [x] of row [y]. *)
Definition scanPixel (data : Z -> Z) (y x : Z) : list (Q * Q) :=
  let i := ((y * canvasWidth + x) * 4)%Z in
  if (100 <? data i)%Z then
    [((inject_Z x - inject_Z canvasWidth / 2) * 0.15,
      - (inject_Z y - inject_Z canvasHeight / 2) * 0.15)]
  else [].

(** The values [0, 3, 6, ...] below [bound] that the two scan loops visit. *)
Definition scanSteps (bound : Z) : list Z :=
  map (fun k => (3 * Z.of_nat k)%Z) (seq 0 (Z.to_nat ((bound + 2) / 3))).

Definition scanRow (data : Z -> Z) (y : Z) : list (Q * Q) :=
  flat_map (scanPixel data y) (scanSteps canvasWidth).

(** [validPoints] after the scan. *)
Definition scanImage (data : Z -> Z) : list (Q * Q) :=
  flat_map (scanRow data) (scanSteps canvasHeight).

(** The point a particle takes: [validPoints[i % validPoints.length]] when
    there is a candidate, the origin otherwise. *)
Definition pickPoint (validPoints : list (Q * Q)) (i : nat) : M (Q * Q) :=
  if (0 <? List.length validPoints)%nat then
    match nth_error validPoints (i mod List.length validPoints) with
    | Some pt => ret pt
    | None => fail TypeError
    end
  else ret (0, 0).

Definition canvasParticle (h : Host) (validPoints : list (Q * Q)) (i : nat)
    (positions : Float32Array) : M Float32Array :=
  let i3 := (i * 3)%nat in
  point <- pickPoint validPoints i ;;
  u1 <- Math_random h ;;
  let positions := f32_set positions i3 (fst point + (u1 - 0.5) * 0.5) in
  u2 <- Math_random h ;;
  let positions := f32_set positions (i3 + 1) (snd point + (u2 - 0.5) * 0.5) in
  u3 <- Math_random h ;;
  ret (f32_set positions (i3 + 2) ((u3 - 0.5) * 2)).

(** [count] is a number: [initCatCake] passes [count / 4]. *)
Definition generateCanvasPositions (h : Host) (text : string) (count : Q)
    (drawExtra : bool) : M Float32Array :=
  if negb (context2d h) then newFloat32ArrayOf (count * 3)
  else
    let data := imageData h text drawExtra in
    let validPoints := scanImage data in
    positions <- newFloat32ArrayOf (count * 3) ;;
    forUpTo (Math_ceil count) (canvasParticle h validPoints) positions.

(* ================================================================== *)
(** ** initGalaxy and initCreativeText *)

(** [Math.pow(Math.random(), 3) * (Math.random() < 0.5 ? 1 : -1) * (0.5 * radius)]. *)
Definition galaxyJitter (h : Host) (radius : Q) : M Q :=
  u <- Math_random h ;;
  v <- Math_random h ;;
  ret (Math_pow3 u * (if Qltb v 0.5 then 1 else -1) * (0.5 * radius)).

(** The spiral position and the mixed colour of particle [i]. *)
Definition galaxyPoint (h : Host) (colorInside colorOutside : Color) (i : nat)
    : M (Q * Q * Q * Color) :=
  u <- Math_random h ;;
  let radius := u * 50 in
  let spinAngle := radius * 0.5 in
  let branchAngle := ofNat (i mod 3) * ((Math_PI * 2) / 3) in
  randomX <- galaxyJitter h radius ;;
  randomY <- galaxyJitter h radius ;;
  randomZ <- galaxyJitter h radius ;;
  let x := Math_cos h (branchAngle + spinAngle) * radius + randomX in
  let y := randomY in
  let z := Math_sin h (branchAngle + spinAngle) * radius + randomZ in
  let mixedColor := lerp colorInside colorOutside (radius / 50) in
  ret (x, y, z, mixedColor).

Definition galaxyParticle (h : Host) (colorInside colorOutside : Color) (i : nat)
    (s : Float32Array * Float32Array) : M (Float32Array * Float32Array) :=
  let '(positions, colors) := s in
  let i3 := (i * 3)%nat in
  '(x, y, z, mixedColor) <- galaxyPoint h colorInside colorOutside i ;;
  ret (setTriple positions i3 x y z, setColor colors i3 mixedColor).

Definition galaxyCallback (time : Q) (cl : GalaxyClosure) (m : SceneManager)
    : SceneManager :=
  match particles m with
  | Some p =>
      withParticles m
        (Some (setRotationY p (time * speed (galaxy_config cl) * 0.1)))
  | None => m
  end.

Definition initGalaxy (h : Host) (config : EffectConfig) (m : SceneManager)
    : M SceneManager :=
  geometry <- newObject ;;
  positions <- newFloat32Array (count config * 3) ;;
  colors <- newFloat32Array (count config * 3) ;;
  let colorInside := parseColor h (color config) in
  let colorOutside := hexColor h 0x1b3984 in
  '(positions, colors) <-
     forUpTo (count config) (galaxyParticle h colorInside colorOutside)
             (positions, colors) ;;
  material <- newObject ;;
  points <- newObject ;;
  let p := mkPoints points geometry material positions (Some colors) 0 0 1 in
  emit (SceneAdd points) ;;;
  ret (mkManager (points :: scene m) (Some p)
                 (Some (GalaxyUpdate (mkGalaxy config)))
                 (handStateIsActive m) (audioContext m) (isPlayingAudio m)).

Definition creativeTextParticle (h : Host) (colorInside colorOutside : Color)
    (i : nat) (s : Float32Array * Float32Array * Float32Array)
    : M (Float32Array * Float32Array * Float32Array) :=
  let '(positions, colors, galaxyPositions) := s in
  let i3 := (i * 3)%nat in
  '(x, y, z, mixedColor) <- galaxyPoint h colorInside colorOutside i ;;
  let galaxyPositions := setTriple galaxyPositions i3 x y z in
  gx <- get galaxyPositions i3 ;;
  let positions := f32_set positions i3 gx in
  gy <- get galaxyPositions (i3 + 1) ;;
  let positions := f32_set positions (i3 + 1) gy in
  gz <- get galaxyPositions (i3 + 2) ;;
  let positions := f32_set positions (i3 + 2) gz in
  ret (positions, setColor colors i3 mixedColor, galaxyPositions).

(** Hand active: toward the text cloud and the text colour. *)
Definition textMorphBody (cl : CreativeTextClosure) (i : nat)
    (s : Float32Array * Float32Array) : M (Float32Array * Float32Array) :=
  let '(pos, col) := s in
  let i3 := (i * 3)%nat in
  pos <- smoothTriple 0.08 (textPositions cl) pos i3 ;;
  col <- smoothColor 0.05 (colorText cl) col i3 ;;
  ret (pos, col).

(** Hand inactive: back to the galaxy and its radial colour. *)
Definition textGalaxyBody (h : Host) (cl : CreativeTextClosure) (baseColor : Color)
    (i : nat) (s : Float32Array * Float32Array) : M (Float32Array * Float32Array) :=
  let '(pos, col) := s in
  let i3 := (i * 3)%nat in
  pos <- smoothTriple 0.08 (galaxyPositions cl) pos i3 ;;
  dx <- get (galaxyPositions cl) i3 ;;
  dz <- get (galaxyPositions cl) (i3 + 2) ;;
  radius <- Math_sqrt h (dx * dx + dz * dz) ;;
  let targetColor := lerp baseColor (text_colorOutside cl) (radius / 50) in
  col <- smoothColor 0.05 targetColor col i3 ;;
  ret (pos, col).

Definition withRotationY (cl : CreativeTextClosure) (v : Q) : CreativeTextClosure :=
  mkCreativeText (text_config cl) (galaxyPositions cl) (textPositions cl)
                 (colorText cl) (text_colorOutside cl) v.

Definition creativeTextFrame (h : Host) (active : bool) (cl : CreativeTextClosure)
    (p : Points) : M (CreativeTextClosure * Points) :=
  let pos := position p in
  col <- colorArray p ;;
  let n := count (text_config cl) in
  if active then
    let cl := withRotationY cl (smooth 0.1 0 (currentRotationY cl)) in
    let p := setRotationY p (currentRotationY cl) in
    '(pos, col) <- forUpTo n (textMorphBody cl) (pos, col) ;;
    ret (cl, setColorAttr (setPosition p pos) col)
  else
    let cl := withRotationY cl (currentRotationY cl + speed (text_config cl) * 0.002) in
    let p := setRotationY p (currentRotationY cl) in
    let baseColor := parseColor h (color (text_config cl)) in
    '(pos, col) <- forUpTo n (textGalaxyBody h cl baseColor) (pos, col) ;;
    ret (cl, setColorAttr (setPosition p pos) col).

Definition creativeTextCallback (h : Host) (cl : CreativeTextClosure)
    (m : SceneManager) : M (CreativeTextClosure * SceneManager) :=
  match particles m with
  | None => ret (cl, m)
  | Some p =>
      '(cl, p) <- creativeTextFrame h (handStateIsActive m) cl p ;;
      ret (cl, withParticles m (Some p))
  end.

Definition initCreativeText (h : Host) (config : EffectConfig) (m : SceneManager)
    : M SceneManager :=
  let count := count config in
  geometry <- newObject ;;
  positions <- newFloat32Array (count * 3) ;;
  colors <- newFloat32Array (count * 3) ;;
  galaxyPositions <- newFloat32Array (count * 3) ;;
  let colorInside := parseColor h (color config) in
  let colorOutside := hexColor h 0x1b3984 in
  let colorText := parseColor h (color config) in
  '(positions, colors, galaxyPositions) <-
     forUpTo count (creativeTextParticle h colorInside colorOutside)
             (positions, colors, galaxyPositions) ;;
  textPositions <- generateCanvasPositions h "小龙虾" (ofNat count) true ;;
  material <- newObject ;;
  points <- newObject ;;
  let p := mkPoints points geometry material positions (Some colors) 0 0 1 in
  emit (SceneAdd points) ;;;
  let cl := mkCreativeText config galaxyPositions textPositions colorText
                           colorOutside 0 in
  ret (mkManager (points :: scene m) (Some p) (Some (CreativeTextUpdate cl))
                 (handStateIsActive m) (audioContext m) (isPlayingAudio m)).

(* ================================================================== *)
(** ** Audio *)

(** The twelve notes of the song: frequency and duration in seconds. *)
Definition notes : list (Q * Q) :=
  [ (261.63, 0.25); (261.63, 0.25); (293.66, 0.5); (261.63, 0.5);
    (349.23, 0.5); (329.63, 1.0);
    (261.63, 0.25); (261.63, 0.25); (293.66, 0.5); (261.63, 0.5);
    (392.00, 0.5); (349.23, 1.0) ].

(** [notes.forEach]: one oscillator per note, back to back; returns the
    running [time]. *)
Fixpoint scheduleNotes (ctx : nat) (ns : list (Q * Q)) (time : Q) : M Q :=
  match ns with
  | [] => ret time
  | (note, dur) :: rest =>
      emit (OscillatorPlay ctx note time (time + dur)) ;;;
      scheduleNotes ctx rest (time + dur)
  end.

(** [setTimeout(callback, delayMs)]: the timeout is pending until the clock
    reaches its due time. *)
Definition setTimeout (delayMs : Q) : M unit :=
  timer <- newObject ;;
  emit (SetTimeout timer delayMs) ;;;
  fun rt => Ok (tt, mkRuntime (drawn rt) (fresh rt) (clock rt)
                              (timers rt ++ [(timer, clock rt + delayMs)])
                              (events rt)).

(** The callback every timeout of [playBirthdaySong] runs. *)
Definition songTimeout (m : SceneManager) : SceneManager :=
  if isPlayingAudio m then withAudio m (audioContext m) false else m.

Definition playBirthdaySong (h : Host) (m : SceneManager) : M SceneManager :=
  if isPlayingAudio m then ret m
  else
    let m := withAudio m (audioContext m) true in
    if negb (hasAudioContext h) then ret m
    else
      ctx <- newObject ;;
      emit (AudioContextNew ctx) ;;;
      let m := withAudio m (Some ctx) (isPlayingAudio m) in
      let time := 0 in                     (* ctx.currentTime of a new context *)
      time <- scheduleNotes ctx notes time ;;
      setTimeout (time * 1000) ;;;
      ret m.

Definition stopAudio (m : SceneManager) : M SceneManager :=
  match audioContext m with
  | Some ctx =>
      emit (AudioContextClose ctx) ;;;
      ret (withAudio m None false)
  | None => ret (withAudio m None false)
  end.

(* ================================================================== *)
(** ** initCatCake *)

(** The remainder operator on numbers: [NaN] for a zero divisor. *)
Definition js_rem (a d : Q) : M Q :=
  if Qeq_bool d 0 then fail NaNProduced
  else ret (a - d * inject_Z (Qtrunc (a / d))).

(** [a[idx]] for a number [idx]: [undefined] unless [idx] is an integer
    within the array. *)
Definition getAt (a : Float32Array) (idx : Q) : M Q :=
  if Qeq_bool idx (inject_Z (Qfloor idx)) && (0 <=? Qfloor idx)%Z
  then get a (Z.to_nat (Qfloor idx))
  else fail NaNProduced.

Definition cakeRainInit (h : Host) (i : nat)
    (s : Float32Array * Float32Array * Float32Array)
    : M (Float32Array * Float32Array * Float32Array) :=
  let '(positions, velocities, colors) := s in
  let i3 := (i * 3)%nat in
  u1 <- Math_random h ;;
  let positions := f32_set positions i3 ((u1 - 0.5) * 200) in
  u2 <- Math_random h ;;
  let positions := f32_set positions (i3 + 1) ((u2 - 0.5) * 200) in
  u3 <- Math_random h ;;
  let positions := f32_set positions (i3 + 2) ((u3 - 0.5) * 200) in
  u4 <- Math_random h ;;
  let velocities := f32_set velocities i (u4 * 0.5 + 0.5) in
  ret (positions, velocities, setTriple colors i3 1 1 1).

(** A disk band of the cake: radius [rad], height [hScale * u + hShift]. *)
Definition cakeDisk (h : Host) (rad : Q) (height : Q -> Q) (c : Color) (i : nat)
    (s : Float32Array * Float32Array * nat) : M (Float32Array * Float32Array * nat) :=
  let '(cakePositions, cakeColors, idx) := s in
  let i3 := (idx * 3)%nat in
  u1 <- Math_random h ;;
  let theta := u1 * Math_PI * 2 in
  u2 <- Math_random h ;;
  root <- Math_sqrt h u2 ;;
  let r := root * rad in
  u3 <- Math_random h ;;
  let hgt := height u3 in
  let cakePositions :=
    setTriple cakePositions i3 (r * Math_cos h theta) hgt (r * Math_sin h theta) in
  ret (cakePositions, setColor cakeColors i3 c, S idx).

Definition cakeText (textPositions : Float32Array) (i : nat)
    (s : Float32Array * Float32Array * nat) : M (Float32Array * Float32Array * nat) :=
  let '(cakePositions, cakeColors, idx) := s in
  let i3 := (idx * 3)%nat in
  m <- js_rem (ofNat i) (ofNat (f32_length textPositions) / 3) ;;
  let tIdx := m * 3 in
  tx <- getAt textPositions tIdx ;;
  let cakePositions := f32_set cakePositions i3 tx in
  ty <- getAt textPositions (tIdx + 1) ;;
  let cakePositions := f32_set cakePositions (i3 + 1) (ty - 40) in
  tz <- getAt textPositions (tIdx + 2) ;;
  let cakePositions := f32_set cakePositions (i3 + 2) tz in
  ret (cakePositions, setTriple cakeColors i3 1 1 0, S idx).

(** Cake mode, a static particle. *)
Definition cakeStaticBody (cl : CatCakeClosure) (i : nat)
    (s : Float32Array * Float32Array) : M (Float32Array * Float32Array) :=
  let '(pos, col) := s in
  let i3 := (i * 3)%nat in
  pos <- smoothTriple 0.05 (cakePositions cl) pos i3 ;;
  col <- smoothTriple 0.05 (cakeColors cl) col i3 ;;
  ret (pos, col).

(** Cake mode, a flame particle.  The draw of [Math.random() < 0.05] is
    only taken when the height test fails. *)
Definition cakeFlameBody (h : Host) (i : nat)
    (s : Float32Array * Float32Array) : M (Float32Array * Float32Array) :=
  let '(pos, col) := s in
  let i3 := (i * 3)%nat in
  y <- get pos (i3 + 1) ;;
  reset <- (if Qltb 28 y then ret true
            else u <- Math_random h ;; ret (Qltb u 0.05)) ;;
  '(pos, col) <-
     (if reset : bool then
        u1 <- Math_random h ;;
        let theta := u1 * Math_PI * 2 in
        u2 <- Math_random h ;;
        let r := u2 * 2 in
        ret (setTriple pos i3 (r * Math_cos h theta) 20 (r * Math_sin h theta),
             setTriple col i3 1 1 0)
      else ret (pos, col)) ;;
  pos <- modify pos (i3 + 1) (fun y => y + 0.2) ;;
  u <- Math_random h ;;
  pos <- modify pos i3 (fun x => x + (u - 0.5) * 0.2) ;;
  col <- smoothAt 0.1 1 col i3 ;;
  col <- modify col (i3 + 1) (fun c => c - 0.02) ;;
  ret (pos, col).

(** The fall of one rain drop in a frame and its wrap to the top. *)
Definition rainFall (velocity speed y : Q) : Q :=
  let y := y - velocity * speed in
  if Qltb y (-100) then 100 else y.

(** Rain mode, one particle. *)
Definition cakeRainBody (h : Host) (cl : CatCakeClosure) (i : nat)
    (s : Float32Array * Float32Array) : M (Float32Array * Float32Array) :=
  let '(pos, col) := s in
  let i3 := (i * 3)%nat in
  v <- get (cake_velocities cl) i ;;
  pos <- modify pos (i3 + 1) (fun y => y - v * speed (cake_config cl)) ;;
  y <- get pos (i3 + 1) ;;
  pos <- (if Qltb y (-100) then
            u1 <- Math_random h ;;
            let pos := f32_set pos i3 ((u1 - 0.5) * 200) in
            let pos := f32_set pos (i3 + 1) 100 in
            u2 <- Math_random h ;;
            ret (f32_set pos (i3 + 2) ((u2 - 0.5) * 200))
          else ret pos) ;;
  col <- smoothAt 0.1 1 col i3 ;;
  col <- smoothAt 0.1 1 col (i3 + 1) ;;
  col <- smoothAt 0.1 1 col (i3 + 2) ;;
  ret (pos, col).

Definition withCatDetected (cl : CatCakeClosure) (d : bool) : CatCakeClosure :=
  mkCatCake (cake_config cl) (cake_velocities cl) (cakePositions cl)
            (cakeColors cl) (flameStartIndex cl) d.

(** The latch at the head of the callback: the song is requested on the
    frame the latch closes. *)
Definition catLatch (h : Host) (cl : CatCakeClosure) (m : SceneManager)
    : M (CatCakeClosure * SceneManager) :=
  if handStateIsActive m && negb (isCatDetected cl) then
    m <- playBirthdaySong h m ;;
    ret (withCatDetected cl true, m)
  else if negb (handStateIsActive m) && isCatDetected cl then
    ret (withCatDetected cl false, m)
  else ret (cl, m).

(** The body of the callback below the latch, on the arrays read at its
    head. *)
Definition catCakeFrame (h : Host) (time : Q) (cl : CatCakeClosure) (p : Points)
    (pos col : Float32Array) : M Points :=
  let n := count (cake_config cl) in
  if isCatDetected cl then
    let p := setRotationY p (Math_sin h (time * 0.5) * 0.2) in
    '(pos, col) <- forUpTo (flameStartIndex cl) (cakeStaticBody cl) (pos, col) ;;
    '(pos, col) <- forRange (flameStartIndex cl) (n - flameStartIndex cl)
                            (cakeFlameBody h) (pos, col) ;;
    ret (setColorAttr (setPosition p pos) col)
  else
    let p := setRotationY p 0 in
    '(pos, col) <- forUpTo n (cakeRainBody h cl) (pos, col) ;;
    ret (setColorAttr (setPosition p pos) col).

Definition catCakeCallback (h : Host) (time : Q) (cl : CatCakeClosure)
    (m : SceneManager) : M (CatCakeClosure * SceneManager) :=
  match particles m with
  | None => ret (cl, m)
  | Some p =>
      let pos := position p in
      col <- colorArray p ;;
      '(cl, m) <- catLatch h cl m ;;
      p <- catCakeFrame h time cl p pos col ;;
      ret (cl, withParticles m (Some p))
  end.

Definition initCatCake (h : Host) (config : EffectConfig) (m : SceneManager)
    : M SceneManager :=
  let count := count config in
  geometry <- newObject ;;
  positions <- newFloat32Array (count * 3) ;;
  velocities <- newFloat32Array count ;;
  colors <- newFloat32Array (count * 3) ;;
  '(positions, velocities, colors) <-
     forUpTo count (cakeRainInit h) (positions, velocities, colors) ;;
  cakePositions <- newFloat32Array (count * 3) ;;
  cakeColors <- newFloat32Array (count * 3) ;;
  textPositions <- generateCanvasPositions h "生日快乐" (ofNat count / 4) false ;;
  let cakeColor1 := hexColor h 0xFF69B4 in
  let cakeColor2 := hexColor h 0xFFFFFF in
  let idx := 0%nat in
  let baseCount := Math_floor (ofNat count * 0.4) in
  s <- forUpTo baseCount
         (cakeDisk h 25 (fun u => (u - 0.5) * 15 - 10) cakeColor1)
         (cakePositions, cakeColors, idx) ;;
  let topCount := Math_floor (ofNat count * 0.3) in
  s <- forUpTo topCount
         (cakeDisk h 18 (fun u => (u - 0.5) * 10 + 5) cakeColor2) s ;;
  let candleCount := Math_floor (ofNat count * 0.05) in
  s <- forUpTo candleCount
         (cakeDisk h 1.5 (fun u => u * 10 + 10) (mkColor 1 0 0)) s ;;
  let textCount := Math_floor (ofNat count * 0.2) in
  '(cakePositions, cakeColors, idx) <- forUpTo textCount (cakeText textPositions) s ;;
  let flameStartIndex := idx in
  material <- newObject ;;
  points <- newObject ;;
  let p := mkPoints points geometry material positions (Some colors) 0 0 1 in
  emit (SceneAdd points) ;;;
  let cl := mkCatCake config velocities cakePositions cakeColors
                      flameStartIndex false in
  ret (mkManager (points :: scene m) (Some p) (Some (CatCakeUpdate cl))
                 (handStateIsActive m) (audioContext m) (isPlayingAudio m)).

(* ================================================================== *)
(** ** initWave, initRain, initSphere *)

(** [i % gridSize] for integers: [NaN] when the grid is empty. *)
Definition nat_rem (i d : nat) : M nat :=
  if Nat.eqb d 0 then fail NaNProduced else ret (i mod d)%nat.

Definition waveParticle (gridSize : nat) (separation offset : Q) (i : nat)
    (positions : Float32Array) : M Float32Array :=
  let i3 := (i * 3)%nat in
  col <- nat_rem i gridSize ;;
  let x := ofNat col * separation - offset in
  let z := ofNat (i / gridSize) * separation - offset in
  ret (setTriple positions i3 x 0 z).

Definition waveBody (h : Host) (time : Q) (config : EffectConfig) (i : nat)
    (positions : Float32Array) : M Float32Array :=
  let i3 := (i * 3)%nat in
  x <- get positions i3 ;;
  z <- get positions (i3 + 2) ;;
  let y := Math_sin h (x * 0.1 + time * speed config) * 5
           + Math_cos h (z * 0.1 + time * speed config) * 5 in
  ret (f32_set positions (i3 + 1) y).

Definition waveCallback (h : Host) (time : Q) (cl : WaveClosure) (m : SceneManager)
    : M SceneManager :=
  match particles m with
  | None => ret m
  | Some p =>
      positions <- forUpTo (count (wave_config cl))
                           (waveBody h time (wave_config cl)) (position p) ;;
      ret (withParticles m (Some (setPosition p positions)))
  end.

Definition initWave (h : Host) (config : EffectConfig) (m : SceneManager)
    : M SceneManager :=
  geometry <- newObject ;;
  positions <- newFloat32Array (count config * 3) ;;
  root <- Math_sqrt h (ofNat (count config)) ;;
  let gridSize := Math_ceil root in
  let separation := 2 in
  let offset := (ofNat gridSize * separation) / 2 in
  positions <- forUpTo (count config) (waveParticle gridSize separation offset)
                       positions ;;
  material <- newObject ;;
  points <- newObject ;;
  let p := mkPoints points geometry material positions None 0 0 1 in
  emit (SceneAdd points) ;;;
  ret (mkManager (points :: scene m) (Some p)
                 (Some (WaveUpdate (mkWave config)))
                 (handStateIsActive m) (audioContext m) (isPlayingAudio m)).

Definition rainInit (h : Host) (i : nat) (s : Float32Array * Float32Array)
    : M (Float32Array * Float32Array) :=
  let '(positions, velocities) := s in
  let i3 := (i * 3)%nat in
  u1 <- Math_random h ;;
  let positions := f32_set positions i3 ((u1 - 0.5) * 200) in
  u2 <- Math_random h ;;
  let positions := f32_set positions (i3 + 1) ((u2 - 0.5) * 200) in
  u3 <- Math_random h ;;
  let positions := f32_set positions (i3 + 2) ((u3 - 0.5) * 200) in
  u4 <- Math_random h ;;
  ret (positions, f32_set velocities i (u4 * 0.5 + 0.5)).

Definition rainBody (cl : RainClosure) (i : nat) (positions : Float32Array)
    : M Float32Array :=
  let i3 := (i * 3)%nat in
  v <- get (rain_velocities cl) i ;;
  positions <- modify positions (i3 + 1) (fun y => y - v * speed (rain_config cl)) ;;
  y <- get positions (i3 + 1) ;;
  if Qltb y (-100) then ret (f32_set positions (i3 + 1) 100) else ret positions.

Definition rainCallback (cl : RainClosure) (m : SceneManager) : M SceneManager :=
  match particles m with
  | None => ret m
  | Some p =>
      positions <- forUpTo (count (rain_config cl)) (rainBody cl) (position p) ;;
      ret (withParticles m (Some (setPosition p positions)))
  end.

Definition initRain (h : Host) (config : EffectConfig) (m : SceneManager)
    : M SceneManager :=
  geometry <- newObject ;;
  positions <- newFloat32Array (count config * 3) ;;
  velocities <- newFloat32Array (count config) ;;
  '(positions, velocities) <-
     forUpTo (count config) (rainInit h) (positions, velocities) ;;
  material <- newObject ;;
  points <- newObject ;;
  let p := mkPoints points geometry material positions None 0 0 1 in
  emit (SceneAdd points) ;;;
  ret (mkManager (points :: scene m) (Some p)
                 (Some (RainUpdate (mkRain config velocities)))
                 (handStateIsActive m) (audioContext m) (isPlayingAudio m)).

Definition sphereParticle (h : Host) (radius : Q) (i : nat)
    (positions : Float32Array) : M Float32Array :=
  let i3 := (i * 3)%nat in
  u1 <- Math_random h ;;
  let theta := u1 * Math_PI * 2 in
  u2 <- Math_random h ;;
  phi <- Math_acos h (u2 * 2 - 1) ;;
  ret (setTriple positions i3
         (radius * Math_sin h phi * Math_cos h theta)
         (radius * Math_sin h phi * Math_sin h theta)
         (radius * Math_cos h phi)).

Definition sphereCallback (h : Host) (time : Q) (cl : SphereClosure)
    (m : SceneManager) : SceneManager :=
  match particles m with
  | Some p =>
      let p := setRotationY p (time * speed (sphere_config cl) * 0.2) in
      let p := setRotationZ p (time * speed (sphere_config cl) * 0.1) in
      let scale := 1 + Math_sin h (time * 2) * 0.05 in
      withParticles m (Some (setScale p scale))
  | None => m
  end.

Definition initSphere (h : Host) (config : EffectConfig) (m : SceneManager)
    : M SceneManager :=
  geometry <- newObject ;;
  positions <- newFloat32Array (count config * 3) ;;
  let radius := 40 in
  positions <- forUpTo (count config) (sphereParticle h radius) positions ;;
  material <- newObject ;;
  points <- newObject ;;
  let p := mkPoints points geometry material positions None 0 0 1 in
  emit (SceneAdd points) ;;;
  ret (mkManager (points :: scene m) (Some p)
                 (Some (SphereUpdate (mkSphere config)))
                 (handStateIsActive m) (audioContext m) (isPlayingAudio m)).

(* ================================================================== *)
(** ** setEffect, the frame loop and the timeouts *)

Fixpoint removeChild (obj : nat) (children : list nat) : list nat :=
  match children with
  | [] => []
  | c :: rest => if Nat.eqb c obj then rest else c :: removeChild obj rest
  end.

(** The clean-up of the previous effect inside [setEffect]. *)
Definition disposeParticles (m : SceneManager) : M SceneManager :=
  match particles m with
  | Some p =>
      emit (SceneRemove (object_id p)) ;;;
      emit (GeometryDispose (geometry_id p)) ;;;
      emit (MaterialDispose (material_id p)) ;;;
      ret (withParticles (withScene m (removeChild (object_id p) (scene m))) None)
  | None => ret m
  end.

Definition initEffect (h : Host) (type : EffectType) (config : EffectConfig)
    (m : SceneManager) : M SceneManager :=
  match type with
  | GALAXY => initGalaxy h config m
  | WAVE => initWave h config m
  | RAIN => initRain h config m
  | SPHERE => initSphere h config m
  | CREATIVE_TEXT => initCreativeText h config m
  | CREATIVE_HEART_FIREWORK => initHeartFirework h config m
  | CREATIVE_CAT_CAKE => initCatCake h config m
  end.

Definition setEffect (h : Host) (type : EffectType) (config : EffectConfig)
    (m : SceneManager) : M SceneManager :=
  m <- stopAudio m ;;
  m <- disposeParticles m ;;
  let m := withCallback m None in
  (* the rotation reset is guarded by [this.particles], which is null here *)
  initEffect h type config m.

(** [updateCallback(time)]. *)
Definition runCallback (h : Host) (time : Q) (cb : Callback) (m : SceneManager)
    : M SceneManager :=
  match cb with
  | GalaxyUpdate c => ret (galaxyCallback time c m)
  | CreativeTextUpdate c =>
      '(c, m) <- creativeTextCallback h c m ;;
      ret (withCallback m (Some (CreativeTextUpdate c)))
  | HeartFireworkUpdate c =>
      '(c, m) <- heartFireworkCallback h time c m ;;
      ret (withCallback m (Some (HeartFireworkUpdate c)))
  | CatCakeUpdate c =>
      '(c, m) <- catCakeCallback h time c m ;;
      ret (withCallback m (Some (CatCakeUpdate c)))
  | WaveUpdate c => waveCallback h time c m
  | RainUpdate c => rainCallback c m
  | SphereUpdate c => ret (sphereCallback h time c m)
  end.

(** One frame of [animate]: [time] is the clock in seconds. *)
Definition animate (h : Host) (m : SceneManager) : M SceneManager :=
  fun rt =>
    let time := clock rt * 0.001 in
    match updateCallback m with
    | Some cb => runCallback h time cb m rt
    | None => Ok (m, rt)
    end.

(** The timeouts that are due fire in the order they were set. *)
Fixpoint fireDue (now : Q) (pending : list (nat * Q)) (m : SceneManager)
    : list (nat * Q) * list nat * SceneManager :=
  match pending with
  | [] => ([], [], m)
  | (timer, due) :: rest =>
      if Qleb due now then
        let '(waiting, fired, m') := fireDue now rest (songTimeout m) in
        (waiting, timer :: fired, m')
      else
        let '(waiting, fired, m') := fireDue now rest m in
        ((timer, due) :: waiting, fired, m')
  end.

(** The wall clock moves on by [dt] milliseconds. *)
Definition elapse (dt : Q) (m : SceneManager) : M SceneManager :=
  fun rt =>
    let now := clock rt + dt in
    let '(waiting, fired, m') := fireDue now (timers rt) m in
    Ok (m', mkRuntime (drawn rt) (fresh rt) now waiting
                      (map (fun t => (now, TimerFire t)) (rev fired) ++ events rt)).

(* ================================================================== *)
(** ** The hand-pose logic of predictWebcam *)

Record Landmark : Type := mkLandmark { lx : Q; ly : Q; lz : Q }.

Record Detection : Type := mkDetection {
  categories : list string;
  boundingBox : bool                  (* whether the detection carries a box *)
}.

(** What the loaded model reports for the current video frame. *)
Inductive Vision : Type :=
| HandResult (landmarks worldLandmarks : list (list Landmark))
| ObjectResult (detections : list Detection)
| NoModel.

(** [worldLandmarks[k]] followed by a coordinate access. *)
Definition landmarkAt (worldLandmarks : list Landmark) (k : nat) : M Landmark :=
  match nth_error worldLandmarks k with
  | Some l => ret l
  | None => fail TypeError
  end.

(** The Euclidean distance as the source writes it. *)
Definition distance (h : Host) (a o : Landmark) : M Q :=
  Math_sqrt h (Math_pow2 (lx a - lx o) + Math_pow2 (ly a - ly o)
               + Math_pow2 (lz a - lz o)).

Definition isCurled (h : Host) (worldLandmarks : list Landmark) (wrist : Landmark)
    (handSize : Q) (tipIdx : nat) : M bool :=
  tip <- landmarkAt worldLandmarks tipIdx ;;
  distToWrist <- distance h tip wrist ;;
  ret (Qltb distToWrist (handSize * 1.2)).

Definition handGesture (h : Host) (activeEffect : EffectType)
    (worldLandmarks : list Landmark) : M bool :=
  knuckle <- landmarkAt worldLandmarks 9 ;;
  wrist <- landmarkAt worldLandmarks 0 ;;
  handSize <- distance h knuckle wrist ;;
  indexCurled <- isCurled h worldLandmarks wrist handSize 8 ;;
  middleCurled <- isCurled h worldLandmarks wrist handSize 12 ;;
  ringCurled <- isCurled h worldLandmarks wrist handSize 16 ;;
  pinkyCurled <- isCurled h worldLandmarks wrist handSize 20 ;;
  match activeEffect with
  | CREATIVE_TEXT =>
      ret (negb indexCurled && negb middleCurled && ringCurled && pinkyCurled)
  | CREATIVE_HEART_FIREWORK =>
      ret (indexCurled && middleCurled && ringCurled && pinkyCurled)
  | _ => ret false
  end.

Definition isCat (d : Detection) : bool :=
  existsb (String.eqb "cat") (categories d).

(** The value [predictWebcam] passes to [onHandStateChange]. *)
Definition detectIsActive (h : Host) (activeEffect : EffectType) (v : Vision)
    : M bool :=
  match v with
  | HandResult landmarks worldLandmarks =>
      if (0 <? List.length landmarks)%nat then
        match nth_error worldLandmarks 0 with
        | Some ws => handGesture h activeEffect ws
        | None => ret false
        end
      else ret false
  | ObjectResult detections =>
      match find isCat detections with
      | Some d => ret (boundingBox d)
      | None => ret false
      end
  | NoModel => ret false
  end.

(* ================================================================== *)
(** ** Observations on a run *)

(** The storages the per-frame callback can reach: those of the points
    object it reads through [this.particles] and those it captured. *)
Definition pointsBuffers (p : Points) : list nat :=
  buffer (position p) ::
  match colorAttr p with Some c => [buffer c] | None => [] end.

Definition closureBuffers (cb : Callback) : list nat :=
  match cb with
  | GalaxyUpdate _ => []
  | CreativeTextUpdate c => [buffer (galaxyPositions c); buffer (textPositions c)]
  | HeartFireworkUpdate c =>
      [buffer (heartPositions c); buffer (heartColors c);
       buffer (explosionVelocities c)]
  | CatCakeUpdate c =>
      [buffer (cake_velocities c); buffer (cakePositions c); buffer (cakeColors c)]
  | WaveUpdate _ => []
  | RainUpdate c => [buffer (rain_velocities c)]
  | SphereUpdate _ => []
  end.

Definition reachableBuffers (m : SceneManager) : list nat :=
  match particles m with Some p => pointsBuffers p | None => [] end ++
  match updateCallback m with Some cb => closureBuffers cb | None => [] end.

(** The events in the order they happened, without their stamps. *)
Definition history (rt : Runtime) : list Event := rev (map snd (events rt)).

Definition eventIs (e : Event) (x : Q * Event) : bool :=
  match e, snd x with
  | AudioContextNew a, AudioContextNew c => Nat.eqb a c
  | AudioContextClose a, AudioContextClose c => Nat.eqb a c
  | _, _ => false
  end.

(** The clock reading at which context [ctx] was created, if it was. *)
Definition createdAt (rt : Runtime) (ctx : nat) : option Q :=
  option_map fst (find (eventIs (AudioContextNew ctx)) (events rt)).

Definition closed (rt : Runtime) (ctx : nat) : bool :=
  existsb (eventIs (AudioContextClose ctx)) (events rt).

(** Whether an oscillator of [ctx], created at [t0] ms, sounds at [now]. *)
Definition soundsAt (ctx : nat) (t0 now : Q) (x : Q * Event) : bool :=
  match snd x with
  | OscillatorPlay c _ start stop =>
      Nat.eqb c ctx && Qleb (t0 + start * 1000) now && Qltb now (t0 + stop * 1000)
  | _ => false
  end.

(** Context [ctx] is audible now: it is open and one of its oscillators is
    between its start and its stop. *)
Definition audible (rt : Runtime) (ctx : nat) : bool :=
  match createdAt rt ctx with
  | Some t0 => negb (closed rt ctx) && existsb (soundsAt ctx t0 (clock rt)) (events rt)
  | None => false
  end.

(** The contexts that are audible now. *)
Definition audibleContexts (rt : Runtime) : list nat :=
  filter (audible rt) (seq 0 (fresh rt)).

(* ================================================================== *)
(** ** A concrete host, for running the definitions *)

(** A fixed stream of draws in [0,1). *)
Definition sampleStream (k : nat) : Q :=
  inject_Z ((Z.of_nat k * 7919 + 13) mod 1000) / 1000.

(** A rational stand-in for the sRGB transfer function: the linear segment
    near black, a cubic fit above it; it fixes 0 and 1. *)
Definition sampleLinear (c : Q) : Q :=
  if Qltb c 0.04045 then c * 0.0773993808
  else c * (c * (c * 0.305306011 + 0.682171111) + 0.012522878).

(** Square root to three decimals. *)
Definition sampleSqrt (x : Q) : Q :=
  inject_Z (Z.sqrt (Qfloor (x * 1000000))) / 1000.

Definition sampleHost : Host :=
  mkHost sampleStream
         (fun x => x - x * x * x / 6)
         (fun x => 1 - x * x / 2)
         (fun x => Math_PI / 2 - x)
         sampleSqrt
         (fun _ => mkColor 1 (136 / 255) (204 / 255))
         sampleLinear
         true
         (fun _ _ i => if (i mod 1000 =? 0)%Z then 255%Z else 0%Z)
         true.

Definition emptyManager : SceneManager :=
  mkManager [] None None false None false.

Definition startRuntime : Runtime := mkRuntime 0 0 0 [] [].

Definition sampleConfig (n : nat) : EffectConfig := mkConfig n 0.5 1 "#ff88cc".

(** Consecutive frames of the heart callback with the hand state held. *)
Fixpoint heartFrames (h : Host) (time : Q) (active : bool) (k : nat)
    (cl : HeartFireworkClosure) (p : Points) : M (HeartFireworkClosure * Points) :=
  match k with
  | O => ret (cl, p)
  | S k' =>
      '(cl, p) <- heartFireworkFrame h time active cl p ;;
      heartFrames h time active k' cl p
  end.

(** Slot [i] of an array, and the three slots of particle [i]. *)
Definition slot (a : Float32Array) (i : nat) : option Q := nth_error (elems a) i.

Definition tripleAt (a : Float32Array) (i : nat) : option (Q * Q * Q) :=
  match slot a (i * 3), slot a (i * 3 + 1), slot a (i * 3 + 2) with
  | Some x, Some y, Some z => Some (x, y, z)
  | _, _, _ => None
  end.

(** A slot holds a number equal to [v]. *)
Definition holds (o : option Q) (v : Q) : Prop :=
  match o with Some x => x == v | None => False end.

Definition holds3 (o : option (Q * Q * Q)) (v : Q * Q * Q) : Prop :=
  match o with
  | Some (x, y, z) => x == fst (fst v) /\ y == snd (fst v) /\ z == snd v
  | None => False
  end.

(** A computation runs without fault from [rt] and its outcome satisfies
    [Q]. *)
Definition succeeds {A : Type} (m : M A) (rt : Runtime)
    (Q : A -> Runtime -> Prop) : Prop :=
  exists a rt', m rt = Ok (a, rt') /\ Q a rt'.

(** The runtime after one more draw. *)
Definition afterDraw (rt : Runtime) : Runtime :=
  mkRuntime (S (drawn rt)) (fresh rt) (clock rt) (timers rt) (events rt).

(** The runtime after one more allocation. *)
Definition afterNew (rt : Runtime) : Runtime :=
  mkRuntime (drawn rt) (S (fresh rt)) (clock rt) (timers rt) (events rt).

(** The runtime after an event. *)
Definition afterEvent (e : Event) (rt : Runtime) : Runtime :=
  mkRuntime (drawn rt) (fresh rt) (clock rt) (timers rt)
            ((clock rt, e) :: events rt).

(** Every draw of the host lies in [0,1). *)
Definition unitStream (h : Host) : Prop :=
  forall k, 0 <= random_stream h k /\ random_stream h k < 1.

(** An array with three slots per particle. *)
Definition shaped (n : nat) (a : Float32Array) : Prop :=
  f32_length a = (n * 3)%nat.

(** Same storage, same length. *)
Definition resized (a a' : Float32Array) : Prop :=
  f32_length a' = f32_length a /\ buffer a' = buffer a.

(** The state the heart callback expects: every array it touches has three
    slots per particle, as [initHeartFirework] builds them. *)
Definition heartReady (cl : HeartFireworkClosure) (p : Points) : Prop :=
  shaped (heart_count cl) (position p) /\
  (exists col, colorAttr p = Some col /\ shaped (heart_count cl) col) /\
  shaped (heart_count cl) (heartPositions cl) /\
  shaped (heart_count cl) (heartColors cl) /\
  shaped (heart_count cl) (explosionVelocities cl).

(** What [setExplosionVelocity] writes, in terms of the three draws it
    takes from position [d] of the stream: [theta], [phi] and [speed] are
    functions of one draw each. *)
Definition sampledVelocity (h : Host) (d : nat) : Q * Q * Q :=
  explosionVelocity h (random_stream h d * Math_PI * 2)
                    (acos_value h (random_stream h (d + 1) * 2 - 1))
                    (random_stream h (d + 2) * 1.5 + 0.5).

(** The runtime after [k] more draws. *)
Definition afterDraws (k : nat) (rt : Runtime) : Runtime :=
  mkRuntime (drawn rt + k) (fresh rt) (clock rt) (timers rt) (events rt).

(** A heart effect with one particle, at rest on its target. *)
Definition sampleHeart : HeartFireworkClosure :=
  mkHeartFirework 1 (mkF32 3 [8; 5; 1]) (mkF32 4 [1; 0.5; 0.5])
                  (hexColor sampleHost 0x87CEEB) 0 0 (mkF32 7 [0; 0; 0]).

Definition samplePoints : Points :=
  mkPoints 6 0 5 (mkF32 1 [8; 5; 1]) (Some (mkF32 2 [1; 0.5; 0.5])) 0 0 1.

(** Whether particle [i] ends the integration step of phase 2 below the
    floor: its height plus its vertical velocity is under -100. *)
Definition fallsOut (pos vel : Float32Array) (i : nat) : bool :=
  match slot pos (i * 3 + 1), slot vel (i * 3 + 1) with
  | Some y, Some vy => Qltb (y + vy) (-100)
  | _, _ => false
  end.

(** How many particles before [i] fall out in the same frame. *)
Definition respawnsBefore (pos vel : Float32Array) (i : nat) : nat :=
  List.length (filter (fallsOut pos vel) (seq 0 i)).

(** The launch origin a respawned particle is put at, from the three draws
    at position [d] of the stream. *)
Definition respawnPosition (h : Host) (d : nat) : Q * Q * Q :=
  ((random_stream h d - 0.5) * 2,
   60 + (random_stream h (d + 1) - 0.5) * 5,
   (random_stream h (d + 2) - 0.5) * 2).

Definition colorTriple (c : Color) : Q * Q * Q := (r c, g c, b c).

(** What the integration step leaves in the slots of the particle. *)
Definition integrated (xyz v : Q * Q * Q) : Q * Q * Q :=
  (fst (fst xyz) + fst (fst v), snd (fst xyz) + snd (fst v), snd xyz + snd v).

(** The velocity after gravity and damping. *)
Definition damped (v : Q * Q * Q) : Q * Q * Q :=
  (fst (fst v) * 0.98, (snd (fst v) - 0.02) * 0.98, snd v * 0.98).

(** What a frame of phase 2 with the hand active leaves for particle [i],
    in terms of the arrays before the frame and of [d], the number of draws
    consumed before it: a particle that ends the integration below -100 is
    put at the launch origin with a velocity of its own and the sky colour,
    all from the six draws after those of the particles respawned before
    it; any other particle is integrated and its velocity damped. *)
Definition explodeOutcome (h : Host) (sky : Color) (d : nat)
    (pos col vel pos' col' vel' : Float32Array) (i : nat) : Prop :=
  forall x y z vx vy vz,
    tripleAt pos i = Some (x, y, z) -> tripleAt vel i = Some (vx, vy, vz) ->
    if Qltb (y + vy) (-100) then
      holds3 (tripleAt pos' i)
             (respawnPosition h (d + 6 * respawnsBefore pos vel i)) /\
      holds3 (tripleAt vel' i)
             (sampledVelocity h (d + 6 * respawnsBefore pos vel i + 3)) /\
      holds3 (tripleAt col' i) (colorTriple sky)
    else
      holds3 (tripleAt pos' i) (integrated (x, y, z) (vx, vy, vz)) /\
      holds3 (tripleAt vel' i) (damped (vx, vy, vz)) /\
      tripleAt col' i = tripleAt col i.

(** Every slot of [a'] is the smoothing of the slot of [a] toward the slot
    of [targets]. *)
Definition smoothedToward (rate : Q) (targets a a' : Float32Array) : Prop :=
  forall s t v, slot targets s = Some t -> slot a s = Some v ->
                holds (slot a' s) (smooth rate t v).

(** A heart effect in phase 2 whose only particle has sunk below the
    floor and is still falling. *)
Definition sampleExploding : HeartFireworkClosure :=
  mkHeartFirework 1 (mkF32 3 [8; 5; 1]) (mkF32 4 [1; 0.5; 0.5])
                  (hexColor sampleHost 0x87CEEB) 2 61.5 (mkF32 7 [0; -1; 0]).

Definition sampleSunk : Points :=
  mkPoints 6 0 5 (mkF32 1 [0; -150; 0]) (Some (mkF32 2 [1; 0.5; 0.5])) 0 0 1.

(** The state the rain callback expects, as [initRain] builds it. *)
Definition rainReady (cl : RainClosure) (p : Points) : Prop :=
  shaped (count (rain_config cl)) (position p) /\
  f32_length (rain_velocities cl) = count (rain_config cl).

(** The state the cat-cake callback expects, as [initCatCake] builds it. *)
Definition cakeReady (cl : CatCakeClosure) (p : Points) : Prop :=
  shaped (count (cake_config cl)) (position p) /\
  (exists col, colorAttr p = Some col /\ shaped (count (cake_config cl)) col) /\
  f32_length (cake_velocities cl) = count (cake_config cl) /\
  shaped (count (cake_config cl)) (cakePositions cl) /\
  shaped (count (cake_config cl)) (cakeColors cl) /\
  (flameStartIndex cl <= count (cake_config cl))%nat.

(** Every drop of [pos'] is the drop of [pos] after one fall with its own
    velocity. *)
Definition rained (speed : Q) (velocities pos pos' : Float32Array) (n : nat) : Prop :=
  forall i y v, (i < n)%nat ->
    slot pos (i * 3 + 1) = Some y -> slot velocities i = Some v ->
    holds (slot pos' (i * 3 + 1)) (rainFall v speed y).

(** The height the reset test of a frame looks at. *)
Definition fallen (velocity speed y : Q) : Q := y - velocity * speed.

(** A rain effect with two drops, one of them about to leave the floor. *)
Definition sampleRain : RainClosure :=
  mkRain (sampleConfig 2) (mkF32 2 [0.5; 0.75]).

Definition sampleRainManager : SceneManager :=
  mkManager [5%nat] (Some (mkPoints 5 0 4 (mkF32 1 [0; -99.8; 0; 3; 40; 3]) None 0 0 1))
            (Some (RainUpdate sampleRain)) false None false.

(** The number [distance] returns: the root of the sum of the squared
    coordinate differences. *)
Definition distanceOf (h : Host) (a o : Landmark) : Q :=
  sqrt_value h (Math_pow2 (lx a - lx o) + Math_pow2 (ly a - ly o)
                + Math_pow2 (lz a - lz o)).

(** [Math.sqrt] never returns a negative number. *)
Definition sqrtNonneg (h : Host) : Prop :=
  forall x, 0 <= x -> 0 <= sqrt_value h x.

(** A hand of 21 landmarks with every fingertip on the wrist. *)
Definition sampleFist : list Landmark :=
  mkLandmark 0 0 0 ::
  map (fun k => if Nat.eqb k 8 then mkLandmark 1 0 0 else mkLandmark 0 0 0)
      (seq 0 20).

(** A hand of 21 landmarks with every fingertip three hand sizes away. *)
Definition sampleOpen : list Landmark :=
  mkLandmark 0 0 0 ::
  map (fun k => if Nat.eqb k 8 then mkLandmark 1 0 0 else mkLandmark 0 3 0)
      (seq 0 20).

(** The runtime moved on by draws only. *)
Definition drawsOnly (rt rt' : Runtime) : Prop :=
  (drawn rt <= drawn rt')%nat /\ fresh rt' = fresh rt /\ clock rt' = clock rt /\
  timers rt' = timers rt /\ events rt' = events rt.

(** The radius [initGalaxy] samples for particle [i] when the loop starts
    at draw [d]: each particle takes seven draws, the radius first. *)
Definition galaxyRadius (h : Host) (d i : nat) : Q :=
  random_stream h (d + 7 * i) * 50.

(** The squared Euclidean distance between two colours. *)
Definition colorDistance2 (c1 c2 : Q * Q * Q) : Q :=
  (fst (fst c1) - fst (fst c2)) * (fst (fst c1) - fst (fst c2)) +
  (snd (fst c1) - snd (fst c2)) * (snd (fst c1) - snd (fst c2)) +
  (snd c1 - snd c2) * (snd c1 - snd c2).

(** The effects whose geometry carries a colour attribute. *)
Definition hasColorAttr (type : EffectType) : bool :=
  match type with
  | GALAXY | CREATIVE_TEXT | CREATIVE_HEART_FIREWORK | CREATIVE_CAT_CAKE => true
  | WAVE | RAIN | SPHERE => false
  end.

(** The callback is the one of the effect, over the given configuration,
    in its initial state, and the arrays it captured are in shape. *)
Definition callbackReady (type : EffectType) (config : EffectConfig)
    (cb : Callback) (p : Points) : Prop :=
  match type, cb with
  | GALAXY, GalaxyUpdate c => galaxy_config c = config
  | WAVE, WaveUpdate c => wave_config c = config
  | RAIN, RainUpdate c => rain_config c = config /\ rainReady c p
  | SPHERE, SphereUpdate c => sphere_config c = config
  | CREATIVE_TEXT, CreativeTextUpdate c =>
      text_config c = config /\
      shaped (count config) (galaxyPositions c) /\
      shaped (count config) (textPositions c)
  | CREATIVE_HEART_FIREWORK, HeartFireworkUpdate c =>
      heart_count c = count config /\ heartReady c p /\
      phase c = 0%nat /\ launchHeight c = 0
  | CREATIVE_CAT_CAKE, CatCakeUpdate c =>
      cake_config c = config /\ cakeReady c p /\ isCatDetected c = false
  | _, _ => False
  end.

(** What an [init...] method leaves behind: a points object added to the
    scene, with a position array of three slots per particle (and a colour
    array of the same length for the effects that have one), the callback
    of the effect, every storage reachable from the callback allocated
    during the call, and the rest of the manager as it was. *)
Definition built (type : EffectType) (config : EffectConfig)
    (m : SceneManager) (rt : Runtime) (m' : SceneManager) (rt' : Runtime) : Prop :=
  exists p cb,
    particles m' = Some p /\ updateCallback m' = Some cb /\
    scene m' = object_id p :: scene m /\
    handStateIsActive m' = handStateIsActive m /\
    audioContext m' = audioContext m /\
    isPlayingAudio m' = isPlayingAudio m /\
    shaped (count config) (position p) /\
    (if hasColorAttr type
     then exists col, colorAttr p = Some col /\ shaped (count config) col
     else colorAttr p = None) /\
    callbackReady type config cb p /\
    (forall id, In id (reachableBuffers m') -> (fresh rt <= id < fresh rt')%nat) /\
    (fresh rt <= object_id p < fresh rt')%nat /\
    (fresh rt <= geometry_id p < fresh rt')%nat /\
    (fresh rt <= material_id p < fresh rt')%nat /\
    events rt' = (clock rt, SceneAdd (object_id p)) :: events rt /\
    clock rt' = clock rt /\ timers rt' = timers rt.

(** [Math.sqrt] maps the numbers from 1 on to numbers from 1 on. *)
Definition sqrtAboveOne (h : Host) : Prop :=
  forall x, 1 <= x -> 1 <= sqrt_value h x.

(** The candidate point particle [i] is given: the candidates are taken in
    turn, cyclically, and the origin stands in when there is none. *)
Definition canvasPoint (validPoints : list (Q * Q)) (i : nat) : Q * Q :=
  match validPoints with
  | [] => (0, 0)
  | _ :: _ => nth (i mod List.length validPoints) validPoints (0, 0)
  end.

(** The position [generateCanvasPositions] writes for particle [i] when its
    loop starts at draw [d]: the candidate point plus a jitter from three
    draws of its own. *)
Definition canvasPosition (h : Host) (d : nat) (validPoints : list (Q * Q))
    (i : nat) : Q * Q * Q :=
  (fst (canvasPoint validPoints i) + (random_stream h (d + 3 * i) - 0.5) * 0.5,
   snd (canvasPoint validPoints i) + (random_stream h (d + 3 * i + 1) - 0.5) * 0.5,
   (random_stream h (d + 3 * i + 2) - 0.5) * 2).

(** The sample host without a 2D context, and with a canvas left black. *)
Definition blindHost : Host :=
  mkHost sampleStream (Math_sin sampleHost) (Math_cos sampleHost)
         (acos_value sampleHost) sampleSqrt (parseColor sampleHost)
         sampleLinear false (imageData sampleHost) true.

Definition blackHost : Host :=
  mkHost sampleStream (Math_sin sampleHost) (Math_cos sampleHost)
         (acos_value sampleHost) sampleSqrt (parseColor sampleHost)
         sampleLinear true (fun _ _ _ => 0%Z) true.

(** The events with which [setEffect] stops the audio and releases the
    previous effect, and the scene without its points object. *)
Definition closeEvents (m : SceneManager) : list Event :=
  match audioContext m with
  | Some ctx => [AudioContextClose ctx]
  | None => []
  end.

Definition disposeEvents (m : SceneManager) : list Event :=
  match particles m with
  | Some p => [SceneRemove (object_id p); GeometryDispose (geometry_id p);
               MaterialDispose (material_id p)]
  | None => []
  end.

Definition sceneWithout (m : SceneManager) : list nat :=
  match particles m with
  | Some p => removeChild (object_id p) (scene m)
  | None => scene m
  end.

(** Every storage the manager can reach, and its points object, were
    allocated before [rt]. *)
Definition allocatedBefore (m : SceneManager) (rt : Runtime) : Prop :=
  (forall id, In id (reachableBuffers m) -> (id < fresh rt)%nat) /\
  (forall p, particles m = Some p -> (object_id p < fresh rt)%nat).

(** A manager whose objects were all allocated before [rt] and whose scene
    lists no object twice. *)
Definition tidy (m : SceneManager) (rt : Runtime) : Prop :=
  allocatedBefore m rt /\ NoDup (scene m) /\
  (forall x, In x (scene m) -> (x < fresh rt)%nat).

(** The state after [setEffect] for an effect of type [type] over [config],
    relative to the manager [m] and the runtime [rt] it was called on. *)
Definition switched (type : EffectType) (config : EffectConfig)
    (m : SceneManager) (rt : Runtime) (m' : SceneManager) (rt' : Runtime) : Prop :=
  exists p cb,
    particles m' = Some p /\ updateCallback m' = Some cb /\
    callbackReady type config cb p /\
    (* the buffers have the length of the new count *)
    f32_length (position p) = (count config * 3)%nat /\
    (if hasColorAttr type
     then exists col, colorAttr p = Some col /\
                      f32_length col = (count config * 3)%nat
     else colorAttr p = None) /\
    (* nothing the new callback reaches was reachable before *)
    (forall id, In id (reachableBuffers m') -> ~ In id (reachableBuffers m)) /\
    (* the previous points object left the scene, the new one is in it *)
    (forall q, particles m = Some q -> ~ In (object_id q) (scene m')) /\
    In (object_id p) (scene m') /\
    (* audio first, then the release of the previous effect, then the build *)
    history rt' =
      history rt ++ closeEvents m ++ disposeEvents m ++ [SceneAdd (object_id p)] /\
    audioContext m' = None /\ isPlayingAudio m' = false.

(** What reaches the manager from outside: a frame of [animate], a call of
    [updateHandState], a call of [setEffect], and the passing of time. *)
Inductive Input : Type :=
| Frame
| Hand (isActive : bool)
| Switch (type : EffectType) (config : EffectConfig)
| Wait (ms : Q).

Definition step (h : Host) (i : Input) (m : SceneManager) : M SceneManager :=
  match i with
  | Frame => animate h m
  | Hand isActive => ret (updateHandState isActive m)
  | Switch type config => setEffect h type config m
  | Wait ms => elapse ms m
  end.

Fixpoint run (h : Host) (inputs : list Input) (m : SceneManager) : M SceneManager :=
  match inputs with
  | [] => ret m
  | i :: rest => m <- step h i m ;; run h rest m
  end.

(** The cat is seen and the song (six seconds long) starts; one second
    later the particle count is changed, which switches the effect and
    restarts the song; at six and a half seconds, after the timeout of the
    first song fired and before the second song is over, the cat leaves
    the picture for a frame and comes back. *)
Definition overlapTrace : list Input :=
  [ Switch CREATIVE_CAT_CAKE (sampleConfig 4); Hand true; Frame;
    Wait 1000;
    Switch CREATIVE_CAT_CAKE (sampleConfig 8); Frame;
    Wait 5500;
    Hand false; Frame;
    Hand true; Frame ].

(** The audio contexts created so far. *)
Definition createdContexts (rt : Runtime) : list nat :=
  filter (fun c => match createdAt rt c with Some _ => true | None => false end)
         (seq 0 (fresh rt)).

(** Consecutive frames of the cat-cake callback. *)
Fixpoint cakeFrames (h : Host) (time : Q) (k : nat) (cl : CatCakeClosure)
    (m : SceneManager) : M (CatCakeClosure * SceneManager) :=
  match k with
  | O => ret (cl, m)
  | S k' =>
      '(cl, m) <- catCakeCallback h time cl m ;;
      cakeFrames h time k' cl m
  end.

(** A hand of 21 landmarks showing the victory sign: index and middle
    fingertips three hand sizes from the wrist, ring and pinky on it. *)
Definition sampleVictory : list Landmark :=
  mkLandmark 0 0 0 ::
  map (fun k => if Nat.eqb k 8 then mkLandmark 1 0 0
                else if Nat.eqb k 7 || Nat.eqb k 11 then mkLandmark 0 3 0
                else mkLandmark 0 0 0)
      (seq 0 20).

(** A hand whose landmarks all coincide: its size is zero. *)
Definition samplePointHand : list Landmark := repeat (mkLandmark 0 0 0) 21.

(** The test [isCurled] makes for a fingertip, as a number comparison. *)
Definition curledTip (h : Host) (wrist knuckle tip : Landmark) : bool :=
  Qltb (distanceOf h tip wrist) (distanceOf h knuckle wrist * 1.2).

(** The event of an oscillator of [ctx] playing [note] from [start] to
    [stop], as a triple. *)
Definition playEvent (ctx : nat) (p : Q * Q * Q) : Event :=
  OscillatorPlay ctx (fst (fst p)) (snd (fst p)) (snd p).

(** The oscillators play the notes [ns] back to back from [from]: each has
    the frequency of its note, starts when the one before stops and lasts
    as long as its note. *)
Fixpoint backToBack (from : Q) (plays : list (Q * Q * Q)) (ns : list (Q * Q)) : Prop :=
  match plays, ns with
  | [], [] => True
  | (note, start, stop) :: plays', (n, dur) :: ns' =>
      note = n /\ start == from /\ stop == from + dur /\ backToBack stop plays' ns'
  | _, _ => False
  end.

(** The oscillators [notes.forEach] schedules from [from] on: frequency,
    start and stop of each. *)
Fixpoint scheduled (from : Q) (ns : list (Q * Q)) : list (Q * Q * Q) :=
  match ns with
  | [] => []
  | (note, dur) :: rest => (note, from, from + dur) :: scheduled (from + dur) rest
  end.

(** The value of the running [time] after the notes [ns]. *)
Definition timeAfter (from : Q) (ns : list (Q * Q)) : Q :=
  fold_left (fun t n => t + snd n) ns from.

(** When the last oscillator stops. *)
Definition endOf (plays : list (Q * Q * Q)) : Q := last (map snd plays) 0.

(** A pixel coordinate the scan visits: a multiple of 3 inside the canvas. *)
Definition scanned (v : Z) : Prop := (0 <= v < 512)%Z /\ (v mod 3 = 0)%Z.

(** The candidate point of pixel [(x, y)]: centred, scaled by 0.15, with
    the y axis pointing up. *)
Definition candidateOf (x y : Z) : Q * Q :=
  ((inject_Z x - inject_Z canvasWidth / 2) * 0.15,
   - (inject_Z y - inject_Z canvasHeight / 2) * 0.15).

(** The box every particle of [generateCanvasPositions] lies in. *)
Definition inCanvasBox (p : Q * Q * Q) : Prop :=
  (-38.65 <= fst (fst p) /\ fst (fst p) < 38.35) /\
  (-38.35 <= snd (fst p) /\ snd (fst p) < 38.65) /\
  (-1 <= snd p /\ snd p < 1).

(** The side of the grid [initWave] lays the particles on. *)
Definition waveGridSize (h : Host) (config : EffectConfig) : nat :=
  Math_ceil (sqrt_value h (ofNat (count config))).

(** The grid point of particle [i] on a grid of side [gridSize]: two units
    between neighbours, centred on the origin, at height 0. *)
Definition wavePoint (gridSize i : nat) : Q * Q * Q :=
  (ofNat (i mod gridSize) * 2 - ofNat gridSize * 2 / 2,
   0,
   ofNat (i / gridSize) * 2 - ofNat gridSize * 2 / 2).

(** The height a wave frame gives the particle at [(x, z)]. *)
Definition waveHeight (h : Host) (time speed x z : Q) : Q :=
  Math_sin h (x * 0.1 + time * speed) * 5 + Math_cos h (z * 0.1 + time * speed) * 5.

(** The sine and cosine of the host stay within [-1, 1]. *)
Definition trigBounded (h : Host) : Prop :=
  forall x, (-1 <= Math_sin h x /\ Math_sin h x <= 1) /\
            (-1 <= Math_cos h x /\ Math_cos h x <= 1).

(** The sine and cosine of the host lie on the unit circle. *)
Definition pythagorean (h : Host) : Prop :=
  forall x, Math_sin h x * Math_sin h x + Math_cos h x * Math_cos h x == 1.

(** A host whose sine and cosine are the rational parametrisation of the
    unit circle: bounded by 1 and on the circle for every argument. *)
Definition circleHost : Host :=
  mkHost sampleStream
         (fun x => 2 * x / (1 + x * x))
         (fun x => (1 - x * x) / (1 + x * x))
         (fun x => Math_PI / 2 - x)
         sampleSqrt
         (fun _ => mkColor 1 (136 / 255) (204 / 255))
         sampleLinear
         true
         (fun _ _ i => if (i mod 1000 =? 0)%Z then 255%Z else 0%Z)
         true.

(** A wave of four particles on its grid, mid-animation. *)
Definition sampleWave : SceneManager :=
  mkManager [5%nat]
    (Some (mkPoints 5 0 4 (mkF32 1 [-2; 7; -2; 0; 7; -2; -2; 7; 0; 0; 7; 0])
                    None 0 0 1))
    (Some (WaveUpdate (mkWave (sampleConfig 4)))) false None false.

(** The squared length of a vector. *)
Definition norm2 (v : Q * Q * Q) : Q :=
  fst (fst v) * fst (fst v) + snd (fst v) * snd (fst v) + snd v * snd v.

(** The point [initSphere] computes from the two draws at position [d] of
    the stream. *)
Definition spherePoint (h : Host) (radius : Q) (d : nat) : Q * Q * Q :=
  let theta := random_stream h d * Math_PI * 2 in
  let phi := acos_value h (random_stream h (d + 1) * 2 - 1) in
  (radius * Math_sin h phi * Math_cos h theta,
   radius * Math_sin h phi * Math_sin h theta,
   radius * Math_cos h phi).

(** What [initRain] gives drop [i] from the four draws at position [d] of
    the stream: a start position and a fall velocity. *)
Definition rainStart (h : Host) (d : nat) : Q * Q * Q :=
  ((random_stream h d - 0.5) * 200,
   (random_stream h (d + 1) - 0.5) * 200,
   (random_stream h (d + 2) - 0.5) * 200).

Definition rainVelocity (h : Host) (d : nat) : Q := random_stream h (d + 3) * 0.5 + 0.5.

(** A coordinate inside the rain volume. *)
Definition inRainVolume (v : Q * Q * Q) : Prop :=
  (-100 <= fst (fst v) /\ fst (fst v) < 100) /\
  (-100 <= snd (fst v) /\ snd (fst v) < 100) /\
  (-100 <= snd v /\ snd v < 100).

(** Two arrays hold the same numbers in the same slots, in storages of
    their own. *)
Definition copyOf (a c : Float32Array) : Prop :=
  elems a = elems c /\ buffer a <> buffer c.

(** Every slot of [a'] holds the value the same slot of [a] holds. *)
Definition sameValues (a a' : Float32Array) : Prop :=
  forall s v, slot a s = Some v -> holds (slot a' s) v.

(** The state the text callback expects, as [initCreativeText] builds it. *)
Definition textReady (cl : CreativeTextClosure) (p : Points) : Prop :=
  shaped (count (text_config cl)) (position p) /\
  (exists col, colorAttr p = Some col /\ shaped (count (text_config cl)) col) /\
  shaped (count (text_config cl)) (galaxyPositions cl) /\
  shaped (count (text_config cl)) (textPositions cl).

(** Consecutive frames of the text callback with the hand state held. *)
Fixpoint textFrames (h : Host) (active : bool) (k : nat)
    (cl : CreativeTextClosure) (p : Points) : M (CreativeTextClosure * Points) :=
  match k with
  | O => ret (cl, p)
  | S k' =>
      '(cl, p) <- creativeTextFrame h active cl p ;;
      textFrames h active k' cl p
  end.

(** [q] to the power [k]. *)
Fixpoint Qpow (q : Q) (k : nat) : Q :=
  match k with
  | O => 1
  | S k' => q * Qpow q k'
  end.

(** A text effect with one particle, turned by one radian. *)
Definition sampleText : CreativeTextClosure :=
  mkCreativeText (sampleConfig 1) (mkF32 3 [8; 5; 1]) (mkF32 4 [0; 2; 0])
                 (mkColor 1 (136 / 255) (204 / 255))
                 (hexColor sampleHost 0x1b3984) 1.

(** A points object of two particles whose second one, a flame particle,
    has risen above the reset height. *)
Definition sampleCakePoints : Points :=
  mkPoints 6 0 7 (mkF32 1 [4; 4; 4; 0; 30; 0]) (Some (mkF32 2 [1; 1; 1; 1; 0.5; 0])) 0 0 1.

(** Particle [j] of the cake target belongs to a band of colour [c] whose
    heights lie in [[lo, hi)]. *)
Definition inBand (cakePositions cakeColors : Float32Array) (j : nat)
    (c : Color) (lo hi : Q) : Prop :=
  holds3 (tripleAt cakeColors j) (colorTriple c) /\
  exists y, slot cakePositions (j * 3 + 1) = Some y /\ lo <= y /\ y < hi.

(** The sizes of the four static bands of the cake for [c] particles. *)
Definition baseCount (c : nat) : nat := Math_floor (ofNat c * 0.4).
Definition topCount (c : nat) : nat := Math_floor (ofNat c * 0.3).
Definition candleCount (c : nat) : nat := Math_floor (ofNat c * 0.05).
Definition textCount (c : nat) : nat := Math_floor (ofNat c * 0.2).

(** A manager whose hand flag was left set by the effect before. *)
Definition sampleRaised : SceneManager := updateHandState true emptyManager.

(* ================================================================== *)
(** ** The application component (App.tsx) *)

#[warnings="-abstract-large-number"]
Definition DEFAULT_CONFIG : EffectConfig := mkConfig 10000 0.5 1.0 "#ff88cc".

(** [Partial<EffectConfig>]: the fields a control of the panel sends. *)
Record PartialConfig : Type := mkPartial {
  new_count : option nat;
  new_size : option Q;
  new_speed : option Q;
  new_color : option string
}.

Definition orKeep {A : Type} (given : option A) (prev : A) : A :=
  match given with Some a => a | None => prev end.

(** [handleConfigChange]: [{ ...prev, ...newConfig }]. *)
Definition handleConfigChange (newConfig : PartialConfig) (prev : EffectConfig)
    : EffectConfig :=
  mkConfig (orKeep (new_count newConfig) (count prev))
           (orKeep (new_size newConfig) (size prev))
           (orKeep (new_speed newConfig) (speed prev))
           (orKeep (new_color newConfig) (color prev)).

(** The state of the component: its two pieces of state that reach the
    manager, and the manager behind [managerRef]. *)
Record App : Type := mkApp {
  activeEffect : EffectType;
  config : EffectConfig;
  managerRef : SceneManager
}.

(** The first render: the mount effect creates the manager and sets the
    initial effect; the update effect, declared after it, runs in the same
    pass, finds [managerRef.current] set and calls [setEffect] again. *)
Definition App_mount (h : Host) : M App :=
  let activeEffect := CREATIVE_HEART_FIREWORK in
  let config := DEFAULT_CONFIG in
  let manager := emptyManager in
  manager <- setEffect h activeEffect config manager ;;
  manager <- setEffect h activeEffect config manager ;;
  ret (mkApp activeEffect config manager).

(** A control sends a partial configuration: the state is merged and the
    update effect runs on the new [config]. *)
Definition App_configChange (h : Host) (newConfig : PartialConfig) (app : App)
    : M App :=
  let config := handleConfigChange newConfig (config app) in
  manager <- setEffect h (activeEffect app) config (managerRef app) ;;
  ret (mkApp (activeEffect app) config manager).

(** [handleHandStateChange]. *)
Definition handleHandStateChange (isFist : bool) (app : App) : App :=
  mkApp (activeEffect app) (config app) (updateHandState isFist (managerRef app)).

(** The callback and the points object fit together for [n] particles:
    every array the callback reads or writes has the length it indexes. *)
Definition frameReady (n : nat) (cb : Callback) (p : Points) : Prop :=
  shaped n (position p) /\
  match cb with
  | GalaxyUpdate _ => True
  | WaveUpdate c => count (wave_config c) = n
  | RainUpdate c => count (rain_config c) = n /\ rainReady c p
  | SphereUpdate _ => True
  | CreativeTextUpdate c => count (text_config c) = n /\ textReady c p
  | HeartFireworkUpdate c => heart_count c = n /\ heartReady c p
  | CatCakeUpdate c => count (cake_config c) = n /\ cakeReady c p
  end.

(** A manager between calls: no effect yet, or the points object and the
    callback of an effect over [n] particles. *)
Definition steady (n : nat) (m : SceneManager) : Prop :=
  match particles m, updateCallback m with
  | Some p, Some cb => frameReady n cb p
  | None, None => True
  | _, _ => False
  end.

(** The particle count of the configuration last passed to [setEffect]
    among [inputs], [n] if there is none. *)
Fixpoint lastCount (inputs : list Input) (n : nat) : nat :=
  match inputs with
  | [] => n
  | Switch _ config :: rest => lastCount rest (count config)
  | _ :: rest => lastCount rest n
  end.

(** A session that goes through every effect, with gestures, frames and
    waits in between. *)
Definition sampleSession : list Input :=
  [ Frame; Switch CREATIVE_HEART_FIREWORK (sampleConfig 3); Hand true; Frame; Frame;
    Switch CREATIVE_CAT_CAKE (sampleConfig 5); Frame; Wait 7000; Hand false; Frame;
    Switch CREATIVE_TEXT (sampleConfig 2); Frame; Hand true; Frame;
    Switch WAVE (sampleConfig 4); Frame; Switch RAIN (sampleConfig 0); Frame;
    Switch GALAXY (sampleConfig 2); Frame; Switch SPHERE (sampleConfig 2); Frame ].

(** The song of context [c], if it was ever started, is over: six seconds
    have passed since the context was created. *)
Definition songOver (rt : Runtime) (c : nat) : Prop :=
  match createdAt rt c with
  | Some t0 => t0 + 6000 <= clock rt
  | None => True
  end.

(** No oscillator was scheduled to stop later than six seconds into its
    context, and no context was closed. *)
Definition shortNotes (rt : Runtime) : Prop :=
  forall x, In x (events rt) ->
    match snd x with
    | OscillatorPlay _ _ _ stop => stop <= 6
    | AudioContextClose _ => False
    | _ => True
    end.

(** At most one song is under way: either no timeout is pending and every
    song is over, or the flag is set, the one pending timeout is due six
    seconds after the creation of one context, that moment lies ahead, and
    the songs of all other contexts are over. *)
Definition oneSong (h : Host) (m : SceneManager) (rt : Runtime) : Prop :=
  shortNotes rt /\
  ((timers rt = [] /\ (forall c, songOver rt c) /\
    (isPlayingAudio m = true -> hasAudioContext h = false)) \/
   (isPlayingAudio m = true /\
    exists c t0 tid due,
      createdAt rt c = Some t0 /\ timers rt = [(tid, due)] /\
      due == t0 + 6000 /\ clock rt < due /\
      forall c', c' <> c -> songOver rt c')).

(** The manager shows the cat effect, with its arrays in shape. *)
Definition showsCake (m : SceneManager) : Prop :=
  exists p cl,
    particles m = Some p /\ updateCallback m = Some (CatCakeUpdate cl) /\
    cakeReady cl p.

(** Inputs without an effect switch and without a negative wait. *)
Definition calm (inputs : list Input) : Prop :=
  Forall (fun i => match i with
                   | Switch _ _ => False
                   | Wait ms => 0 <= ms
                   | _ => True
                   end) inputs.

(** The cat comes and goes three times, two seconds apart, then stays
    away for ten seconds and comes back. *)
Definition sampleVisits : list Input :=
  [ Hand true; Frame; Wait 2000; Hand false; Frame;
    Hand true; Frame; Wait 2000; Hand false; Frame;
    Hand true; Frame; Wait 10000; Hand false; Frame; Hand true; Frame ].

(** The box of half-widths 75, 25 and 75 around the origin. *)
Definition inGalaxyBox (v : Q * Q * Q) : Prop :=
  let '(x, y, z) := v in
  (-75 < x /\ x < 75) /\ (-25 < y /\ y < 25) /\ (-75 < z /\ z < 75).

(* ================================================================== *)
(** * Properties *)

(** ** Comparisons *)

Lemma Qltb_true x y : Qltb x y = true <-> x < y.
Proof.
  unfold Qltb. rewrite negb_true_iff. split; intro H.
  - apply Qnot_le_lt. intro L. apply Qle_bool_iff in L. congruence.
  - destruct (Qle_bool y x) eqn:E; auto.
    apply Qle_bool_iff in E. exfalso. apply (Qlt_not_le _ _ H E).
Qed.

Lemma Qltb_false x y : Qltb x y = false <-> y <= x.
Proof.
  unfold Qltb. rewrite negb_false_iff. apply Qle_bool_iff.
Qed.

Lemma Qleb_true x y : Qleb x y = true <-> x <= y.
Proof. apply Qle_bool_iff. Qed.

(** ** The monad *)

Lemma bind_ok {A B} (m : M A) (k : A -> M B) rt a rt' :
  m rt = Ok (a, rt') -> bind m k rt = k a rt'.
Proof. unfold bind. intros ->. reflexivity. Qed.

Lemma bind_inv {A B} (m : M A) (k : A -> M B) rt b rt2 :
  bind m k rt = Ok (b, rt2) ->
  exists a rt1, m rt = Ok (a, rt1) /\ k a rt1 = Ok (b, rt2).
Proof.
  unfold bind. destruct (m rt) as [[a rt1]|f]; intro H; [|discriminate].
  exists a, rt1. split; [reflexivity|exact H].
Qed.

(** A loop whose body keeps an invariant runs to its end and keeps it. *)
Lemma forRange_inv {S : Type} (I : nat -> S -> Runtime -> Prop)
    (body : nat -> S -> M S) :
  forall n from s rt,
    I from s rt ->
    (forall k s rt, (from <= k < from + n)%nat -> I k s rt ->
       exists s' rt', body k s rt = Ok (s', rt') /\ I (Datatypes.S k) s' rt') ->
    exists s' rt', forRange from n body s rt = Ok (s', rt') /\ I (from + n)%nat s' rt'.
Proof.
  induction n as [|n IH]; intros from s rt H0 Hstep.
  - exists s, rt. rewrite Nat.add_0_r. split; [reflexivity|exact H0].
  - destruct (Hstep from s rt ltac:(lia) H0) as (s1 & rt1 & E1 & I1).
    destruct (IH (Datatypes.S from) s1 rt1 I1) as (s2 & rt2 & E2 & I2).
    + intros k s' rt' Hk. apply Hstep. lia.
    + exists s2, rt2. split.
      * cbn [forRange]. rewrite (bind_ok _ _ _ _ _ E1). exact E2.
      * replace (from + Datatypes.S n)%nat with (Datatypes.S from + n)%nat by lia.
        exact I2.
Qed.

Lemma forUpTo_inv {S : Type} (I : nat -> S -> Runtime -> Prop)
    (body : nat -> S -> M S) n s rt :
  I 0%nat s rt ->
  (forall k s rt, (k < n)%nat -> I k s rt ->
     exists s' rt', body k s rt = Ok (s', rt') /\ I (Datatypes.S k) s' rt') ->
  exists s' rt', forUpTo n body s rt = Ok (s', rt') /\ I n s' rt'.
Proof.
  intros H0 Hstep.
  destruct (forRange_inv I body n 0 s rt H0) as (s' & rt' & E & HI).
  - intros k s1 rt1 Hk. apply Hstep. lia.
  - exists s', rt'. split; [exact E|exact HI].
Qed.

(** ** Typed arrays *)

Lemma upd_length i v l : List.length (upd i v l) = List.length l.
Proof.
  revert i. induction l as [|x l IH]; intros [|i]; cbn; auto.
Qed.

Lemma upd_same i v l : (i < List.length l)%nat -> nth_error (upd i v l) i = Some v.
Proof.
  revert i. induction l as [|x l IH]; intros [|i]; cbn; intro H; try lia; auto.
  apply IH. lia.
Qed.

Lemma upd_other i j v l : i <> j -> nth_error (upd i v l) j = nth_error l j.
Proof.
  revert i j. induction l as [|x l IH]; intros [|i] [|j]; cbn; intro H;
    try congruence; auto.
Qed.

Lemma f32_length_set a i v : f32_length (f32_set a i v) = f32_length a.
Proof. unfold f32_length, f32_set. cbn. apply upd_length. Qed.

Lemma buffer_set a i v : buffer (f32_set a i v) = buffer a.
Proof. reflexivity. Qed.

Lemma slot_set_same a i v :
  (i < f32_length a)%nat -> slot (f32_set a i v) i = Some (Qred v).
Proof. intro H. unfold slot, f32_set. cbn. apply upd_same. exact H. Qed.

Lemma slot_set_other a i j v : i <> j -> slot (f32_set a i v) j = slot a j.
Proof. intro H. unfold slot, f32_set. cbn. apply upd_other. exact H. Qed.

Lemma slot_some a i : (i < f32_length a)%nat -> exists v, slot a i = Some v.
Proof.
  intro H. unfold slot. destruct (nth_error (elems a) i) eqn:E.
  - eauto.
  - apply nth_error_None in E. unfold f32_length in H. lia.
Qed.

Lemma get_slot a i v rt : slot a i = Some v -> get a i rt = Ok (v, rt).
Proof. unfold get, lift, f32_get, slot. intros ->. reflexivity. Qed.

Lemma get_ok a i rt :
  (i < f32_length a)%nat -> exists v, slot a i = Some v /\ get a i rt = Ok (v, rt).
Proof.
  intro H. destruct (slot_some a i H) as (v & E).
  exists v. split; [exact E|apply get_slot; exact E].
Qed.

Lemma modify_ok a i f rt :
  (i < f32_length a)%nat ->
  exists v, slot a i = Some v /\ modify a i f rt = Ok (f32_set a i (f v), rt).
Proof.
  intro H. destruct (get_ok a i rt H) as (v & E & G).
  exists v. split; [exact E|]. unfold modify.
  rewrite (bind_ok _ _ _ _ _ G). reflexivity.
Qed.

Lemma newFloat32Array_ok n rt :
  newFloat32Array n rt =
  Ok (mkF32 (fresh rt) (repeat 0 n),
      mkRuntime (drawn rt) (Datatypes.S (fresh rt)) (clock rt) (timers rt) (events rt)).
Proof. reflexivity. Qed.

Lemma f32_length_new id n : f32_length (mkF32 id (repeat 0 n)) = n.
Proof. unfold f32_length. cbn. apply repeat_length. Qed.

(** ** Running without fault *)

Lemma succeeds_ret {A} (a : A) rt (Q : A -> Runtime -> Prop) :
  Q a rt -> succeeds (ret a) rt Q.
Proof. intro H. exists a, rt. split; [reflexivity|exact H]. Qed.

Lemma succeeds_bind {A B} (m : M A) (k : A -> M B) rt (Q : B -> Runtime -> Prop) :
  succeeds m rt (fun a rt1 => succeeds (k a) rt1 Q) -> succeeds (bind m k) rt Q.
Proof.
  intros (a & rt1 & E & b & rt2 & E2 & H).
  exists b, rt2. split; [|exact H].
  rewrite (bind_ok _ _ _ _ _ E). exact E2.
Qed.

Lemma succeeds_mono {A} (m : M A) rt (P Q : A -> Runtime -> Prop) :
  succeeds m rt P -> (forall a rt', P a rt' -> Q a rt') -> succeeds m rt Q.
Proof. intros (a & rt' & E & H) HPQ. exists a, rt'. auto. Qed.

Lemma succeeds_get a i rt (Q : Q -> Runtime -> Prop) :
  (i < f32_length a)%nat ->
  (forall v, slot a i = Some v -> Q v rt) ->
  succeeds (get a i) rt Q.
Proof.
  intros Hi HQ. destruct (get_ok a i rt Hi) as (v & E & G).
  exists v, rt. auto.
Qed.

Lemma succeeds_modify a i f rt (Q : Float32Array -> Runtime -> Prop) :
  (i < f32_length a)%nat ->
  (forall v, slot a i = Some v -> Q (f32_set a i (f v)) rt) ->
  succeeds (modify a i f) rt Q.
Proof.
  intros Hi HQ. destruct (modify_ok a i f rt Hi) as (v & E & G).
  exists (f32_set a i (f v)), rt. auto.
Qed.

Lemma succeeds_random h rt (Q : Q -> Runtime -> Prop) :
  Q (random_stream h (drawn rt)) (afterDraw rt) -> succeeds (Math_random h) rt Q.
Proof. intro H. eexists _, _. split; [reflexivity|exact H]. Qed.

Lemma succeeds_acos h x rt (Q : Q -> Runtime -> Prop) :
  -1 <= x -> x <= 1 -> Q (acos_value h x) rt -> succeeds (Math_acos h x) rt Q.
Proof.
  intros H1 H2 H. unfold Math_acos.
  apply Qleb_true in H1. apply Qleb_true in H2. rewrite H1, H2. cbn.
  apply succeeds_ret. exact H.
Qed.

Lemma succeeds_sqrt h x rt (Q : Q -> Runtime -> Prop) :
  0 <= x -> Q (sqrt_value h x) rt -> succeeds (Math_sqrt h x) rt Q.
Proof.
  intros H1 H. unfold Math_sqrt. apply Qleb_true in H1. rewrite H1.
  apply succeeds_ret. exact H.
Qed.

Lemma succeeds_newObject rt (Q : nat -> Runtime -> Prop) :
  Q (fresh rt) (afterNew rt) -> succeeds newObject rt Q.
Proof. intro H. eexists _, _. split; [reflexivity|exact H]. Qed.

Lemma succeeds_newFloat32Array n rt (Q : Float32Array -> Runtime -> Prop) :
  Q (mkF32 (fresh rt) (repeat 0 n)) (afterNew rt) ->
  succeeds (newFloat32Array n) rt Q.
Proof. intro H. eexists _, _. split; [reflexivity|exact H]. Qed.

Lemma succeeds_emit e rt (Q : unit -> Runtime -> Prop) :
  Q tt (afterEvent e rt) -> succeeds (emit e) rt Q.
Proof. intro H. eexists _, _. split; [reflexivity|exact H]. Qed.

Lemma succeeds_forRange {S : Type} (I : nat -> S -> Runtime -> Prop)
    (body : nat -> S -> M S) from n s rt (Q : S -> Runtime -> Prop) :
  I from s rt ->
  (forall k s rt, (from <= k < from + n)%nat -> I k s rt ->
     succeeds (body k s) rt (I (Datatypes.S k))) ->
  (forall s' rt', I (from + n)%nat s' rt' -> Q s' rt') ->
  succeeds (forRange from n body s) rt Q.
Proof.
  intros H0 Hstep HQ.
  destruct (forRange_inv I body n from s rt H0 Hstep) as (s' & rt' & E & HI).
  exists s', rt'. auto.
Qed.

Lemma succeeds_forUpTo {S : Type} (I : nat -> S -> Runtime -> Prop)
    (body : nat -> S -> M S) n s rt (Q : S -> Runtime -> Prop) :
  I 0%nat s rt ->
  (forall k s rt, (k < n)%nat -> I k s rt ->
     succeeds (body k s) rt (I (Datatypes.S k))) ->
  (forall s' rt', I n s' rt' -> Q s' rt') ->
  succeeds (forUpTo n body s) rt Q.
Proof.
  intros H0 Hstep HQ. unfold forUpTo.
  apply (succeeds_forRange I); auto.
  intros k s1 rt1 Hk. apply Hstep. lia.
Qed.

Lemma unit_draw_range h k : unitStream h ->
  -1 <= random_stream h k * 2 - 1 /\ random_stream h k * 2 - 1 <= 1.
Proof. intro U. destruct (U k). split; lra. Qed.

Lemma resized_refl a : resized a a.
Proof. split; reflexivity. Qed.

Lemma resized_set a a' i v : resized a a' -> resized a (f32_set a' i v).
Proof. intros [L B]. split; [rewrite f32_length_set; exact L|exact B]. Qed.

Lemma resized_trans a b c : resized a b -> resized b c -> resized a c.
Proof. intros [L1 B1] [L2 B2]. split; congruence. Qed.

Lemma resized_setTriple a a' i x y z :
  resized a a' -> resized a (setTriple a' i x y z).
Proof. intro H. unfold setTriple. auto using resized_set. Qed.

Lemma resized_setColor a a' i c : resized a a' -> resized a (setColor a' i c).
Proof. apply resized_setTriple. Qed.

Lemma resized_shaped n a a' : shaped n a -> resized a a' -> shaped n a'.
Proof. unfold shaped. intros H [L _]. congruence. Qed.

Create HintDb shape.
#[local] Hint Resolve resized_refl resized_set resized_setTriple resized_setColor
  : shape.

(** One rule per primitive, chained by [wp]. *)
Ltac wp_step :=
  lazymatch goal with
  | |- succeeds (bind _ _) _ _ => apply succeeds_bind
  | |- succeeds (ret _) _ _ => apply succeeds_ret
  | |- succeeds (get _ _) _ _ => apply succeeds_get; [|intros ? ?]
  | |- succeeds (modify _ _ _) _ _ => apply succeeds_modify; [|intros ? ?]
  | |- succeeds (Math_random _) _ _ => apply succeeds_random
  | |- succeeds (newObject) _ _ => apply succeeds_newObject
  | |- succeeds (newFloat32Array _) _ _ => apply succeeds_newFloat32Array
  | |- succeeds (emit _) _ _ => apply succeeds_emit
  | |- succeeds (let '(_, _) := ?x in _) _ _ => destruct x
  end.

Ltac wp := repeat wp_step.

(** In range, whatever was written before. *)
Ltac in_range :=
  repeat rewrite f32_length_set;
  unfold shaped, resized in *;
  repeat match goal with H : _ /\ _ |- _ => destruct H end;
  lia.

Lemma smoothAt_ok rate target a i rt (Q : Float32Array -> Runtime -> Prop) :
  (i < f32_length a)%nat ->
  (forall v, slot a i = Some v -> Q (f32_set a i (smooth rate target v)) rt) ->
  succeeds (smoothAt rate target a i) rt Q.
Proof. intros Hi HQ. unfold smoothAt. apply succeeds_modify; auto. Qed.

Lemma smoothToward_ok rate targets a i rt (Q : Float32Array -> Runtime -> Prop) :
  (i < f32_length targets)%nat -> (i < f32_length a)%nat ->
  (forall t v, slot targets i = Some t -> slot a i = Some v ->
     Q (f32_set a i (smooth rate t v)) rt) ->
  succeeds (smoothToward rate targets a i) rt Q.
Proof.
  intros Ht Hi HQ. unfold smoothToward. wp; [exact Ht|].
  apply smoothAt_ok; [exact Hi|]. intros v0 Hv. apply HQ; assumption.
Qed.

(** Smoothing three slots keeps the array in shape and draws nothing. *)
Lemma smoothTriple_shape rate targets a i3 rt :
  (i3 + 2 < f32_length targets)%nat -> (i3 + 2 < f32_length a)%nat ->
  succeeds (smoothTriple rate targets a i3) rt
           (fun a' rt' => rt' = rt /\ resized a a').
Proof.
  intros Ht Ha. unfold smoothTriple. wp.
  - apply smoothToward_ok; [lia|lia|]. intros t v _ _.
    wp. apply smoothToward_ok; [lia|in_range|]. intros t1 v1 _ _.
    apply smoothToward_ok; [lia|in_range|]. intros t2 v2 _ _.
    split; [reflexivity|]. auto with shape.
Qed.

Lemma smoothColor_shape rate c a i3 rt :
  (i3 + 2 < f32_length a)%nat ->
  succeeds (smoothColor rate c a i3) rt (fun a' rt' => rt' = rt /\ resized a a').
Proof.
  intros Ha. unfold smoothColor. wp.
  apply smoothAt_ok; [lia|]. intros v _. wp.
  apply smoothAt_ok; [in_range|]. intros v1 _.
  apply smoothAt_ok; [in_range|]. intros v2 _.
  split; [reflexivity|]. auto with shape.
Qed.

(** ** Triples *)

Lemma afterDraws_0 rt : afterDraws 0 rt = rt.
Proof. destruct rt. unfold afterDraws. cbn. f_equal. lia. Qed.

Lemma afterDraw_afterDraws k rt : afterDraw (afterDraws k rt) = afterDraws (S k) rt.
Proof. unfold afterDraw, afterDraws. cbn. f_equal. lia. Qed.

Lemma afterDraws_afterDraws j k rt :
  afterDraws j (afterDraws k rt) = afterDraws (k + j) rt.
Proof. unfold afterDraws. cbn. f_equal. lia. Qed.

Lemma afterDraw_is rt : afterDraw rt = afterDraws 1 rt.
Proof. unfold afterDraw, afterDraws. f_equal. lia. Qed.

Lemma holds_Qred v : holds (Some (Qred v)) v.
Proof. cbn. apply Qred_correct. Qed.

Lemma tripleAt_setTriple_same a i x y z :
  (i * 3 + 2 < f32_length a)%nat ->
  tripleAt (setTriple a (i * 3) x y z) i = Some (Qred x, Qred y, Qred z).
Proof.
  intro H. unfold tripleAt, setTriple.
  rewrite (slot_set_other _ (i * 3 + 2) (i * 3)) by lia.
  rewrite (slot_set_other _ (i * 3 + 1) (i * 3)) by lia.
  rewrite slot_set_same by lia.
  rewrite (slot_set_other _ (i * 3 + 2) (i * 3 + 1)) by lia.
  rewrite slot_set_same by (rewrite f32_length_set; lia).
  rewrite slot_set_same by (rewrite !f32_length_set; lia).
  reflexivity.
Qed.

Lemma tripleAt_setTriple_other a i j x y z :
  i <> j -> tripleAt (setTriple a (i * 3) x y z) j = tripleAt a j.
Proof.
  intro H. unfold tripleAt, setTriple.
  rewrite !slot_set_other by lia. reflexivity.
Qed.

Lemma holds3_Qred x y z : holds3 (Some (Qred x, Qred y, Qred z)) (x, y, z).
Proof. cbn. repeat split; apply Qred_correct. Qed.

Lemma tripleAt_slots a i x y z :
  tripleAt a i = Some (x, y, z) ->
  slot a (i * 3) = Some x /\ slot a (i * 3 + 1) = Some y /\
  slot a (i * 3 + 2) = Some z.
Proof.
  unfold tripleAt.
  destruct (slot a (i * 3)), (slot a (i * 3 + 1)), (slot a (i * 3 + 2));
    intro H; inversion H; auto.
Qed.

Lemma tripleAt_intro a i x y z :
  slot a (i * 3) = Some x -> slot a (i * 3 + 1) = Some y ->
  slot a (i * 3 + 2) = Some z -> tripleAt a i = Some (x, y, z).
Proof. unfold tripleAt. intros -> -> ->. reflexivity. Qed.

Lemma tripleAt_some n a i :
  shaped n a -> (i < n)%nat -> exists x y z, tripleAt a i = Some (x, y, z).
Proof.
  intros Hs Hi. unfold shaped in Hs.
  destruct (slot_some a (i * 3)) as (x & Ex); [lia|].
  destruct (slot_some a (i * 3 + 1)) as (y & Ey); [lia|].
  destruct (slot_some a (i * 3 + 2)) as (z & Ez); [lia|].
  exists x, y, z. apply tripleAt_intro; assumption.
Qed.

(** A write inside the slots of particle [i] leaves every other particle. *)
Lemma tripleAt_set_other a i j k v :
  (i * 3 <= k < i * 3 + 3)%nat -> i <> j ->
  tripleAt (f32_set a k v) j = tripleAt a j.
Proof.
  intros Hk Hij. unfold tripleAt. rewrite !slot_set_other by lia. reflexivity.
Qed.

Lemma Qltb_Qred a c : Qltb (Qred a) c = Qltb a c.
Proof.
  destruct (Qltb a c) eqn:E.
  - apply Qltb_true. apply Qltb_true in E. rewrite Qred_correct. exact E.
  - apply Qltb_false. apply Qltb_false in E. rewrite Qred_correct. exact E.
Qed.

Lemma holds3_eq o a a' : holds3 o a ->
  fst (fst a) == fst (fst a') -> snd (fst a) == snd (fst a') -> snd a == snd a' ->
  holds3 o a'.
Proof.
  destruct o as [[[x y] z]|]; cbn; [|tauto].
  intros (A & B & C) E1 E2 E3. repeat split.
  - rewrite A. exact E1.
  - rewrite B. exact E2.
  - rewrite C. exact E3.
Qed.

(** Slots of an array after some writes. *)
Ltac slots :=
  repeat first
    [ rewrite slot_set_same by (repeat rewrite f32_length_set; lia)
    | rewrite slot_set_other by lia ].

Ltac slots_in H :=
  repeat first
    [ rewrite slot_set_same in H by (repeat rewrite f32_length_set; lia)
    | rewrite slot_set_other in H by lia ].

Lemma Some_inj {A} (a c : A) : Some a = Some c -> a = c.
Proof. intro H. injection H. auto. Qed.

(** ** The heart firework *)

Section HeartFirework.

Variable h : Host.
Hypothesis random_unit : unitStream h.

(** The three slots of particle [i] lie inside an array in shape. *)
Lemma particle_in_range n a i :
  shaped n a -> (i < n)%nat -> (i * 3 + 2 < f32_length a)%nat.
Proof. unfold shaped. lia. Qed.

Lemma heartIdleBody_ok cl n pos col i rt :
  shaped n (heartPositions cl) -> shaped n (heartColors cl) ->
  shaped n pos -> shaped n col -> (i < n)%nat ->
  succeeds (heartIdleBody cl i (pos, col)) rt
           (fun s rt' => rt' = rt /\ resized pos (fst s) /\ resized col (snd s)).
Proof.
  intros Hhp Hhc Hp Hc Hi. unfold heartIdleBody. wp.
  eapply succeeds_mono.
  { apply smoothTriple_shape; eapply particle_in_range; eauto. }
  intros pos' rt1 [-> Rp]. wp.
  eapply succeeds_mono.
  { apply smoothTriple_shape; eapply particle_in_range; eauto. }
  intros col' rt2 [-> Rc]. wp. cbn. auto.
Qed.

Lemma heartLaunchBody_ok cl lh n pos col i rt :
  shaped n pos -> shaped n col -> (i < n)%nat ->
  succeeds (heartLaunchBody h cl lh i (pos, col)) rt
           (fun s rt' => rt' = afterDraw rt /\
                         resized pos (fst s) /\ resized col (snd s)).
Proof.
  intros Hp Hc Hi. unfold heartLaunchBody. wp.
  pose proof (particle_in_range _ _ _ Hp Hi) as Rp.
  pose proof (particle_in_range _ _ _ Hc Hi) as Rc.
  apply smoothAt_ok; [lia|]. intros v0 _. wp.
  apply smoothAt_ok; [in_range|]. intros v1 _. wp.
  apply smoothAt_ok; [in_range|]. intros v2 _. wp.
  eapply succeeds_mono.
  { apply smoothColor_shape. lia. }
  intros col' rt1 [-> Rc']. wp. cbn.
  split; [reflexivity|split; [auto with shape|exact Rc']].
Qed.

Lemma setExplosionVelocity_ok index3 vel rt :
  succeeds (setExplosionVelocity h index3 vel) rt
    (fun vel' rt' =>
       rt' = afterDraw (afterDraw (afterDraw rt)) /\
       vel' = setTriple vel index3 (fst (fst (sampledVelocity h (drawn rt))))
                        (snd (fst (sampledVelocity h (drawn rt))))
                        (snd (sampledVelocity h (drawn rt)))).
Proof.
  unfold setExplosionVelocity, sampledVelocity, explosionVelocity.
  apply succeeds_bind, succeeds_random.
  apply succeeds_bind, succeeds_random.
  destruct (unit_draw_range h (drawn (afterDraw rt)) random_unit) as [L U].
  apply succeeds_bind, succeeds_acos; [exact L|exact U|].
  apply succeeds_bind, succeeds_random.
  apply succeeds_ret. cbn [drawn afterDraw fst snd].
  replace (drawn rt + 1)%nat with (S (drawn rt)) by lia.
  replace (drawn rt + 2)%nat with (S (S (drawn rt))) by lia.
  split; reflexivity.
Qed.

Lemma explosion_loop_ok n vel rt :
  shaped n vel ->
  succeeds (forUpTo n (fun i => setExplosionVelocity h (i * 3)) vel) rt
    (fun vel' rt' =>
       rt' = afterDraws (3 * n) rt /\ resized vel vel' /\
       forall i, (i < n)%nat ->
         holds3 (tripleAt vel' i) (sampledVelocity h (drawn rt + 3 * i))).
Proof.
  intro Hv.
  apply (succeeds_forUpTo
           (fun k vel' rt' =>
              rt' = afterDraws (3 * k) rt /\ resized vel vel' /\
              forall i, (i < k)%nat ->
                holds3 (tripleAt vel' i) (sampledVelocity h (drawn rt + 3 * i)))).
  - rewrite afterDraws_0. repeat split; auto with shape. intros i Hi. lia.
  - intros k vel1 rt1 Hk (-> & R & Hprev).
    eapply succeeds_mono; [apply setExplosionVelocity_ok|].
    intros vel2 rt2 [-> ->]. split; [|split].
    + rewrite !afterDraw_afterDraws. f_equal. lia.
    + auto with shape.
    + intros i Hi. destruct (Nat.eq_dec i k) as [->|Hne].
      * rewrite tripleAt_setTriple_same by in_range.
        cbn [drawn afterDraws].
        destruct (sampledVelocity h (drawn rt + 3 * k)) as [[vx vy] vz].
        apply holds3_Qred.
      * rewrite tripleAt_setTriple_other by congruence. apply Hprev. lia.
  - auto.
Qed.

(** The loop of phase 0 keeps both arrays in shape and draws nothing. *)
Lemma heartIdle_loop_ok cl pos col rt :
  shaped (heart_count cl) (heartPositions cl) ->
  shaped (heart_count cl) (heartColors cl) ->
  shaped (heart_count cl) pos -> shaped (heart_count cl) col ->
  succeeds (forUpTo (heart_count cl) (heartIdleBody cl) (pos, col)) rt
    (fun s rt' => rt' = rt /\ resized pos (fst s) /\ resized col (snd s)).
Proof.
  intros Hhp Hhc Hp Hc.
  apply (succeeds_forUpTo
           (fun (k : nat) s rt' =>
              rt' = rt /\ resized pos (fst s) /\ resized col (snd s))).
  - auto with shape.
  - intros k [pos1 col1] rt1 Hk (-> & Rp & Rc). cbn [fst snd] in *.
    eapply succeeds_mono.
    { eapply heartIdleBody_ok; eauto using resized_shaped. }
    intros [pos2 col2] rt2 (-> & Rp2 & Rc2). cbn [fst snd] in *.
    eauto using resized_trans.
  - auto.
Qed.

(** The loop of phase 1 takes one draw per particle. *)
Lemma heartLaunch_loop_ok cl lh pos col rt :
  shaped (heart_count cl) pos -> shaped (heart_count cl) col ->
  succeeds (forUpTo (heart_count cl) (heartLaunchBody h cl lh) (pos, col)) rt
    (fun s rt' => rt' = afterDraws (heart_count cl) rt /\
                  resized pos (fst s) /\ resized col (snd s)).
Proof.
  intros Hp Hc.
  apply (succeeds_forUpTo
           (fun (k : nat) s rt' =>
              rt' = afterDraws k rt /\ resized pos (fst s) /\ resized col (snd s))).
  - rewrite afterDraws_0. auto with shape.
  - intros k [pos1 col1] rt1 Hk (-> & Rp & Rc). cbn [fst snd] in *.
    eapply succeeds_mono.
    { eapply heartLaunchBody_ok; eauto using resized_shaped. }
    intros [pos2 col2] rt2 (-> & Rp2 & Rc2). cbn [fst snd] in *.
    rewrite afterDraw_afterDraws. eauto using resized_trans.
  - auto.
Qed.

Lemma colorArray_ok p col rt (Q : Float32Array -> Runtime -> Prop) :
  colorAttr p = Some col -> Q col rt -> succeeds (colorArray p) rt Q.
Proof. intros E H. unfold colorArray. rewrite E. apply succeeds_ret. exact H. Qed.

Lemma heartReady_update cl q ph lh vel pos col :
  shaped (heart_count cl) (heartPositions cl) ->
  shaped (heart_count cl) (heartColors cl) ->
  shaped (heart_count cl) pos -> shaped (heart_count cl) col ->
  shaped (heart_count cl) vel ->
  heartReady (withPhase cl ph lh vel) (setColorAttr (setPosition q pos) col).
Proof.
  intros Hhp Hhc Hp Hc Hv. unfold heartReady. cbn.
  split; [exact Hp|]. split; [exists col; auto|]. auto.
Qed.

(** A frame that is in phase 1 below the gate: the accumulator grows by
    1.5 and the comparison with 60 decides between staying and exploding. *)
Lemma heartFrame_launch cl p time active rt lh0 :
  heartReady cl p ->
  heartGate active (phase cl) (launchHeight cl) = (1%nat, lh0) ->
  succeeds (heartFireworkFrame h time active cl p) rt
    (fun res rt' =>
       heartReady (fst res) (snd res) /\
       heart_count (fst res) = heart_count cl /\
       launchHeight (fst res) = lh0 + 1.5 /\
       if Qltb 60 (lh0 + 1.5) then
         phase (fst res) = 2%nat /\
         rt' = afterDraws (4 * heart_count cl) rt /\
         forall i, (i < heart_count cl)%nat ->
           holds3 (tripleAt (explosionVelocities (fst res)) i)
                  (sampledVelocity h (drawn rt + heart_count cl + 3 * i))
       else
         phase (fst res) = 1%nat /\
         rt' = afterDraws (heart_count cl) rt /\
         explosionVelocities (fst res) = explosionVelocities cl).
Proof.
  intros (Hp & (col & Ecol & Hc) & Hhp & Hhc & Hv) Hgate.
  unfold heartFireworkFrame. apply succeeds_bind.
  apply (colorArray_ok _ col); [exact Ecol|].
  rewrite Hgate. cbn [Nat.eqb].
  apply succeeds_bind. eapply succeeds_mono.
  { apply heartLaunch_loop_ok; [exact Hp|exact Hc]. }
  intros [pos1 col1] rt1 (-> & Rp & Rc). cbn [fst snd] in *.
  destruct (Qltb 60 (lh0 + 1.5)) eqn:Ecmp.
  - apply succeeds_bind. eapply succeeds_mono.
    { apply explosion_loop_ok. exact Hv. }
    intros vel1 rt2 (-> & Rv & Hvel). apply succeeds_ret. cbn [fst snd].
    split; [apply heartReady_update; eauto using resized_shaped|].
    split; [reflexivity|]. split; [reflexivity|]. split; [reflexivity|].
    split.
    + rewrite afterDraws_afterDraws. f_equal; lia.
    + intros i Hi. apply Hvel. exact Hi.
  - apply succeeds_ret. cbn [fst snd].
    split; [apply heartReady_update; eauto using resized_shaped|].
    repeat split; reflexivity.
Qed.

(** A frame that is in phase 0 below the gate. *)
Lemma heartFrame_idle cl p time active rt lh0 :
  heartReady cl p ->
  heartGate active (phase cl) (launchHeight cl) = (0%nat, lh0) ->
  succeeds (heartFireworkFrame h time active cl p) rt
    (fun res rt' =>
       heartReady (fst res) (snd res) /\
       heart_count (fst res) = heart_count cl /\
       launchHeight (fst res) = lh0 /\
       phase (fst res) = 0%nat /\ rt' = rt /\
       explosionVelocities (fst res) = explosionVelocities cl).
Proof.
  intros (Hp & (col & Ecol & Hc) & Hhp & Hhc & Hv) Hgate.
  unfold heartFireworkFrame. apply succeeds_bind.
  apply (colorArray_ok _ col); [exact Ecol|].
  rewrite Hgate. cbn [Nat.eqb].
  apply succeeds_bind. eapply succeeds_mono.
  { apply heartIdle_loop_ok; eauto. }
  intros [pos1 col1] rt1 (-> & Rp & Rc). cbn [fst snd] in *.
  apply succeeds_ret. cbn [fst snd].
  split; [apply heartReady_update; eauto using resized_shaped|].
  repeat split; reflexivity.
Qed.

Lemma ofNat_S k : ofNat (S k) == ofNat k + 1.
Proof.
  unfold ofNat. rewrite Nat2Z.inj_succ. unfold Z.succ.
  rewrite inject_Z_plus. reflexivity.
Qed.

(** From phase 1 with [1.5 * j] accumulated, [k] more frames with the hand
    held stay in phase 1 as long as [j + k <= 40]. *)
Lemma heartFrames_climb time k :
  forall j cl p rt,
    heartReady cl p -> phase cl = 1%nat ->
    launchHeight cl == 1.5 * ofNat j -> (j + k <= 40)%nat ->
    succeeds (heartFrames h time true k cl p) rt
      (fun res _ =>
         heartReady (fst res) (snd res) /\ phase (fst res) = 1%nat /\
         launchHeight (fst res) == 1.5 * ofNat (j + k)).
Proof.
  induction k as [|k IH]; intros j cl p rt Hr Hph Hlh Hjk.
  - apply succeeds_ret. cbn [fst snd]. rewrite Nat.add_0_r. auto.
  - cbn [heartFrames]. apply succeeds_bind.
    eapply succeeds_mono.
    { apply (heartFrame_launch cl p time true rt (launchHeight cl) Hr).
      unfold heartGate. rewrite Hph. reflexivity. }
    intros [cl1 p1] rt1 (Hr1 & Hn & Hlh1 & Hbr). cbn [fst snd] in *.
    assert (Hle : ofNat (S j) <= 40).
    { change (inject_Z (Z.of_nat (S j)) <= inject_Z 40).
      rewrite <- Zle_Qle. lia. }
    pose proof (ofNat_S j) as HS.
    assert (Ecmp : Qltb 60 (launchHeight cl + 1.5) = false).
    { apply Qltb_false. lra. }
    rewrite Ecmp in Hbr. destruct Hbr as (Hph1 & _ & _).
    eapply succeeds_mono.
    { apply (IH (S j) cl1 p1 rt1 Hr1 Hph1); [rewrite Hlh1; lra|lia]. }
    intros res rt2 (A & B & C). replace (j + S k)%nat with (S j + k)%nat by lia.
    auto.
Qed.

(** The first frame out of phase 0 with the hand active. *)
Lemma heartFrame_enter cl p time rt :
  heartReady cl p -> phase cl = 0%nat ->
  succeeds (heartFireworkFrame h time true cl p) rt
    (fun res rt' =>
       heartReady (fst res) (snd res) /\ phase (fst res) = 1%nat /\
       launchHeight (fst res) == 1.5).
Proof.
  intros Hr Hph. eapply succeeds_mono.
  { apply (heartFrame_launch cl p time true rt 0 Hr).
    unfold heartGate. rewrite Hph. reflexivity. }
  intros [cl1 p1] rt1 (Hr1 & Hn & Hlh1 & Hbr). cbn [fst snd] in *.
  change (Qltb 60 (0 + 1.5)) with false in Hbr. destruct Hbr as (Hph1 & _).
  split; [exact Hr1|]. split; [exact Hph1|]. rewrite Hlh1. reflexivity.
Qed.

(** From phase 1 with [1.5 * j] accumulated, the frame that brings the
    count to 41 is the one that explodes. *)
Lemma heartFrames_burst time k :
  forall j cl p rt,
    heartReady cl p -> phase cl = 1%nat ->
    launchHeight cl == 1.5 * ofNat j -> (j + S k = 41)%nat ->
    succeeds (heartFrames h time true (S k) cl p) rt
      (fun res _ => phase (fst res) = 2%nat /\ launchHeight (fst res) == 61.5).
Proof.
  induction k as [|k IH]; intros j cl p rt Hr Hph Hlh Hjk;
    cbn [heartFrames]; apply succeeds_bind;
    (eapply succeeds_mono;
     [ apply (heartFrame_launch cl p time true rt (launchHeight cl) Hr);
       unfold heartGate; rewrite Hph; reflexivity | ]);
    intros [cl1 p1] rt1 (Hr1 & Hn & Hlh1 & Hbr); cbn [fst snd] in *;
    pose proof (ofNat_S j) as HS.
  - assert (Ej : ofNat j == 40).
    { replace j with 40%nat by lia. reflexivity. }
    assert (Ecmp : Qltb 60 (launchHeight cl + 1.5) = true).
    { apply Qltb_true. lra. }
    rewrite Ecmp in Hbr. destruct Hbr as (Hph1 & _).
    apply succeeds_ret. cbn [fst snd]. split; [exact Hph1|].
    rewrite Hlh1. lra.
  - assert (Hle : ofNat (S j) <= 40).
    { change (inject_Z (Z.of_nat (S j)) <= inject_Z 40).
      rewrite <- Zle_Qle. lia. }
    assert (Ecmp : Qltb 60 (launchHeight cl + 1.5) = false).
    { apply Qltb_false. lra. }
    rewrite Ecmp in Hbr. destruct Hbr as (Hph1 & _ & _).
    apply (IH (S j) cl1 p1 rt1 Hr1 Hph1); [rewrite Hlh1; lra|lia].
Qed.

(** C1 (as amended).  The phase machine of the heart firework, for a
    closure and a points object in the shape [initHeartFirework] builds:
    - from phase 0 (IDLE) a frame with the hand active ends in phase 1
      (LAUNCH); the accumulator is restarted from 0 whatever it held and
      takes its first increment in that same frame, so it reads 1.5;
    - in phase 1 every further frame with the hand held adds 1.5; the phase
      stays 1 while the sum does not exceed 60;
    - on the frame where the sum exceeds 60 the phase becomes 2 (EXPLODE) and
      particle [i] receives the velocity computed from three draws of its
      own, taken after the draws of the launch loop;
    - a frame with the hand inactive in phase 1 ends in phase 0, and the next
      entry restarts the accumulator;
    - hence from phase 0 the frames 1 to 40 with the hand held are in phase 1
      with [1.5 * k] accumulated and frame 41 is in phase 2 with 61.5. *)
Theorem heart_phase_machine :
  forall (cl : HeartFireworkClosure) (p : Points) (time : Q) (rt : Runtime),
    heartReady cl p ->
    (phase cl = 0%nat ->
       succeeds (heartFireworkFrame h time true cl p) rt
         (fun res _ => heartReady (fst res) (snd res) /\
                       phase (fst res) = 1%nat /\
                       launchHeight (fst res) == 0 + 1.5)) /\
    (phase cl = 1%nat -> launchHeight cl + 1.5 <= 60 ->
       succeeds (heartFireworkFrame h time true cl p) rt
         (fun res _ => heartReady (fst res) (snd res) /\
                       phase (fst res) = 1%nat /\
                       launchHeight (fst res) == launchHeight cl + 1.5)) /\
    (phase cl = 1%nat -> 60 < launchHeight cl + 1.5 ->
       succeeds (heartFireworkFrame h time true cl p) rt
         (fun res rt' =>
            heartReady (fst res) (snd res) /\
            phase (fst res) = 2%nat /\
            launchHeight (fst res) == launchHeight cl + 1.5 /\
            rt' = afterDraws (4 * heart_count cl) rt /\
            forall i, (i < heart_count cl)%nat ->
              holds3 (tripleAt (explosionVelocities (fst res)) i)
                     (sampledVelocity h (drawn rt + heart_count cl + 3 * i)))) /\
    (phase cl = 1%nat ->
       succeeds (heartFireworkFrame h time false cl p) rt
         (fun res _ => heartReady (fst res) (snd res) /\
                       phase (fst res) = 0%nat)) /\
    (phase cl = 1%nat ->
       succeeds (res <- heartFireworkFrame h time false cl p ;;
                 heartFireworkFrame h time true (fst res) (snd res)) rt
         (fun res _ => phase (fst res) = 1%nat /\
                       launchHeight (fst res) == 0 + 1.5)) /\
    (phase cl = 0%nat ->
       forall k, (1 <= k <= 40)%nat ->
         succeeds (heartFrames h time true k cl p) rt
           (fun res _ => phase (fst res) = 1%nat /\
                         launchHeight (fst res) == 1.5 * ofNat k)) /\
    (phase cl = 0%nat ->
       succeeds (heartFrames h time true 41 cl p) rt
         (fun res _ => phase (fst res) = 2%nat /\
                       launchHeight (fst res) == 61.5)).
Proof.
  intros cl p time rt Hr.
  assert (Hclimb : phase cl = 0%nat ->
            forall k, (1 <= k <= 40)%nat ->
              succeeds (heartFrames h time true k cl p) rt
                (fun res _ => heartReady (fst res) (snd res) /\
                              phase (fst res) = 1%nat /\
                              launchHeight (fst res) == 1.5 * ofNat k)).
  { intros Hph [|k] Hk; [lia|]. cbn [heartFrames]. apply succeeds_bind.
    eapply succeeds_mono; [apply (heartFrame_enter cl p time rt Hr Hph)|].
    intros [cl1 p1] rt1 (Hr1 & Hph1 & Hlh1). cbn [fst snd] in *.
    eapply succeeds_mono.
    { apply (heartFrames_climb time k 1 cl1 p1 rt1 Hr1 Hph1); [|lia].
      rewrite Hlh1. reflexivity. }
    intros res rt2 (A & B & C). replace (S k) with (1 + k)%nat by lia. auto. }
  repeat apply conj.
  - intro Hph. eapply succeeds_mono; [apply (heartFrame_enter cl p time rt Hr Hph)|].
    intros res rt1 (A & B & C).
    split; [exact A|]. split; [exact B|]. rewrite C. reflexivity.
  - intros Hph Hle. eapply succeeds_mono.
    { apply (heartFrame_launch cl p time true rt (launchHeight cl) Hr).
      unfold heartGate. rewrite Hph. reflexivity. }
    intros res rt1 (A & _ & C & D).
    apply Qltb_false in Hle. rewrite Hle in D. destruct D as (D & _).
    split; [exact A|]. split; [exact D|]. rewrite C. reflexivity.
  - intros Hph Hlt. eapply succeeds_mono.
    { apply (heartFrame_launch cl p time true rt (launchHeight cl) Hr).
      unfold heartGate. rewrite Hph. reflexivity. }
    intros res rt1 (A & _ & C & D).
    apply Qltb_true in Hlt. rewrite Hlt in D. destruct D as (D & E & F).
    split; [exact A|]. split; [exact D|]. split; [rewrite C; reflexivity|].
    split; [exact E|exact F].
  - intro Hph. eapply succeeds_mono.
    { apply (heartFrame_idle cl p time false rt (launchHeight cl) Hr).
      unfold heartGate. rewrite Hph. reflexivity. }
    intros res rt1 (A & _ & _ & D & _). auto.
  - intro Hph. apply succeeds_bind. eapply succeeds_mono.
    { apply (heartFrame_idle cl p time false rt (launchHeight cl) Hr).
      unfold heartGate. rewrite Hph. reflexivity. }
    intros [cl1 p1] rt1 (A & _ & _ & D & _). cbn [fst snd] in *.
    eapply succeeds_mono; [apply (heartFrame_enter cl1 p1 time rt1 A D)|].
    intros res rt2 (_ & B & C). split; [exact B|]. rewrite C. reflexivity.
  - intros Hph k Hk. eapply succeeds_mono; [apply (Hclimb Hph k Hk)|].
    intros res rt1 (_ & B & C). auto.
  - intro Hph. cbn [heartFrames]. apply succeeds_bind.
    eapply succeeds_mono; [apply (heartFrame_enter cl p time rt Hr Hph)|].
    intros [cl1 p1] rt1 (Hr1 & Hph1 & Hlh1). cbn [fst snd] in *.
    apply (heartFrames_burst time 39 1 cl1 p1 rt1 Hr1 Hph1); [|lia].
    rewrite Hlh1. reflexivity.
Qed.

End HeartFirework.

(** ** The sample host *)

Lemma sampleStream_unit : unitStream sampleHost.
Proof.
  intro k. cbn [random_stream sampleHost]. unfold sampleStream.
  pose proof (Z.mod_pos_bound (Z.of_nat k * 7919 + 13) 1000 eq_refl) as [L U].
  set (m := ((Z.of_nat k * 7919 + 13) mod 1000)%Z) in *.
  assert (L' : inject_Z 0 <= inject_Z m) by (rewrite <- Zle_Qle; exact L).
  assert (U' : inject_Z m < inject_Z 1000) by (rewrite <- Zlt_Qlt; exact U).
  change (inject_Z 0) with 0 in L'. change (inject_Z 1000) with 1000 in U'.
  split.
  - apply Qle_shift_div_l; [reflexivity|]. lra.
  - apply Qlt_shift_div_r; [reflexivity|]. lra.
Qed.

Lemma sampleHeart_ready : heartReady sampleHeart samplePoints.
Proof.
  unfold heartReady, shaped. cbn.
  split; [reflexivity|]. split; [eexists; split; reflexivity|].
  repeat split.
Qed.

Lemma heart_phase_machine_witness :
  unitStream sampleHost /\ heartReady sampleHeart samplePoints /\
  succeeds (heartFrames sampleHost 0 true 41 sampleHeart samplePoints) startRuntime
    (fun res _ => phase (fst res) = 2%nat /\ launchHeight (fst res) == 61.5).
Proof.
  split; [exact sampleStream_unit|]. split; [exact sampleHeart_ready|].
  apply (heart_phase_machine sampleHost sampleStream_unit sampleHeart samplePoints
           0 startRuntime sampleHeart_ready).
  reflexivity.
Defined.

(** C1, as stated, fails: the frame that leaves phase 0 ends with 1.5 in the
    accumulator, not with 0. *)
Lemma heart_enter_reads_one_and_a_half :
  exists cl' p' rt',
    heartFireworkFrame sampleHost 0 true sampleHeart samplePoints startRuntime
      = Ok (cl', p', rt') /\
    phase sampleHeart = 0%nat /\ phase cl' = 1%nat /\
    launchHeight cl' == 1.5 /\ ~ launchHeight cl' == 0.
Proof.
  destruct (heartFireworkFrame sampleHost 0 true sampleHeart samplePoints
              startRuntime) as [[[cl' p'] rt']|f] eqn:E.
  - exists cl', p', rt'. split; [reflexivity|].
    vm_compute in E. injection E as <- _ _.
    cbn. repeat split; try reflexivity. intro H. discriminate H.
  - vm_compute in E. discriminate E.
Qed.

(** ** The explode phase *)

Section HeartExplode.

Variable h : Host.
Hypothesis random_unit : unitStream h.

Lemma heartExplodeBody_ok cl n active pos col vel i rt x y z vx vy vz :
  shaped n pos -> shaped n col -> shaped n vel -> (i < n)%nat ->
  tripleAt pos i = Some (x, y, z) -> tripleAt vel i = Some (vx, vy, vz) ->
  succeeds (heartExplodeBody h cl active i (pos, col, vel)) rt
    (fun s rt' =>
       let '(pos', col', vel') := s in
       resized pos pos' /\ resized col col' /\ resized vel vel' /\
       (forall j, j <> i ->
          tripleAt pos' j = tripleAt pos j /\ tripleAt col' j = tripleAt col j /\
          tripleAt vel' j = tripleAt vel j) /\
       if Qltb (y + vy) (-100) && active then
         rt' = afterDraws 6 rt /\
         holds3 (tripleAt pos' i) (respawnPosition h (drawn rt)) /\
         holds3 (tripleAt vel' i) (sampledVelocity h (drawn rt + 3)) /\
         holds3 (tripleAt col' i) (colorTriple (skyBlue cl))
       else
         rt' = rt /\
         holds3 (tripleAt pos' i) (integrated (x, y, z) (vx, vy, vz)) /\
         holds3 (tripleAt vel' i) (damped (vx, vy, vz)) /\
         tripleAt col' i = tripleAt col i).
Proof.
  intros Hp Hc Hv Hi Ep Ev.
  destruct (tripleAt_slots _ _ _ _ _ Ep) as (Px & Py & Pz).
  destruct (tripleAt_slots _ _ _ _ _ Ev) as (Vx & Vy & Vz).
  pose proof (particle_in_range _ _ _ Hp Hi) as Rp.
  pose proof (particle_in_range _ _ _ Hc Hi) as Rc.
  pose proof (particle_in_range _ _ _ Hv Hi) as Rv.
  unfold heartExplodeBody.
  apply succeeds_bind, succeeds_get; [lia|]. intros v1 E1.
  rewrite Vx in E1. apply Some_inj in E1. subst v1.
  apply succeeds_bind, succeeds_modify; [lia|]. intros v2 E2.
  rewrite Px in E2. apply Some_inj in E2. subst v2.
  apply succeeds_bind, succeeds_get; [lia|]. intros v3 E3.
  rewrite Vy in E3. apply Some_inj in E3. subst v3.
  apply succeeds_bind, succeeds_modify; [in_range|]. intros v4 E4.
  slots_in E4. rewrite Py in E4. apply Some_inj in E4. subst v4.
  apply succeeds_bind, succeeds_get; [lia|]. intros v5 E5.
  rewrite Vz in E5. apply Some_inj in E5. subst v5.
  apply succeeds_bind, succeeds_modify; [in_range|]. intros v6 E6.
  slots_in E6. rewrite Pz in E6. apply Some_inj in E6. subst v6.
  apply succeeds_bind, succeeds_modify; [lia|]. intros v7 E7.
  rewrite Vy in E7. apply Some_inj in E7. subst v7.
  apply succeeds_bind, succeeds_modify; [in_range|]. intros v8 E8.
  slots_in E8. rewrite Vx in E8. apply Some_inj in E8. subst v8.
  apply succeeds_bind, succeeds_modify; [in_range|]. intros v9 E9.
  slots_in E9. apply Some_inj in E9. subst v9.
  apply succeeds_bind, succeeds_modify; [in_range|]. intros v10 E10.
  slots_in E10. rewrite Vz in E10. apply Some_inj in E10. subst v10.
  apply succeeds_bind, succeeds_get; [in_range|]. intros v11 E11.
  slots_in E11. apply Some_inj in E11. subst v11.
  rewrite Qltb_Qred.
  destruct (Qltb (y + vy) (-100) && active).
  - apply succeeds_bind, succeeds_random.
    apply succeeds_bind, succeeds_random.
    apply succeeds_bind, succeeds_random.
    apply succeeds_bind. eapply succeeds_mono.
    { apply (setExplosionVelocity_ok h random_unit). }
    intros vel' rt' [-> ->]. apply succeeds_ret.
    cbn [drawn afterDraw].
    split; [unfold setTriple; auto 10 with shape|].
    split; [auto with shape|].
    split; [unfold setTriple; auto 10 with shape|].
    split; [|split; [|split; [|split]]].
    + intros j Hj. unfold tripleAt, setColor, setTriple. slots. auto.
    + rewrite !afterDraw_is, !afterDraws_afterDraws. f_equal.
    + unfold tripleAt. slots.
      replace (S (drawn rt)) with (drawn rt + 1)%nat by lia.
      replace (S (drawn rt + 1)) with (drawn rt + 2)%nat by lia.
      apply holds3_Qred.
    + unfold tripleAt, setTriple. slots.
      replace (S (S (S (drawn rt)))) with (drawn rt + 3)%nat by lia.
      destruct (sampledVelocity h (drawn rt + 3)) as [[a c] d].
      apply holds3_Qred.
    + unfold tripleAt, setColor, setTriple. slots. apply holds3_Qred.
  - apply succeeds_ret.
    split; [auto 10 with shape|].
    split; [auto with shape|].
    split; [auto 10 with shape|].
    split; [|split; [|split; [|split]]].
    + intros j Hj. unfold tripleAt. slots. auto.
    + reflexivity.
    + unfold tripleAt. slots. apply holds3_Qred.
    + unfold tripleAt. slots. cbn [holds3 damped fst snd].
      split; [|split]; rewrite !Qred_correct; reflexivity.
    + reflexivity.
Qed.

Lemma respawnsBefore_S pos vel k :
  respawnsBefore pos vel (S k) =
  (respawnsBefore pos vel k + if fallsOut pos vel k then 1 else 0)%nat.
Proof.
  unfold respawnsBefore. rewrite seq_S, filter_app, length_app. cbn.
  destruct (fallsOut pos vel k); reflexivity.
Qed.

Lemma fallsOut_triple pos vel i x y z vx vy vz :
  tripleAt pos i = Some (x, y, z) -> tripleAt vel i = Some (vx, vy, vz) ->
  fallsOut pos vel i = Qltb (y + vy) (-100).
Proof.
  intros Ep Ev.
  destruct (tripleAt_slots _ _ _ _ _ Ep) as (_ & Py & _).
  destruct (tripleAt_slots _ _ _ _ _ Ev) as (_ & Vy & _).
  unfold fallsOut. rewrite Py, Vy. reflexivity.
Qed.

Lemma heartExplode_loop_ok cl pos col vel rt :
  shaped (heart_count cl) pos -> shaped (heart_count cl) col ->
  shaped (heart_count cl) vel ->
  succeeds (forUpTo (heart_count cl) (heartExplodeBody h cl true) (pos, col, vel)) rt
    (fun s rt' =>
       let '(pos', col', vel') := s in
       rt' = afterDraws (6 * respawnsBefore pos vel (heart_count cl)) rt /\
       resized pos pos' /\ resized col col' /\ resized vel vel' /\
       forall i, (i < heart_count cl)%nat ->
         explodeOutcome h (skyBlue cl) (drawn rt) pos col vel pos' col' vel' i).
Proof.
  intros Hp Hc Hv. set (n := heart_count cl) in *.
  apply (succeeds_forUpTo
           (fun k s rt' =>
              let '(pos', col', vel') := s in
              rt' = afterDraws (6 * respawnsBefore pos vel k) rt /\
              resized pos pos' /\ resized col col' /\ resized vel vel' /\
              (forall i, (k <= i)%nat ->
                 tripleAt pos' i = tripleAt pos i /\
                 tripleAt col' i = tripleAt col i /\
                 tripleAt vel' i = tripleAt vel i) /\
              forall i, (i < k)%nat ->
                explodeOutcome h (skyBlue cl) (drawn rt) pos col vel
                               pos' col' vel' i)).
  - cbn [respawnsBefore seq filter List.length]. rewrite afterDraws_0.
    repeat split; auto with shape. intros i Hi. lia.
  - intros k [[pos1 col1] vel1] rt1 Hk (-> & Rp & Rc & Rv & Hrest & Hdone).
    destruct (tripleAt_some n pos k Hp Hk) as (x & y & z & Ep).
    destruct (tripleAt_some n vel k Hv Hk) as (vx & vy & vz & Ev).
    destruct (Hrest k (le_n k)) as (Ep1 & Ec1 & Ev1).
    eapply succeeds_mono.
    { apply (heartExplodeBody_ok cl n true pos1 col1 vel1 k _ x y z vx vy vz);
        eauto using resized_shaped; congruence. }
    intros [[pos2 col2] vel2] rt2 (Rp2 & Rc2 & Rv2 & Hoth & Hk2).
    rewrite andb_true_r in Hk2.
    rewrite respawnsBefore_S, (fallsOut_triple _ _ _ _ _ _ _ _ _ Ep Ev).
    split; [|split; [|split; [|split; [|split]]]];
      eauto using resized_trans.
    + destruct (Qltb (y + vy) (-100)).
      * destruct Hk2 as (-> & _). rewrite afterDraws_afterDraws. f_equal; lia.
      * destruct Hk2 as (-> & _). f_equal; lia.
    + intros i Hi. destruct (Hoth i ltac:(lia)) as (A & B & C).
      destruct (Hrest i ltac:(lia)) as (A' & B' & C'). repeat split; congruence.
    + intros i Hi. destruct (Nat.eq_dec i k) as [->|Hne].
      * intros x' y' z' vx' vy' vz' Ep' Ev'.
        assert (x' = x /\ y' = y /\ z' = z) as (-> & -> & ->)
          by (rewrite Ep in Ep'; injection Ep'; auto).
        assert (vx' = vx /\ vy' = vy /\ vz' = vz) as (-> & -> & ->)
          by (rewrite Ev in Ev'; injection Ev'; auto).
        cbn [drawn afterDraws] in Hk2.
        destruct (Qltb (y + vy) (-100)).
        -- destruct Hk2 as (_ & A & B & C). auto.
        -- destruct Hk2 as (_ & A & B & C). rewrite C, Ec1. auto.
      * destruct (Hoth i Hne) as (A & B & C).
        intros x' y' z' vx' vy' vz' Ep' Ev'.
        specialize (Hdone i ltac:(lia) x' y' z' vx' vy' vz' Ep' Ev').
        rewrite A, B, C. exact Hdone.
  - intros [[pos' col'] vel'] rt' (A & B & C & D & _ & E). auto.
Qed.

(** Smoothing three slots, slot by slot. *)
Lemma smoothTriple_content rate targets a i3 rt :
  (i3 + 2 < f32_length targets)%nat -> (i3 + 2 < f32_length a)%nat ->
  succeeds (smoothTriple rate targets a i3) rt
    (fun a' rt' =>
       rt' = rt /\ resized a a' /\
       (forall s, (s < i3 \/ i3 + 3 <= s)%nat -> slot a' s = slot a s) /\
       (forall s t v, (i3 <= s < i3 + 3)%nat ->
          slot targets s = Some t -> slot a s = Some v ->
          holds (slot a' s) (smooth rate t v))).
Proof.
  intros Ht Ha. unfold smoothTriple.
  apply succeeds_bind, smoothToward_ok; [lia|lia|]. intros t0 v0 T0 A0.
  apply succeeds_bind, smoothToward_ok; [lia|in_range|]. intros t1 v1 T1 A1.
  slots_in A1.
  apply smoothToward_ok; [lia|in_range|]. intros t2 v2 T2 A2.
  slots_in A2.
  split; [reflexivity|]. split; [auto with shape|]. split.
  - intros s Hs. slots. reflexivity.
  - intros s t v Hs Ts As.
    assert (Cases : s = i3 \/ s = (i3 + 1)%nat \/ s = (i3 + 2)%nat) by lia.
    destruct Cases as [-> | [-> | ->]]; slots.
    + rewrite T0 in Ts. rewrite A0 in As.
      apply Some_inj in Ts, As. subst. apply holds_Qred.
    + rewrite T1 in Ts. rewrite A1 in As.
      apply Some_inj in Ts, As. subst. apply holds_Qred.
    + rewrite T2 in Ts. rewrite A2 in As.
      apply Some_inj in Ts, As. subst. apply holds_Qred.
Qed.

(** The loop of phase 0 smooths every slot of the positions toward the
    heart and every slot of the colours toward the heart colours. *)
Lemma heartIdle_loop_content cl pos col rt :
  shaped (heart_count cl) (heartPositions cl) ->
  shaped (heart_count cl) (heartColors cl) ->
  shaped (heart_count cl) pos -> shaped (heart_count cl) col ->
  succeeds (forUpTo (heart_count cl) (heartIdleBody cl) (pos, col)) rt
    (fun s rt' =>
       rt' = rt /\ resized pos (fst s) /\ resized col (snd s) /\
       smoothedToward 0.08 (heartPositions cl) pos (fst s) /\
       smoothedToward 0.08 (heartColors cl) col (snd s)).
Proof.
  intros Hhp Hhc Hp Hc. set (n := heart_count cl) in *.
  apply (succeeds_forUpTo
           (fun k s rt' =>
              rt' = rt /\ resized pos (fst s) /\ resized col (snd s) /\
              (forall s0, (k * 3 <= s0)%nat ->
                 slot (fst s) s0 = slot pos s0 /\ slot (snd s) s0 = slot col s0) /\
              (forall s0 t v, (s0 < k * 3)%nat ->
                 (slot (heartPositions cl) s0 = Some t -> slot pos s0 = Some v ->
                  holds (slot (fst s) s0) (smooth 0.08 t v)) /\
                 (slot (heartColors cl) s0 = Some t -> slot col s0 = Some v ->
                  holds (slot (snd s) s0) (smooth 0.08 t v))))).
  - cbn [fst snd]. repeat split; auto with shape; lia.
  - intros k [pos1 col1] rt1 Hk (-> & Rp & Rc & Hrest & Hdone).
    cbn [fst snd] in *. unfold heartIdleBody.
    apply succeeds_bind. eapply succeeds_mono.
    { apply smoothTriple_content; eapply particle_in_range;
        eauto using resized_shaped. }
    intros pos2 rt2 (-> & Rp2 & Op & Sp).
    apply succeeds_bind. eapply succeeds_mono.
    { apply smoothTriple_content; eapply particle_in_range;
        eauto using resized_shaped. }
    intros col2 rt3 (-> & Rc2 & Oc & Sc). apply succeeds_ret. cbn [fst snd].
    split; [reflexivity|]. split; [eauto using resized_trans|].
    split; [eauto using resized_trans|]. split.
    + intros s0 Hs0. rewrite Op, Oc by lia. apply Hrest. lia.
    + intros s0 t v Hs0.
      destruct (Nat.lt_ge_cases s0 (k * 3)) as [Hlt|Hge].
      * destruct (Hdone s0 t v Hlt) as [Dp Dc].
        rewrite Op, Oc by lia. auto.
      * destruct (Hrest s0 Hge) as [Ep Ec]. split; intros Ts As.
        -- apply Sp; [lia|exact Ts|]. rewrite Ep. exact As.
        -- apply Sc; [lia|exact Ts|]. rewrite Ec. exact As.
  - intros [pos' col'] rt' (A & B & C & _ & D). cbn [fst snd] in *.
    split; [exact A|]. split; [exact B|]. split; [exact C|].
    assert (Hin : forall (a : Float32Array) s0 v, shaped n a ->
                    slot a s0 = Some v -> (s0 < n * 3)%nat).
    { intros a s0 v Ha Hs. unfold slot in Hs. unfold shaped, f32_length in Ha.
      rewrite <- Ha. apply nth_error_Some. congruence. }
    split; intros s0 t v Ts As.
    + apply (D s0 t v); eauto.
    + apply (D s0 t v); eauto.
Qed.

(** Frames with the hand inactive end in phase 0 whatever the phase was:
    nothing is drawn and the velocities are not touched. *)
Lemma heartFrames_released time k :
  forall cl p rt,
    heartReady cl p ->
    succeeds (heartFrames h time false k cl p) rt
      (fun res rt' =>
         phase (fst res) = match k with O => phase cl | S _ => 0%nat end /\
         rt' = rt /\
         explosionVelocities (fst res) = explosionVelocities cl).
Proof.
  induction k as [|k IH]; intros cl p rt Hr.
  - apply succeeds_ret. cbn [fst snd]. auto.
  - cbn [heartFrames]. apply succeeds_bind. eapply succeeds_mono.
    { apply (heartFrame_idle h cl p time false rt (launchHeight cl) Hr).
      unfold heartGate. destruct (phase cl); reflexivity. }
    intros [cl1 p1] rt1 (Hr1 & _ & _ & Hph1 & -> & Hv). cbn [fst snd] in *.
    eapply succeeds_mono.
    { apply (IH cl1 p1 rt Hr1). }
    intros res rt2 (A & B & C). split; [|split; [exact B|congruence]].
    destruct k; congruence.
Qed.

(** C2 (as amended).  Phase 2 (EXPLODE) of the heart firework, for a
    closure and a points object in the shape [initHeartFirework] builds.
    - With the hand active the frame stays in phase 2 and every particle
      whose height after the integration step is below -100 is put at the
      launch origin with a velocity sampled from draws of its own (and the
      sky colour); every other particle is integrated and damped.
    - With the hand inactive the gate leaves phase 2 at once: the frame ends
      in phase 0, takes no draw, leaves the velocities alone and smooths
      every position toward the heart instead of integrating it; later
      frames with the hand inactive stay in phase 0.  So no particle is
      respawned after the release, but not because it stalls in phase 2. *)
Theorem heart_explode_and_release :
  forall (cl : HeartFireworkClosure) (p : Points) (col : Float32Array)
         (time : Q) (rt : Runtime),
    heartReady cl p -> colorAttr p = Some col -> phase cl = 2%nat ->
    succeeds (heartFireworkFrame h time true cl p) rt
      (fun res rt' =>
         phase (fst res) = 2%nat /\ heartReady (fst res) (snd res) /\
         rt' = afterDraws (6 * respawnsBefore (position p) (explosionVelocities cl)
                                              (heart_count cl)) rt /\
         exists col',
           colorAttr (snd res) = Some col' /\
           forall i, (i < heart_count cl)%nat ->
             explodeOutcome h (skyBlue cl) (drawn rt)
               (position p) col (explosionVelocities cl)
               (position (snd res)) col' (explosionVelocities (fst res)) i) /\
    succeeds (heartFireworkFrame h time false cl p) rt
      (fun res rt' =>
         phase (fst res) = 0%nat /\ heartReady (fst res) (snd res) /\
         rt' = rt /\
         explosionVelocities (fst res) = explosionVelocities cl /\
         smoothedToward 0.08 (heartPositions cl) (position p)
                        (position (snd res))) /\
    (forall k,
       succeeds (heartFrames h time false (S k) cl p) rt
         (fun res rt' =>
            phase (fst res) = 0%nat /\ rt' = rt /\
            explosionVelocities (fst res) = explosionVelocities cl)).
Proof.
  intros cl p col time rt Hr Ecol Hph.
  pose proof Hr as (Hp & (col0 & Ecol0 & Hc) & Hhp & Hhc & Hv).
  assert (col0 = col) by congruence. subst col0.
  split; [|split].
  - unfold heartFireworkFrame. apply succeeds_bind.
    apply (colorArray_ok _ col); [exact Ecol|].
    unfold heartGate. rewrite Hph. cbn [Nat.eqb].
    apply succeeds_bind. eapply succeeds_mono.
    { apply heartExplode_loop_ok; eauto. }
    intros [[pos1 col1] vel1] rt1 (-> & Rp & Rc & Rv & Hout).
    apply succeeds_ret. cbn [fst snd].
    split; [reflexivity|].
    split; [apply heartReady_update; eauto using resized_shaped|].
    split; [reflexivity|].
    exists col1. split; [reflexivity|]. exact Hout.
  - unfold heartFireworkFrame. apply succeeds_bind.
    apply (colorArray_ok _ col); [exact Ecol|].
    unfold heartGate. rewrite Hph. cbn [Nat.eqb negb].
    apply succeeds_bind. eapply succeeds_mono.
    { apply heartIdle_loop_content; eauto. }
    intros [pos1 col1] rt1 (-> & Rp & Rc & Sp & Sc). cbn [fst snd] in *.
    apply succeeds_ret. cbn [fst snd].
    split; [reflexivity|].
    split; [apply heartReady_update; eauto using resized_shaped|].
    split; [reflexivity|]. split; [reflexivity|]. exact Sp.
  - intro k. eapply succeeds_mono.
    { apply (heartFrames_released time (S k) cl p rt Hr). }
    intros res rt1 (A & B & C). auto.
Qed.

End HeartExplode.

Lemma sampleExploding_ready : heartReady sampleExploding sampleSunk.
Proof.
  unfold heartReady, shaped. cbn.
  split; [reflexivity|]. split; [eexists; split; reflexivity|].
  repeat split.
Qed.

Lemma heart_explode_and_release_witness :
  unitStream sampleHost /\ heartReady sampleExploding sampleSunk /\
  phase sampleExploding = 2%nat /\
  succeeds (heartFireworkFrame sampleHost 0 false sampleExploding sampleSunk)
           startRuntime
    (fun res rt' =>
       phase (fst res) = 0%nat /\ heartReady (fst res) (snd res) /\
       rt' = startRuntime /\
       explosionVelocities (fst res) = explosionVelocities sampleExploding /\
       smoothedToward 0.08 (heartPositions sampleExploding) (position sampleSunk)
                      (position (snd res))).
Proof.
  split; [exact sampleStream_unit|]. split; [exact sampleExploding_ready|].
  split; [reflexivity|].
  apply (heart_explode_and_release sampleHost sampleStream_unit sampleExploding
           sampleSunk (mkF32 2 [1; 0.5; 0.5]) 0 startRuntime
           sampleExploding_ready eq_refl eq_refl).
Defined.

(** C2, as stated, fails: phase 2 has an exit.  With the hand inactive the
    frame ends in phase 0 and the sunk particle, at height -150 with
    vertical velocity -1, is neither left in place nor integrated to -151:
    it is smoothed toward the heart, to -137.6. *)
Lemma heart_release_leaves_explode :
  exists cl' p' rt',
    heartFireworkFrame sampleHost 0 false sampleExploding sampleSunk startRuntime
      = Ok (cl', p', rt') /\
    phase sampleExploding = 2%nat /\ phase cl' = 0%nat /\
    holds (slot (position sampleSunk) 1) (-150) /\
    holds (slot (position p') 1) (-137.6).
Proof.
  destruct (heartFireworkFrame sampleHost 0 false sampleExploding sampleSunk
              startRuntime) as [[[cl' p'] rt']|f] eqn:E.
  - exists cl', p', rt'. split; [reflexivity|].
    vm_compute in E. injection E as <- <- _.
    split; [reflexivity|]. split; [reflexivity|].
    split; vm_compute; reflexivity.
  - vm_compute in E. discriminate E.
Qed.

(** ** The smoothing step *)

Section Smoothing.

Variables T r : Q.

Lemma smooth_gap c : smooth r T c - T == (1 - r) * (c - T).
Proof. unfold smooth. ring. Qed.

Lemma smooth_distance c :
  0 <= 1 - r -> Qabs (smooth r T c - T) == (1 - r) * Qabs (c - T).
Proof.
  intro Hq. rewrite smooth_gap, Qabs_Qmult, (Qabs_pos (1 - r)) by exact Hq.
  reflexivity.
Qed.

(** After [m] steps the distance, scaled by [q + m r], is still below [q]
    times the initial distance (Bernoulli's inequality without division). *)
Lemma smooth_decay c m :
  0 < r -> r < 1 ->
  Qabs (Nat.iter m (smooth r T) c - T) <= Qabs (c - T) /\
  Qabs (Nat.iter m (smooth r T) c - T) * ((1 - r) + ofNat m * r)
    <= (1 - r) * Qabs (c - T).
Proof.
  intros Hr0 Hr1. induction m as [|m [IH1 IH2]].
  - change (Nat.iter 0 (smooth r T) c) with c. change (ofNat 0) with 0.
    split; [apply Qle_refl|].
    assert (E : Qabs (c - T) * (1 - r + 0 * r) == (1 - r) * Qabs (c - T)) by ring.
    rewrite E. apply Qle_refl.
  - rewrite !Nat.iter_succ. set (x := Nat.iter m (smooth r T) c) in *.
    rewrite smooth_distance by lra. rewrite ofNat_S.
    pose proof (Qabs_nonneg (x - T)) as Ha.
    pose proof (Qabs_nonneg (c - T)) as Hd.
    set (a := Qabs (x - T)) in *. set (D := Qabs (c - T)) in *.
    set (M := ofNat m) in *.
    assert (HM : 0 <= M).
    { unfold M, ofNat. change 0 with (inject_Z 0). rewrite <- Zle_Qle. lia. }
    split.
    + assert (Hqa : (1 - r) * a <= 1 * a).
      { apply Qmult_le_compat_r; lra. }
      lra.
    + assert (H1 : (1 - r) * (a * (1 - r + M * r)) <= (1 - r) * ((1 - r) * D)).
      { apply Qmult_le_l; [lra|exact IH2]. }
      assert (H2 : ((1 - r) * r) * a <= ((1 - r) * r) * D).
      { apply Qmult_le_l; [|exact IH1].
        apply Qmult_lt_0_compat; lra. }
      assert (E1 : (1 - r) * a * (1 - r + (M + 1) * r) ==
                   (1 - r) * (a * (1 - r + M * r)) + ((1 - r) * r) * a) by ring.
      assert (E2 : (1 - r) * ((1 - r) * D) + ((1 - r) * r) * D == (1 - r) * D)
        by ring.
      rewrite E1, <- E2. apply Qplus_le_compat; assumption.
Qed.

(** C7.  The smoothing step [current += (target - current) * r] toward a
    fixed target [T]:
    - for [0 < r < 1] one step multiplies the distance to [T] by [1 - r];
    - for [0 < r < 1] the iterates come and stay within any tolerance
      [eps > 0] of [T] after finitely many steps;
    - for [r <= 1] the step never crosses [T]: from below it stays below,
      from above it stays above. *)
Theorem smooth_is_contraction :
  forall c : Q,
    (0 < r -> r < 1 ->
       Qabs (smooth r T c - T) == (1 - r) * Qabs (c - T)) /\
    (0 < r -> r < 1 ->
       forall eps, 0 < eps ->
         exists n, forall m, (n <= m)%nat ->
           Qabs (Nat.iter m (smooth r T) c - T) < eps) /\
    (r <= 1 ->
       (c <= T -> smooth r T c <= T) /\ (T <= c -> T <= smooth r T c)).
Proof.
  intro c. split; [|split].
  - intros Hr0 Hr1. apply smooth_distance. lra.
  - intros Hr0 Hr1 eps Heps.
    pose proof (Qabs_nonneg (c - T)) as Hd. set (D := Qabs (c - T)) in *.
    assert (Hre : 0 < r * eps) by (apply Qmult_lt_0_compat; assumption).
    set (b := D / (r * eps)).
    assert (Hb : 0 <= b).
    { unfold b. apply Qle_shift_div_l; [exact Hre|]. lra. }
    exists (Z.to_nat (Qceiling b)). intros m Hm.
    destruct (smooth_decay c m Hr0 Hr1) as [_ Hdec]. fold D in Hdec.
    set (a := Qabs (Nat.iter m (smooth r T) c - T)) in *.
    assert (HM : b <= ofNat m).
    { apply Qle_trans with (inject_Z (Qceiling b)); [apply Qle_ceiling|].
      unfold ofNat. rewrite <- Zle_Qle.
      assert (0 <= Qceiling b)%Z.
      { change 0%Z with (Qceiling 0). apply Qceiling_resp_le. exact Hb. }
      lia. }
    assert (HD : D <= ofNat m * (r * eps)).
    { assert (E : D == b * (r * eps)).
      { unfold b. field. lra. }
      rewrite E. apply Qmult_le_compat_r; lra. }
    set (K := 1 - r + ofNat m * r) in *.
    assert (HK : 0 < K).
    { unfold K. assert (0 <= ofNat m * r).
      { apply Qmult_le_0_compat; lra. }
      lra. }
    assert (Hlt : (1 - r) * D < eps * K).
    { assert (E : eps * K == (1 - r) * eps + ofNat m * (r * eps)) by (unfold K; ring).
      rewrite E.
      assert ((1 - r) * D <= 1 * D) by (apply Qmult_le_compat_r; lra).
      assert (0 < (1 - r) * eps) by (apply Qmult_lt_0_compat; lra).
      lra. }
    apply Qnot_le_lt. intro Hge.
    assert (eps * K <= a * K) by (apply Qmult_le_compat_r; lra).
    lra.
  - intros Hr1. unfold smooth. split; intro Hc.
    + assert (r * (T - c) <= 1 * (T - c)) by (apply Qmult_le_compat_r; lra).
      lra.
    + assert (r * (c - T) <= 1 * (c - T)) by (apply Qmult_le_compat_r; lra).
      lra.
Qed.

End Smoothing.

Lemma smooth_is_contraction_witness :
  Qabs (smooth 0.08 10 0 - 10) == (1 - 0.08) * Qabs (0 - 10) /\
  (exists n, forall m, (n <= m)%nat ->
     Qabs (Nat.iter m (smooth 0.08 10) 0 - 10) < 0.001) /\
  smooth 0.08 10 0 <= 10.
Proof.
  destruct (smooth_is_contraction 10 0.08 0) as (A & B & C).
  split; [apply A; reflexivity|].
  split; [apply B; reflexivity|].
  apply C; discriminate.
Defined.

(** ** Rain *)

Lemma rainFall_compat v s y y' : y == y' -> rainFall v s y == rainFall v s y'.
Proof.
  intro E. unfold rainFall.
  assert (Ec : Qltb (y - v * s) (-100) = Qltb (y' - v * s) (-100)).
  { destruct (Qltb (y' - v * s) (-100)) eqn:C.
    - apply Qltb_true. apply Qltb_true in C. rewrite E. exact C.
    - apply Qltb_false. apply Qltb_false in C. rewrite E. exact C. }
  rewrite Ec. destruct (Qltb (y' - v * s) (-100)); [reflexivity|].
  rewrite E. reflexivity.
Qed.

Lemma rainFall_floor v s y : -100 <= rainFall v s y.
Proof.
  unfold rainFall. destruct (Qltb (y - v * s) (-100)) eqn:C.
  - discriminate.
  - apply Qltb_false in C. exact C.
Qed.

Lemma rainBody_ok cl pos i rt :
  shaped (count (rain_config cl)) pos ->
  f32_length (rain_velocities cl) = count (rain_config cl) ->
  (i < count (rain_config cl))%nat ->
  succeeds (rainBody cl i pos) rt
    (fun pos' rt' =>
       rt' = rt /\ resized pos pos' /\
       (forall s, s <> (i * 3 + 1)%nat -> slot pos' s = slot pos s) /\
       (forall y v, slot pos (i * 3 + 1) = Some y ->
                    slot (rain_velocities cl) i = Some v ->
                    holds (slot pos' (i * 3 + 1))
                          (rainFall v (speed (rain_config cl)) y))).
Proof.
  intros Hp Hv Hi. pose proof (particle_in_range _ _ _ Hp Hi) as Rp.
  unfold rainBody.
  apply succeeds_bind, succeeds_get; [lia|]. intros v Ev.
  apply succeeds_bind, succeeds_modify; [lia|]. intros y Ey.
  apply succeeds_bind, succeeds_get; [in_range|]. intros y1 Ey1.
  slots_in Ey1. apply Some_inj in Ey1. subst y1.
  rewrite Qltb_Qred.
  destruct (Qltb (y - v * speed (rain_config cl)) (-100)) eqn:C;
    apply succeeds_ret; (split; [reflexivity|]); (split; [auto with shape|]);
    split.
  - intros s Hs. slots. reflexivity.
  - intros y' v' Ey' Ev'. rewrite Ey in Ey'. rewrite Ev in Ev'.
    apply Some_inj in Ey', Ev'. subst. slots. unfold rainFall. rewrite C.
    apply holds_Qred.
  - intros s Hs. slots. reflexivity.
  - intros y' v' Ey' Ev'. rewrite Ey in Ey'. rewrite Ev in Ev'.
    apply Some_inj in Ey', Ev'. subst. slots. unfold rainFall. rewrite C.
    apply holds_Qred.
Qed.

Lemma rain_loop_ok cl pos rt :
  shaped (count (rain_config cl)) pos ->
  f32_length (rain_velocities cl) = count (rain_config cl) ->
  succeeds (forUpTo (count (rain_config cl)) (rainBody cl) pos) rt
    (fun pos' rt' =>
       rt' = rt /\ resized pos pos' /\
       rained (speed (rain_config cl)) (rain_velocities cl) pos pos'
              (count (rain_config cl))).
Proof.
  intros Hp Hv. set (n := count (rain_config cl)) in *.
  apply (succeeds_forUpTo
           (fun k pos' rt' =>
              rt' = rt /\ resized pos pos' /\
              (forall s, (k * 3 <= s)%nat -> slot pos' s = slot pos s) /\
              rained (speed (rain_config cl)) (rain_velocities cl) pos pos' k)).
  - split; [reflexivity|]. split; [auto with shape|]. split; [auto|].
    intros i y v Hi. lia.
  - intros k pos1 rt1 Hk (-> & Rp & Hrest & Hdone).
    eapply succeeds_mono.
    { apply rainBody_ok; eauto using resized_shaped. }
    intros pos2 rt2 (-> & Rp2 & Hoth & Hk2).
    split; [reflexivity|]. split; [eauto using resized_trans|]. split.
    + intros s Hs. rewrite Hoth by lia. apply Hrest. lia.
    + intros i y v Hi Ey Ev. destruct (Nat.eq_dec i k) as [->|Hne].
      * apply Hk2; [|exact Ev]. rewrite Hrest by lia. exact Ey.
      * rewrite Hoth by lia. apply Hdone; [lia|exact Ey|exact Ev].
  - intros pos' rt' (A & B & _ & C). auto.
Qed.

Section CakeRain.

Variable h : Host.

Lemma cakeRainBody_ok cl pos col i rt :
  shaped (count (cake_config cl)) pos -> shaped (count (cake_config cl)) col ->
  f32_length (cake_velocities cl) = count (cake_config cl) ->
  (i < count (cake_config cl))%nat ->
  succeeds (cakeRainBody h cl i (pos, col)) rt
    (fun s rt' =>
       (exists m, rt' = afterDraws m rt) /\
       resized pos (fst s) /\ resized col (snd s) /\
       (forall s0, (s0 < i * 3 \/ i * 3 + 3 <= s0)%nat ->
          slot (fst s) s0 = slot pos s0) /\
       (forall y v, slot pos (i * 3 + 1) = Some y ->
                    slot (cake_velocities cl) i = Some v ->
                    holds (slot (fst s) (i * 3 + 1))
                          (rainFall v (speed (cake_config cl)) y))).
Proof.
  intros Hp Hc Hv Hi.
  pose proof (particle_in_range _ _ _ Hp Hi) as Rp.
  pose proof (particle_in_range _ _ _ Hc Hi) as Rc.
  unfold cakeRainBody.
  apply succeeds_bind, succeeds_get; [lia|]. intros v Ev.
  apply succeeds_bind, succeeds_modify; [lia|]. intros y Ey.
  apply succeeds_bind, succeeds_get; [in_range|]. intros y1 Ey1.
  slots_in Ey1. apply Some_inj in Ey1. subst y1.
  rewrite Qltb_Qred.
  destruct (Qltb (y - v * speed (cake_config cl)) (-100)) eqn:C.
  - apply succeeds_bind.
    apply succeeds_bind, succeeds_random.
    apply succeeds_bind, succeeds_random. apply succeeds_ret.
    apply succeeds_bind, smoothAt_ok; [lia|]. intros c0 _.
    apply succeeds_bind, smoothAt_ok; [in_range|]. intros c1 _.
    apply succeeds_bind, smoothAt_ok; [in_range|]. intros c2 _.
    apply succeeds_ret. cbn [fst snd].
    split; [exists 2%nat; rewrite !afterDraw_is, afterDraws_afterDraws; reflexivity|].
    split; [auto 10 with shape|]. split; [auto 10 with shape|]. split.
    + intros s0 Hs0. slots. reflexivity.
    + intros y' v' Ey' Ev'. rewrite Ey in Ey'. rewrite Ev in Ev'.
      apply Some_inj in Ey', Ev'. subst. slots. unfold rainFall. rewrite C.
      apply holds_Qred.
  - apply succeeds_bind, succeeds_ret.
    apply succeeds_bind, smoothAt_ok; [lia|]. intros c0 _.
    apply succeeds_bind, smoothAt_ok; [in_range|]. intros c1 _.
    apply succeeds_bind, smoothAt_ok; [in_range|]. intros c2 _.
    apply succeeds_ret. cbn [fst snd].
    split; [exists 0%nat; rewrite afterDraws_0; reflexivity|].
    split; [auto 10 with shape|]. split; [auto 10 with shape|]. split.
    + intros s0 Hs0. slots. reflexivity.
    + intros y' v' Ey' Ev'. rewrite Ey in Ey'. rewrite Ev in Ev'.
      apply Some_inj in Ey', Ev'. subst. slots. unfold rainFall. rewrite C.
      apply holds_Qred.
Qed.

Lemma cakeRain_loop_ok cl pos col rt :
  shaped (count (cake_config cl)) pos -> shaped (count (cake_config cl)) col ->
  f32_length (cake_velocities cl) = count (cake_config cl) ->
  succeeds (forUpTo (count (cake_config cl)) (cakeRainBody h cl) (pos, col)) rt
    (fun s rt' =>
       (exists m, rt' = afterDraws m rt) /\
       resized pos (fst s) /\ resized col (snd s) /\
       rained (speed (cake_config cl)) (cake_velocities cl) pos (fst s)
              (count (cake_config cl))).
Proof.
  intros Hp Hc Hv. set (n := count (cake_config cl)) in *.
  apply (succeeds_forUpTo
           (fun k s rt' =>
              (exists m, rt' = afterDraws m rt) /\
              resized pos (fst s) /\ resized col (snd s) /\
              (forall s0, (k * 3 <= s0)%nat -> slot (fst s) s0 = slot pos s0) /\
              rained (speed (cake_config cl)) (cake_velocities cl) pos (fst s) k)).
  - cbn [fst snd]. split; [exists 0%nat; rewrite afterDraws_0; reflexivity|].
    split; [auto with shape|]. split; [auto with shape|]. split; [auto|].
    intros i y v Hi. lia.
  - intros k [pos1 col1] rt1 Hk ((m1 & ->) & Rp & Rc & Hrest & Hdone).
    cbn [fst snd] in *.
    eapply succeeds_mono.
    { apply cakeRainBody_ok; eauto using resized_shaped. }
    intros [pos2 col2] rt2 ((m2 & ->) & Rp2 & Rc2 & Hoth & Hk2).
    cbn [fst snd] in *.
    split; [exists (m1 + m2)%nat; apply afterDraws_afterDraws|].
    split; [eauto using resized_trans|]. split; [eauto using resized_trans|].
    split.
    + intros s0 Hs0. rewrite Hoth by lia. apply Hrest. lia.
    + intros i y v Hi Ey Ev. destruct (Nat.eq_dec i k) as [->|Hne].
      * apply Hk2; [|exact Ev]. rewrite Hrest by lia. exact Ey.
      * rewrite Hoth by lia. apply Hdone; [lia|exact Ey|exact Ev].
  - intros [pos' col'] rt' (A & B & C & _ & D). cbn [fst snd] in *. auto.
Qed.

End CakeRain.

Section RainCycle.

Variables v s : Q.

Lemma ofNat_ceiling x : x <= ofNat (Z.to_nat (Qceiling x)).
Proof.
  apply Qle_trans with (inject_Z (Qceiling x)); [apply Qle_ceiling|].
  unfold ofNat. rewrite <- Zle_Qle. lia.
Qed.

(** Either some frame before [N] sees the drop under the floor, or the drop
    has fallen [N] steps in a row. *)
Lemma rain_falls N y :
  (exists j, (j < N)%nat /\ fallen v s (Nat.iter j (rainFall v s) y) < -100) \/
  Nat.iter N (rainFall v s) y == y - ofNat N * (v * s).
Proof.
  induction N as [|N [(j & Hj & F)|E]].
  - right. change (Nat.iter 0 (rainFall v s) y) with y.
    change (ofNat 0) with 0. ring.
  - left. exists j. split; [lia|exact F].
  - destruct (Qlt_le_dec (fallen v s (Nat.iter N (rainFall v s) y)) (-100))
      as [F|F].
    + left. exists N. split; [lia|exact F].
    + right. rewrite Nat.iter_succ. unfold rainFall at 1.
      unfold fallen in F. apply Qltb_false in F. rewrite F.
      rewrite E, ofNat_S. ring.
Qed.

Lemma rain_resets y : 0 < v * s ->
  exists j, fallen v s (Nat.iter j (rainFall v s) y) < -100.
Proof.
  intro Hvs. set (bnd := (y + 100) / (v * s)).
  set (N := Z.to_nat (Qceiling bnd)).
  destruct (rain_falls N y) as [(j & _ & F)|E].
  - exists j. exact F.
  - exists N. unfold fallen. rewrite E.
    pose proof (ofNat_ceiling bnd) as HN. fold N in HN.
    set (w := v * s) in *.
    assert (Hb : y + 100 == bnd * w).
    { unfold bnd. field. lra. }
    assert (bnd * w <= ofNat N * w).
    { apply Qmult_le_compat_r; lra. }
    lra.
Qed.

Lemma rain_resets_forever y : 0 < v * s ->
  forall k, exists n, (k <= n)%nat /\
    fallen v s (Nat.iter n (rainFall v s) y) < -100 /\
    Nat.iter (S n) (rainFall v s) y = 100.
Proof.
  intros Hvs k.
  destruct (rain_resets (Nat.iter k (rainFall v s) y) Hvs) as (j & F).
  rewrite <- Nat.iter_add in F.
  exists (j + k)%nat. split; [lia|]. split; [exact F|].
  rewrite Nat.iter_succ. unfold rainFall at 1.
  unfold fallen in F. apply Qltb_true in F. rewrite F. reflexivity.
Qed.

End RainCycle.

Section RainLoop.

Variable h : Host.

Lemma catLatch_inactive cl m rt :
  handStateIsActive m = false ->
  catLatch h cl m rt = Ok (withCatDetected cl false, m, rt) \/
  (isCatDetected cl = false /\ catLatch h cl m rt = Ok (cl, m, rt)).
Proof.
  intro Hh. unfold catLatch. rewrite Hh. cbn [andb negb].
  destruct (isCatDetected cl); [left|right]; auto.
Qed.

(** A frame of the cat-cake callback with the hand inactive is a frame of
    rain. *)
Lemma catCake_rain_frame time cl m p rt :
  particles m = Some p -> cakeReady cl p -> handStateIsActive m = false ->
  succeeds (catCakeCallback h time cl m) rt
    (fun res _ =>
       exists p',
         particles (snd res) = Some p' /\ cakeReady (fst res) p' /\
         isCatDetected (fst res) = false /\
         rained (speed (cake_config cl)) (cake_velocities cl)
                (position p) (position p') (count (cake_config cl))).
Proof.
  intros Hm (Hp & (col & Ecol & Hc) & Hv & Hcp & Hcc & Hfl) Hh.
  unfold catCakeCallback. rewrite Hm.
  apply succeeds_bind, (colorArray_ok _ col); [exact Ecol|].
  assert (Hlatch : exists cl1,
            catLatch h cl m rt = Ok (cl1, m, rt) /\ isCatDetected cl1 = false /\
            cake_config cl1 = cake_config cl /\
            cake_velocities cl1 = cake_velocities cl /\
            cakePositions cl1 = cakePositions cl /\
            cakeColors cl1 = cakeColors cl /\
            flameStartIndex cl1 = flameStartIndex cl).
  { destruct (catLatch_inactive cl m rt Hh) as [E|[D E]].
    - exists (withCatDetected cl false). repeat split; auto.
    - exists cl. repeat split; auto. }
  destruct Hlatch as (cl1 & E & D & Ecfg & Evel & Ecp & Ecc & Efl).
  apply succeeds_bind. exists (cl1, m), rt. split; [exact E|].
  cbn beta iota. unfold catCakeFrame. rewrite D.
  apply succeeds_bind, succeeds_bind. eapply succeeds_mono.
  { apply (cakeRain_loop_ok h cl1); rewrite ?Ecfg, ?Evel; eauto. }
  intros [pos1 col1] rt1 (_ & Rp & Rc & Hrain). cbn [fst snd] in *.
  apply succeeds_ret, succeeds_ret. cbn [fst snd].
  exists (setColorAttr (setPosition (setRotationY p 0) pos1) col1).
  split; [reflexivity|]. split.
  - unfold cakeReady. cbn. rewrite Ecfg, Evel, Ecp, Ecc, Efl.
    split; [eauto using resized_shaped|].
    split; [exists col1; split; [reflexivity|eauto using resized_shaped]|].
    auto.
  - split; [exact D|]. rewrite Ecfg, Evel in Hrain. exact Hrain.
Qed.

(** C6.  The rain loop.
    - One advance of the rain effect, and one advance of the cat-cake effect
      with the hand inactive, leave every drop at [rainFall] of its height:
      lowered by its own velocity times the configured speed and, if that is
      below -100, put back at 100 within the same advance.
    - After an advance every height is at least -100, hence at least -100
      minus one step, and the height the reset test looks at is at most one
      step below -100 for a drop that started at or above it.
    - For a positive step the cycle never ends: whatever the height and
      however many advances went by, a later advance finds the drop under
      the floor and puts it back at 100. *)
Theorem rain_loops_forever :
  (forall cl m p rt,
     particles m = Some p -> rainReady cl p ->
     succeeds (rainCallback cl m) rt
       (fun m' _ =>
          exists p', particles m' = Some p' /\ rainReady cl p' /\
            rained (speed (rain_config cl)) (rain_velocities cl)
                   (position p) (position p') (count (rain_config cl)))) /\
  (forall time cl m p rt,
     particles m = Some p -> cakeReady cl p -> handStateIsActive m = false ->
     succeeds (catCakeCallback h time cl m) rt
       (fun res _ =>
          exists p', particles (snd res) = Some p' /\ cakeReady (fst res) p' /\
            isCatDetected (fst res) = false /\
            rained (speed (cake_config cl)) (cake_velocities cl)
                   (position p) (position p') (count (cake_config cl)))) /\
  (forall v s y,
     rainFall v s y = (if Qltb (y - v * s) (-100) then 100 else y - v * s) /\
     -100 <= rainFall v s y /\
     (0 <= v * s -> -100 - v * s <= rainFall v s y) /\
     (-100 <= y -> -100 - v * s <= fallen v s y)) /\
  (forall v s y, 0 < v * s ->
     forall k, exists n, (k <= n)%nat /\
       fallen v s (Nat.iter n (rainFall v s) y) < -100 /\
       Nat.iter (S n) (rainFall v s) y = 100).
Proof.
  split; [|split; [|split]].
  - intros cl m p rt Hm [Hp Hv]. unfold rainCallback. rewrite Hm.
    apply succeeds_bind. eapply succeeds_mono.
    { apply rain_loop_ok; eauto. }
    intros pos1 rt1 (_ & Rp & Hrain). apply succeeds_ret.
    exists (setPosition p pos1). split; [reflexivity|]. split; [|exact Hrain].
    split; [cbn; eauto using resized_shaped|exact Hv].
  - intros time cl m p rt. apply catCake_rain_frame.
  - intros v s y. pose proof (rainFall_floor v s y) as Hf.
    split; [reflexivity|]. split; [exact Hf|]. split.
    + intro Hvs. lra.
    + intro Hy. unfold fallen. lra.
  - intros v s y Hvs k. apply rain_resets_forever. exact Hvs.
Qed.

End RainLoop.

Lemma rain_loops_forever_witness :
  succeeds (rainCallback sampleRain sampleRainManager) startRuntime
    (fun m' _ =>
       exists p', particles m' = Some p' /\
         holds (slot (position p') 1) 100 /\ holds (slot (position p') 4) 39.25) /\
  (exists n, (5 <= n)%nat /\
     fallen 0.5 1 (Nat.iter n (rainFall 0.5 1) (-99.8)) < -100 /\
     Nat.iter (S n) (rainFall 0.5 1) (-99.8) = 100).
Proof.
  destruct (rain_loops_forever sampleHost) as (A & _ & _ & D).
  split.
  - eapply succeeds_mono.
    { apply (A sampleRain sampleRainManager _ startRuntime eq_refl).
      split; reflexivity. }
    intros m' rt' (p' & E & _ & R). exists p'. split; [exact E|]. split.
    + apply (R 0%nat (-99.8) 0.5); [cbn; lia|reflexivity|reflexivity].
    + apply (R 1%nat 40 0.75); [cbn; lia|reflexivity|reflexivity].
  - apply D. reflexivity.
Defined.

(** ** The hand pose *)

Section HandPose.

Variable h : Host.

Lemma squares_nonneg a c d : 0 <= Math_pow2 a + Math_pow2 c + Math_pow2 d.
Proof.
  unfold Math_pow2.
  assert (Sq : forall x : Q, 0 <= x * x).
  { intro x. destruct (Qlt_le_dec x 0) as [N|P].
    - setoid_replace (x * x) with ((- x) * (- x)) by ring.
      apply Qmult_le_0_compat; lra.
    - apply Qmult_le_0_compat; assumption. }
  pose proof (Sq a). pose proof (Sq c). pose proof (Sq d). lra.
Qed.

Lemma distance_ok a o rt : distance h a o rt = Ok (distanceOf h a o, rt).
Proof.
  unfold distance, distanceOf, Math_sqrt.
  pose proof (squares_nonneg (lx a - lx o) (ly a - ly o) (lz a - lz o)) as H.
  apply Qleb_true in H. rewrite H. reflexivity.
Qed.

Lemma landmarkAt_ok ws k l rt :
  nth_error ws k = Some l -> landmarkAt ws k rt = Ok (l, rt).
Proof. unfold landmarkAt. intros ->. reflexivity. Qed.

Lemma isCurled_ok ws wrist handSize tipIdx tip rt :
  nth_error ws tipIdx = Some tip ->
  isCurled h ws wrist handSize tipIdx rt =
  Ok (Qltb (distanceOf h tip wrist) (handSize * 1.2), rt).
Proof.
  intro E. unfold isCurled.
  rewrite (bind_ok _ _ _ _ _ (landmarkAt_ok _ _ _ rt E)).
  rewrite (bind_ok _ _ _ _ _ (distance_ok tip wrist rt)). reflexivity.
Qed.

(** The flag the fist effect gets from a hand with the six landmarks the
    logic reads. *)
Lemma handGesture_fist ws wrist knuckle t8 t12 t16 t20 rt :
  nth_error ws 0 = Some wrist -> nth_error ws 9 = Some knuckle ->
  nth_error ws 8 = Some t8 -> nth_error ws 12 = Some t12 ->
  nth_error ws 16 = Some t16 -> nth_error ws 20 = Some t20 ->
  handGesture h CREATIVE_HEART_FIREWORK ws rt =
  Ok (Qltb (distanceOf h t8 wrist) (distanceOf h knuckle wrist * 1.2) &&
      Qltb (distanceOf h t12 wrist) (distanceOf h knuckle wrist * 1.2) &&
      Qltb (distanceOf h t16 wrist) (distanceOf h knuckle wrist * 1.2) &&
      Qltb (distanceOf h t20 wrist) (distanceOf h knuckle wrist * 1.2), rt).
Proof.
  intros E0 E9 E8 E12 E16 E20. unfold handGesture.
  rewrite (bind_ok _ _ _ _ _ (landmarkAt_ok _ _ _ rt E9)).
  rewrite (bind_ok _ _ _ _ _ (landmarkAt_ok _ _ _ rt E0)).
  rewrite (bind_ok _ _ _ _ _ (distance_ok knuckle wrist rt)).
  rewrite (bind_ok _ _ _ _ _ (isCurled_ok _ _ _ _ _ rt E8)).
  rewrite (bind_ok _ _ _ _ _ (isCurled_ok _ _ _ _ _ rt E12)).
  rewrite (bind_ok _ _ _ _ _ (isCurled_ok _ _ _ _ _ rt E16)).
  rewrite (bind_ok _ _ _ _ _ (isCurled_ok _ _ _ _ _ rt E20)).
  reflexivity.
Qed.

(** C8.  A fingertip is curled exactly when its distance to the wrist is
    strictly below 1.2 times the hand size (the distance from the wrist to
    landmark 9).  Hence, for the fist-triggered heart firework and a
    detected hand: with the four fingertips at distance 0 from the wrist and
    a positive hand size the flag passed on is true, and with the four
    fingertips farther than twice the hand size it is false. *)
Theorem curled_finger_classification :
  sqrtNonneg h ->
  forall (ws : list Landmark) (wrist knuckle t8 t12 t16 t20 : Landmark)
         (landmarks : list (list Landmark)) (others : list (list Landmark))
         (rt : Runtime),
    nth_error ws 0 = Some wrist -> nth_error ws 9 = Some knuckle ->
    nth_error ws 8 = Some t8 -> nth_error ws 12 = Some t12 ->
    nth_error ws 16 = Some t16 -> nth_error ws 20 = Some t20 ->
    landmarks <> [] ->
    let handSize := distanceOf h knuckle wrist in
    (forall tipIdx tip size,
       nth_error ws tipIdx = Some tip ->
       exists curled,
         isCurled h ws wrist size tipIdx rt = Ok (curled, rt) /\
         (curled = true <-> distanceOf h tip wrist < size * 1.2)) /\
    (0 < handSize ->
     distanceOf h t8 wrist == 0 -> distanceOf h t12 wrist == 0 ->
     distanceOf h t16 wrist == 0 -> distanceOf h t20 wrist == 0 ->
     detectIsActive h CREATIVE_HEART_FIREWORK (HandResult landmarks (ws :: others)) rt
       = Ok (true, rt)) /\
    (2 * handSize < distanceOf h t8 wrist -> 2 * handSize < distanceOf h t12 wrist ->
     2 * handSize < distanceOf h t16 wrist -> 2 * handSize < distanceOf h t20 wrist ->
     detectIsActive h CREATIVE_HEART_FIREWORK (HandResult landmarks (ws :: others)) rt
       = Ok (false, rt)).
Proof.
  intros Hsqrt ws wrist knuckle t8 t12 t16 t20 landmarks others rt
         E0 E9 E8 E12 E16 E20 Hl handSize.
  assert (Hdet : detectIsActive h CREATIVE_HEART_FIREWORK
                   (HandResult landmarks (ws :: others)) rt =
                 handGesture h CREATIVE_HEART_FIREWORK ws rt).
  { cbn [detectIsActive]. destruct landmarks; [congruence|]. reflexivity. }
  assert (Hsize : 0 <= handSize).
  { apply Hsqrt. apply squares_nonneg. }
  split; [|split].
  - intros tipIdx tip size E. eexists. split; [apply isCurled_ok; exact E|].
    apply Qltb_true.
  - intros Hpos D8 D12 D16 D20. rewrite Hdet.
    rewrite (handGesture_fist ws wrist knuckle t8 t12 t16 t20 rt) by assumption.
    fold handSize.
    assert (C : forall d, d == 0 -> Qltb d (handSize * 1.2) = true).
    { intros d Hd. apply Qltb_true. lra. }
    rewrite !C by assumption. reflexivity.
  - intros D8 D12 D16 D20. rewrite Hdet.
    rewrite (handGesture_fist ws wrist knuckle t8 t12 t16 t20 rt) by assumption.
    fold handSize.
    assert (C : Qltb (distanceOf h t8 wrist) (handSize * 1.2) = false).
    { apply Qltb_false. lra. }
    rewrite C. reflexivity.
Qed.

End HandPose.

Lemma sampleSqrt_nonneg : sqrtNonneg sampleHost.
Proof.
  intros x Hx. cbn [sqrt_value sampleHost]. unfold sampleSqrt.
  apply Qle_shift_div_l; [reflexivity|].
  setoid_replace (0 * 1000) with (inject_Z 0) by reflexivity.
  rewrite <- Zle_Qle. apply Z.sqrt_nonneg.
Qed.

Lemma curled_finger_classification_witness :
  detectIsActive sampleHost CREATIVE_HEART_FIREWORK
    (HandResult [sampleFist] [sampleFist]) startRuntime = Ok (true, startRuntime) /\
  detectIsActive sampleHost CREATIVE_HEART_FIREWORK
    (HandResult [sampleOpen] [sampleOpen]) startRuntime = Ok (false, startRuntime).
Proof.
  split.
  - apply (curled_finger_classification sampleHost sampleSqrt_nonneg sampleFist
             (mkLandmark 0 0 0) (mkLandmark 1 0 0) (mkLandmark 0 0 0)
             (mkLandmark 0 0 0) (mkLandmark 0 0 0) (mkLandmark 0 0 0)
             [sampleFist] [] startRuntime);
      try reflexivity; discriminate.
  - apply (curled_finger_classification sampleHost sampleSqrt_nonneg sampleOpen
             (mkLandmark 0 0 0) (mkLandmark 1 0 0) (mkLandmark 0 3 0)
             (mkLandmark 0 3 0) (mkLandmark 0 3 0) (mkLandmark 0 3 0)
             [sampleOpen] [] startRuntime);
      try reflexivity; discriminate.
Defined.

(** ** The galaxy colours *)

Lemma drawsOnly_refl rt : drawsOnly rt rt.
Proof. unfold drawsOnly. auto. Qed.

Lemma drawsOnly_trans a c d : drawsOnly a c -> drawsOnly c d -> drawsOnly a d.
Proof.
  unfold drawsOnly. intros (A1 & A2 & A3 & A4 & A5) (B1 & B2 & B3 & B4 & B5).
  repeat split; try congruence. lia.
Qed.

Lemma drawsOnly_afterDraw rt : drawsOnly rt (afterDraw rt).
Proof. unfold drawsOnly. cbn. auto. Qed.

Lemma drawsOnly_afterDraws k rt : drawsOnly rt (afterDraws k rt).
Proof. unfold drawsOnly. cbn. repeat split. lia. Qed.

#[local] Hint Resolve drawsOnly_refl drawsOnly_afterDraw drawsOnly_afterDraws : shape.

Section GalaxyColours.

Variable h : Host.

Lemma galaxyJitter_ok radius rt :
  exists j, galaxyJitter h radius rt = Ok (j, afterDraws 2 rt).
Proof.
  unfold galaxyJitter, bind, Math_random, ret. cbn.
  eexists. f_equal. f_equal. unfold afterDraws. cbn. f_equal. lia.
Qed.

(** The point of particle [i]: seven draws, and the colour mixed by the
    first of them. *)
Lemma galaxyPoint_ok ci co i rt :
  exists x y z,
    galaxyPoint h ci co i rt =
    Ok (x, y, z, lerp ci co (random_stream h (drawn rt) * 50 / 50),
        afterDraws 7 rt).
Proof.
  unfold galaxyPoint.
  unfold bind at 1. unfold Math_random at 1. cbn beta iota.
  fold (afterDraw rt).
  destruct (galaxyJitter_ok (random_stream h (drawn rt) * 50) (afterDraw rt))
    as (jx & Ex).
  rewrite (bind_ok _ _ _ _ _ Ex).
  destruct (galaxyJitter_ok (random_stream h (drawn rt) * 50)
              (afterDraws 2 (afterDraw rt))) as (jy & Ey).
  rewrite (bind_ok _ _ _ _ _ Ey).
  destruct (galaxyJitter_ok (random_stream h (drawn rt) * 50)
              (afterDraws 2 (afterDraws 2 (afterDraw rt)))) as (jz & Ez).
  rewrite (bind_ok _ _ _ _ _ Ez).
  eexists _, _, _. unfold ret. f_equal. f_equal.
  rewrite afterDraw_is, !afterDraws_afterDraws. reflexivity.
Qed.

Lemma galaxy_loop_ok ci co n positions colors rt :
  shaped n positions -> shaped n colors ->
  succeeds (forUpTo n (galaxyParticle h ci co) (positions, colors)) rt
    (fun s rt' =>
       rt' = afterDraws (7 * n) rt /\
       resized positions (fst s) /\ resized colors (snd s) /\
       forall i, (i < n)%nat ->
         holds3 (tripleAt (snd s) i)
                (colorTriple (lerp ci co (galaxyRadius h (drawn rt) i / 50)))).
Proof.
  intros Hp Hc.
  apply (succeeds_forUpTo
           (fun k s rt' =>
              rt' = afterDraws (7 * k) rt /\
              resized positions (fst s) /\ resized colors (snd s) /\
              forall i, (i < k)%nat ->
                holds3 (tripleAt (snd s) i)
                       (colorTriple (lerp ci co (galaxyRadius h (drawn rt) i / 50))))).
  - cbn [fst snd]. rewrite afterDraws_0. repeat split; auto with shape.
    intros i Hi. lia.
  - intros k [pos1 col1] rt1 Hk (-> & Rp & Rc & Hdone). cbn [fst snd] in *.
    unfold galaxyParticle.
    destruct (galaxyPoint_ok ci co k (afterDraws (7 * k) rt)) as (x & y & z & E).
    apply succeeds_bind. eexists _, _. split; [exact E|]. cbn beta iota.
    apply succeeds_ret. cbn [fst snd].
    split; [rewrite afterDraws_afterDraws; f_equal; lia|].
    split; [auto with shape|]. split; [auto with shape|].
    intros i Hi. unfold setColor. destruct (Nat.eq_dec i k) as [->|Hne].
    + rewrite tripleAt_setTriple_same by in_range. cbn [drawn afterDraws].
      unfold galaxyRadius. apply holds3_Qred.
    + rewrite tripleAt_setTriple_other by congruence. apply Hdone. lia.
  - auto.
Qed.

End GalaxyColours.

Lemma square_nonneg (x : Q) : 0 <= x * x.
Proof.
  destruct (Qlt_le_dec x 0) as [N|P].
  - setoid_replace (x * x) with ((- x) * (- x)) by ring.
    apply Qmult_le_0_compat; lra.
  - apply Qmult_le_0_compat; assumption.
Qed.

Lemma square_mono (a c : Q) : 0 <= a -> a <= c -> a * a <= c * c.
Proof.
  intros Ha Hac. apply Qle_trans with (c * a).
  - apply Qmult_le_compat_r; assumption.
  - rewrite (Qmult_comm c a). apply Qmult_le_compat_r; lra.
Qed.

Lemma square_strict (a c : Q) : 0 <= a -> a < c -> a * a < c * c.
Proof.
  intros Ha Hac. apply Qle_lt_trans with (c * a).
  - apply Qmult_le_compat_r; lra.
  - rewrite (Qmult_comm c a). apply Qmult_lt_compat_r; lra.
Qed.

Lemma colorDistance2_nonneg c1 c2 : 0 <= colorDistance2 c1 c2.
Proof.
  unfold colorDistance2.
  pose proof (square_nonneg (fst (fst c1) - fst (fst c2))).
  pose proof (square_nonneg (snd (fst c1) - snd (fst c2))).
  pose proof (square_nonneg (snd c1 - snd c2)). lra.
Qed.

Lemma colorDistance2_holds c v x :
  holds3 (Some c) v -> colorDistance2 c x == colorDistance2 v x.
Proof.
  destruct c as [[c1 c2] c3]. cbn [holds3]. intros (A & B & C).
  unfold colorDistance2. cbn [fst snd]. rewrite A, B, C. reflexivity.
Qed.

(** The mixed colour lies at [alpha] times the distance between the two
    colours, squared. *)
Lemma lerp_distance2 ci co alpha :
  colorDistance2 (colorTriple (lerp ci co alpha)) (colorTriple ci) ==
  alpha * alpha * colorDistance2 (colorTriple co) (colorTriple ci).
Proof. unfold colorDistance2, colorTriple, lerp. cbn [fst snd r g b]. ring. Qed.

Lemma lerp_distance2_mono ci co a c :
  0 <= a -> a <= c ->
  colorDistance2 (colorTriple (lerp ci co a)) (colorTriple ci) <=
  colorDistance2 (colorTriple (lerp ci co c)) (colorTriple ci).
Proof.
  intros Ha Hac. rewrite !lerp_distance2.
  apply Qmult_le_compat_r; [apply square_mono; assumption|].
  apply colorDistance2_nonneg.
Qed.

(** ** The generators *)

(** A loop whose body keeps a preorder on its variables and only draws. *)
Lemma loop_shape {S : Type} (R : S -> S -> Prop) (body : nat -> S -> M S) n s rt :
  (forall x, R x x) -> (forall x y z, R x y -> R y z -> R x z) ->
  (forall k s1 rt1, (k < n)%nat -> R s s1 ->
     succeeds (body k s1) rt1 (fun s2 rt2 => R s1 s2 /\ drawsOnly rt1 rt2)) ->
  succeeds (forUpTo n body s) rt (fun s' rt' => R s s' /\ drawsOnly rt rt').
Proof.
  intros Rrefl Rtrans Hbody.
  apply (succeeds_forUpTo (fun (_ : nat) s' rt' => R s s' /\ drawsOnly rt rt')).
  - split; [apply Rrefl|apply drawsOnly_refl].
  - intros k s1 rt1 Hk [HR HD]. eapply succeeds_mono; [apply Hbody; assumption|].
    intros s2 rt2 [HR2 HD2]. split; [eapply Rtrans; eassumption|].
    eapply drawsOnly_trans; eassumption.
  - auto.
Qed.

(** Draws in a row. *)
Ltac draws :=
  unfold drawsOnly; cbn [drawn fresh clock timers events afterDraw afterDraws];
  repeat split; lia.

Section Generators.

Variable h : Host.
Hypothesis random_unit : unitStream h.

Lemma heartParticle_loop_ok cb ce n positions colors heartPositions heartColors rt :
  succeeds (forUpTo n (heartParticle h cb ce)
                    (positions, colors, heartPositions, heartColors)) rt
    (fun s rt' =>
       (let '(p1, c1, hp1, hc1) := s in
        resized positions p1 /\ resized colors c1 /\
        resized heartPositions hp1 /\ resized heartColors hc1) /\
       drawsOnly rt rt').
Proof.
  eapply succeeds_mono.
  { apply (loop_shape
             (fun s s' =>
                let '(p0, c0, hp0, hc0) := s in
                let '(p1, c1, hp1, hc1) := s' in
                resized p0 p1 /\ resized c0 c1 /\
                resized hp0 hp1 /\ resized hc0 hc1)).
    - intros [[[a1 a2] a3] a4]. auto with shape.
    - intros [[[a1 a2] a3] a4] [[[b1 b2] b3] b4] [[[c1 c2] c3] c4]
             (A1 & A2 & A3 & A4) (B1 & B2 & B3 & B4).
      eauto 10 using resized_trans.
    - intros k [[[p1 c1] hp1] hc1] rt1 Hk _. unfold heartParticle.
      apply succeeds_bind, succeeds_random.
      apply succeeds_bind, succeeds_random.
      apply succeeds_bind, succeeds_random.
      apply succeeds_bind, succeeds_random.
      apply succeeds_ret. split; [|draws].
      unfold setColor. auto 10 with shape. }
  intros [[[p1 c1] hp1] hc1] rt' [A B]. auto.
Qed.

Lemma sphere_loop_ok radius n positions rt :
  succeeds (forUpTo n (sphereParticle h radius) positions) rt
    (fun positions' rt' => resized positions positions' /\ drawsOnly rt rt').
Proof.
  apply (loop_shape resized); [apply resized_refl|apply resized_trans|].
  intros k p1 rt1 Hk _. unfold sphereParticle.
  apply succeeds_bind, succeeds_random.
  apply succeeds_bind, succeeds_random.
  destruct (unit_draw_range h (drawn (afterDraw rt1)) random_unit) as [L U].
  apply succeeds_bind, succeeds_acos; [exact L|exact U|].
  apply succeeds_ret. split; [auto with shape|draws].
Qed.

Lemma rainInit_loop_ok n positions velocities rt :
  succeeds (forUpTo n (rainInit h) (positions, velocities)) rt
    (fun s rt' =>
       (resized positions (fst s) /\ resized velocities (snd s)) /\
       drawsOnly rt rt').
Proof.
  apply (loop_shape (fun s s' => resized (fst s) (fst s') /\
                                 resized (snd s) (snd s'))).
  - intros [a1 a2]. auto with shape.
  - intros [a1 a2] [b1 b2] [c1 c2] [A1 A2] [B1 B2]. cbn [fst snd] in *.
    eauto using resized_trans.
  - intros k [p1 v1] rt1 Hk _. unfold rainInit.
    apply succeeds_bind, succeeds_random.
    apply succeeds_bind, succeeds_random.
    apply succeeds_bind, succeeds_random.
    apply succeeds_bind, succeeds_random.
    apply succeeds_ret. cbn [fst snd]. split; [|draws]. auto 10 with shape.
Qed.

Lemma cakeRainInit_loop_ok n positions velocities colors rt :
  succeeds (forUpTo n (cakeRainInit h) (positions, velocities, colors)) rt
    (fun s rt' =>
       (let '(p1, v1, c1) := s in
        resized positions p1 /\ resized velocities v1 /\ resized colors c1) /\
       drawsOnly rt rt').
Proof.
  eapply succeeds_mono.
  { apply (loop_shape
             (fun s s' =>
                let '(p0, v0, c0) := s in
                let '(p1, v1, c1) := s' in
                resized p0 p1 /\ resized v0 v1 /\ resized c0 c1)).
    - intros [[a1 a2] a3]. auto with shape.
    - intros [[a1 a2] a3] [[b1 b2] b3] [[c1 c2] c3] (A1 & A2 & A3) (B1 & B2 & B3).
      eauto 10 using resized_trans.
    - intros k [[p1 v1] c1] rt1 Hk _. unfold cakeRainInit.
      apply succeeds_bind, succeeds_random.
      apply succeeds_bind, succeeds_random.
      apply succeeds_bind, succeeds_random.
      apply succeeds_bind, succeeds_random.
      apply succeeds_ret. split; [|draws]. auto 10 with shape. }
  intros [[p1 v1] c1] rt' [A B]. auto.
Qed.

Lemma creativeText_loop_ok ci co n positions colors galaxyPositions rt :
  shaped n galaxyPositions ->
  succeeds (forUpTo n (creativeTextParticle h ci co)
                    (positions, colors, galaxyPositions)) rt
    (fun s rt' =>
       (let '(p1, c1, g1) := s in
        resized positions p1 /\ resized colors c1 /\
        resized galaxyPositions g1) /\
       drawsOnly rt rt').
Proof.
  intro Hg. eapply succeeds_mono.
  { apply (loop_shape
             (fun s s' =>
                let '(p0, c0, g0) := s in
                let '(p1, c1, g1) := s' in
                resized p0 p1 /\ resized c0 c1 /\ resized g0 g1)).
    - intros [[a1 a2] a3]. auto with shape.
    - intros [[a1 a2] a3] [[b1 b2] b3] [[c1 c2] c3] (A1 & A2 & A3) (B1 & B2 & B3).
      eauto 10 using resized_trans.
    - intros k [[p1 c1] g1] rt1 Hk (_ & _ & Rg). unfold creativeTextParticle.
      destruct (galaxyPoint_ok h ci co k rt1) as (x & y & z & E).
      apply succeeds_bind. eexists _, _. split; [exact E|]. cbn beta iota.
      pose proof (particle_in_range n g1 k (resized_shaped _ _ _ Hg Rg) Hk) as Rk.
      apply succeeds_bind, succeeds_get; [unfold setTriple; in_range|].
      intros gx _.
      apply succeeds_bind, succeeds_get; [unfold setTriple; in_range|].
      intros gy _.
      apply succeeds_bind, succeeds_get; [unfold setTriple; in_range|].
      intros gz _.
      apply succeeds_ret. split; [|draws].
      unfold setColor. auto 10 with shape. }
  intros [[p1 c1] g1] rt' [A B]. auto.
Qed.

Lemma wave_loop_ok gridSize separation offset n positions rt :
  (0 < gridSize)%nat ->
  succeeds (forUpTo n (waveParticle gridSize separation offset) positions) rt
    (fun positions' rt' => resized positions positions' /\ drawsOnly rt rt').
Proof.
  intro Hg. apply (loop_shape resized); [apply resized_refl|apply resized_trans|].
  intros k p1 rt1 Hk _. unfold waveParticle, nat_rem.
  destruct (Nat.eqb_spec gridSize 0) as [E|_]; [lia|].
  apply succeeds_bind, succeeds_ret, succeeds_ret.
  split; [auto with shape|apply drawsOnly_refl].
Qed.

(** The grid of the wave is not empty when there is a particle. *)
Lemma wave_grid_positive n :
  sqrtAboveOne h -> (1 <= n)%nat ->
  (0 < Math_ceil (sqrt_value h (ofNat n)))%nat.
Proof.
  intros Hs Hn. unfold Math_ceil.
  assert (H1 : 1 <= ofNat n).
  { unfold ofNat. change 1 with (inject_Z 1). rewrite <- Zle_Qle. lia. }
  pose proof (Hs _ H1) as H2.
  pose proof (Qceiling_resp_le _ _ H2) as H3.
  change (Qceiling 1) with 1%Z in H3. lia.
Qed.

Lemma cakeDisk_loop_ok rad height c n cakePositions cakeColors idx rt :
  succeeds (forUpTo n (cakeDisk h rad height c) (cakePositions, cakeColors, idx)) rt
    (fun s rt' =>
       (let '(p1, c1, idx1) := s in
        resized cakePositions p1 /\ resized cakeColors c1 /\
        idx1 = (idx + n)%nat) /\
       drawsOnly rt rt').
Proof.
  apply (succeeds_forUpTo
           (fun k s rt' =>
              (let '(p1, c1, idx1) := s in
               resized cakePositions p1 /\ resized cakeColors c1 /\
               idx1 = (idx + k)%nat) /\
              drawsOnly rt rt')).
  - split; [|apply drawsOnly_refl]. auto with shape.
  - intros k [[p1 c1] idx1] rt1 Hk ((Rp & Rc & ->) & HD). unfold cakeDisk.
    apply succeeds_bind, succeeds_random.
    apply succeeds_bind, succeeds_random.
    destruct (random_unit (drawn (afterDraw rt1))) as [L _].
    apply succeeds_bind, succeeds_sqrt; [exact L|].
    apply succeeds_bind, succeeds_random.
    apply succeeds_ret. split.
    + split; [unfold setTriple; auto 10 with shape|].
      split; [unfold setColor, setTriple; auto 10 with shape|]. lia.
    + eapply drawsOnly_trans; [exact HD|]. draws.
  - auto.
Qed.

Lemma Qtrunc_small x : 0 <= x -> x < 1 -> Qtrunc x = 0%Z.
Proof.
  destruct x as [n d]. unfold Qle, Qlt, Qtrunc. cbn. intros H0 H1.
  apply Z.quot_small. lia.
Qed.

(** A read at a number that is an index within the array. *)
Lemma getAt_ok a idx k rt (Q : Q -> Runtime -> Prop) :
  idx == ofNat k -> (k < f32_length a)%nat ->
  (forall v, slot a k = Some v -> Q v rt) ->
  succeeds (getAt a idx) rt Q.
Proof.
  intros E Hk HQ. unfold getAt.
  assert (F : Qfloor idx = Z.of_nat k).
  { rewrite E. unfold ofNat. apply Qfloor_Z. }
  rewrite F. rewrite Nat2Z.id.
  assert (B1 : Qeq_bool idx (inject_Z (Z.of_nat k)) = true).
  { apply Qeq_bool_iff. exact E. }
  assert (B2 : (0 <=? Z.of_nat k)%Z = true) by (apply Z.leb_le; lia).
  rewrite B1, B2. cbn [andb]. apply succeeds_get; assumption.
Qed.

(** The remainder the text band computes is the index itself. *)
Lemma js_rem_small i L rt (Q : Q -> Runtime -> Prop) :
  (3 * i < L)%nat ->
  (forall m, m == ofNat i -> Q m rt) ->
  succeeds (js_rem (ofNat i) (ofNat L / 3)) rt Q.
Proof.
  intros Hi HQ. unfold js_rem.
  assert (HL : 1 <= ofNat L).
  { unfold ofNat. change 1 with (inject_Z 1). rewrite <- Zle_Qle. lia. }
  assert (Hi0 : 0 <= ofNat i).
  { unfold ofNat. change 0 with (inject_Z 0). rewrite <- Zle_Qle. lia. }
  assert (HiL : 3 * ofNat i < ofNat L).
  { unfold ofNat. change 3 with (inject_Z 3).
    rewrite <- inject_Z_mult, <- Zlt_Qlt. lia. }
  set (d := ofNat L / 3).
  assert (Hd : 0 < d).
  { unfold d. apply Qlt_shift_div_l; [reflexivity|]. lra. }
  assert (Ez : Qeq_bool d 0 = false).
  { destruct (Qeq_bool d 0) eqn:E; [|reflexivity].
    apply Qeq_bool_iff in E. lra. }
  rewrite Ez.
  assert (Hq0 : 0 <= ofNat i / d).
  { apply Qle_shift_div_l; [exact Hd|]. lra. }
  assert (Hq1 : ofNat i / d < 1).
  { apply Qlt_shift_div_r; [exact Hd|]. unfold d.
    setoid_replace (1 * (ofNat L / 3)) with (ofNat L / 3) by ring.
    apply Qlt_shift_div_l; [reflexivity|]. lra. }
  rewrite (Qtrunc_small _ Hq0 Hq1). apply succeeds_ret. apply HQ.
  change (inject_Z 0) with 0. ring.
Qed.

Lemma cakeText_loop_ok textPositions n cakePositions cakeColors idx rt :
  (3 * n <= f32_length textPositions)%nat ->
  succeeds (forUpTo n (cakeText textPositions) (cakePositions, cakeColors, idx)) rt
    (fun s rt' =>
       (let '(p1, c1, idx1) := s in
        resized cakePositions p1 /\ resized cakeColors c1 /\
        idx1 = (idx + n)%nat) /\
       drawsOnly rt rt').
Proof.
  intro HL.
  apply (succeeds_forUpTo
           (fun k s rt' =>
              (let '(p1, c1, idx1) := s in
               resized cakePositions p1 /\ resized cakeColors c1 /\
               idx1 = (idx + k)%nat) /\
              drawsOnly rt rt')).
  - split; [|apply drawsOnly_refl]. auto with shape.
  - intros k [[p1 c1] idx1] rt1 Hk ((Rp & Rc & ->) & HD). unfold cakeText.
    apply succeeds_bind, js_rem_small; [lia|]. intros m Em.
    apply succeeds_bind, (getAt_ok _ _ (k * 3)%nat); [| lia |].
    { rewrite Em. unfold ofNat. rewrite Nat2Z.inj_mul, inject_Z_mult.
      reflexivity. }
    intros tx _.
    apply succeeds_bind, (getAt_ok _ _ (k * 3 + 1)%nat); [| lia |].
    { rewrite Em. unfold ofNat.
      rewrite Nat2Z.inj_add, Nat2Z.inj_mul, inject_Z_plus, inject_Z_mult.
      reflexivity. }
    intros ty _.
    apply succeeds_bind, (getAt_ok _ _ (k * 3 + 2)%nat); [| lia |].
    { rewrite Em. unfold ofNat.
      rewrite Nat2Z.inj_add, Nat2Z.inj_mul, inject_Z_plus, inject_Z_mult.
      reflexivity. }
    intros tz _.
    apply succeeds_ret. split; [|exact HD].
    split; [auto 10 with shape|].
    split; [unfold setTriple; auto 10 with shape|]. lia.
  - auto.
Qed.

Lemma pickPoint_ok validPoints i rt :
  pickPoint validPoints i rt = Ok (canvasPoint validPoints i, rt).
Proof.
  unfold pickPoint, canvasPoint. destruct validPoints as [|pt rest].
  - reflexivity.
  - cbn [List.length Nat.ltb Nat.leb].
    assert (Hlt : (i mod S (List.length rest) < List.length (pt :: rest))%nat).
    { cbn [List.length]. apply Nat.mod_upper_bound. lia. }
    rewrite (nth_error_nth' _ (0, 0) Hlt). reflexivity.
Qed.

(** The sampling loop: three draws per particle, and every particle whose
    three slots lie inside the array holds its candidate point, jittered. *)
Lemma canvas_loop_ok validPoints n positions rt :
  succeeds (forUpTo n (canvasParticle h validPoints) positions) rt
    (fun a rt' =>
       rt' = afterDraws (3 * n) rt /\ resized positions a /\
       forall i, (i < n)%nat -> (i * 3 + 2 < f32_length positions)%nat ->
         holds3 (tripleAt a i) (canvasPosition h (drawn rt) validPoints i)).
Proof.
  apply (succeeds_forUpTo
           (fun k a rt' =>
              rt' = afterDraws (3 * k) rt /\ resized positions a /\
              forall i, (i < k)%nat -> (i * 3 + 2 < f32_length positions)%nat ->
                holds3 (tripleAt a i) (canvasPosition h (drawn rt) validPoints i))).
  - rewrite afterDraws_0. split; [reflexivity|]. split; [auto with shape|].
    intros i Hi. lia.
  - intros k a1 rt1 Hk (-> & Ra & Hdone). unfold canvasParticle.
    apply succeeds_bind. eexists _, _. split; [apply pickPoint_ok|].
    cbn beta.
    apply succeeds_bind, succeeds_random.
    apply succeeds_bind, succeeds_random.
    apply succeeds_bind, succeeds_random.
    apply succeeds_ret.
    split; [rewrite !afterDraw_afterDraws; f_equal; lia|].
    split; [auto 10 with shape|].
    intros i Hi Hin. destruct (Nat.eq_dec i k) as [->|Hne].
    + unfold tripleAt. destruct Ra as [La _].
      rewrite <- La in Hin. slots.
      cbn [drawn afterDraw afterDraws]. unfold canvasPosition.
      replace (S (drawn rt + 3 * k)) with (drawn rt + 3 * k + 1)%nat by lia.
      replace (S (drawn rt + 3 * k + 1)) with (drawn rt + 3 * k + 2)%nat by lia.
      apply holds3_Qred.
    + rewrite !(tripleAt_set_other _ k i) by lia. apply Hdone; [lia|exact Hin].
  - auto.
Qed.

Lemma Qtrunc_nonneg x : 0 <= x -> (Qtrunc x <? 0)%Z = false.
Proof.
  intro H. apply Z.ltb_ge. unfold Qtrunc. apply Z.quot_pos; [|reflexivity].
  unfold Qle in H. cbn in H. lia.
Qed.

(** [generateCanvasPositions] for a count that is not negative: one array
    of its own, of the requested length truncated to an integer; all zero
    when there is no 2D context, and otherwise every particle inside the
    array at its candidate point. *)
Lemma generateCanvasPositions_ok text cnt drawExtra rt :
  0 <= cnt ->
  succeeds (generateCanvasPositions h text cnt drawExtra) rt
    (fun a rt' =>
       f32_length a = Z.to_nat (Qtrunc (cnt * 3)) /\ buffer a = fresh rt /\
       fresh rt' = S (fresh rt) /\ (drawn rt <= drawn rt')%nat /\
       clock rt' = clock rt /\ timers rt' = timers rt /\ events rt' = events rt /\
       (context2d h = false ->
          elems a = repeat 0 (Z.to_nat (Qtrunc (cnt * 3))) /\ rt' = afterNew rt) /\
       (context2d h = true ->
          forall i, (i < Math_ceil cnt)%nat -> (i * 3 + 2 < f32_length a)%nat ->
            holds3 (tripleAt a i)
                   (canvasPosition h (drawn rt)
                      (scanImage (imageData h text drawExtra)) i))).
Proof.
  intro Hcnt. unfold generateCanvasPositions, newFloat32ArrayOf.
  rewrite Qtrunc_nonneg by lra.
  destruct (context2d h) eqn:Ectx; cbn [negb].
  - apply succeeds_bind, succeeds_newFloat32Array.
    eapply succeeds_mono; [apply canvas_loop_ok|].
    intros a rt' (-> & [La Ba] & Hpts).
    rewrite f32_length_new in La. cbn [buffer] in Ba.
    cbn [fresh drawn clock timers events afterDraws afterNew].
    repeat split; try assumption; try lia; try discriminate.
    intros _ i Hi Hin. apply Hpts; [exact Hi|].
    rewrite f32_length_new. lia.
  - apply succeeds_newFloat32Array. rewrite f32_length_new.
    cbn [buffer elems fresh drawn clock timers events afterNew].
    repeat split; try lia; try discriminate.
Qed.

(** A count whose triple truncates to a negative integer is a
    [RangeError], with or without a 2D context. *)
Lemma generateCanvasPositions_negative text cnt drawExtra rt :
  (Qtrunc (cnt * 3) < 0)%Z ->
  generateCanvasPositions h text cnt drawExtra rt = Err RangeError.
Proof.
  intro H. apply Z.ltb_lt in H.
  unfold generateCanvasPositions, newFloat32ArrayOf. rewrite H.
  destruct (context2d h); reflexivity.
Qed.

(** The bookkeeping at the end of an [init...] method. *)
Ltac in_buffers :=
  let id := fresh "id" in
  let Hin := fresh "Hin" in
  intros id Hin;
  unfold reachableBuffers, pointsBuffers, closureBuffers in Hin;
  cbn [particles updateCallback position colorAttr galaxyPositions textPositions
       heartPositions heartColors explosionVelocities cake_velocities
       cakePositions cakeColors rain_velocities In app] in Hin;
  repeat (destruct Hin as [Hin|Hin]; [subst id|]);
  try contradiction;
  cbn [buffer] in *; lia.

Ltac built_fields :=
  unfold built; eexists _, _;
  split; [reflexivity|]; split; [reflexivity|];
  cbn [particles updateCallback scene handStateIsActive audioContext
       isPlayingAudio object_id geometry_id material_id position colorAttr
       hasColorAttr reachableBuffers pointsBuffers closureBuffers
       fresh drawn clock timers events afterNew afterEvent afterDraw afterDraws];
  repeat match goal with |- _ /\ _ => split end;
  try reflexivity; try assumption;
  try solve [unfold shaped; congruence];
  try solve [cbn [buffer] in *; lia];
  try solve [repeat match goal with H : _ = _ |- _ => rewrite H end; reflexivity];
  try solve [in_buffers].

Lemma initSphere_ok config m rt :
  succeeds (initSphere h config m) rt (built SPHERE config m rt).
Proof.
  unfold initSphere.
  apply succeeds_bind, succeeds_newObject.
  apply succeeds_bind, succeeds_newFloat32Array.
  apply succeeds_bind. eapply succeeds_mono; [apply sphere_loop_ok|].
  intros pos1 rt1 ([Lp Bp] & Hd & Hf & Hc & Ht & He).
  apply succeeds_bind, succeeds_newObject.
  apply succeeds_bind, succeeds_newObject.
  apply succeeds_bind, succeeds_emit. apply succeeds_ret.
  rewrite f32_length_new in Lp. cbn [buffer] in Bp.
  cbn [fresh drawn clock timers events afterNew afterEvent] in *.
  built_fields.
Qed.

Lemma initRain_ok config m rt :
  succeeds (initRain h config m) rt (built RAIN config m rt).
Proof.
  unfold initRain.
  apply succeeds_bind, succeeds_newObject.
  apply succeeds_bind, succeeds_newFloat32Array.
  apply succeeds_bind, succeeds_newFloat32Array.
  apply succeeds_bind. eapply succeeds_mono; [apply rainInit_loop_ok|].
  intros [pos1 vel1] rt1 (([Lp Bp] & [Lv Bv]) & Hd & Hf & Hc & Ht & He).
  apply succeeds_bind, succeeds_newObject.
  apply succeeds_bind, succeeds_newObject.
  apply succeeds_bind, succeeds_emit. apply succeeds_ret.
  cbn [fst snd] in *. rewrite f32_length_new in Lp, Lv. cbn [buffer] in Bp, Bv.
  cbn [fresh drawn clock timers events afterNew afterEvent] in *.
  built_fields.
  cbn. split; [reflexivity|]. split; [exact Lp|exact Lv].
Qed.

Hypothesis sqrt_above_one : sqrtAboveOne h.

Lemma ofNat_nonneg n : 0 <= ofNat n.
Proof. unfold ofNat. change 0 with (inject_Z 0). rewrite <- Zle_Qle. lia. Qed.

Lemma ofNat_quarter_nonneg n : 0 <= ofNat n / 4.
Proof.
  pose proof (ofNat_nonneg n). apply Qle_shift_div_l; [reflexivity|]. lra.
Qed.

Lemma initWave_ok config m rt :
  succeeds (initWave h config m) rt (built WAVE config m rt).
Proof.
  unfold initWave.
  apply succeeds_bind, succeeds_newObject.
  apply succeeds_bind, succeeds_newFloat32Array.
  apply succeeds_bind, succeeds_sqrt; [apply ofNat_nonneg|].
  apply succeeds_bind.
  assert (Hloop : forall a rt0,
            succeeds (forUpTo (count config)
                        (waveParticle (Math_ceil (sqrt_value h (ofNat (count config))))
                           2 (ofNat (Math_ceil (sqrt_value h (ofNat (count config)))) * 2 / 2))
                        a) rt0
              (fun a' rt' => resized a a' /\ drawsOnly rt0 rt')).
  { intros a rt0. destruct (count config) as [|n] eqn:En.
    - apply succeeds_ret. split; [apply resized_refl|apply drawsOnly_refl].
    - apply wave_loop_ok. apply wave_grid_positive; [exact sqrt_above_one|lia]. }
  eapply succeeds_mono; [apply Hloop|].
  intros pos1 rt1 ([Lp Bp] & Hd & Hf & Hc & Ht & He).
  apply succeeds_bind, succeeds_newObject.
  apply succeeds_bind, succeeds_newObject.
  apply succeeds_bind, succeeds_emit. apply succeeds_ret.
  rewrite f32_length_new in Lp. cbn [buffer] in Bp.
  cbn [fresh drawn clock timers events afterNew afterEvent] in *.
  built_fields.
Qed.

(** [initGalaxy] builds the effect, and the colour of particle [i] is the
    inner colour mixed toward the outer one by [radius / 50]. *)
Lemma initGalaxy_ok config m rt :
  succeeds (initGalaxy h config m) rt
    (fun m' rt' =>
       built GALAXY config m rt m' rt' /\
       exists p col,
         particles m' = Some p /\ colorAttr p = Some col /\
         forall i, (i < count config)%nat ->
           holds3 (tripleAt col i)
             (colorTriple (lerp (parseColor h (color config)) (hexColor h 0x1b3984)
                                (galaxyRadius h (drawn rt) i / 50)))).
Proof.
  unfold initGalaxy.
  apply succeeds_bind, succeeds_newObject.
  apply succeeds_bind, succeeds_newFloat32Array.
  apply succeeds_bind, succeeds_newFloat32Array.
  apply succeeds_bind. eapply succeeds_mono.
  { apply galaxy_loop_ok; unfold shaped; apply f32_length_new. }
  intros [pos1 col1] rt1 (-> & [Lp Bp] & [Lc Bc] & Hcol).
  apply succeeds_bind, succeeds_newObject.
  apply succeeds_bind, succeeds_newObject.
  apply succeeds_bind, succeeds_emit. apply succeeds_ret.
  cbn [fst snd] in *. rewrite f32_length_new in Lp, Lc. cbn [buffer] in Bp, Bc.
  cbn [fresh drawn clock timers events afterNew afterEvent afterDraws] in *.
  split.
  - built_fields. exists col1. split; [reflexivity|exact Lc].
  - eexists _, col1. split; [reflexivity|]. split; [reflexivity|]. exact Hcol.
Qed.

(** A whole count keeps its length through the truncation. *)
Lemma whole_length n : Z.to_nat (Qtrunc (ofNat n * 3)) = (n * 3)%nat.
Proof.
  unfold Qtrunc, ofNat. cbn. rewrite Z.quot_1_r. lia.
Qed.

(** The text band of the cake reads inside the sampled text. *)
Lemma cake_text_fits c :
  (3 * Math_floor (ofNat c * 0.2) <= Z.to_nat (Qtrunc (ofNat c / 4 * 3)))%nat.
Proof.
  unfold Math_floor, Qtrunc, Qfloor, ofNat. cbn.
  rewrite Z.quot_div_nonneg by lia.
  Z.to_euclidean_division_equations. lia.
Qed.

(** The four bands of the cake leave room for the flame. *)
Lemma cake_bands_fit c :
  (Math_floor (ofNat c * 0.4) + Math_floor (ofNat c * 0.3) +
   Math_floor (ofNat c * 0.05) + Math_floor (ofNat c * 0.2) <= c)%nat.
Proof.
  unfold Math_floor, Qfloor, ofNat. cbn.
  Z.to_euclidean_division_equations. lia.
Qed.

Lemma initCreativeText_ok config m rt :
  succeeds (initCreativeText h config m) rt (built CREATIVE_TEXT config m rt).
Proof.
  unfold initCreativeText.
  apply succeeds_bind, succeeds_newObject.
  apply succeeds_bind, succeeds_newFloat32Array.
  apply succeeds_bind, succeeds_newFloat32Array.
  apply succeeds_bind, succeeds_newFloat32Array.
  apply succeeds_bind. eapply succeeds_mono.
  { apply creativeText_loop_ok. unfold shaped. apply f32_length_new. }
  intros [[pos1 col1] gal1] rt1
         (([Lp Bp] & [Lc Bc] & [Lg Bg]) & Hd & Hf & Hc & Ht & He).
  apply succeeds_bind. eapply succeeds_mono.
  { apply generateCanvasPositions_ok;
      first [apply ofNat_nonneg | apply ofNat_quarter_nonneg]. }
  intros txt rt2 (Lt & Bt & Hf2 & Hd2 & Hc2 & Ht2 & He2 & _).
  apply succeeds_bind, succeeds_newObject.
  apply succeeds_bind, succeeds_newObject.
  apply succeeds_bind, succeeds_emit. apply succeeds_ret.
  rewrite whole_length in Lt.
  rewrite f32_length_new in Lp, Lc, Lg. cbn [buffer] in Bp, Bc, Bg.
  cbn [fresh drawn clock timers events afterNew afterEvent] in *.
  built_fields.
  - exists col1. split; [reflexivity|exact Lc].
  - cbn. split; [reflexivity|]. split; [exact Lg|exact Lt].
Qed.

Lemma initHeartFirework_ok config m rt :
  succeeds (initHeartFirework h config m) rt
           (built CREATIVE_HEART_FIREWORK config m rt).
Proof.
  unfold initHeartFirework.
  apply succeeds_bind, succeeds_newObject.
  apply succeeds_bind, succeeds_newFloat32Array.
  apply succeeds_bind, succeeds_newFloat32Array.
  apply succeeds_bind, succeeds_newFloat32Array.
  apply succeeds_bind, succeeds_newFloat32Array.
  apply succeeds_bind. eapply succeeds_mono; [apply heartParticle_loop_ok|].
  intros [[[pos1 col1] hp1] hc1] rt1
         (([Lp Bp] & [Lc Bc] & [Lhp Bhp] & [Lhc Bhc]) & Hd & Hf & Hc & Ht & He).
  apply succeeds_bind, succeeds_newObject.
  apply succeeds_bind, succeeds_newObject.
  apply succeeds_bind, succeeds_emit.
  apply succeeds_bind, succeeds_newFloat32Array. apply succeeds_ret.
  rewrite f32_length_new in Lp, Lc, Lhp, Lhc. cbn [buffer] in Bp, Bc, Bhp, Bhc.
  cbn [fresh drawn clock timers events afterNew afterEvent] in *.
  built_fields.
  - exists col1. split; [reflexivity|exact Lc].
  - cbn. split; [reflexivity|]. split; [|split; reflexivity].
    unfold heartReady, shaped. cbn.
    split; [exact Lp|]. split; [exists col1; split; [reflexivity|exact Lc]|].
    split; [exact Lhp|]. split; [exact Lhc|]. apply repeat_length.
Qed.

Lemma initCatCake_ok config m rt :
  succeeds (initCatCake h config m) rt (built CREATIVE_CAT_CAKE config m rt).
Proof.
  unfold initCatCake.
  apply succeeds_bind, succeeds_newObject.
  apply succeeds_bind, succeeds_newFloat32Array.
  apply succeeds_bind, succeeds_newFloat32Array.
  apply succeeds_bind, succeeds_newFloat32Array.
  apply succeeds_bind. eapply succeeds_mono; [apply cakeRainInit_loop_ok|].
  intros [[pos1 vel1] col1] rt1
         (([Lp Bp] & [Lv Bv] & [Lc Bc]) & Hd & Hf & Hc & Ht & He).
  apply succeeds_bind, succeeds_newFloat32Array.
  apply succeeds_bind, succeeds_newFloat32Array.
  apply succeeds_bind. eapply succeeds_mono.
  { apply generateCanvasPositions_ok;
      first [apply ofNat_nonneg | apply ofNat_quarter_nonneg]. }
  intros txt rt2 (Lt & Bt & Hf2 & Hd2 & Hc2 & Ht2 & He2 & _).
  apply succeeds_bind. eapply succeeds_mono; [apply cakeDisk_loop_ok|].
  intros [[cp1 cc1] idx1] rt3 (([Lcp1 Bcp1] & [Lcc1 Bcc1] & ->) & D3).
  apply succeeds_bind. eapply succeeds_mono; [apply cakeDisk_loop_ok|].
  intros [[cp2 cc2] idx2] rt4 (([Lcp2 Bcp2] & [Lcc2 Bcc2] & ->) & D4).
  apply succeeds_bind. eapply succeeds_mono; [apply cakeDisk_loop_ok|].
  intros [[cp3 cc3] idx3] rt5 (([Lcp3 Bcp3] & [Lcc3 Bcc3] & ->) & D5).
  apply succeeds_bind. eapply succeeds_mono.
  { apply cakeText_loop_ok. rewrite Lt. apply cake_text_fits. }
  intros [[cp4 cc4] idx4] rt6 (([Lcp4 Bcp4] & [Lcc4 Bcc4] & ->) & D6).
  pose proof (drawsOnly_trans _ _ _ (drawsOnly_trans _ _ _
               (drawsOnly_trans _ _ _ D3 D4) D5) D6)
    as (Hd6 & Hf6 & Hc6 & Ht6 & He6).
  apply succeeds_bind, succeeds_newObject.
  apply succeeds_bind, succeeds_newObject.
  apply succeeds_bind, succeeds_emit. apply succeeds_ret.
  rewrite f32_length_new in Lp, Lv, Lc, Lcp1, Lcc1.
  cbn [buffer] in Bp, Bv, Bc, Bcp1, Bcc1.
  cbn [fresh drawn clock timers events afterNew afterEvent] in *.
  assert (Lcp : f32_length cp4 = (count config * 3)%nat) by congruence.
  assert (Lcc : f32_length cc4 = (count config * 3)%nat) by congruence.
  assert (Bcp : buffer cp4 = fresh rt1) by congruence.
  assert (Bcc : buffer cc4 = S (fresh rt1)) by congruence.
  built_fields.
  - exists col1. split; [reflexivity|exact Lc].
  - cbn. split; [reflexivity|]. split; [|reflexivity].
    unfold cakeReady, shaped. cbn.
    split; [exact Lp|]. split; [exists col1; split; [reflexivity|exact Lc]|].
    split; [exact Lv|]. split; [exact Lcp|]. split; [exact Lcc|].
    pose proof (cake_bands_fit (count config)). lia.
Qed.

(** Every [init...] method builds its effect. *)
Lemma initEffect_ok type config m rt :
  succeeds (initEffect h type config m) rt (built type config m rt).
Proof.
  destruct type; cbn [initEffect].
  - eapply succeeds_mono; [apply initGalaxy_ok|]. intros m' rt' [B _]. exact B.
  - apply initWave_ok.
  - apply initRain_ok.
  - apply initSphere_ok.
  - apply initCreativeText_ok.
  - apply initHeartFirework_ok.
  - apply initCatCake_ok.
Qed.

End Generators.

Section GalaxyGradient.

Variable h : Host.
Hypothesis random_unit : unitStream h.

(** C9.  [initGalaxy] gives particle [i] the inner colour moved toward the
    outer colour, channel by channel, by the fraction [t = radius / 50],
    where [radius] is the first of the seven draws of the particle times 50
    and the outer colour is [new THREE.Color(0x1b3984)]: each channel of the
    particle is [inside + (outside - inside) * t], with [t] in [[0, 1)].  Its
    squared Euclidean distance to the inner colour is therefore [t * t]
    times that of the outer colour.  Hence, for two particles [a] and [b]
    with [radius a < radius b], the colour of [a] is no farther from the
    inner colour than the colour of [b] (in squared distance, and so in the
    distance itself for any monotone square root), and strictly nearer
    when the inner and the outer colour differ. *)
Theorem galaxy_colour_gradient :
  forall (config : EffectConfig) (m : SceneManager) (rt : Runtime),
    succeeds (initGalaxy h config m) rt
      (fun m' _ =>
         exists p col,
           particles m' = Some p /\ colorAttr p = Some col /\
           let inside := parseColor h (color config) in
           let outside := hexColor h 0x1b3984 in
           let t := fun i => galaxyRadius h (drawn rt) i / 50 in
           (forall i, (i < count config)%nat ->
              holds3 (tripleAt col i)
                     (r inside + (r outside - r inside) * t i,
                      g inside + (g outside - g inside) * t i,
                      b inside + (b outside - b inside) * t i) /\
              (0 <= t i /\ t i < 1) /\
              forall c, tripleAt col i = Some c ->
                colorDistance2 c (colorTriple inside) ==
                t i * t i *
                colorDistance2 (colorTriple outside) (colorTriple inside)) /\
           (forall a b ca cb,
              (a < count config)%nat -> (b < count config)%nat ->
              tripleAt col a = Some ca -> tripleAt col b = Some cb ->
              galaxyRadius h (drawn rt) a < galaxyRadius h (drawn rt) b ->
              colorDistance2 ca (colorTriple inside)
                <= colorDistance2 cb (colorTriple inside) /\
              (0 < colorDistance2 (colorTriple outside) (colorTriple inside) ->
               colorDistance2 ca (colorTriple inside)
                 < colorDistance2 cb (colorTriple inside)) /\
              forall root : Q -> Q,
                (forall x y, 0 <= x -> x <= y -> root x <= root y) ->
                root (colorDistance2 ca (colorTriple inside))
                  <= root (colorDistance2 cb (colorTriple inside)))).
Proof.
  intros config m rt. eapply succeeds_mono; [apply initGalaxy_ok|].
  intros m' rt' (_ & p & col & Ep & Ec & Hcol).
  exists p, col. split; [exact Ep|]. split; [exact Ec|]. cbn zeta.
  set (inside := parseColor h (color config)) in *.
  set (outside := hexColor h 0x1b3984) in *.
  assert (Unit : forall i, 0 <= galaxyRadius h (drawn rt) i / 50 /\
                           galaxyRadius h (drawn rt) i / 50 < 1).
  { intro i. unfold galaxyRadius.
    destruct (random_unit (drawn rt + 7 * i)%nat) as [L U].
    setoid_replace (random_stream h (drawn rt + 7 * i) * 50 / 50)
      with (random_stream h (drawn rt + 7 * i)) by (field; discriminate).
    split; assumption. }
  assert (Dist : forall i c, (i < count config)%nat -> tripleAt col i = Some c ->
            colorDistance2 c (colorTriple inside) ==
            galaxyRadius h (drawn rt) i / 50 * (galaxyRadius h (drawn rt) i / 50) *
            colorDistance2 (colorTriple outside) (colorTriple inside)).
  { intros i c Hi Ei. pose proof (Hcol i Hi) as Ci. rewrite Ei in Ci.
    rewrite (colorDistance2_holds _ _ _ Ci). apply lerp_distance2. }
  split.
  - intros i Hi. split; [|split; [apply Unit|]].
    + pose proof (Hcol i Hi) as Ci.
      unfold colorTriple, lerp in Ci. cbn [r g b] in Ci. exact Ci.
    + intros c Ei. apply Dist; assumption.
  - intros a b ca cb Ha Hb Ea Eb Hab.
    destruct (Unit a) as [A0 _].
    assert (Hab' : galaxyRadius h (drawn rt) a / 50 < galaxyRadius h (drawn rt) b / 50).
    { apply Qlt_shift_div_l; [reflexivity|].
      setoid_replace (galaxyRadius h (drawn rt) a / 50 * 50)
        with (galaxyRadius h (drawn rt) a) by (field; discriminate).
      exact Hab. }
    set (ta := galaxyRadius h (drawn rt) a / 50) in *.
    set (tb := galaxyRadius h (drawn rt) b / 50) in *.
    pose proof (colorDistance2_nonneg (colorTriple outside) (colorTriple inside)) as D0.
    assert (Sq : ta * ta <= tb * tb) by (apply square_mono; lra).
    assert (Hle : colorDistance2 ca (colorTriple inside) <=
                  colorDistance2 cb (colorTriple inside)).
    { rewrite (Dist a ca Ha Ea), (Dist b cb Hb Eb).
      apply Qmult_le_compat_r; assumption. }
    split; [exact Hle|]. split.
    + intro Dpos. rewrite (Dist a ca Ha Ea), (Dist b cb Hb Eb).
      apply Qmult_lt_compat_r; [exact Dpos|].
      apply square_strict; assumption.
    + intros root Hroot. apply Hroot; [apply colorDistance2_nonneg|exact Hle].
Qed.

End GalaxyGradient.

Lemma galaxy_colour_gradient_witness :
  unitStream sampleHost /\
  succeeds (initGalaxy sampleHost (sampleConfig 3) emptyManager) startRuntime
    (fun m' _ =>
       exists p col,
         particles m' = Some p /\ colorAttr p = Some col /\
         forall ca cb,
           tripleAt col 1 = Some ca -> tripleAt col 2 = Some cb ->
           colorDistance2 ca (colorTriple (parseColor sampleHost "#ff88cc")) <
           colorDistance2 cb (colorTriple (parseColor sampleHost "#ff88cc"))).
Proof.
  split; [exact sampleStream_unit|].
  eapply succeeds_mono.
  { apply (galaxy_colour_gradient sampleHost sampleStream_unit (sampleConfig 3)
             emptyManager startRuntime). }
  intros m' rt' (p & col & Ep & Ec & _ & Hmono).
  exists p, col. split; [exact Ep|]. split; [exact Ec|].
  intros ca cb Ea Eb.
  destruct (Hmono 1%nat 2%nat ca cb) as (_ & Strict & _);
    [cbn; lia|cbn; lia|exact Ea|exact Eb|vm_compute; reflexivity|].
  apply Strict. vm_compute. reflexivity.
Defined.

Lemma sampleSqrt_above_one : sqrtAboveOne sampleHost.
Proof.
  intros x Hx. cbn [sqrt_value sampleHost]. unfold sampleSqrt.
  apply Qle_shift_div_l; [reflexivity|].
  assert (H1 : 1000000 <= x * 1000000) by lra.
  apply Qfloor_resp_le in H1. change (Qfloor 1000000) with 1000000%Z in H1.
  apply Z.sqrt_le_mono in H1. change (Z.sqrt 1000000) with 1000%Z in H1.
  setoid_replace (1 * 1000) with (inject_Z 1000) by reflexivity.
  rewrite <- Zle_Qle. exact H1.
Qed.

Lemma Math_ceil_ofNat n : Math_ceil (ofNat n) = n.
Proof. unfold Math_ceil, ofNat. rewrite Qceiling_Z. apply Nat2Z.id. Qed.

Section CanvasAndCounts.

Variable h : Host.
Hypothesis random_unit : unitStream h.
Hypothesis sqrt_above_one : sqrtAboveOne h.

(** The sampled text for a whole particle count. *)
Lemma canvas_whole text n drawExtra rt :
  succeeds (generateCanvasPositions h text (ofNat n) drawExtra) rt
    (fun a rt' =>
       shaped n a /\
       (context2d h = false -> elems a = repeat 0 (n * 3)) /\
       (context2d h = true ->
          forall i, (i < n)%nat ->
            holds3 (tripleAt a i)
                   (canvasPosition h (drawn rt)
                      (scanImage (imageData h text drawExtra)) i))).
Proof.
  eapply succeeds_mono; [apply generateCanvasPositions_ok, ofNat_nonneg|].
  intros a rt' (La & _ & _ & _ & _ & _ & _ & Hno & Hyes).
  rewrite whole_length in La, Hno. rewrite Math_ceil_ofNat in Hyes.
  split; [exact La|]. split.
  - intro E. apply Hno. exact E.
  - intros E i Hi. apply Hyes; [exact E|exact Hi|]. rewrite La. lia.
Qed.

(** The candidates are handed out in turn. *)
Lemma canvasPoint_cyclic (validPoints : list (Q * Q)) i :
  validPoints <> [] ->
  canvasPoint validPoints i =
    nth (i mod List.length validPoints) validPoints (0, 0) /\
  In (canvasPoint validPoints i) validPoints /\
  canvasPoint validPoints (i + List.length validPoints) = canvasPoint validPoints i.
Proof.
  intro Hne. destruct validPoints as [|pt rest]; [congruence|].
  unfold canvasPoint. split; [reflexivity|]. split.
  - apply nth_In. apply Nat.mod_upper_bound. cbn. lia.
  - f_equal. rewrite <- (Nat.mul_1_l (List.length (pt :: rest))) at 1.
    apply Nat.Div0.mod_add.
Qed.

(** C4.  Every [init...] method runs without producing a NaN and builds a
    position array of exactly three slots per particle, as are the target
    arrays its callback captured (heart, galaxy, text cloud, cake).  The
    rasterised sampling, for a whole particle count, returns three slots
    per particle and gives particle [i] the candidate point number
    [i mod candidateCount], jittered, so that every particle receives a
    position even when the candidates are fewer than the particles.
    (Finite means that no operation leaves the finite numbers; overflow is
    outside the model.) *)
Theorem generators_fill_every_slot :
  (forall type config m rt,
     succeeds (initEffect h type config m) rt
       (fun m' rt' =>
          built type config m rt m' rt' /\
          exists p, particles m' = Some p /\
                    f32_length (position p) = (count config * 3)%nat)) /\
  (forall text n drawExtra rt,
     succeeds (generateCanvasPositions h text (ofNat n) drawExtra) rt
       (fun a _ =>
          f32_length a = (n * 3)%nat /\
          (context2d h = true ->
             forall i, (i < n)%nat ->
               holds3 (tripleAt a i)
                      (canvasPosition h (drawn rt)
                         (scanImage (imageData h text drawExtra)) i)))) /\
  (forall (validPoints : list (Q * Q)) i,
     validPoints <> [] ->
     canvasPoint validPoints i =
       nth (i mod List.length validPoints) validPoints (0, 0) /\
     In (canvasPoint validPoints i) validPoints /\
     canvasPoint validPoints (i + List.length validPoints)
       = canvasPoint validPoints i).
Proof.
  split; [|split].
  - intros type config m rt. eapply succeeds_mono.
    { apply (initEffect_ok h random_unit sqrt_above_one). }
    intros m' rt' B. split; [exact B|].
    destruct B as (p & cb & Ep & _ & _ & _ & _ & _ & Hs & _).
    exists p. split; [exact Ep|exact Hs].
  - intros text n drawExtra rt. eapply succeeds_mono; [apply canvas_whole|].
    intros a rt' (A & _ & C). split; [exact A|exact C].
  - apply canvasPoint_cyclic.
Qed.

End CanvasAndCounts.

Lemma generators_fill_every_slot_witness :
  unitStream sampleHost /\ sqrtAboveOne sampleHost /\
  succeeds (initEffect sampleHost CREATIVE_CAT_CAKE (sampleConfig 10) emptyManager)
           startRuntime
    (fun m' _ =>
       exists p, particles m' = Some p /\ f32_length (position p) = 30%nat) /\
  succeeds (initEffect sampleHost WAVE (sampleConfig 10) emptyManager) startRuntime
    (fun m' _ =>
       exists p, particles m' = Some p /\ f32_length (position p) = 30%nat).
Proof.
  split; [exact sampleStream_unit|]. split; [exact sampleSqrt_above_one|].
  destruct (generators_fill_every_slot sampleHost sampleStream_unit
              sampleSqrt_above_one) as (A & _ & _).
  split.
  - eapply succeeds_mono; [apply A|]. intros m' rt' (_ & p & Ep & L).
    exists p. split; [exact Ep|exact L].
  - eapply succeeds_mono; [apply A|]. intros m' rt' (_ & p & Ep & L).
    exists p. split; [exact Ep|exact L].
Defined.

Section CanvasEdges.

Variable h : Host.
Hypothesis random_unit : unitStream h.

(** C5.  The rasterised-text generator at its two edges, for a whole
    particle count [n]:
    - without a 2D context it returns an array (never a fault) of [3 n]
      zeros and takes no draw;
    - with a context but no bright pixel it takes three draws per particle
      and particle [i] is the origin plus the jitter of its own draws,
      [(u - 0.5) * 0.5] in x and in y and [(u - 0.5) * 2] in z for the
      draws [3 i], [3 i + 1] and [3 i + 2] of the call: within a quarter
      around 0 in x and y, within 1 in z;
    - for any count that is not negative, whole or not, and any image it
      runs without fault, and the choice of the point never takes a
      remainder by zero: with no candidate it returns the origin
      outright. *)
Theorem canvas_generator_never_fails :
  forall (text : string) (n : nat) (cnt : Q) (drawExtra : bool) (rt : Runtime),
    (context2d h = false ->
       succeeds (generateCanvasPositions h text (ofNat n) drawExtra) rt
         (fun a rt' => elems a = repeat 0 (n * 3) /\ drawn rt' = drawn rt)) /\
    (context2d h = true -> scanImage (imageData h text drawExtra) = [] ->
       succeeds (generateCanvasPositions h text (ofNat n) drawExtra) rt
         (fun a rt' =>
            f32_length a = (n * 3)%nat /\
            drawn rt' = (drawn rt + 3 * n)%nat /\
            forall i, (i < n)%nat ->
              let jx := (random_stream h (drawn rt + 3 * i) - 0.5) * 0.5 in
              let jy := (random_stream h (drawn rt + 3 * i + 1) - 0.5) * 0.5 in
              let jz := (random_stream h (drawn rt + 3 * i + 2) - 0.5) * 2 in
              holds3 (tripleAt a i) (0 + jx, 0 + jy, jz) /\
              (-0.25 <= jx /\ jx < 0.25) /\ (-0.25 <= jy /\ jy < 0.25) /\
              (-1 <= jz /\ jz < 1))) /\
    (0 <= cnt ->
       succeeds (generateCanvasPositions h text cnt drawExtra) rt
         (fun a _ => f32_length a = Z.to_nat (Qtrunc (cnt * 3)))) /\
    (forall (validPoints : list (Q * Q)) i,
       pickPoint validPoints i rt = Ok (canvasPoint validPoints i, rt)) /\
    (forall i, pickPoint [] i rt = Ok ((0, 0), rt)).
Proof.
  intros text n cnt drawExtra rt. split; [|split; [|split; [|split]]].
  - intro E.
    eapply succeeds_mono; [apply generateCanvasPositions_ok, ofNat_nonneg|].
    intros a rt' (_ & _ & _ & _ & _ & _ & _ & Hno & _).
    destruct (Hno E) as [Z0 ->]. rewrite whole_length in Z0.
    split; [exact Z0|reflexivity].
  - intros E Hnone. unfold generateCanvasPositions, newFloat32ArrayOf.
    rewrite Qtrunc_nonneg by (pose proof (ofNat_nonneg n); lra).
    rewrite E, Hnone, whole_length, Math_ceil_ofNat. cbn [negb].
    apply succeeds_bind, succeeds_newFloat32Array.
    eapply succeeds_mono; [apply canvas_loop_ok|].
    intros a rt' (-> & [La _] & Hpts). rewrite f32_length_new in La, Hpts.
    cbn [drawn afterDraws afterNew] in *.
    split; [exact La|]. split; [reflexivity|].
    intros i Hi. cbn zeta.
    assert (Hin : (i * 3 + 2 < n * 3)%nat) by lia.
    specialize (Hpts i Hi Hin).
    unfold canvasPosition in Hpts. cbn [canvasPoint fst snd] in Hpts.
    split; [exact Hpts|].
    destruct (random_unit (drawn rt + 3 * i)%nat) as [L1 U1].
    destruct (random_unit (drawn rt + 3 * i + 1)%nat) as [L2 U2].
    destruct (random_unit (drawn rt + 3 * i + 2)%nat) as [L3 U3].
    repeat split; lra.
  - intro Hcnt.
    eapply succeeds_mono; [apply generateCanvasPositions_ok; exact Hcnt|].
    intros a rt' (La & _). exact La.
  - intros validPoints i. apply pickPoint_ok.
  - intro i. reflexivity.
Qed.

End CanvasEdges.

Lemma canvas_generator_never_fails_witness :
  (context2d blindHost = false /\
   succeeds (generateCanvasPositions blindHost "abc" (ofNat 2) false) startRuntime
     (fun a rt' => elems a = repeat 0 (2 * 3) /\ drawn rt' = 0%nat)) /\
  (context2d blackHost = true /\
   scanImage (imageData blackHost "abc" false) = [] /\
   succeeds (generateCanvasPositions blackHost "abc" (ofNat 2) false) startRuntime
     (fun a rt' =>
        f32_length a = (2 * 3)%nat /\ drawn rt' = 6%nat /\
        holds3 (tripleAt a 1)
               (0 + (sampleStream 3 - 0.5) * 0.5,
                0 + (sampleStream 4 - 0.5) * 0.5,
                (sampleStream 5 - 0.5) * 2))) /\
  (0 <= 5 / 2 /\
   succeeds (generateCanvasPositions blackHost "abc" (5 / 2) false) startRuntime
     (fun a _ => f32_length a = 7%nat)).
Proof.
  assert (Hblack : scanImage (imageData blackHost "abc" false) = [])
    by (vm_compute; reflexivity).
  assert (Hcnt : 0 <= 5 / 2) by (vm_compute; discriminate).
  destruct (canvas_generator_never_fails blindHost sampleStream_unit
              "abc" 2 (5 / 2) false startRuntime) as (A & _).
  destruct (canvas_generator_never_fails blackHost sampleStream_unit
              "abc" 2 (5 / 2) false startRuntime) as (_ & B & C & _).
  split; [|split].
  - split; [reflexivity|]. exact (A eq_refl).
  - split; [reflexivity|]. split; [exact Hblack|].
    eapply succeeds_mono; [exact (B eq_refl Hblack)|].
    intros a rt' (La & Hd & Hpts). split; [exact La|]. split; [exact Hd|].
    destruct (Hpts 1%nat) as [H1 _]; [lia|]. exact H1.
  - split; [exact Hcnt|]. exact (C Hcnt).
Defined.

(** ** Switching effects *)

Lemma history_event rt e :
  history (afterEvent e rt) = history rt ++ [e].
Proof. unfold history. cbn. reflexivity. Qed.

Lemma removeChild_other obj x children :
  x <> obj -> In x (removeChild obj children) -> In x children.
Proof.
  intro Hx. induction children as [|c rest IH]; cbn; [auto|].
  destruct (Nat.eqb_spec c obj) as [->|Hne].
  - auto.
  - cbn. intros [E|H]; auto.
Qed.

Lemma removeChild_gone obj children :
  NoDup children -> ~ In obj (removeChild obj children).
Proof.
  induction children as [|c rest IH]; cbn; intro Hnd; [auto|].
  inversion Hnd as [|c' rest' Hc Hrest]. subst.
  destruct (Nat.eqb_spec c obj) as [->|Hne].
  - exact Hc.
  - cbn. intros [E|H]; [congruence|]. apply (IH Hrest H).
Qed.

Section Switch.

Variable h : Host.
Hypothesis random_unit : unitStream h.
Hypothesis sqrt_above_one : sqrtAboveOne h.

(** What [setEffect] does to any manager: the audio it holds is closed
    first, the previous points object is removed and its geometry and
    material disposed, and then the new effect is built. *)
Lemma setEffect_ok type config m rt :
  succeeds (setEffect h type config m) rt
    (fun m' rt' =>
       exists p cb,
         particles m' = Some p /\ updateCallback m' = Some cb /\
         shaped (count config) (position p) /\
         (if hasColorAttr type
          then exists col, colorAttr p = Some col /\ shaped (count config) col
          else colorAttr p = None) /\
         callbackReady type config cb p /\
         scene m' = object_id p :: sceneWithout m /\
         audioContext m' = None /\ isPlayingAudio m' = false /\
         handStateIsActive m' = handStateIsActive m /\
         (forall id, In id (reachableBuffers m') -> (fresh rt <= id < fresh rt')%nat) /\
         (fresh rt <= object_id p < fresh rt')%nat /\
         history rt' =
           history rt ++ closeEvents m ++ disposeEvents m ++ [SceneAdd (object_id p)]).
Proof.
  unfold setEffect.
  (* the three steps before the build leave a manager [m1] and a runtime
     [rt1] that differs from [rt] by the events only *)
  assert (Hclean : exists m1 rt1,
            (m0 <- stopAudio m ;; disposeParticles m0) rt = Ok (m1, rt1) /\
            particles m1 = None /\ scene m1 = sceneWithout m /\
            audioContext m1 = None /\ isPlayingAudio m1 = false /\
            handStateIsActive m1 = handStateIsActive m /\
            fresh rt1 = fresh rt /\
            history rt1 = history rt ++ closeEvents m ++ disposeEvents m).
  { unfold stopAudio, disposeParticles, closeEvents, disposeEvents, sceneWithout.
    destruct m as [sc parts cb0 hand ctx playing]. cbn.
    destruct ctx as [c|], parts as [p0|]; cbn;
      eexists _, _; (split; [reflexivity|]); cbn;
      repeat split; unfold history; cbn;
      rewrite ?app_nil_r, <- ?app_assoc; reflexivity. }
  destruct Hclean as (m1 & rt1 & E & Hp & Hs & Ha & Hpl & Hh & Hf & Hhist).
  unfold bind in E.
  destruct (stopAudio m rt) as [[m0 rt0]|f] eqn:E0; [|discriminate].
  apply succeeds_bind. exists m0, rt0. split; [exact E0|].
  apply succeeds_bind. exists m1, rt1. split; [exact E|].
  eapply succeeds_mono.
  { apply (initEffect_ok h random_unit sqrt_above_one). }
  intros m' rt' (p & cb & Ep & Ecb & Esc & Ehand & Eaud & Eplay & Hshape & Hcol &
                 Hready & Hbuf & Hobj & _ & _ & Hev & _ & _).
  cbn [scene handStateIsActive audioContext isPlayingAudio withCallback] in *.
  exists p, cb. rewrite Hf in *.
  split; [exact Ep|]. split; [exact Ecb|]. split; [exact Hshape|].
  split; [exact Hcol|]. split; [exact Hready|].
  split; [congruence|]. split; [congruence|]. split; [congruence|].
  split; [congruence|]. split; [exact Hbuf|]. split; [exact Hobj|].
  unfold history in *. rewrite Hev. cbn [map rev snd].
  rewrite Hhist, <- !app_assoc. reflexivity.
Qed.

Lemma removeChild_NoDup obj children :
  NoDup children -> NoDup (removeChild obj children).
Proof.
  induction children as [|c rest IH]; cbn; intro Hnd; [constructor|].
  inversion Hnd as [|c' rest' Hc Hrest]. subst.
  destruct (Nat.eqb_spec c obj) as [->|Hne]; [exact Hrest|].
  constructor; [|apply IH; exact Hrest].
  intro Hin. apply Hc. apply (removeChild_other obj); [|exact Hin].
  exact Hne.
Qed.

Lemma removeChild_subset obj x children :
  In x (removeChild obj children) -> In x children.
Proof.
  induction children as [|c rest IH]; cbn; [auto|].
  destruct (Nat.eqb_spec c obj) as [->|Hne]; [auto|].
  cbn. intros [E|H]; auto.
Qed.

Lemma sceneWithout_subset m x : In x (sceneWithout m) -> In x (scene m).
Proof.
  unfold sceneWithout. destruct (particles m); [apply removeChild_subset|auto].
Qed.

(** [setEffect] on a tidy manager: the new state replaces the old one and
    is tidy again. *)
Lemma setEffect_switched type config m rt :
  tidy m rt ->
  succeeds (setEffect h type config m) rt
    (fun m' rt' => tidy m' rt' /\ switched type config m rt m' rt').
Proof.
  intros ((Hbuf0 & Hobj0) & Hnd & Hsc).
  eapply succeeds_mono; [apply setEffect_ok|].
  intros m' rt' (p & cb & Ep & Ecb & Hshape & Hcol & Hready & Esc & Eaud & Eplay &
                 _ & Hbuf & Hobj & Hhist).
  split.
  - split; [split|split].
    + intros id Hin. apply Hbuf in Hin. lia.
    + intros q Eq. rewrite Ep in Eq. apply Some_inj in Eq. subst q. lia.
    + rewrite Esc. constructor.
      * intro Hin. apply sceneWithout_subset, Hsc in Hin. lia.
      * unfold sceneWithout. destruct (particles m); [|exact Hnd].
        apply removeChild_NoDup. exact Hnd.
    + intros x. rewrite Esc. cbn [In]. intros [<-|Hin]; [lia|].
      apply sceneWithout_subset, Hsc in Hin. lia.
  - exists p, cb. split; [exact Ep|]. split; [exact Ecb|]. split; [exact Hready|].
    split; [exact Hshape|]. split; [exact Hcol|]. split; [|split; [|split]].
    + intros id Hin Hold. apply Hbuf in Hin. apply Hbuf0 in Hold. lia.
    + intros q Eq. rewrite Esc. cbn [In]. intros [E|Hin].
      * apply Hobj0 in Eq. lia.
      * unfold sceneWithout in Hin. rewrite Eq in Hin.
        apply (removeChild_gone _ _ Hnd Hin).
    + rewrite Esc. left. reflexivity.
    + split; [exact Hhist|]. split; [exact Eaud|exact Eplay].
Qed.

(** C3 (as amended).  Switching effects on a tidy manager.  After
    [setEffect] for an effect [B] with [M] particles:
    - the position array has length [3 M], and so has the colour array for
      the effects that carry one (galaxy, creative text, heart firework,
      cat cake); wave, rain and sphere have no colour attribute;
    - no storage reachable from the new callback was reachable before;
    - the previous points object is no longer in the scene, and the order
      of events is: the audio context the manager holds (if any) is
      closed, the previous object is removed, its geometry and its
      material are disposed, and only then the new object is added;
    - the manager holds no audio context and the playing flag is down.
    In particular this holds for [B] right after [A], whatever their
    counts. *)
Theorem effect_switch_replaces_state :
  forall (B : EffectType) (cfgB : EffectConfig),
    (forall m rt,
       tidy m rt ->
       succeeds (setEffect h B cfgB m) rt
         (fun m' rt' => tidy m' rt' /\ switched B cfgB m rt m' rt')) /\
    (forall (A : EffectType) (cfgA : EffectConfig) m0 rt0,
       tidy m0 rt0 ->
       succeeds (setEffect h A cfgA m0) rt0
         (fun mA rtA =>
            (exists pA, particles mA = Some pA /\
                        f32_length (position pA) = (count cfgA * 3)%nat) /\
            succeeds (setEffect h B cfgB mA) rtA
              (fun mB rtB => switched B cfgB mA rtA mB rtB))).
Proof.
  intros B cfgB. split.
  - intros m rt Ht. apply setEffect_switched. exact Ht.
  - intros A cfgA m0 rt0 Ht0.
    eapply succeeds_mono; [apply setEffect_switched; exact Ht0|].
    intros mA rtA (HtA & pA & cbA & EpA & _ & _ & LA & _). split.
    + exists pA. split; [exact EpA|exact LA].
    + eapply succeeds_mono; [apply setEffect_switched; exact HtA|].
      intros mB rtB [_ S]. exact S.
Qed.

End Switch.

Lemma emptyManager_tidy : tidy emptyManager startRuntime.
Proof.
  unfold tidy, allocatedBefore. cbn. repeat split.
  - intros id [].
  - intros p E. discriminate E.
  - constructor.
  - intros x [].
Qed.

Lemma effect_switch_replaces_state_witness :
  unitStream sampleHost /\ sqrtAboveOne sampleHost /\
  tidy emptyManager startRuntime /\
  succeeds (setEffect sampleHost CREATIVE_HEART_FIREWORK (sampleConfig 5)
                      emptyManager) startRuntime
    (fun mA rtA =>
       (exists pA, particles mA = Some pA /\
                   f32_length (position pA) = (5 * 3)%nat) /\
       succeeds (setEffect sampleHost GALAXY (sampleConfig 2) mA) rtA
         (fun mB rtB => switched GALAXY (sampleConfig 2) mA rtA mB rtB)).
Proof.
  split; [exact sampleStream_unit|]. split; [exact sampleSqrt_above_one|].
  split; [exact emptyManager_tidy|].
  destruct (effect_switch_replaces_state sampleHost sampleStream_unit
              sampleSqrt_above_one GALAXY (sampleConfig 2)) as [_ Seq].
  exact (Seq CREATIVE_HEART_FIREWORK (sampleConfig 5) emptyManager startRuntime
             emptyManager_tidy).
Defined.

(** C3, as stated, fails for the effects without a colour attribute: after
    a switch to the rain effect the points object has a position array of
    length [3 M] but no colour array at all. *)
Lemma rain_has_no_colour_buffer :
  exists m' rt' p,
    setEffect sampleHost RAIN (sampleConfig 2) emptyManager startRuntime
      = Ok (m', rt') /\
    particles m' = Some p /\
    f32_length (position p) = (2 * 3)%nat /\
    colorAttr p = None /\
    ~ (exists col, colorAttr p = Some col /\ f32_length col = (2 * 3)%nat).
Proof.
  destruct (setEffect sampleHost RAIN (sampleConfig 2) emptyManager startRuntime)
    as [[m' rt']|f] eqn:E.
  - vm_compute in E. injection E as <- <-.
    eexists _, _, _. split; [reflexivity|]. split; [reflexivity|].
    split; [reflexivity|]. split; [reflexivity|].
    intros (col & Ecol & _). discriminate Ecol.
  - vm_compute in E. discriminate E.
Qed.

(** ** The birthday song *)

Lemma range_shape {S : Type} (R : S -> S -> Prop) (body : nat -> S -> M S)
    from n s rt :
  (forall x, R x x) -> (forall x y z, R x y -> R y z -> R x z) ->
  (forall k s1 rt1, (from <= k < from + n)%nat -> R s s1 ->
     succeeds (body k s1) rt1 (fun s2 rt2 => R s1 s2 /\ drawsOnly rt1 rt2)) ->
  succeeds (forRange from n body s) rt (fun s' rt' => R s s' /\ drawsOnly rt rt').
Proof.
  intros Rrefl Rtrans Hbody.
  apply (succeeds_forRange (fun (_ : nat) s' rt' => R s s' /\ drawsOnly rt rt')).
  - split; [apply Rrefl|apply drawsOnly_refl].
  - intros k s1 rt1 Hk [HR HD]. eapply succeeds_mono; [apply Hbody; assumption|].
    intros s2 rt2 [HR2 HD2]. split; [eapply Rtrans; eassumption|].
    eapply drawsOnly_trans; eassumption.
  - auto.
Qed.

Section BirthdaySong.

Variable h : Host.

(** While the flag is up, [playBirthdaySong] returns at once: no context,
    no oscillator, no timeout. *)
Lemma playBirthdaySong_guarded m rt :
  isPlayingAudio m = true -> playBirthdaySong h m rt = Ok (m, rt).
Proof. intro E. unfold playBirthdaySong. rewrite E. reflexivity. Qed.

(** The latch lets a request through only on the frame it closes. *)
Lemma catLatch_held cl m rt :
  handStateIsActive m = true -> isCatDetected cl = true ->
  catLatch h cl m rt = Ok (cl, m, rt).
Proof. intros Eh Ed. unfold catLatch. rewrite Eh, Ed. reflexivity. Qed.

Lemma catLatch_edge cl m rt :
  handStateIsActive m = true -> isCatDetected cl = false ->
  catLatch h cl m rt =
  (m' <- playBirthdaySong h m ;; ret (withCatDetected cl true, m')) rt.
Proof. intros Eh Ed. unfold catLatch. rewrite Eh, Ed. reflexivity. Qed.

Lemma catLatch_requests_only_on_edge cl m rt cl' m' rt' :
  catLatch h cl m rt = Ok (cl', m', rt') ->
  (m' = m /\ rt' = rt) \/
  (handStateIsActive m = true /\ isCatDetected cl = false /\
   isCatDetected cl' = true).
Proof.
  unfold catLatch.
  destruct (handStateIsActive m) eqn:Eh, (isCatDetected cl) eqn:Ed;
    cbn [andb negb]; intro E.
  - left. injection E as _ <- <-. auto.
  - right. apply bind_inv in E. destruct E as (m1 & rt1 & _ & E).
    injection E as <- _ _. auto.
  - left. injection E as _ <- <-. auto.
  - left. injection E as _ <- <-. auto.
Qed.

Lemma cakeStatic_loop_ok cl k pos col rt :
  shaped (count (cake_config cl)) (cakePositions cl) ->
  shaped (count (cake_config cl)) (cakeColors cl) ->
  shaped (count (cake_config cl)) pos -> shaped (count (cake_config cl)) col ->
  (k <= count (cake_config cl))%nat ->
  succeeds (forUpTo k (cakeStaticBody cl) (pos, col)) rt
    (fun s rt' => (resized pos (fst s) /\ resized col (snd s)) /\ drawsOnly rt rt').
Proof.
  intros Hcp Hcc Hp Hc Hk.
  apply (loop_shape (fun s s' => resized (fst s) (fst s') /\
                                 resized (snd s) (snd s'))).
  - intros [a1 a2]. auto with shape.
  - intros [a1 a2] [b1 b2] [c1 c2] [A1 A2] [B1 B2]. cbn [fst snd] in *.
    eauto using resized_trans.
  - intros i [p1 c1] rt1 Hi [Rp Rc]. cbn [fst snd] in *. unfold cakeStaticBody.
    apply succeeds_bind. eapply succeeds_mono.
    { apply smoothTriple_shape; eapply particle_in_range;
        eauto using resized_shaped; lia. }
    intros p2 rt2 [-> Rp2].
    apply succeeds_bind. eapply succeeds_mono.
    { apply smoothTriple_shape; eapply particle_in_range;
        eauto using resized_shaped; lia. }
    intros c2 rt3 [-> Rc2]. apply succeeds_ret. cbn [fst snd].
    split; [auto|apply drawsOnly_refl].
Qed.

Lemma cakeFlameBody_ok n pos col i rt :
  shaped n pos -> shaped n col -> (i < n)%nat ->
  succeeds (cakeFlameBody h i (pos, col)) rt
    (fun s rt' => (resized pos (fst s) /\ resized col (snd s)) /\ drawsOnly rt rt').
Proof.
  intros Hp Hc Hi.
  pose proof (particle_in_range _ _ _ Hp Hi) as Rp.
  pose proof (particle_in_range _ _ _ Hc Hi) as Rc.
  unfold cakeFlameBody.
  apply succeeds_bind, succeeds_get; [lia|]. intros y _.
  assert (Hreset : forall rt0 (Q : bool -> Runtime -> Prop),
            (forall b rt1, drawsOnly rt0 rt1 -> Q b rt1) ->
            succeeds (if Qltb 28 y then ret true
                      else u <- Math_random h ;; ret (Qltb u 0.05)) rt0 Q).
  { intros rt0 Q HQ. destruct (Qltb 28 y).
    - apply succeeds_ret, HQ, drawsOnly_refl.
    - apply succeeds_bind, succeeds_random, succeeds_ret, HQ,
        drawsOnly_afterDraw. }
  apply succeeds_bind, Hreset. intros reset rt1 D1.
  assert (Hrespawn : forall (Q : Float32Array * Float32Array -> Runtime -> Prop),
            (forall p1 c1 rt2, resized pos p1 -> resized col c1 ->
                               drawsOnly rt1 rt2 -> Q (p1, c1) rt2) ->
            succeeds (if reset
                      then u1 <- Math_random h ;;
                           (let theta := u1 * Math_PI * 2 in
                            u2 <- Math_random h ;;
                            (let r := u2 * 2 in
                             ret (setTriple pos (i * 3) (r * Math_cos h theta) 20
                                            (r * Math_sin h theta),
                                  setTriple col (i * 3) 1 1 0)))
                      else ret (pos, col)) rt1 Q).
  { intros Q HQ. destruct reset.
    - apply succeeds_bind, succeeds_random.
      apply succeeds_bind, succeeds_random. apply succeeds_ret.
      apply HQ; [auto with shape|auto with shape|draws].
    - apply succeeds_ret. apply HQ; auto with shape. }
  apply succeeds_bind, Hrespawn. intros p1 c1 rt2 Rp1 Rc1 D2.
  apply succeeds_bind, succeeds_modify; [in_range|]. intros v1 _.
  apply succeeds_bind, succeeds_random.
  apply succeeds_bind, succeeds_modify; [in_range|]. intros v2 _.
  apply succeeds_bind, smoothAt_ok; [in_range|]. intros v3 _.
  apply succeeds_bind, succeeds_modify; [in_range|]. intros v4 _.
  apply succeeds_ret. cbn [fst snd]. split.
  - split; [auto 10 with shape|auto 10 with shape].
  - eapply drawsOnly_trans; [exact D1|].
    eapply drawsOnly_trans; [exact D2|]. apply drawsOnly_afterDraw.
Qed.

(** A frame with the cat in the picture and the latch already closed:
    cake mode, and nothing but draws happens to the runtime. *)
Lemma catCake_held_frame time cl m p rt :
  particles m = Some p -> cakeReady cl p ->
  handStateIsActive m = true -> isCatDetected cl = true ->
  succeeds (catCakeCallback h time cl m) rt
    (fun res rt' =>
       isCatDetected (fst res) = true /\
       (exists p', particles (snd res) = Some p' /\ cakeReady (fst res) p') /\
       handStateIsActive (snd res) = true /\
       audioContext (snd res) = audioContext m /\
       isPlayingAudio (snd res) = isPlayingAudio m /\
       drawsOnly rt rt').
Proof.
  intros Hm (Hp & (col & Ecol & Hc) & Hv & Hcp & Hcc & Hfl) Hh Hd.
  unfold catCakeCallback. rewrite Hm.
  apply succeeds_bind, (colorArray_ok _ col); [exact Ecol|].
  apply succeeds_bind. exists (cl, m), rt. split; [apply catLatch_held; assumption|].
  cbn beta iota. unfold catCakeFrame. rewrite Hd.
  apply succeeds_bind, succeeds_bind. eapply succeeds_mono.
  { apply cakeStatic_loop_ok; eauto. }
  intros [pos1 col1] rt1 ([Rp Rc] & D1). cbn [fst snd] in *.
  apply succeeds_bind. eapply succeeds_mono.
  { apply (range_shape (fun s s' => resized (fst s) (fst s') /\
                                    resized (snd s) (snd s'))).
    - intros [a1 a2]. auto with shape.
    - intros [a1 a2] [b1 b2] [c1 c2] [A1 A2] [B1 B2]. cbn [fst snd] in *.
      eauto using resized_trans.
    - intros i [p2 c2] rt2 Hi [Rp2 Rc2]. cbn [fst snd] in *.
      eapply succeeds_mono.
      { apply (cakeFlameBody_ok (count (cake_config cl)));
          eauto using resized_shaped, resized_trans. lia. }
      intros [p3 c3] rt3 ([A B] & D). cbn [fst snd] in *. auto. }
  intros [pos2 col2] rt2 ([Rp2 Rc2] & D2). cbn [fst snd] in *.
  apply succeeds_ret, succeeds_ret. cbn [fst snd].
  split; [exact Hd|]. split.
  - eexists. split; [reflexivity|]. unfold cakeReady. cbn.
    split; [eauto using resized_shaped, resized_trans|].
    split; [eexists; split; [reflexivity|
                             eauto using resized_shaped, resized_trans]|].
    auto.
  - split; [exact Hh|]. split; [reflexivity|]. split; [reflexivity|].
    eapply drawsOnly_trans; eassumption.
Qed.

(** While the cat stays in the picture, the frames after the one that
    closed the latch request nothing: no event is added and no object is
    created, however many frames go by. *)
Lemma cakeFrames_held time k :
  forall cl m p rt,
    particles m = Some p -> cakeReady cl p ->
    handStateIsActive m = true -> isCatDetected cl = true ->
    succeeds (cakeFrames h time k cl m) rt
      (fun res rt' =>
         isCatDetected (fst res) = true /\
         events rt' = events rt /\ fresh rt' = fresh rt /\
         timers rt' = timers rt /\
         audioContext (snd res) = audioContext m /\
         isPlayingAudio (snd res) = isPlayingAudio m).
Proof.
  induction k as [|k IH]; intros cl m p rt Hm Hr Hh Hd.
  - apply succeeds_ret. cbn [fst snd]. auto 10.
  - cbn [cakeFrames]. apply succeeds_bind. eapply succeeds_mono.
    { apply (catCake_held_frame time cl m p rt); assumption. }
    intros [cl1 m1] rt1 (Hd1 & (p1 & Hm1 & Hr1) & Hh1 & Ha1 & Hp1 & D1).
    cbn [fst snd] in *. destruct D1 as (_ & Df & _ & Dt & De).
    eapply succeeds_mono.
    { apply (IH cl1 m1 p1 rt1); assumption. }
    intros res rt2 (A & B & C & D & E & F).
    repeat split; congruence.
Qed.

End BirthdaySong.

(** C10, observed on the code.  The latch and the flag do guard the song
    (see [catLatch_requests_only_on_edge], [cakeFrames_held] and
    [playBirthdaySong_guarded]), but the timeout of a song survives
    [stopAudio]: on [overlapTrace] it lowers the flag while the song started
    after the switch is still sounding, the next closing of the latch starts
    a third song, and two audio contexts are audible at once. *)
Theorem birthday_song_overlaps :
  match run sampleHost overlapTrace emptyManager startRuntime with
  | Ok (m, rt) =>
      createdContexts rt = [9; 20; 22]%nat /\
      closed rt 9 = true /\ closed rt 20 = false /\ closed rt 22 = false /\
      audibleContexts rt = [20; 22]%nat /\
      audioContext m = Some 22%nat /\ isPlayingAudio m = true
  | Err _ => False
  end.
Proof. vm_compute. repeat split. Qed.

(** The same timeout makes a switch miss a song: after [overlapTrace] the
    manager holds context 22 only, so a further [setEffect] closes that one
    and the song of context 20 stays audible. *)
Lemma switch_misses_orphan_song :
  match run sampleHost (overlapTrace ++ [Switch RAIN (sampleConfig 1)])
            emptyManager startRuntime with
  | Ok (m, rt) =>
      closed rt 22 = true /\ closed rt 20 = false /\
      audibleContexts rt = [20]%nat /\
      audioContext m = None /\ isPlayingAudio m = false
  | Err _ => False
  end.
Proof. vm_compute. repeat split. Qed.

Section HandPoseGestures.

Variable h : Host.

Lemma handGesture_victory ws wrist knuckle t8 t12 t16 t20 rt :
  nth_error ws 0 = Some wrist -> nth_error ws 9 = Some knuckle ->
  nth_error ws 8 = Some t8 -> nth_error ws 12 = Some t12 ->
  nth_error ws 16 = Some t16 -> nth_error ws 20 = Some t20 ->
  handGesture h CREATIVE_TEXT ws rt =
  Ok (negb (curledTip h wrist knuckle t8) && negb (curledTip h wrist knuckle t12) &&
      curledTip h wrist knuckle t16 && curledTip h wrist knuckle t20, rt).
Proof.
  intros E0 E9 E8 E12 E16 E20. unfold handGesture.
  rewrite (bind_ok _ _ _ _ _ (landmarkAt_ok _ _ _ rt E9)).
  rewrite (bind_ok _ _ _ _ _ (landmarkAt_ok _ _ _ rt E0)).
  rewrite (bind_ok _ _ _ _ _ (distance_ok h knuckle wrist rt)).
  rewrite (bind_ok _ _ _ _ _ (isCurled_ok h _ _ _ _ _ rt E8)).
  rewrite (bind_ok _ _ _ _ _ (isCurled_ok h _ _ _ _ _ rt E12)).
  rewrite (bind_ok _ _ _ _ _ (isCurled_ok h _ _ _ _ _ rt E16)).
  rewrite (bind_ok _ _ _ _ _ (isCurled_ok h _ _ _ _ _ rt E20)).
  reflexivity.
Qed.

(** X1.  The victory sign of the text effect.  For a detected hand with the
    six landmarks the logic reads, the flag passed on for [CREATIVE_TEXT] is
    true exactly when the index and middle fingertips are not curled (at
    least 1.2 hand sizes from the wrist) and the ring and pinky fingertips
    are curled (strictly closer); whenever it is true, the same hand does
    not activate the fist effect. *)
Theorem victory_sign_classification :
  forall (ws : list Landmark) (wrist knuckle t8 t12 t16 t20 : Landmark)
         (landmarks others : list (list Landmark)) (rt : Runtime),
    nth_error ws 0 = Some wrist -> nth_error ws 9 = Some knuckle ->
    nth_error ws 8 = Some t8 -> nth_error ws 12 = Some t12 ->
    nth_error ws 16 = Some t16 -> nth_error ws 20 = Some t20 ->
    landmarks <> [] ->
    let handSize := distanceOf h knuckle wrist in
    exists active,
      detectIsActive h CREATIVE_TEXT (HandResult landmarks (ws :: others)) rt
        = Ok (active, rt) /\
      (active = true <->
         handSize * 1.2 <= distanceOf h t8 wrist /\
         handSize * 1.2 <= distanceOf h t12 wrist /\
         distanceOf h t16 wrist < handSize * 1.2 /\
         distanceOf h t20 wrist < handSize * 1.2) /\
      (active = true ->
         detectIsActive h CREATIVE_HEART_FIREWORK
           (HandResult landmarks (ws :: others)) rt = Ok (false, rt)).
Proof.
  intros ws wrist knuckle t8 t12 t16 t20 landmarks others rt
         E0 E9 E8 E12 E16 E20 Hl handSize.
  destruct landmarks as [|l ls]; [congruence|].
  eexists. split; [|split].
  - cbn [detectIsActive List.length Nat.ltb Nat.leb nth_error].
    apply handGesture_victory; eassumption.
  - unfold curledTip. fold handSize.
    rewrite !andb_true_iff, !negb_true_iff, !Qltb_true, !Qltb_false.
    tauto.
  - unfold curledTip. fold handSize.
    rewrite !andb_true_iff, !negb_true_iff. intros [[[C8 _] _] _].
    cbn [detectIsActive List.length Nat.ltb Nat.leb nth_error].
    rewrite (handGesture_fist h ws wrist knuckle t8 t12 t16 t20 rt) by assumption.
    fold handSize. rewrite C8. reflexivity.
Qed.

Lemma handGesture_short e ws rt :
  (List.length ws < 21)%nat -> handGesture h e ws rt = Err TypeError.
Proof.
  intro L.
  assert (E20 : nth_error ws 20 = None) by (apply nth_error_None; lia).
  unfold handGesture.
  destruct (nth_error ws 9) as [knuckle|] eqn:E9;
    [|unfold bind at 1, landmarkAt; rewrite E9; reflexivity].
  rewrite (bind_ok _ _ _ _ _ (landmarkAt_ok _ _ _ rt E9)).
  destruct (nth_error ws 0) as [wrist|] eqn:E0;
    [|unfold bind at 1, landmarkAt; rewrite E0; reflexivity].
  rewrite (bind_ok _ _ _ _ _ (landmarkAt_ok _ _ _ rt E0)).
  rewrite (bind_ok _ _ _ _ _ (distance_ok h knuckle wrist rt)).
  assert (Miss : forall k size, nth_error ws k = None ->
                   isCurled h ws wrist size k rt = Err TypeError).
  { intros k size E. unfold isCurled, bind, landmarkAt. rewrite E. reflexivity. }
  destruct (nth_error ws 8) as [t8|] eqn:E8;
    [|unfold bind at 1; rewrite Miss by assumption; reflexivity].
  rewrite (bind_ok _ _ _ _ _ (isCurled_ok h _ _ _ _ _ rt E8)).
  destruct (nth_error ws 12) as [t12|] eqn:E12;
    [|unfold bind at 1; rewrite Miss by assumption; reflexivity].
  rewrite (bind_ok _ _ _ _ _ (isCurled_ok h _ _ _ _ _ rt E12)).
  destruct (nth_error ws 16) as [t16|] eqn:E16;
    [|unfold bind at 1; rewrite Miss by assumption; reflexivity].
  rewrite (bind_ok _ _ _ _ _ (isCurled_ok h _ _ _ _ _ rt E16)).
  unfold bind at 1. rewrite Miss by assumption. reflexivity.
Qed.

(** X2.  The edges of the hand logic.  With no hand in the picture, or with
    no world landmarks for the first hand, the flag passed on is false and
    nothing else is read.  A first hand with fewer than 21 world landmarks
    makes the logic fail with a [TypeError], whatever the effect.  A hand of
    size zero (landmark 9 on the wrist) curls no finger, so it activates
    neither the fist nor the victory sign. *)
Theorem hand_pose_edges :
  sqrtNonneg h ->
  forall (e : EffectType) (rt : Runtime),
    (forall worldLandmarks,
       detectIsActive h e (HandResult [] worldLandmarks) rt = Ok (false, rt)) /\
    (forall landmarks,
       detectIsActive h e (HandResult landmarks []) rt = Ok (false, rt)) /\
    (forall l ls ws others,
       (List.length ws < 21)%nat ->
       detectIsActive h e (HandResult (l :: ls) (ws :: others)) rt = Err TypeError) /\
    (forall l ls ws others wrist knuckle,
       (21 <= List.length ws)%nat ->
       nth_error ws 0 = Some wrist -> nth_error ws 9 = Some knuckle ->
       distanceOf h knuckle wrist <= 0 ->
       detectIsActive h e (HandResult (l :: ls) (ws :: others)) rt = Ok (false, rt)).
Proof.
  intros Hsqrt e rt. split; [|split; [|split]].
  - intro w. reflexivity.
  - intros [|l ls]; reflexivity.
  - intros l ls ws others L.
    cbn [detectIsActive List.length Nat.ltb Nat.leb nth_error].
    apply handGesture_short. exact L.
  - intros l ls ws others wrist knuckle L E0 E9 Hz.
    cbn [detectIsActive List.length Nat.ltb Nat.leb nth_error].
    assert (S : forall k, (k < 21)%nat -> exists t, nth_error ws k = Some t).
    { intros k Hk. destruct (nth_error ws k) eqn:E; [eauto|].
      apply nth_error_None in E. lia. }
    destruct (S 8%nat) as (t8 & E8); [lia|].
    destruct (S 12%nat) as (t12 & E12); [lia|].
    destruct (S 16%nat) as (t16 & E16); [lia|].
    destruct (S 20%nat) as (t20 & E20); [lia|].
    assert (C : forall t, Qltb (distanceOf h t wrist)
                               (distanceOf h knuckle wrist * 1.2) = false).
    { intro t. apply Qltb_false.
      assert (0 <= distanceOf h t wrist) by (apply Hsqrt, squares_nonneg).
      lra. }
    unfold handGesture.
    rewrite (bind_ok _ _ _ _ _ (landmarkAt_ok _ _ _ rt E9)).
    rewrite (bind_ok _ _ _ _ _ (landmarkAt_ok _ _ _ rt E0)).
    rewrite (bind_ok _ _ _ _ _ (distance_ok h knuckle wrist rt)).
    rewrite (bind_ok _ _ _ _ _ (isCurled_ok h _ _ _ _ _ rt E8)).
    rewrite (bind_ok _ _ _ _ _ (isCurled_ok h _ _ _ _ _ rt E12)).
    rewrite (bind_ok _ _ _ _ _ (isCurled_ok h _ _ _ _ _ rt E16)).
    rewrite (bind_ok _ _ _ _ _ (isCurled_ok h _ _ _ _ _ rt E20)).
    rewrite !C. destruct e; reflexivity.
Qed.

Lemma find_first {A} (f : A -> bool) (l : list A) (d : A) :
  find f l = Some d <->
  exists pre post, l = pre ++ d :: post /\ f d = true /\
                   forall x, In x pre -> f x = false.
Proof.
  induction l as [|a l IH]; cbn [find].
  - split; [discriminate|]. intros ([|? ?] & post & E & _); discriminate.
  - destruct (f a) eqn:Fa.
    + split.
      * intro E. apply Some_inj in E. subst d. exists [], l.
        split; [reflexivity|]. split; [exact Fa|]. intros x [].
      * intros ([|a' pre] & post & E & Fd & Hpre).
        -- cbn in E. injection E as -> _. reflexivity.
        -- cbn in E. injection E as <- _.
           specialize (Hpre a (or_introl eq_refl)). congruence.
    + rewrite IH. split.
      * intros (pre & post & -> & Fd & Hpre). exists (a :: pre), post.
        split; [reflexivity|]. split; [exact Fd|].
        intros x [<-|Hx]; auto.
      * intros ([|a' pre] & post & E & Fd & Hpre).
        -- cbn in E. injection E as -> _. congruence.
        -- cbn in E. injection E as <- ->. exists pre, post.
           split; [reflexivity|]. split; [exact Fd|].
           intros x Hx. apply Hpre. right. exact Hx.
Qed.

(** X3.  Object detection for the cat effect.  The flag is true exactly
    when the first detection that lists the category [cat] carries a
    bounding box; a boxed cat behind a cat without a box does not count,
    and a result without detections gives false.  A detection counts as a
    cat when one of its category names is exactly the string [cat]. *)
Theorem cat_detection_first_match :
  forall (e : EffectType) (detections : list Detection) (rt : Runtime),
    (forall d, isCat d = true <-> In "cat"%string (categories d)) /\
    exists active,
      detectIsActive h e (ObjectResult detections) rt = Ok (active, rt) /\
      (active = true <->
         exists pre d post,
           detections = pre ++ d :: post /\
           (forall x, In x pre -> isCat x = false) /\
           isCat d = true /\ boundingBox d = true).
Proof.
  intros e detections rt. split.
  - intro d. unfold isCat. rewrite existsb_exists. split.
    + intros (x & Hx & E). apply String.eqb_eq in E. subst x. exact Hx.
    + intro Hin. exists "cat"%string. split; [exact Hin|apply String.eqb_refl].
  - cbn [detectIsActive].
    destruct (find isCat detections) as [d|] eqn:F.
    + exists (boundingBox d). split; [reflexivity|].
      apply find_first in F. destruct F as (pre & post & -> & Fd & Hpre).
      split.
      * intro B. exists pre, d, post. auto.
      * intros (pre' & d' & post' & E & Hpre' & Fd' & B).
        assert (F' : find isCat (pre ++ d :: post) = Some d').
        { rewrite E. apply find_first. exists pre', post'. auto. }
        assert (F0 : find isCat (pre ++ d :: post) = Some d).
        { apply find_first. exists pre, post. auto. }
        congruence.
    + exists false. split; [reflexivity|]. split; [discriminate|].
      intros (pre & d & post & -> & Hpre & Fd & _).
      assert (F' : find isCat (pre ++ d :: post) = Some d).
      { apply find_first. exists pre, post. auto. }
      congruence.
Qed.

End HandPoseGestures.

Lemma victory_sign_classification_witness :
  exists active,
    detectIsActive sampleHost CREATIVE_TEXT
      (HandResult [sampleVictory] [sampleVictory]) startRuntime
      = Ok (active, startRuntime) /\
    (active = true <->
       distanceOf sampleHost (mkLandmark 1 0 0) (mkLandmark 0 0 0) * 1.2
         <= distanceOf sampleHost (mkLandmark 0 3 0) (mkLandmark 0 0 0) /\
       distanceOf sampleHost (mkLandmark 1 0 0) (mkLandmark 0 0 0) * 1.2
         <= distanceOf sampleHost (mkLandmark 0 3 0) (mkLandmark 0 0 0) /\
       distanceOf sampleHost (mkLandmark 0 0 0) (mkLandmark 0 0 0)
         < distanceOf sampleHost (mkLandmark 1 0 0) (mkLandmark 0 0 0) * 1.2 /\
       distanceOf sampleHost (mkLandmark 0 0 0) (mkLandmark 0 0 0)
         < distanceOf sampleHost (mkLandmark 1 0 0) (mkLandmark 0 0 0) * 1.2) /\
    (active = true ->
       detectIsActive sampleHost CREATIVE_HEART_FIREWORK
         (HandResult [sampleVictory] [sampleVictory]) startRuntime
         = Ok (false, startRuntime)).
Proof.
  apply (victory_sign_classification sampleHost sampleVictory
           (mkLandmark 0 0 0) (mkLandmark 1 0 0) (mkLandmark 0 3 0)
           (mkLandmark 0 3 0) (mkLandmark 0 0 0) (mkLandmark 0 0 0)
           [sampleVictory] [] startRuntime);
    try reflexivity; discriminate.
Defined.

Lemma hand_pose_edges_witness :
  detectIsActive sampleHost CREATIVE_HEART_FIREWORK
    (HandResult [sampleFist] [firstn 20 sampleFist]) startRuntime = Err TypeError /\
  detectIsActive sampleHost CREATIVE_HEART_FIREWORK
    (HandResult [samplePointHand] [samplePointHand]) startRuntime
    = Ok (false, startRuntime).
Proof.
  destruct (hand_pose_edges sampleHost sampleSqrt_nonneg CREATIVE_HEART_FIREWORK
              startRuntime) as (_ & _ & A & B).
  split.
  - apply A. cbn. lia.
  - apply (B _ _ _ _ (mkLandmark 0 0 0) (mkLandmark 0 0 0)).
    + cbn. lia.
    + reflexivity.
    + reflexivity.
    + vm_compute. discriminate.
Defined.

Section Audio.

Variable h : Host.

(** X4.  [stopAudio] closes the context the manager holds, if any, and
    clears the playing flag; it touches nothing else of the manager and
    leaves the pending timeouts pending, that of the song it stops
    included.  A second [stopAudio] right after changes nothing and closes
    nothing. *)
Theorem stopAudio_idempotent :
  forall (m : SceneManager) (rt : Runtime),
    exists m1 rt1,
      stopAudio m rt = Ok (m1, rt1) /\
      audioContext m1 = None /\ isPlayingAudio m1 = false /\
      scene m1 = scene m /\ particles m1 = particles m /\
      updateCallback m1 = updateCallback m /\
      handStateIsActive m1 = handStateIsActive m /\
      history rt1 = history rt ++ closeEvents m /\
      timers rt1 = timers rt /\ clock rt1 = clock rt /\
      stopAudio m1 rt1 = Ok (m1, rt1).
Proof.
  intros m rt. unfold stopAudio, closeEvents.
  destruct (audioContext m) as [ctx|] eqn:E.
  - eexists _, _. split; [reflexivity|].
    cbn [audioContext isPlayingAudio scene particles updateCallback
         handStateIsActive withAudio timers clock].
    do 6 (split; [reflexivity|]).
    split; [apply (history_event rt)|]. do 2 (split; [reflexivity|]).
    reflexivity.
  - eexists _, _. split; [reflexivity|].
    cbn [audioContext isPlayingAudio scene particles updateCallback
         handStateIsActive withAudio timers clock].
    do 6 (split; [reflexivity|]).
    split; [symmetry; apply app_nil_r|]. do 2 (split; [reflexivity|]).
    reflexivity.
Qed.

Lemma scheduleNotes_ok ctx ns :
  forall time rt,
    exists rt',
      scheduleNotes ctx ns time rt = Ok (timeAfter time ns, rt') /\
      history rt' = history rt ++ map (playEvent ctx) (scheduled time ns) /\
      timers rt' = timers rt /\ fresh rt' = fresh rt /\
      clock rt' = clock rt /\ drawn rt' = drawn rt.
Proof.
  induction ns as [|[note dur] rest IH]; intros time rt.
  - exists rt. split; [reflexivity|]. split; [symmetry; apply app_nil_r|].
    repeat split.
  - destruct (IH (time + dur) (afterEvent (OscillatorPlay ctx note time (time + dur)) rt))
      as (rt' & E & Hh & Ht & Hf & Hc & Hd).
    exists rt'. split; [exact E|]. split.
    + rewrite Hh, history_event. rewrite <- app_assoc. reflexivity.
    + repeat split; assumption.
Qed.

Lemma scheduled_backToBack ns : forall from, backToBack from (scheduled from ns) ns.
Proof.
  induction ns as [|[note dur] rest IH]; intro from; cbn [scheduled backToBack].
  - exact I.
  - split; [reflexivity|]. split; [reflexivity|]. split; [reflexivity|]. apply IH.
Qed.

Lemma playBirthdaySong_starts m rt :
  isPlayingAudio m = false -> hasAudioContext h = true ->
  exists rt' plays delay,
    playBirthdaySong h m rt = Ok (withAudio m (Some (fresh rt)) true, rt') /\
    history rt' =
      history rt ++ AudioContextNew (fresh rt) ::
        map (playEvent (fresh rt)) plays ++ [SetTimeout (S (fresh rt)) delay] /\
    backToBack 0 plays notes /\ endOf plays == 6 /\ delay == 6000 /\
    timers rt' = timers rt ++ [(S (fresh rt), clock rt + delay)] /\
    fresh rt' = S (S (fresh rt)) /\
    clock rt' = clock rt /\ drawn rt' = drawn rt.
Proof.
  intros Hflag Hctx.
  unfold playBirthdaySong. rewrite Hflag, Hctx. cbn [negb].
  destruct (scheduleNotes_ok (fresh rt) notes 0
              (afterEvent (AudioContextNew (fresh rt)) (afterNew rt)))
    as (rt1 & E & Hh & Ht & Hf & Hc & Hd).
  cbn [fresh clock timers drawn afterNew afterEvent] in Ht, Hf, Hc, Hd.
  rewrite history_event in Hh.
  change (history (afterNew rt)) with (history rt) in Hh.
  eexists _, (scheduled 0 notes), (timeAfter 0 notes * 1000).
  split.
  { rewrite (bind_ok newObject _ rt (fresh rt) (afterNew rt) eq_refl).
    rewrite (bind_ok (emit _) _ (afterNew rt) tt
               (afterEvent (AudioContextNew (fresh rt)) (afterNew rt)) eq_refl).
    rewrite (bind_ok _ _ _ _ _ E).
    unfold setTimeout.
    rewrite (bind_ok (bind newObject _) _ rt1 tt
               (mkRuntime (drawn rt1) (S (fresh rt1)) (clock rt1)
                  (timers rt1 ++ [(fresh rt1, clock rt1 + timeAfter 0 notes * 1000)])
                  ((clock rt1, SetTimeout (fresh rt1) (timeAfter 0 notes * 1000))
                     :: events rt1)) eq_refl).
    cbn [withAudio audioContext isPlayingAudio scene particles updateCallback
         handStateIsActive ret].
    reflexivity. }
  cbn [fresh clock timers drawn events].
  split.
  { unfold history at 1. cbn [events map rev snd].
    change (rev (map snd (events rt1))) with (history rt1).
    rewrite Hh, Hf. rewrite <- !app_assoc. reflexivity. }
  split; [apply scheduled_backToBack|].
  split; [vm_compute; reflexivity|]. split; [vm_compute; reflexivity|].
  rewrite Ht, Hc, Hd, Hf. repeat split.
Qed.

(** X5.  What [playBirthdaySong] does when no song is flagged as playing.
    With an [AudioContext] class it creates one context, schedules one
    oscillator per note of the song, back to back from time 0 of the
    context, the last one stopping at 6 seconds, sets one timeout of 6000
    ms, and leaves the flag set and the new context in the manager.
    Without an [AudioContext] class it sets the flag and nothing else: no
    timeout is pending that would clear it, and every later call returns
    at once. *)
Theorem birthday_song_schedule :
  forall (m : SceneManager) (rt : Runtime),
    isPlayingAudio m = false ->
    (hasAudioContext h = true ->
       exists rt' plays delay,
         playBirthdaySong h m rt = Ok (withAudio m (Some (fresh rt)) true, rt') /\
         history rt' =
           history rt ++ AudioContextNew (fresh rt) ::
             map (playEvent (fresh rt)) plays ++ [SetTimeout (S (fresh rt)) delay] /\
         backToBack 0 plays notes /\ endOf plays == 6 /\ delay == 6000 /\
         timers rt' = timers rt ++ [(S (fresh rt), clock rt + delay)] /\
         fresh rt' = S (S (fresh rt)) /\
         clock rt' = clock rt /\ drawn rt' = drawn rt) /\
    (hasAudioContext h = false ->
       playBirthdaySong h m rt = Ok (withAudio m (audioContext m) true, rt) /\
       forall rt2,
         playBirthdaySong h (withAudio m (audioContext m) true) rt2
           = Ok (withAudio m (audioContext m) true, rt2)).
Proof.
  intros m rt Hflag. split; intro Hctx.
  - apply playBirthdaySong_starts; assumption.
  - unfold playBirthdaySong. rewrite Hflag, Hctx. cbn [negb].
    split; [reflexivity|]. intro rt2. reflexivity.
Qed.

End Audio.

Lemma birthday_song_schedule_witness :
  exists rt' plays delay,
    playBirthdaySong sampleHost emptyManager startRuntime
      = Ok (withAudio emptyManager (Some 0%nat) true, rt') /\
    history rt' =
      AudioContextNew 0 :: map (playEvent 0) plays ++ [SetTimeout 1 delay] /\
    backToBack 0 plays notes /\ endOf plays == 6 /\ delay == 6000.
Proof.
  destruct (birthday_song_schedule sampleHost emptyManager startRuntime eq_refl)
    as (A & _).
  destruct (A eq_refl) as (rt' & plays & delay & E & Hh & B & L & D & _).
  exists rt', plays, delay. auto.
Defined.

Lemma scanSteps_In v : In v (scanSteps 512) <-> scanned v.
Proof.
  unfold scanSteps, scanned. rewrite in_map_iff. split.
  - intros (k & <- & Hk). apply in_seq in Hk.
    change (Z.to_nat ((512 + 2) / 3)) with 171%nat in Hk.
    split; [lia|]. rewrite Z.mul_comm. apply Z_mod_mult.
  - intros [R M]. exists (Z.to_nat (v / 3)). split.
    + rewrite Z2Nat.id by (apply Z.div_pos; lia).
      pose proof (Z_div_mod_eq_full v 3). lia.
    + apply in_seq. change (Z.to_nat ((512 + 2) / 3)) with 171%nat.
      assert (v / 3 < 171)%Z by (apply Z.div_lt_upper_bound; lia).
      assert (0 <= v / 3)%Z by (apply Z.div_pos; lia). lia.
Qed.

Lemma scanSteps_length : List.length (scanSteps 512) = 171%nat.
Proof. reflexivity. Qed.

Lemma scanPixel_length data y x : (List.length (scanPixel data y x) <= 1)%nat.
Proof. unfold scanPixel. destruct (100 <? _)%Z; cbn; lia. Qed.

Lemma flat_map_length_le {A B} (f : A -> list B) k l :
  (forall a, List.length (f a) <= k)%nat ->
  (List.length (flat_map f l) <= k * List.length l)%nat.
Proof.
  intro H. induction l as [|a l IH]; cbn [flat_map List.length]; [lia|].
  rewrite length_app. specialize (H a). lia.
Qed.

Lemma scanImage_In data pt :
  In pt (scanImage data) <->
  exists x y, scanned x /\ scanned y /\
              (100 < data ((y * 512 + x) * 4))%Z /\ pt = candidateOf x y.
Proof.
  unfold scanImage. rewrite in_flat_map. split.
  - intros (y & Hy & Hin). unfold scanRow in Hin. apply in_flat_map in Hin.
    destruct Hin as (x & Hx & Hin). unfold scanPixel in Hin.
    change canvasWidth with 512%Z in *. change canvasHeight with 512%Z in *.
    destruct (100 <? data ((y * 512 + x) * 4))%Z eqn:B; [|destruct Hin].
    destruct Hin as [<-|[]]. exists x, y.
    apply scanSteps_In in Hx. apply scanSteps_In in Hy.
    apply Z.ltb_lt in B. split; [exact Hx|]. split; [exact Hy|].
    split; [exact B|reflexivity].
  - intros (x & y & Hx & Hy & B & ->). exists y. split.
    + apply scanSteps_In. exact Hy.
    + unfold scanRow. apply in_flat_map. exists x. split.
      * apply scanSteps_In. exact Hx.
      * unfold scanPixel. change canvasWidth with 512%Z.
        apply Z.ltb_lt in B. rewrite B. left. reflexivity.
Qed.

Lemma scanImage_box data pt :
  In pt (scanImage data) ->
  (-38.4 <= fst pt /\ fst pt <= 38.1) /\ (-38.1 <= snd pt /\ snd pt <= 38.4).
Proof.
  intro Hin. apply scanImage_In in Hin.
  destruct Hin as (x & y & [Rx Mx] & [Ry My] & _ & ->).
  unfold candidateOf. cbn [fst snd].
  change (inject_Z canvasWidth) with 512. change (inject_Z canvasHeight) with 512.
  pose proof (Z_div_mod_eq_full x 3). pose proof (Z_div_mod_eq_full y 3).
  assert (0 <= inject_Z x /\ inject_Z x <= 510).
  { split.
    - change 0 with (inject_Z 0). rewrite <- Zle_Qle. lia.
    - change 510 with (inject_Z 510). rewrite <- Zle_Qle. lia. }
  assert (0 <= inject_Z y /\ inject_Z y <= 510).
  { split.
    - change 0 with (inject_Z 0). rewrite <- Zle_Qle. lia.
    - change 510 with (inject_Z 510). rewrite <- Zle_Qle. lia. }
  assert (Half : 512 / 2 == 256) by reflexivity. rewrite !Half.
  generalize dependent (inject_Z x). generalize dependent (inject_Z y).
  intros. lra.
Qed.

Lemma scanImage_length data : (List.length (scanImage data) <= 171 * 171)%nat.
Proof.
  unfold scanImage. change canvasHeight with 512%Z.
  etransitivity; [apply (flat_map_length_le _ 171)|].
  - intro y. unfold scanRow. change canvasWidth with 512%Z.
    etransitivity; [apply (flat_map_length_le _ 1); apply scanPixel_length|].
    rewrite scanSteps_length. lia.
  - rewrite scanSteps_length. lia.
Qed.

(** X6.  The scan of [generateCanvasPositions].  A point is a candidate
    exactly when it is the point of a pixel whose two coordinates are
    multiples of 3 inside the 512 x 512 canvas and whose red byte exceeds
    100: the other channels and the pixels off that grid are never looked
    at.  Every candidate lies in [-38.4, 38.1] x [-38.1, 38.4] and there are
    at most 171 x 171 of them. *)
Theorem scan_candidates :
  forall (data : Z -> Z),
    (forall pt,
       In pt (scanImage data) <->
       exists x y, scanned x /\ scanned y /\
                   (100 < data ((y * 512 + x) * 4))%Z /\ pt = candidateOf x y) /\
    (forall pt, In pt (scanImage data) ->
       (-38.4 <= fst pt /\ fst pt <= 38.1) /\ (-38.1 <= snd pt /\ snd pt <= 38.4)) /\
    (List.length (scanImage data) <= 171 * 171)%nat.
Proof.
  intro data. split; [|split].
  - intro pt. apply scanImage_In.
  - intro pt. apply scanImage_box.
  - apply scanImage_length.
Qed.


Lemma nth_error_repeat {A} (a : A) n k : (k < n)%nat -> nth_error (repeat a n) k = Some a.
Proof.
  revert k. induction n as [|n IH]; intros k Hk; [lia|].
  destruct k as [|k]; [reflexivity|]. cbn. apply IH. lia.
Qed.

Section CanvasBox.

Variable h : Host.
Hypothesis random_unit : unitStream h.

Lemma canvasPoint_box validPoints i :
  (forall pt, In pt validPoints ->
     (-38.4 <= fst pt /\ fst pt <= 38.1) /\ (-38.1 <= snd pt /\ snd pt <= 38.4)) ->
  (-38.4 <= fst (canvasPoint validPoints i) /\ fst (canvasPoint validPoints i) <= 38.1) /\
  (-38.1 <= snd (canvasPoint validPoints i) /\ snd (canvasPoint validPoints i) <= 38.4).
Proof.
  intro Hall. destruct validPoints as [|v vs] eqn:E.
  - cbn. lra.
  - apply Hall. unfold canvasPoint. apply nth_In.
    apply Nat.mod_upper_bound. cbn. lia.
Qed.

(** X7.  Where [generateCanvasPositions] puts the particles.  Whatever the
    canvas shows, and also without a 2D context, every particle of the
    returned array lies in the box [-38.65, 38.35) x [-38.35, 38.65) x
    [-1, 1): a candidate point of the scan (or the origin) plus a jitter of
    at most a quarter unit in the plane. *)
Theorem canvas_positions_in_box :
  forall (text : string) (n : nat) (drawExtra : bool) (rt : Runtime),
    succeeds (generateCanvasPositions h text (ofNat n) drawExtra) rt
      (fun a _ =>
         forall i, (i < n)%nat ->
           exists p, tripleAt a i = Some p /\ inCanvasBox p).
Proof.
  intros text n drawExtra rt.
  eapply succeeds_mono; [apply canvas_whole|].
  intros a rt' (Sh & Hblind & Hseen) i Hi.
  destruct (context2d h) eqn:C.
  - specialize (Hseen eq_refl i Hi).
    destruct (tripleAt a i) as [[[x y] z]|] eqn:T; [|destruct Hseen].
    exists (x, y, z). split; [reflexivity|].
    cbn [holds3 canvasPosition fst snd] in Hseen. destruct Hseen as (Hx & Hy & Hz).
    pose proof (canvasPoint_box (scanImage (imageData h text drawExtra)) i
                  (scanImage_box _)) as [Bx By].
    destruct (random_unit (drawn rt + 3 * i)%nat) as [U1 U1'].
    destruct (random_unit (drawn rt + 3 * i + 1)%nat) as [U2 U2'].
    destruct (random_unit (drawn rt + 3 * i + 2)%nat) as [U3 U3'].
    unfold inCanvasBox. cbn [fst snd]. rewrite Hx, Hy, Hz.
    generalize dependent (canvasPoint (scanImage (imageData h text drawExtra)) i).
    intros [cx cy]. cbn [fst snd]. intros. lra.
  - specialize (Hblind eq_refl).
    exists (0, 0, 0). split.
    + unfold tripleAt, slot. rewrite Hblind.
      rewrite !nth_error_repeat by lia. reflexivity.
    + unfold inCanvasBox. cbn [fst snd]. lra.
Qed.

End CanvasBox.

Lemma canvas_positions_in_box_witness :
  unitStream sampleHost /\
  succeeds (generateCanvasPositions sampleHost "abc" (ofNat 2) true) startRuntime
    (fun a _ =>
       forall i, (i < 2)%nat -> exists p, tripleAt a i = Some p /\ inCanvasBox p).
Proof.
  split; [exact sampleStream_unit|].
  apply (canvas_positions_in_box sampleHost sampleStream_unit "abc" 2 true startRuntime).
Defined.

Section WaveGrid.

Variable h : Host.

Lemma wave_loop_content gridSize n positions rt :
  (0 < gridSize)%nat -> shaped n positions ->
  succeeds (forUpTo n (waveParticle gridSize 2 (ofNat gridSize * 2 / 2)) positions) rt
    (fun a rt' =>
       rt' = rt /\ resized positions a /\
       forall i, (i < n)%nat -> holds3 (tripleAt a i) (wavePoint gridSize i)).
Proof.
  intros Hg Hs.
  apply (succeeds_forUpTo
           (fun k a rt' =>
              rt' = rt /\ resized positions a /\
              forall i, (i < k)%nat -> holds3 (tripleAt a i) (wavePoint gridSize i))).
  - split; [reflexivity|]. split; [apply resized_refl|]. intros i Hi. lia.
  - intros k a1 rt1 Hk (-> & Ra & Hdone). unfold waveParticle, nat_rem.
    destruct (Nat.eqb_spec gridSize 0) as [E|_]; [lia|].
    apply succeeds_bind, succeeds_ret, succeeds_ret.
    split; [reflexivity|]. split; [apply resized_setTriple; exact Ra|].
    intros i Hi. destruct (Nat.eq_dec i k) as [->|Hne].
    + rewrite tripleAt_setTriple_same by in_range. apply holds3_Qred.
    + rewrite tripleAt_setTriple_other by congruence. apply Hdone. lia.
  - auto.
Qed.

Lemma ofNat_inj a c : ofNat a == ofNat c -> a = c.
Proof.
  unfold ofNat. intro H. rewrite inject_Z_injective in H. lia.
Qed.

Lemma ofNat_le a c : (a <= c)%nat -> ofNat a <= ofNat c.
Proof. intro H. unfold ofNat. rewrite <- Zle_Qle. lia. Qed.

Lemma wavePoint_inj g i j :
  (0 < g)%nat ->
  fst (fst (wavePoint g i)) == fst (fst (wavePoint g j)) ->
  snd (wavePoint g i) == snd (wavePoint g j) -> i = j.
Proof.
  intros Hg Hx Hz. unfold wavePoint in *. cbn [fst snd] in *.
  assert (Ex : ofNat (i mod g) == ofNat (j mod g)) by lra.
  assert (Ez : ofNat (i / g) == ofNat (j / g)) by lra.
  apply ofNat_inj in Ex. apply ofNat_inj in Ez.
  rewrite (Nat.div_mod_eq i g), (Nat.div_mod_eq j g). congruence.
Qed.

(** X8.  The grid of [initWave].  With [g] the ceiling of the square root
    of the count, particle [i] is put at column [i mod g] and row
    [floor (i / g)] of a square grid with two units between neighbours,
    shifted by [-g] in both directions, at height 0.  No two particles
    share a grid point, and every [x] lies in [-g, g - 2]. *)
Theorem wave_grid_layout :
  sqrtAboveOne h ->
  forall (config : EffectConfig) (m : SceneManager) (rt : Runtime),
    succeeds (initWave h config m) rt
      (fun m' _ =>
         exists p,
           particles m' = Some p /\
           let g := waveGridSize h config in
           (forall i, (i < count config)%nat ->
              holds3 (tripleAt (position p) i) (wavePoint g i)) /\
           (forall i j vi vj,
              (i < count config)%nat -> (j < count config)%nat ->
              tripleAt (position p) i = Some vi ->
              tripleAt (position p) j = Some vj ->
              fst (fst vi) == fst (fst vj) -> snd vi == snd vj -> i = j) /\
           (forall i x y z,
              (i < count config)%nat ->
              tripleAt (position p) i = Some (x, y, z) ->
              - ofNat g <= x /\ x <= ofNat g - 2 /\ y == 0 /\ - ofNat g <= z)).
Proof.
  intros Hsqrt config m rt. unfold initWave.
  apply succeeds_bind, succeeds_newObject.
  apply succeeds_bind, succeeds_newFloat32Array.
  apply succeeds_bind, succeeds_sqrt; [apply ofNat_nonneg|].
  apply succeeds_bind.
  fold (waveGridSize h config).
  set (g := waveGridSize h config).
  assert (Hloop : forall a rt0,
            shaped (count config) a ->
            succeeds (forUpTo (count config)
                        (waveParticle g 2 (ofNat g * 2 / 2)) a) rt0
              (fun a' rt' =>
                 (0 < count config -> 0 < g)%nat /\
                 forall i, (i < count config)%nat ->
                   holds3 (tripleAt a' i) (wavePoint g i))).
  { intros a rt0 Sa. destruct (count config) as [|n] eqn:En.
    - apply succeeds_ret. split; intros; lia.
    - assert (Hg : (0 < g)%nat).
      { unfold g, waveGridSize. rewrite En.
        apply wave_grid_positive; [exact Hsqrt|lia]. }
      eapply succeeds_mono; [apply wave_loop_content; assumption|].
      intros a' rt' (_ & _ & H). split; [intros; exact Hg|exact H]. }
  eapply succeeds_mono.
  { apply Hloop. unfold shaped. apply f32_length_new. }
  intros pos1 rt1 (Hg & Hpts).
  apply succeeds_bind, succeeds_newObject.
  apply succeeds_bind, succeeds_newObject.
  apply succeeds_bind, succeeds_emit. apply succeeds_ret.
  eexists. split; [reflexivity|]. cbn [position].
  split; [exact Hpts|]. split.
  - intros i j [[xi yi] zi] [[xj yj] zj] Hi Hj Ti Tj Ex Ez. cbn [fst snd] in *.
    pose proof (Hpts i Hi) as Pi. pose proof (Hpts j Hj) as Pj.
    rewrite Ti in Pi. rewrite Tj in Pj. cbn [holds3] in Pi, Pj.
    destruct Pi as (Pix & _ & Piz). destruct Pj as (Pjx & _ & Pjz).
    apply (wavePoint_inj g); [apply Hg; lia| |].
    + rewrite <- Pix, <- Pjx. exact Ex.
    + rewrite <- Piz, <- Pjz. exact Ez.
  - intros i x y z Hi Ti. pose proof (Hpts i Hi) as Pi. rewrite Ti in Pi.
    cbn [holds3 wavePoint fst snd] in Pi. destruct Pi as (Px & Py & Pz).
    assert (G : (0 < g)%nat) by (apply Hg; lia).
    assert (C1 : 0 <= ofNat (i mod g)) by apply ofNat_nonneg.
    assert (C2 : ofNat (i mod g) <= ofNat (g - 1)).
    { apply ofNat_le. pose proof (Nat.mod_upper_bound i g). lia. }
    assert (C3 : ofNat (g - 1) == ofNat g - 1).
    { unfold ofNat. rewrite Nat2Z.inj_sub by lia.
      unfold Z.sub. rewrite inject_Z_plus, inject_Z_opp. reflexivity. }
    assert (C4 : 0 <= ofNat (i / g)) by apply ofNat_nonneg.
    assert (Half : ofNat g * 2 / 2 == ofNat g) by field.
    rewrite Half in Px, Pz.
    split; [lra|]. split; [lra|]. split; [exact Py|lra].
Qed.

End WaveGrid.

Lemma wave_grid_layout_witness :
  sqrtAboveOne sampleHost /\
  succeeds (initWave sampleHost (sampleConfig 4) emptyManager) startRuntime
    (fun m' _ =>
       exists p,
         particles m' = Some p /\
         forall i, (i < 4)%nat ->
           holds3 (tripleAt (position p) i)
                  (wavePoint (waveGridSize sampleHost (sampleConfig 4)) i)).
Proof.
  split; [exact sampleSqrt_above_one|].
  eapply succeeds_mono.
  { apply (wave_grid_layout sampleHost sampleSqrt_above_one (sampleConfig 4)
             emptyManager startRuntime). }
  intros m' rt' (p & E & H & _). exists p. split; [exact E|exact H].
Defined.

Section WaveFrame.

Variable h : Host.

Lemma waveBody_content time config n pos i rt x y z :
  shaped n pos -> (i < n)%nat -> tripleAt pos i = Some (x, y, z) ->
  succeeds (waveBody h time config i pos) rt
    (fun pos' rt' =>
       rt' = rt /\ resized pos pos' /\
       (forall j, j <> i -> tripleAt pos' j = tripleAt pos j) /\
       tripleAt pos' i = Some (x, Qred (waveHeight h time (speed config) x z), z)).
Proof.
  intros Hs Hi T. unfold waveBody.
  apply tripleAt_slots in T. destruct T as (Sx & Sy & Sz).
  apply succeeds_bind. exists x, rt. split; [apply get_slot; exact Sx|].
  apply succeeds_bind. exists z, rt. split; [apply get_slot; exact Sz|].
  apply succeeds_ret. split; [reflexivity|].
  split; [apply resized_set, resized_refl|]. split.
  - intros j Hj. apply (tripleAt_set_other _ i j); lia.
  - unfold tripleAt. rewrite slot_set_other by lia.
    rewrite slot_set_same by in_range. rewrite slot_set_other by lia.
    rewrite Sx, Sz. reflexivity.
Qed.

Lemma wave_frame_loop time config pos rt :
  shaped (count config) pos ->
  succeeds (forUpTo (count config) (waveBody h time config) pos) rt
    (fun pos' rt' =>
       rt' = rt /\ resized pos pos' /\
       forall i x y z, (i < count config)%nat -> tripleAt pos i = Some (x, y, z) ->
         tripleAt pos' i = Some (x, Qred (waveHeight h time (speed config) x z), z)).
Proof.
  intro Hs.
  apply (succeeds_forUpTo
           (fun k a rt' =>
              rt' = rt /\ resized pos a /\
              (forall i, (k <= i)%nat -> tripleAt a i = tripleAt pos i) /\
              forall i x y z, (i < k)%nat -> tripleAt pos i = Some (x, y, z) ->
                tripleAt a i = Some (x, Qred (waveHeight h time (speed config) x z), z))).
  - split; [reflexivity|]. split; [apply resized_refl|]. split; [reflexivity|].
    intros; lia.
  - intros k a rt1 Hk (-> & Ra & Hrest & Hdone).
    destruct (tripleAt_some _ _ k Hs Hk) as (x & y & z & T).
    assert (Ta : tripleAt a k = Some (x, y, z)) by (rewrite Hrest by lia; exact T).
    eapply succeeds_mono.
    { apply (waveBody_content time config (count config) a k rt x y z);
        [eapply resized_shaped; eassumption|exact Hk|exact Ta]. }
    intros a' rt' (-> & Ra' & Hother & Hk').
    split; [reflexivity|]. split; [eapply resized_trans; eassumption|]. split.
    + intros i Hi. rewrite Hother by lia. apply Hrest. lia.
    + intros i x0 y0 z0 Hi T0. destruct (Nat.eq_dec i k) as [->|Hne].
      * rewrite T in T0. apply Some_inj in T0. injection T0 as -> -> ->. exact Hk'.
      * rewrite Hother by exact Hne. apply (Hdone i x0 y0 z0); [lia|exact T0].
  - intros a rt' (-> & Ra & _ & Hdone). auto.
Qed.

(** X9.  A frame of the wave.  The callback rewrites the height of every
    particle and nothing else: [x] and [z] keep the value they had, the old
    height is not read, and the new height is
    [5 sin (0.1 x + time * speed) + 5 cos (0.1 z + time * speed)].  It takes
    no random draw and records no event.  When the sine and cosine of the
    host stay within [-1, 1], every height lies in [-10, 10]. *)
Theorem wave_frame_heights :
  forall (time : Q) (cl : WaveClosure) (m : SceneManager) (p : Points) (rt : Runtime),
    particles m = Some p -> shaped (count (wave_config cl)) (position p) ->
    succeeds (waveCallback h time cl m) rt
      (fun m' rt' =>
         rt' = rt /\
         exists p',
           particles m' = Some p' /\
           shaped (count (wave_config cl)) (position p') /\
           forall i x y z,
             (i < count (wave_config cl))%nat ->
             tripleAt (position p) i = Some (x, y, z) ->
             exists y',
               tripleAt (position p') i = Some (x, y', z) /\
               y' == waveHeight h time (speed (wave_config cl)) x z /\
               (trigBounded h -> -10 <= y' /\ y' <= 10)).
Proof.
  intros time cl m p rt Hp Hs. unfold waveCallback. rewrite Hp.
  apply succeeds_bind.
  eapply succeeds_mono; [apply wave_frame_loop; exact Hs|].
  intros pos' rt' (-> & Ra & Hpts). apply succeeds_ret.
  split; [reflexivity|]. eexists. split; [reflexivity|]. cbn [position].
  split; [eapply resized_shaped; eassumption|].
  intros i x y z Hi T. eexists. split; [apply (Hpts i x y z Hi T)|].
  split; [apply Qred_correct|].
  intro Hb. rewrite Qred_correct. unfold waveHeight.
  destruct (Hb (x * 0.1 + time * speed (wave_config cl))) as [[S1 S2] _].
  destruct (Hb (z * 0.1 + time * speed (wave_config cl))) as [_ [C1 C2]].
  lra.
Qed.

End WaveFrame.

Lemma circle_denominator x : 0 < 1 + x * x.
Proof. pose proof (square_nonneg x). lra. Qed.

Lemma circleHost_bounded : trigBounded circleHost.
Proof.
  intro x. cbn [Math_sin Math_cos circleHost].
  pose proof (circle_denominator x) as D.
  pose proof (square_nonneg (1 - x)) as S1.
  pose proof (square_nonneg (1 + x)) as S2.
  pose proof (square_nonneg x) as S3.
  repeat split.
  - apply Qle_shift_div_l; [exact D|]. lra.
  - apply Qle_shift_div_r; [exact D|]. lra.
  - apply Qle_shift_div_l; [exact D|]. lra.
  - apply Qle_shift_div_r; [exact D|]. lra.
Qed.

Lemma sampleWave_shaped :
  forall p, particles sampleWave = Some p -> shaped 4 (position p).
Proof. intros p E. apply Some_inj in E. subst p. reflexivity. Qed.

Lemma wave_frame_heights_witness :
  succeeds (waveCallback circleHost 3
              (mkWave (sampleConfig 4)) sampleWave) startRuntime
    (fun m' rt' =>
       rt' = startRuntime /\
       exists p' y',
         particles m' = Some p' /\
         tripleAt (position p') 1 = Some (0, y', -2) /\
         -10 <= y' /\ y' <= 10).
Proof.
  eapply succeeds_mono.
  { apply (wave_frame_heights circleHost 3 (mkWave (sampleConfig 4)) sampleWave
             _ startRuntime eq_refl).
    reflexivity. }
  intros m' rt' (E & p' & Hp & _ & H). split; [exact E|].
  destruct (H 1%nat 0 7 (-2)) as (y' & T & _ & B); [cbn; lia|reflexivity|].
  exists p', y'. split; [exact Hp|]. split; [exact T|].
  apply B. exact circleHost_bounded.
Defined.

Lemma circleHost_pythagorean : pythagorean circleHost.
Proof.
  intro x. cbn [Math_sin Math_cos circleHost].
  pose proof (circle_denominator x) as D.
  field. lra.
Qed.

Lemma circleHost_unit : unitStream circleHost.
Proof. exact sampleStream_unit. Qed.

Section OnTheSphere.

Variable h : Host.
Hypothesis random_unit : unitStream h.
Hypothesis on_circle : pythagorean h.

Lemma spherical_norm radius theta phi :
  norm2 (radius * Math_sin h phi * Math_cos h theta,
         radius * Math_sin h phi * Math_sin h theta,
         radius * Math_cos h phi) == radius * radius.
Proof.
  unfold norm2. cbn [fst snd].
  pose proof (on_circle theta) as Ht. pose proof (on_circle phi) as Hp.
  set (a := Math_sin h phi) in *. set (b := Math_cos h phi) in *.
  set (c := Math_sin h theta) in *. set (d := Math_cos h theta) in *.
  setoid_replace (radius * a * d * (radius * a * d) + radius * a * c * (radius * a * c)
                  + radius * b * (radius * b))
    with (radius * radius * (a * a * (c * c + d * d) + b * b)) by ring.
  rewrite Ht.
  setoid_replace (radius * radius * (a * a * 1 + b * b))
    with (radius * radius * (a * a + b * b)) by ring.
  rewrite Hp. ring.
Qed.

Lemma norm2_holds o v w : o = Some w -> holds3 o v -> norm2 w == norm2 v.
Proof.
  intros -> H. destruct w as [[x y] z]. cbn [holds3] in H.
  destruct H as (Hx & Hy & Hz). unfold norm2. cbn [fst snd].
  rewrite Hx, Hy, Hz. reflexivity.
Qed.

Lemma sphere_loop_content radius n positions rt :
  shaped n positions ->
  succeeds (forUpTo n (sphereParticle h radius) positions) rt
    (fun a rt' =>
       rt' = afterDraws (2 * n) rt /\ resized positions a /\
       forall i, (i < n)%nat ->
         holds3 (tripleAt a i) (spherePoint h radius (drawn rt + 2 * i))).
Proof.
  intro Hs.
  apply (succeeds_forUpTo
           (fun k a rt' =>
              rt' = afterDraws (2 * k) rt /\ resized positions a /\
              forall i, (i < k)%nat ->
                holds3 (tripleAt a i) (spherePoint h radius (drawn rt + 2 * i)))).
  - rewrite afterDraws_0. split; [reflexivity|]. split; [apply resized_refl|].
    intros i Hi. lia.
  - intros k a1 rt1 Hk (-> & Ra & Hdone). unfold sphereParticle.
    apply succeeds_bind, succeeds_random.
    apply succeeds_bind, succeeds_random.
    destruct (unit_draw_range h (drawn (afterDraw (afterDraws (2 * k) rt))) random_unit)
      as [L U].
    apply succeeds_bind, succeeds_acos; [exact L|exact U|].
    apply succeeds_ret.
    split; [rewrite !afterDraw_afterDraws; f_equal; lia|].
    split; [apply resized_setTriple; exact Ra|].
    intros i Hi. destruct (Nat.eq_dec i k) as [->|Hne].
    + rewrite tripleAt_setTriple_same by in_range.
      cbn [drawn afterDraw afterDraws]. unfold spherePoint.
      replace (S (drawn rt + 2 * k)) with (drawn rt + 2 * k + 1)%nat by lia.
      apply holds3_Qred.
    + rewrite tripleAt_setTriple_other by congruence. apply Hdone. lia.
  - auto.
Qed.

(** X10.  Every particle of [initSphere] lies on the sphere of radius 40:
    with a sine and cosine on the unit circle, the squares of its three
    coordinates add up to 1600.  Particle [i] is computed from the draws
    [2 i] and [2 i + 1] of the call. *)
Theorem sphere_particles_on_radius :
  forall (config : EffectConfig) (m : SceneManager) (rt : Runtime),
    succeeds (initSphere h config m) rt
      (fun m' _ =>
         exists p,
           particles m' = Some p /\
           forall i, (i < count config)%nat ->
             holds3 (tripleAt (position p) i) (spherePoint h 40 (drawn rt + 2 * i)) /\
             forall v, tripleAt (position p) i = Some v -> norm2 v == 40 * 40).
Proof.
  intros config m rt. unfold initSphere.
  apply succeeds_bind, succeeds_newObject.
  apply succeeds_bind, succeeds_newFloat32Array.
  apply succeeds_bind.
  eapply succeeds_mono.
  { apply sphere_loop_content. unfold shaped. apply f32_length_new. }
  intros pos1 rt1 (-> & Ra & Hpts).
  apply succeeds_bind, succeeds_newObject.
  apply succeeds_bind, succeeds_newObject.
  apply succeeds_bind, succeeds_emit. apply succeeds_ret.
  eexists. split; [reflexivity|]. cbn [position].
  intros i Hi. pose proof (Hpts i Hi) as P.
  cbn [drawn afterNew] in P. split; [exact P|].
  intros v T. rewrite (norm2_holds _ _ _ T P). apply spherical_norm.
Qed.

(** X11.  The velocity [setExplosionVelocity] writes for a particle has
    the length of the sampled [speed]: with a sine and cosine on the unit
    circle, the squares of its three components add up to [speed * speed],
    where [speed = 1.5 u + 0.5] for the third draw [u] of the call, so the
    speed lies in [0.5, 2).  The call takes three draws and leaves the
    velocities of the other particles alone. *)
Theorem explosion_velocity_speed :
  forall (i : nat) (vel : Float32Array) (rt : Runtime),
    (i * 3 + 2 < f32_length vel)%nat ->
    succeeds (setExplosionVelocity h (i * 3) vel) rt
      (fun vel' rt' =>
         rt' = afterDraws 3 rt /\
         (forall j, j <> i -> tripleAt vel' j = tripleAt vel j) /\
         exists v,
           tripleAt vel' i = Some v /\
           let speed := random_stream h (drawn rt + 2) * 1.5 + 0.5 in
           norm2 v == speed * speed /\ 0.5 <= speed /\ speed < 2).
Proof.
  intros i vel rt Hi.
  eapply succeeds_mono; [apply setExplosionVelocity_ok; exact random_unit|].
  intros vel' rt' (-> & ->).
  split; [unfold afterDraw, afterDraws; cbn; f_equal; lia|].
  split.
  - intros j Hj. apply tripleAt_setTriple_other. congruence.
  - eexists. split; [apply tripleAt_setTriple_same; exact Hi|].
    cbn zeta. split.
    + unfold sampledVelocity, explosionVelocity, norm2. cbn [fst snd].
      rewrite !Qred_correct.
      pose proof (on_circle (random_stream h (drawn rt) * Math_PI * 2)) as Ht.
      pose proof (on_circle (acos_value h (random_stream h (drawn rt + 1) * 2 - 1))) as Hp.
      set (a := Math_sin h (acos_value h (random_stream h (drawn rt + 1) * 2 - 1))) in *.
      set (b := Math_cos h (acos_value h (random_stream h (drawn rt + 1) * 2 - 1))) in *.
      set (c := Math_sin h (random_stream h (drawn rt) * Math_PI * 2)) in *.
      set (d := Math_cos h (random_stream h (drawn rt) * Math_PI * 2)) in *.
      set (s := random_stream h (drawn rt + 2) * 1.5 + 0.5).
      setoid_replace (a * d * s * (a * d * s) + a * c * s * (a * c * s) + b * s * (b * s))
        with (s * s * (a * a * (c * c + d * d) + b * b)) by ring.
      rewrite Ht.
      setoid_replace (s * s * (a * a * 1 + b * b)) with (s * s * (a * a + b * b)) by ring.
      rewrite Hp. ring.
    + destruct (random_unit (drawn rt + 2)%nat). lra.
Qed.

End OnTheSphere.

Lemma sphere_particles_on_radius_witness :
  unitStream circleHost /\ pythagorean circleHost /\
  succeeds (initSphere circleHost (sampleConfig 3) emptyManager) startRuntime
    (fun m' _ =>
       exists p,
         particles m' = Some p /\
         forall i, (i < 3)%nat ->
           forall v, tripleAt (position p) i = Some v -> norm2 v == 40 * 40).
Proof.
  split; [exact circleHost_unit|]. split; [exact circleHost_pythagorean|].
  eapply succeeds_mono.
  { apply (sphere_particles_on_radius circleHost circleHost_unit
             circleHost_pythagorean (sampleConfig 3) emptyManager startRuntime). }
  intros m' rt' (p & E & H). exists p. split; [exact E|].
  intros i Hi. apply H. exact Hi.
Defined.

Lemma explosion_velocity_speed_witness :
  unitStream circleHost /\ pythagorean circleHost /\
  succeeds (setExplosionVelocity circleHost (0 * 3) (mkF32 7 [0; 0; 0])) startRuntime
    (fun vel' rt' =>
       rt' = afterDraws 3 startRuntime /\
       exists v, tripleAt vel' 0 = Some v /\
                 norm2 v == (sampleStream 2 * 1.5 + 0.5) * (sampleStream 2 * 1.5 + 0.5)).
Proof.
  split; [exact circleHost_unit|]. split; [exact circleHost_pythagorean|].
  eapply succeeds_mono.
  { apply (explosion_velocity_speed circleHost circleHost_unit
             circleHost_pythagorean 0 (mkF32 7 [0; 0; 0]) startRuntime).
    cbn. lia. }
  intros vel' rt' (E & _ & v & T & N & _). split; [exact E|].
  exists v. split; [exact T|exact N].
Defined.

Section RainStart.

Variable h : Host.
Hypothesis random_unit : unitStream h.

Lemma rainInit_loop_content n positions velocities rt :
  shaped n positions -> f32_length velocities = n ->
  succeeds (forUpTo n (rainInit h) (positions, velocities)) rt
    (fun s rt' =>
       rt' = afterDraws (4 * n) rt /\
       resized positions (fst s) /\ resized velocities (snd s) /\
       forall i, (i < n)%nat ->
         holds3 (tripleAt (fst s) i) (rainStart h (drawn rt + 4 * i)) /\
         holds (slot (snd s) i) (rainVelocity h (drawn rt + 4 * i))).
Proof.
  intros Hp Hv.
  apply (succeeds_forUpTo
           (fun k s rt' =>
              rt' = afterDraws (4 * k) rt /\
              resized positions (fst s) /\ resized velocities (snd s) /\
              forall i, (i < k)%nat ->
                holds3 (tripleAt (fst s) i) (rainStart h (drawn rt + 4 * i)) /\
                holds (slot (snd s) i) (rainVelocity h (drawn rt + 4 * i)))).
  - cbn [fst snd]. rewrite afterDraws_0. split; [reflexivity|].
    split; [apply resized_refl|]. split; [apply resized_refl|]. intros i Hi. lia.
  - intros k [pos1 vel1] rt1 Hk (-> & Rp & Rv & Hdone). cbn [fst snd] in *.
    unfold rainInit.
    apply succeeds_bind, succeeds_random.
    apply succeeds_bind, succeeds_random.
    apply succeeds_bind, succeeds_random.
    apply succeeds_bind, succeeds_random.
    apply succeeds_ret. cbn [fst snd].
    split; [rewrite !afterDraw_afterDraws; f_equal; lia|].
    split; [repeat apply resized_set; exact Rp|].
    split; [apply resized_set; exact Rv|].
    intros i Hi. destruct (Nat.eq_dec i k) as [->|Hne].
    + split.
      * unfold tripleAt. destruct Rp as [Lp _]. unfold shaped in Hp.
        slots. cbn [drawn afterDraw afterDraws]. unfold rainStart.
        replace (S (drawn rt + 4 * k)) with (drawn rt + 4 * k + 1)%nat by lia.
        replace (S (drawn rt + 4 * k + 1)) with (drawn rt + 4 * k + 2)%nat by lia.
        apply holds3_Qred.
      * destruct Rv as [Lv _].
        rewrite slot_set_same by lia.
        cbn [drawn afterDraw afterDraws]. unfold rainVelocity.
        replace (S (S (S (drawn rt + 4 * k)))) with (drawn rt + 4 * k + 3)%nat by lia.
        apply holds_Qred.
    + destruct (Hdone i) as [D1 D2]; [lia|]. split.
      * rewrite !(tripleAt_set_other _ k i) by lia. exact D1.
      * rewrite slot_set_other by congruence. exact D2.
  - auto.
Qed.

Lemma rainStart_in_volume d : inRainVolume (rainStart h d).
Proof.
  unfold inRainVolume, rainStart. cbn [fst snd].
  destruct (random_unit d), (random_unit (d + 1)%nat), (random_unit (d + 2)%nat).
  repeat split; lra.
Qed.

(** X12.  How [initRain] starts the rain.  Drop [i] is placed from the
    first three of its four draws, each coordinate in [-100, 100), and its
    fall velocity is [0.5 u + 0.5] for the fourth draw [u], so it lies in
    [0.5, 1).  With a positive speed every drop therefore falls in every
    frame by a positive amount smaller than the speed. *)
Theorem rain_starts_in_volume :
  forall (config : EffectConfig) (m : SceneManager) (rt : Runtime),
    succeeds (initRain h config m) rt
      (fun m' _ =>
         exists p cl,
           particles m' = Some p /\ updateCallback m' = Some (RainUpdate cl) /\
           rain_config cl = config /\
           forall i, (i < count config)%nat ->
             exists xyz v,
               tripleAt (position p) i = Some xyz /\
               holds3 (Some xyz) (rainStart h (drawn rt + 4 * i)) /\
               inRainVolume xyz /\
               slot (rain_velocities cl) i = Some v /\
               v == rainVelocity h (drawn rt + 4 * i) /\
               0.5 <= v /\ v < 1 /\
               (0 < speed config ->
                  0 < v * speed config /\ v * speed config < speed config)).
Proof.
  intros config m rt. unfold initRain.
  apply succeeds_bind, succeeds_newObject.
  apply succeeds_bind, succeeds_newFloat32Array.
  apply succeeds_bind, succeeds_newFloat32Array.
  apply succeeds_bind.
  eapply succeeds_mono.
  { apply rainInit_loop_content; [unfold shaped|]; apply f32_length_new. }
  intros [pos1 vel1] rt1 (-> & Rp & Rv & Hpts). cbn [fst snd] in *.
  apply succeeds_bind, succeeds_newObject.
  apply succeeds_bind, succeeds_newObject.
  apply succeeds_bind, succeeds_emit. apply succeeds_ret.
  eexists _, _. split; [reflexivity|]. split; [reflexivity|].
  cbn [position rain_config rain_velocities]. split; [reflexivity|].
  intros i Hi. destruct (Hpts i Hi) as [P V].
  cbn [drawn afterNew] in P, V.
  destruct (tripleAt pos1 i) as [[[x y] z]|] eqn:T; [|destruct P].
  destruct (slot vel1 i) as [v|] eqn:Sv; [|destruct V].
  exists (x, y, z), v. split; [reflexivity|]. split; [exact P|].
  cbn [holds3 holds] in P, V. destruct P as (Px & Py & Pz).
  pose proof (rainStart_in_volume (drawn rt + 4 * i)) as B.
  unfold inRainVolume in *. cbn [fst snd] in *.
  split; [rewrite Px, Py, Pz; exact B|].
  split; [reflexivity|]. split; [exact V|].
  unfold rainVelocity in *. destruct (random_unit (drawn rt + 4 * i + 3)%nat) as [U1 U2].
  split; [lra|]. split; [lra|].
  intro Hspeed. rewrite V.
  set (u := random_stream h (drawn rt + 4 * i + 3)) in *.
  split.
  - apply Qmult_lt_0_compat; lra.
  - setoid_replace (speed config) with (1 * speed config) at 2 by ring.
    apply Qmult_lt_compat_r; lra.
Qed.

End RainStart.

Lemma rain_starts_in_volume_witness :
  unitStream sampleHost /\
  succeeds (initRain sampleHost (sampleConfig 2) emptyManager) startRuntime
    (fun m' _ =>
       exists p cl,
         particles m' = Some p /\ updateCallback m' = Some (RainUpdate cl) /\
         forall i, (i < 2)%nat ->
           exists xyz v,
             tripleAt (position p) i = Some xyz /\ inRainVolume xyz /\
             slot (rain_velocities cl) i = Some v /\ 0.5 <= v /\ v < 1).
Proof.
  split; [exact sampleStream_unit|].
  eapply succeeds_mono.
  { apply (rain_starts_in_volume sampleHost sampleStream_unit (sampleConfig 2)
             emptyManager startRuntime). }
  intros m' rt' (p & cl & E1 & E2 & _ & H). exists p, cl.
  split; [exact E1|]. split; [exact E2|].
  intros i Hi. destruct (H i Hi) as (xyz & v & T & _ & B & Sv & _ & L & U & _).
  exists xyz, v. auto.
Defined.

Lemma succeeds_conj {A} (m : M A) rt (P Q : A -> Runtime -> Prop) :
  succeeds m rt P -> succeeds m rt Q -> succeeds m rt (fun a rt' => P a rt' /\ Q a rt').
Proof.
  intros (a & rt1 & E1 & HP) (a' & rt2 & E2 & HQ).
  rewrite E1 in E2. injection E2 as <- <-.
  exists a, rt1. auto.
Qed.

Lemma smooth_fixed rate v : smooth rate v v == v.
Proof. unfold smooth. ring. Qed.

Section HeartAtRest.

Variable h : Host.

Lemma elems_setTriple a c i x y z :
  elems a = elems c -> elems (setTriple a i x y z) = elems (setTriple c i x y z).
Proof. intro E. unfold setTriple, f32_set. cbn [elems]. rewrite E. reflexivity. Qed.

Lemma heartParticle_loop_copy cb ce n positions colors heartPositions heartColors rt :
  elems positions = elems heartPositions -> elems colors = elems heartColors ->
  succeeds (forUpTo n (heartParticle h cb ce)
                    (positions, colors, heartPositions, heartColors)) rt
    (fun s _ =>
       let '(p1, c1, hp1, hc1) := s in
       elems p1 = elems hp1 /\ elems c1 = elems hc1).
Proof.
  intros Ep Ec.
  apply (succeeds_forUpTo
           (fun (_ : nat) s (_ : Runtime) =>
              let '(p1, c1, hp1, hc1) := s in
              elems p1 = elems hp1 /\ elems c1 = elems hc1)).
  - auto.
  - intros k [[[p1 c1] hp1] hc1] rt1 Hk [E1 E2]. unfold heartParticle.
    apply succeeds_bind, succeeds_random.
    apply succeeds_bind, succeeds_random.
    apply succeeds_bind, succeeds_random.
    apply succeeds_bind, succeeds_random.
    apply succeeds_ret. unfold setColor.
    split; apply elems_setTriple; assumption.
  - auto.
Qed.

Lemma sameValues_smoothed rate targets a a' :
  elems a = elems targets -> smoothedToward rate targets a a' -> sameValues a a'.
Proof.
  intros E H s v Sv.
  assert (St : slot targets s = Some v) by (unfold slot in *; rewrite <- E; exact Sv).
  specialize (H s v v St Sv).
  destruct (slot a' s) as [w|]; [|destruct H]. cbn [holds] in *.
  rewrite H. apply smooth_fixed.
Qed.

(** X13.  [initHeartFirework] starts the particles at rest on the heart.
    The position and colour arrays of the points object hold, slot by slot,
    the same numbers as the heart targets the callback captured, in
    storages of their own; the phase is 0, the launch height 0 and every
    explosion velocity 0.  A frame with the hand inactive right after
    therefore moves nothing: every position and colour slot keeps its
    value, no draw is taken and the phase stays 0. *)
Theorem heart_starts_at_rest :
  forall (config : EffectConfig) (m : SceneManager) (rt : Runtime),
    succeeds (initHeartFirework h config m) rt
      (fun m' _ =>
         exists p col cl,
           particles m' = Some p /\ colorAttr p = Some col /\
           updateCallback m' = Some (HeartFireworkUpdate cl) /\
           copyOf (position p) (heartPositions cl) /\
           copyOf col (heartColors cl) /\
           phase cl = 0%nat /\ launchHeight cl = 0 /\
           elems (explosionVelocities cl) = repeat 0 (count config * 3) /\
           forall time rt2,
             succeeds (heartFireworkFrame h time false cl p) rt2
               (fun res rt3 =>
                  rt3 = rt2 /\ phase (fst res) = 0%nat /\
                  sameValues (position p) (position (snd res)) /\
                  exists col', colorAttr (snd res) = Some col' /\
                               sameValues col col')).
Proof.
  intros config m rt. unfold initHeartFirework.
  apply succeeds_bind, succeeds_newObject.
  apply succeeds_bind, succeeds_newFloat32Array.
  apply succeeds_bind, succeeds_newFloat32Array.
  apply succeeds_bind, succeeds_newFloat32Array.
  apply succeeds_bind, succeeds_newFloat32Array.
  apply succeeds_bind.
  eapply succeeds_mono.
  { apply succeeds_conj.
    - apply heartParticle_loop_ok.
    - apply heartParticle_loop_copy; reflexivity. }
  intros [[[pos1 col1] hp1] hc1] rt1 [[(Rp & Rc & Rhp & Rhc) _] [Ep Ec]].
  apply succeeds_bind, succeeds_newObject.
  apply succeeds_bind, succeeds_newObject.
  apply succeeds_bind, succeeds_emit.
  apply succeeds_bind, succeeds_newFloat32Array.
  apply succeeds_ret.
  eexists _, _, _. split; [reflexivity|]. split; [reflexivity|].
  split; [reflexivity|].
  cbn [position heartPositions heartColors phase launchHeight explosionVelocities
       elems].
  destruct Rp as [Lp Bp], Rc as [Lc Bc], Rhp as [Lhp Bhp], Rhc as [Lhc Bhc].
  rewrite f32_length_new in Lp, Lc, Lhp, Lhc. cbn [buffer fresh afterNew] in *.
  split; [split; [exact Ep|lia]|].
  split; [split; [exact Ec|lia]|].
  do 3 (split; [reflexivity|]).
  intros time rt2. unfold heartFireworkFrame.
  cbn [position colorAttr phase launchHeight heart_count explosionVelocities].
  apply succeeds_bind. eapply colorArray_ok; [reflexivity|].
  cbn [heartGate negb Nat.eqb].
  apply succeeds_bind.
  eapply succeeds_mono.
  { apply (heartIdle_loop_content (mkHeartFirework _ _ _ _ _ _ _));
      unfold shaped; cbn [heart_count heartPositions heartColors]; assumption. }
  intros [pos2 col2] rt3 (-> & _ & _ & Sp & Sc). cbn [fst snd] in *.
  apply succeeds_ret. cbn [fst snd phase withPhase position colorAttr setColorAttr
                          setPosition].
  split; [reflexivity|]. split; [reflexivity|].
  split; [eapply sameValues_smoothed; eassumption|].
  eexists. split; [reflexivity|]. eapply sameValues_smoothed; eassumption.
Qed.

End HeartAtRest.

(** A loop over the particles whose body smooths the three position slots
    of its particle toward [targets] and keeps the colours in shape. *)
Lemma smoothing_loop (body : nat -> Float32Array * Float32Array ->
                             M (Float32Array * Float32Array))
      rate targets n pos col rt :
  shaped n targets -> shaped n pos -> shaped n col ->
  (forall k pos1 col1 rt1,
     (k < n)%nat -> shaped n pos1 -> shaped n col1 ->
     succeeds (body k (pos1, col1)) rt1
       (fun s rt' =>
          rt' = rt1 /\ resized pos1 (fst s) /\ resized col1 (snd s) /\
          (forall s0, (s0 < k * 3 \/ k * 3 + 3 <= s0)%nat ->
             slot (fst s) s0 = slot pos1 s0) /\
          (forall s0 t v, (k * 3 <= s0 < k * 3 + 3)%nat ->
             slot targets s0 = Some t -> slot pos1 s0 = Some v ->
             holds (slot (fst s) s0) (smooth rate t v)))) ->
  succeeds (forUpTo n body (pos, col)) rt
    (fun s rt' =>
       rt' = rt /\ resized pos (fst s) /\ resized col (snd s) /\
       smoothedToward rate targets pos (fst s)).
Proof.
  intros Ht Hp Hc Hbody.
  apply (succeeds_forUpTo
           (fun k s rt' =>
              rt' = rt /\ resized pos (fst s) /\ resized col (snd s) /\
              (forall s0, (k * 3 <= s0)%nat -> slot (fst s) s0 = slot pos s0) /\
              (forall s0 t v, (s0 < k * 3)%nat ->
                 slot targets s0 = Some t -> slot pos s0 = Some v ->
                 holds (slot (fst s) s0) (smooth rate t v)))).
  - cbn [fst snd]. split; [reflexivity|]. split; [apply resized_refl|].
    split; [apply resized_refl|]. split; [intros; reflexivity|]. intros; lia.
  - intros k [pos1 col1] rt1 Hk (-> & Rp & Rc & Hrest & Hdone). cbn [fst snd] in *.
    eapply succeeds_mono.
    { apply Hbody; [exact Hk|exact (resized_shaped _ _ _ Hp Rp)
                    |exact (resized_shaped _ _ _ Hc Rc)]. }
    intros [pos2 col2] rt2 (-> & Rp2 & Rc2 & Op & Sp). cbn [fst snd] in *.
    split; [reflexivity|]. split; [eapply resized_trans; eassumption|].
    split; [eapply resized_trans; eassumption|]. split.
    + intros s0 Hs0. rewrite Op by lia. apply Hrest. lia.
    + intros s0 t v Hs0 Ts As.
      destruct (Nat.lt_ge_cases s0 (k * 3)) as [Hlt|Hge].
      * rewrite Op by lia. apply (Hdone s0 t v Hlt Ts As).
      * apply Sp; [lia|exact Ts|]. rewrite Hrest by lia. exact As.
  - intros [pos' col'] rt' (A & B & C & _ & D). cbn [fst snd] in *.
    split; [exact A|]. split; [exact B|]. split; [exact C|].
    intros s0 t v Ts As. apply (D s0 t v); [|exact Ts|exact As].
    unfold slot in As. unfold shaped, f32_length in Hp.
    rewrite <- Hp. apply nth_error_Some. congruence.
Qed.

Section TextGesture.

Variable h : Host.

Lemma textMorphBody_ok cl n k pos col rt :
  shaped n (textPositions cl) -> shaped n pos -> shaped n col -> (k < n)%nat ->
  succeeds (textMorphBody cl k (pos, col)) rt
    (fun s rt' =>
       rt' = rt /\ resized pos (fst s) /\ resized col (snd s) /\
       (forall s0, (s0 < k * 3 \/ k * 3 + 3 <= s0)%nat ->
          slot (fst s) s0 = slot pos s0) /\
       (forall s0 t v, (k * 3 <= s0 < k * 3 + 3)%nat ->
          slot (textPositions cl) s0 = Some t -> slot pos s0 = Some v ->
          holds (slot (fst s) s0) (smooth 0.08 t v))).
Proof.
  intros Ht Hp Hc Hk. unfold textMorphBody.
  apply succeeds_bind. eapply succeeds_mono.
  { apply smoothTriple_content; eapply particle_in_range; eassumption. }
  intros pos2 rt2 (-> & Rp2 & Op & Sp).
  apply succeeds_bind. eapply succeeds_mono.
  { apply smoothColor_shape. eapply particle_in_range; eassumption. }
  intros col2 rt3 (-> & Rc2). apply succeeds_ret. cbn [fst snd]. auto.
Qed.

Lemma textGalaxyBody_ok cl base n k pos col rt :
  shaped n (galaxyPositions cl) -> shaped n pos -> shaped n col -> (k < n)%nat ->
  succeeds (textGalaxyBody h cl base k (pos, col)) rt
    (fun s rt' =>
       rt' = rt /\ resized pos (fst s) /\ resized col (snd s) /\
       (forall s0, (s0 < k * 3 \/ k * 3 + 3 <= s0)%nat ->
          slot (fst s) s0 = slot pos s0) /\
       (forall s0 t v, (k * 3 <= s0 < k * 3 + 3)%nat ->
          slot (galaxyPositions cl) s0 = Some t -> slot pos s0 = Some v ->
          holds (slot (fst s) s0) (smooth 0.08 t v))).
Proof.
  intros Hg Hp Hc Hk. unfold textGalaxyBody.
  pose proof (particle_in_range _ _ _ Hg Hk) as Rg.
  apply succeeds_bind. eapply succeeds_mono.
  { apply smoothTriple_content; eapply particle_in_range; eassumption. }
  intros pos2 rt2 (-> & Rp2 & Op & Sp).
  apply succeeds_bind, succeeds_get; [lia|]. intros dx _.
  apply succeeds_bind, succeeds_get; [lia|]. intros dz _.
  apply succeeds_bind, succeeds_sqrt.
  { pose proof (square_nonneg dx). pose proof (square_nonneg dz). lra. }
  apply succeeds_bind. eapply succeeds_mono.
  { apply smoothColor_shape. eapply particle_in_range; eassumption. }
  intros col2 rt3 (-> & Rc2). apply succeeds_ret. cbn [fst snd]. auto.
Qed.

Lemma textReady_update cl q v pos col :
  textReady cl q -> resized (position q) pos ->
  (forall c0, colorAttr q = Some c0 -> resized c0 col) ->
  textReady (withRotationY cl v) (setColorAttr (setPosition (setRotationY q v) pos) col).
Proof.
  intros (Hp & (c0 & Ec & Hc) & Hg & Ht) Rp Rc.
  unfold textReady. cbn [text_config withRotationY position colorAttr setColorAttr
                        setPosition setRotationY galaxyPositions textPositions].
  split; [exact (resized_shaped _ _ _ Hp Rp)|].
  split; [exists col; split; [reflexivity|];
          exact (resized_shaped _ _ _ Hc (Rc c0 Ec))|].
  auto.
Qed.

Lemma textFrame_held cl p rt :
  textReady cl p ->
  succeeds (creativeTextFrame h true cl p) rt
    (fun res rt' =>
       rt' = rt /\ textReady (fst res) (snd res) /\
       text_config (fst res) = text_config cl /\
       currentRotationY (fst res) == 0.9 * currentRotationY cl /\
       rotation_y (snd res) = currentRotationY (fst res) /\
       smoothedToward 0.08 (textPositions cl) (position p) (position (snd res))).
Proof.
  intro R. pose proof R as (Hp & (col & Ec & Hc) & Hg & Ht).
  unfold creativeTextFrame.
  apply succeeds_bind. eapply colorArray_ok; [exact Ec|].
  apply succeeds_bind. eapply succeeds_mono.
  { apply (smoothing_loop _ 0.08 (textPositions cl) (count (text_config cl)));
      [exact Ht|exact Hp|exact Hc|].
    intros k pos1 col1 rt1 Hk Hp1 Hc1.
    apply (textMorphBody_ok (withRotationY cl _) (count (text_config cl)));
      assumption. }
  intros [pos' col'] rt' (-> & Rp & Rc & Sm). cbn [fst snd] in *.
  apply succeeds_ret. cbn [fst snd].
  split; [reflexivity|]. split.
  { apply textReady_update; [exact R|exact Rp|].
    intros c0 E0. rewrite Ec in E0. apply Some_inj in E0. subst c0. exact Rc. }
  cbn [currentRotationY withRotationY rotation_y setColorAttr setPosition
       setRotationY position text_config].
  split; [reflexivity|].
  split; [unfold smooth; ring|]. split; [reflexivity|exact Sm].
Qed.

Lemma textFrame_released cl p rt :
  textReady cl p ->
  succeeds (creativeTextFrame h false cl p) rt
    (fun res rt' =>
       rt' = rt /\ textReady (fst res) (snd res) /\
       text_config (fst res) = text_config cl /\
       currentRotationY (fst res)
         == currentRotationY cl + speed (text_config cl) * 0.002 /\
       rotation_y (snd res) = currentRotationY (fst res) /\
       smoothedToward 0.08 (galaxyPositions cl) (position p) (position (snd res))).
Proof.
  intro R. pose proof R as (Hp & (col & Ec & Hc) & Hg & Ht).
  unfold creativeTextFrame.
  apply succeeds_bind. eapply colorArray_ok; [exact Ec|].
  apply succeeds_bind. eapply succeeds_mono.
  { apply (smoothing_loop _ 0.08 (galaxyPositions cl) (count (text_config cl)));
      [exact Hg|exact Hp|exact Hc|].
    intros k pos1 col1 rt1 Hk Hp1 Hc1.
    apply (textGalaxyBody_ok (withRotationY cl _) _ (count (text_config cl)));
      assumption. }
  intros [pos' col'] rt' (-> & Rp & Rc & Sm). cbn [fst snd] in *.
  apply succeeds_ret. cbn [fst snd].
  split; [reflexivity|]. split.
  { apply textReady_update; [exact R|exact Rp|].
    intros c0 E0. rewrite Ec in E0. apply Some_inj in E0. subst c0. exact Rc. }
  cbn [currentRotationY withRotationY rotation_y setColorAttr setPosition
       setRotationY position text_config].
  split; [reflexivity|].
  split; [reflexivity|]. split; [reflexivity|exact Sm].
Qed.

(** X14.  A frame of the text effect.  With the victory sign held, the
    turn of the cloud is multiplied by 0.9 and every position slot moves 8%
    of the way to the slot of the text cloud; with the hand away, the turn
    grows by [0.002 * speed] and every position slot moves 8% of the way
    back to the galaxy.  In both cases the points object is turned by the
    stored angle, no draw is taken, and the arrays keep their storage and
    length.  After [k] frames with the sign held the turn is [0.9 ^ k]
    times what it was. *)
Theorem text_gesture_frame :
  forall (cl : CreativeTextClosure) (p : Points) (rt : Runtime),
    textReady cl p ->
    succeeds (creativeTextFrame h true cl p) rt
      (fun res rt' =>
         rt' = rt /\ textReady (fst res) (snd res) /\
         currentRotationY (fst res) == 0.9 * currentRotationY cl /\
         rotation_y (snd res) = currentRotationY (fst res) /\
         smoothedToward 0.08 (textPositions cl) (position p) (position (snd res))) /\
    succeeds (creativeTextFrame h false cl p) rt
      (fun res rt' =>
         rt' = rt /\ textReady (fst res) (snd res) /\
         currentRotationY (fst res)
           == currentRotationY cl + speed (text_config cl) * 0.002 /\
         rotation_y (snd res) = currentRotationY (fst res) /\
         smoothedToward 0.08 (galaxyPositions cl) (position p) (position (snd res))) /\
    (forall k,
       succeeds (textFrames h true k cl p) rt
         (fun res rt' =>
            rt' = rt /\ textReady (fst res) (snd res) /\
            currentRotationY (fst res) == Qpow 0.9 k * currentRotationY cl)).
Proof.
  intros cl p rt R. split; [|split].
  - eapply succeeds_mono; [apply textFrame_held; exact R|].
    intros res rt' (A & B & _ & C). auto.
  - eapply succeeds_mono; [apply textFrame_released; exact R|].
    intros res rt' (A & B & _ & C). auto.
  - intro k. revert cl p rt R.
    induction k as [|k IH]; intros cl p rt R.
    + apply succeeds_ret. cbn [fst snd]. split; [reflexivity|].
      split; [exact R|]. cbn [Qpow]. ring.
    + cbn [textFrames]. apply succeeds_bind.
      eapply succeeds_mono; [apply textFrame_held; exact R|].
      intros [cl1 p1] rt1 (-> & R1 & _ & Rot & _ & _). cbn [fst snd] in *.
      eapply succeeds_mono; [apply IH; exact R1|].
      intros [cl2 p2] rt2 (-> & R2 & Rot2). cbn [fst snd] in *.
      split; [reflexivity|]. split; [exact R2|].
      rewrite Rot2, Rot. cbn [Qpow]. ring.
Qed.

End TextGesture.

Lemma sampleText_ready : textReady sampleText samplePoints.
Proof.
  unfold textReady. cbn. repeat split; try reflexivity.
  exists (mkF32 2 [1; 0.5; 0.5]). split; reflexivity.
Qed.

Lemma text_gesture_frame_witness :
  textReady sampleText samplePoints /\
  succeeds (textFrames sampleHost true 2 sampleText samplePoints) startRuntime
    (fun res rt' =>
       rt' = startRuntime /\ textReady (fst res) (snd res) /\
       currentRotationY (fst res) == Qpow 0.9 2 * 1).
Proof.
  split; [exact sampleText_ready|].
  destruct (text_gesture_frame sampleHost sampleText samplePoints startRuntime
              sampleText_ready) as (_ & _ & K).
  exact (K 2%nat).
Defined.

Section Flame.

Variable h : Host.

Lemma flame_step n pos col i rt y g :
  shaped n pos -> shaped n col -> (i < n)%nat ->
  slot pos (i * 3 + 1) = Some y -> slot col (i * 3 + 1) = Some g ->
  succeeds (cakeFlameBody h i (pos, col)) rt
    (fun s rt' =>
       drawsOnly rt rt' /\ resized pos (fst s) /\ resized col (snd s) /\
       (forall s0, (s0 < i * 3 \/ i * 3 + 3 <= s0)%nat ->
          slot (fst s) s0 = slot pos s0 /\ slot (snd s) s0 = slot col s0) /\
       exists y' g',
         slot (fst s) (i * 3 + 1) = Some y' /\ slot (snd s) (i * 3 + 1) = Some g' /\
         y' <= 28.2 /\
         ((y' == 20.2 /\ g' == 0.98) \/
          (y <= 28 /\ y' == y + 0.2 /\ g' == g - 0.02)) /\
         (28 < y -> y' == 20.2 /\ g' == 0.98)).
Proof.
  intros Hp Hc Hi Sy Sg.
  pose proof (particle_in_range _ _ _ Hp Hi) as Rp.
  pose proof (particle_in_range _ _ _ Hc Hi) as Rc.
  unfold cakeFlameBody.
  apply succeeds_bind. exists y, rt. split; [apply get_slot; exact Sy|].
  destruct (Qltb 28 y) eqn:High.
  - (* above the reset height *)
    apply succeeds_bind, succeeds_ret. cbn iota.
    apply succeeds_bind, succeeds_bind, succeeds_random.
    apply succeeds_bind, succeeds_random. apply succeeds_ret.
    unfold setTriple.
    apply succeeds_bind, succeeds_modify; [in_range|]. intros v1 V1.
    apply succeeds_bind, succeeds_random.
    apply succeeds_bind, succeeds_modify; [in_range|]. intros v2 V2.
    apply succeeds_bind, smoothAt_ok; [in_range|]. intros v3 V3.
    apply succeeds_bind, succeeds_modify; [in_range|]. intros v4 V4.
    apply succeeds_ret. cbn [fst snd].
    unfold setTriple in *. unfold shaped in Hp, Hc.
    slots_in V1. slots_in V4. apply Some_inj in V1, V4. subst v1 v4.
    split; [draws|].
    split; [repeat apply resized_set; apply resized_refl|].
    split; [repeat apply resized_set; apply resized_refl|].
    split; [intros s0 Hs0; split; slots; reflexivity|].
    eexists _, _. split; [slots; reflexivity|]. split; [slots; reflexivity|].
    rewrite !Qred_correct.
    assert (E1 : 20 + 0.2 == 20.2) by reflexivity.
    assert (E2 : 1 - 0.02 == 0.98) by reflexivity.
    split; [lra|]. split; [left; split; lra|]. intros _. split; lra.
  - apply Qltb_false in High.
    apply succeeds_bind, succeeds_bind, succeeds_random. apply succeeds_ret.
    destruct (Qltb (random_stream h (drawn rt)) 0.05).
    + apply succeeds_bind, succeeds_bind, succeeds_random.
      apply succeeds_bind, succeeds_random. apply succeeds_ret.
      unfold setTriple.
      apply succeeds_bind, succeeds_modify; [in_range|]. intros v1 V1.
      apply succeeds_bind, succeeds_random.
      apply succeeds_bind, succeeds_modify; [in_range|]. intros v2 V2.
      apply succeeds_bind, smoothAt_ok; [in_range|]. intros v3 V3.
      apply succeeds_bind, succeeds_modify; [in_range|]. intros v4 V4.
      apply succeeds_ret. cbn [fst snd].
      unfold setTriple in *. unfold shaped in Hp, Hc.
      slots_in V1. slots_in V4. apply Some_inj in V1, V4. subst v1 v4.
      split; [draws|].
      split; [repeat apply resized_set; apply resized_refl|].
      split; [repeat apply resized_set; apply resized_refl|].
      split; [intros s0 Hs0; split; slots; reflexivity|].
      eexists _, _. split; [slots; reflexivity|]. split; [slots; reflexivity|].
      rewrite !Qred_correct.
      assert (E1 : 20 + 0.2 == 20.2) by reflexivity.
      assert (E2 : 1 - 0.02 == 0.98) by reflexivity.
      split; [lra|]. split; [left; split; lra|]. intros _. split; lra.
    + apply succeeds_bind, succeeds_ret.
      apply succeeds_bind, succeeds_modify; [in_range|]. intros v1 V1.
      apply succeeds_bind, succeeds_random.
      apply succeeds_bind, succeeds_modify; [in_range|]. intros v2 V2.
      apply succeeds_bind, smoothAt_ok; [in_range|]. intros v3 V3.
      apply succeeds_bind, succeeds_modify; [in_range|]. intros v4 V4.
      apply succeeds_ret. cbn [fst snd].
      unfold shaped in Hp, Hc.
      rewrite Sy in V1. slots_in V4. rewrite Sg in V4.
      apply Some_inj in V1, V4. subst v1 v4.
      split; [draws|].
      split; [repeat apply resized_set; apply resized_refl|].
      split; [repeat apply resized_set; apply resized_refl|].
      split; [intros s0 Hs0; split; slots; reflexivity|].
      eexists _, _. split; [slots; reflexivity|]. split; [slots; reflexivity|].
      rewrite !Qred_correct.
      split; [lra|]. split; [right; split; [exact High|split; reflexivity]|].
      intro Hy. lra.
Qed.

Lemma slot_in_shape n a i :
  shaped n a -> (i < n)%nat -> exists v, slot a (i * 3 + 1) = Some v.
Proof. intros Hs Hi. apply slot_some. unfold shaped in Hs. lia. Qed.

(** X15.  The flame of the cake.  In a frame of cake mode a flame particle
    is either reset to the top of the candle, ending the frame at height
    20.2 with its green channel at 0.98, or it rises by 0.2 and its green
    channel drops by 0.02; a particle above height 28 is always reset.  So
    no flame particle ends a frame above 28.2.  The particles below the
    flame index are not touched by the flame loop. *)
Theorem flame_stays_below_ceiling :
  (forall n pos col i rt y g,
     shaped n pos -> shaped n col -> (i < n)%nat ->
     slot pos (i * 3 + 1) = Some y -> slot col (i * 3 + 1) = Some g ->
     succeeds (cakeFlameBody h i (pos, col)) rt
       (fun s rt' =>
          drawsOnly rt rt' /\
          (forall s0, (s0 < i * 3 \/ i * 3 + 3 <= s0)%nat ->
             slot (fst s) s0 = slot pos s0 /\ slot (snd s) s0 = slot col s0) /\
          exists y' g',
            slot (fst s) (i * 3 + 1) = Some y' /\
            slot (snd s) (i * 3 + 1) = Some g' /\
            y' <= 28.2 /\
            ((y' == 20.2 /\ g' == 0.98) \/
             (y <= 28 /\ y' == y + 0.2 /\ g' == g - 0.02)) /\
            (28 < y -> y' == 20.2 /\ g' == 0.98))) /\
  (forall n from pos col rt,
     shaped n pos -> shaped n col -> (from <= n)%nat ->
     succeeds (forRange from (n - from) (cakeFlameBody h) (pos, col)) rt
       (fun s rt' =>
          drawsOnly rt rt' /\ resized pos (fst s) /\ resized col (snd s) /\
          (forall s0, (s0 < from * 3)%nat ->
             slot (fst s) s0 = slot pos s0 /\ slot (snd s) s0 = slot col s0) /\
          forall i, (from <= i < n)%nat ->
            exists y', slot (fst s) (i * 3 + 1) = Some y' /\ y' <= 28.2)).
Proof.
  split.
  - intros n pos col i rt y g Hp Hc Hi Sy Sg.
    eapply succeeds_mono; [apply (flame_step n); eassumption|].
    intros s rt' (D & _ & _ & O & R). auto.
  - intros n from pos col rt Hp Hc Hfrom.
    apply (succeeds_forRange
             (fun k s rt' =>
                drawsOnly rt rt' /\ resized pos (fst s) /\ resized col (snd s) /\
                (forall s0, (s0 < from * 3 \/ k * 3 <= s0)%nat ->
                   slot (fst s) s0 = slot pos s0 /\ slot (snd s) s0 = slot col s0) /\
                forall i, (from <= i < k)%nat ->
                  exists y', slot (fst s) (i * 3 + 1) = Some y' /\ y' <= 28.2)).
    + cbn [fst snd]. split; [apply drawsOnly_refl|].
      split; [apply resized_refl|]. split; [apply resized_refl|].
      split; [intros; split; reflexivity|]. intros i Hi. lia.
    + intros k [pos1 col1] rt1 Hk (D & Rp & Rc & Hrest & Hdone). cbn [fst snd] in *.
      assert (Hp1 : shaped n pos1) by exact (resized_shaped _ _ _ Hp Rp).
      assert (Hc1 : shaped n col1) by exact (resized_shaped _ _ _ Hc Rc).
      destruct (slot_in_shape n pos1 k Hp1) as (y & Sy); [lia|].
      destruct (slot_in_shape n col1 k Hc1) as (g & Sg); [lia|].
      eapply succeeds_mono; [apply (flame_step n pos1 col1 k rt1 y g); try assumption; lia|].
      intros [pos2 col2] rt2 (D2 & Rp2 & Rc2 & O & y' & g' & Sy' & _ & B & _).
      cbn [fst snd] in *.
      split; [eapply drawsOnly_trans; eassumption|].
      split; [eapply resized_trans; eassumption|].
      split; [eapply resized_trans; eassumption|]. split.
      * intros s0 Hs0. destruct (O s0) as [O1 O2]; [lia|].
        destruct (Hrest s0) as [H1 H2]; [lia|]. split; congruence.
      * intros i Hi. destruct (Nat.eq_dec i k) as [->|Hne].
        -- exists y'. split; [exact Sy'|exact B].
        -- destruct (Hdone i) as (yi & Syi & Byi); [lia|].
           exists yi. split; [|exact Byi].
           destruct (O (i * 3 + 1)%nat) as [O1 _]; [lia|]. congruence.
    + intros [pos' col'] rt' (D & Rp & Rc & Hrest & Hdone). cbn [fst snd] in *.
      split; [exact D|]. split; [exact Rp|]. split; [exact Rc|]. split.
      * intros s0 Hs0. apply Hrest. lia.
      * intros i Hi. apply Hdone. lia.
Qed.

End Flame.

Lemma flame_stays_below_ceiling_witness :
  succeeds (cakeFlameBody sampleHost 1
              (position sampleCakePoints, mkF32 2 [1; 1; 1; 1; 0.5; 0])) startRuntime
    (fun s _ =>
       exists y' g',
         slot (fst s) 4 = Some y' /\ slot (snd s) 4 = Some g' /\
         y' == 20.2 /\ g' == 0.98).
Proof.
  destruct (flame_stays_below_ceiling sampleHost) as (A & _).
  eapply succeeds_mono.
  { apply (A 2%nat (position sampleCakePoints) (mkF32 2 [1; 1; 1; 1; 0.5; 0])
             1%nat startRuntime 30 0.5); try reflexivity. cbn. lia. }
  intros s rt' (_ & _ & y' & g' & Sy & Sg & _ & _ & R).
  exists y', g'. split; [exact Sy|]. split; [exact Sg|].
  apply R. reflexivity.
Defined.

Section CakeBands.

Variable h : Host.
Hypothesis random_unit : unitStream h.

Lemma tripleAt_slots_eq a a' j :
  (forall s0, (s0 < j * 3 + 3)%nat -> slot a' s0 = slot a s0) ->
  tripleAt a' j = tripleAt a j.
Proof. intro H. unfold tripleAt. rewrite !H by lia. reflexivity. Qed.

Lemma cakeDisk_loop_content rad height c lo hi N n cakePositions cakeColors idx rt :
  shaped N cakePositions -> shaped N cakeColors -> (idx + n <= N)%nat ->
  (forall u, 0 <= u -> u < 1 -> lo <= height u /\ height u < hi) ->
  succeeds (forUpTo n (cakeDisk h rad height c) (cakePositions, cakeColors, idx)) rt
    (fun s rt' =>
       let '(p1, c1, idx1) := s in
       resized cakePositions p1 /\ resized cakeColors c1 /\
       idx1 = (idx + n)%nat /\ drawsOnly rt rt' /\
       (forall s0, (s0 < idx * 3)%nat ->
          slot p1 s0 = slot cakePositions s0 /\ slot c1 s0 = slot cakeColors s0) /\
       (forall j, (idx <= j < idx + n)%nat -> inBand p1 c1 j c lo hi)).
Proof.
  intros Hp Hc Hn Hh.
  apply (succeeds_forUpTo
           (fun k s rt' =>
              let '(p1, c1, idx1) := s in
              resized cakePositions p1 /\ resized cakeColors c1 /\
              idx1 = (idx + k)%nat /\ drawsOnly rt rt' /\
              (forall s0, (s0 < idx * 3)%nat ->
                 slot p1 s0 = slot cakePositions s0 /\
                 slot c1 s0 = slot cakeColors s0) /\
              (forall j, (idx <= j < idx + k)%nat -> inBand p1 c1 j c lo hi))).
  - split; [apply resized_refl|]. split; [apply resized_refl|].
    split; [lia|]. split; [apply drawsOnly_refl|].
    split; [intros; split; reflexivity|]. intros j Hj. lia.
  - intros k [[p1 c1] idx1] rt1 Hk (Rp & Rc & -> & HD & Hrest & Hdone).
    unfold cakeDisk.
    apply succeeds_bind, succeeds_random.
    apply succeeds_bind, succeeds_random.
    destruct (random_unit (drawn (afterDraw rt1))) as [L _].
    apply succeeds_bind, succeeds_sqrt; [exact L|].
    apply succeeds_bind, succeeds_random.
    apply succeeds_ret.
    assert (Lp1 : f32_length p1 = (N * 3)%nat) by (destruct Rp; unfold shaped in Hp; lia).
    assert (Lc1 : f32_length c1 = (N * 3)%nat) by (destruct Rc; unfold shaped in Hc; lia).
    split; [apply resized_setTriple; exact Rp|].
    split; [apply resized_setColor; exact Rc|].
    split; [lia|]. split; [eapply drawsOnly_trans; [exact HD|]; draws|].
    unfold setColor, setTriple. split.
    + intros s0 Hs0. destruct (Hrest s0 Hs0) as [H1 H2].
      split; slots; assumption.
    + intros j Hj. destruct (Nat.eq_dec j (idx + k)) as [->|Hne].
      * split.
        -- unfold tripleAt. slots. unfold colorTriple. apply holds3_Qred.
        -- eexists. split; [slots; reflexivity|].
           rewrite Qred_correct.
           destruct (random_unit (drawn (afterDraw (afterDraw rt1)))) as [U1 U2].
           apply Hh; assumption.
      * destruct (Hdone j) as [D1 (y & Sy & By)]; [lia|]. split.
        -- unfold tripleAt in *. slots. exact D1.
        -- exists y. split; [slots; exact Sy|exact By].
  - intros [[p1 c1] idx1] rt' H. exact H.
Qed.

Lemma cakeText_loop_content textPositions N n cakePositions cakeColors idx rt :
  shaped N cakePositions -> shaped N cakeColors -> (idx + n <= N)%nat ->
  (3 * n <= f32_length textPositions)%nat ->
  succeeds (forUpTo n (cakeText textPositions) (cakePositions, cakeColors, idx)) rt
    (fun s rt' =>
       let '(p1, c1, idx1) := s in
       resized cakePositions p1 /\ resized cakeColors c1 /\
       idx1 = (idx + n)%nat /\ drawsOnly rt rt' /\
       (forall s0, (s0 < idx * 3)%nat ->
          slot p1 s0 = slot cakePositions s0 /\ slot c1 s0 = slot cakeColors s0) /\
       (forall j, (idx <= j < idx + n)%nat -> holds3 (tripleAt c1 j) (1, 1, 0))).
Proof.
  intros Hp Hc Hn HL.
  apply (succeeds_forUpTo
           (fun k s rt' =>
              let '(p1, c1, idx1) := s in
              resized cakePositions p1 /\ resized cakeColors c1 /\
              idx1 = (idx + k)%nat /\ drawsOnly rt rt' /\
              (forall s0, (s0 < idx * 3)%nat ->
                 slot p1 s0 = slot cakePositions s0 /\
                 slot c1 s0 = slot cakeColors s0) /\
              (forall j, (idx <= j < idx + k)%nat ->
                 holds3 (tripleAt c1 j) (1, 1, 0)))).
  - split; [apply resized_refl|]. split; [apply resized_refl|].
    split; [lia|]. split; [apply drawsOnly_refl|].
    split; [intros; split; reflexivity|]. intros j Hj. lia.
  - intros k [[p1 c1] idx1] rt1 Hk (Rp & Rc & -> & HD & Hrest & Hdone).
    unfold cakeText.
    apply succeeds_bind, js_rem_small; [lia|]. intros m Em.
    apply succeeds_bind, (getAt_ok _ _ (k * 3)%nat); [| lia |].
    { rewrite Em. unfold ofNat. rewrite Nat2Z.inj_mul, inject_Z_mult.
      reflexivity. }
    intros tx _.
    apply succeeds_bind, (getAt_ok _ _ (k * 3 + 1)%nat); [| lia |].
    { rewrite Em. unfold ofNat.
      rewrite Nat2Z.inj_add, Nat2Z.inj_mul, inject_Z_plus, inject_Z_mult.
      reflexivity. }
    intros ty _.
    apply succeeds_bind, (getAt_ok _ _ (k * 3 + 2)%nat); [| lia |].
    { rewrite Em. unfold ofNat.
      rewrite Nat2Z.inj_add, Nat2Z.inj_mul, inject_Z_plus, inject_Z_mult.
      reflexivity. }
    intros tz _.
    apply succeeds_ret.
    assert (Lp1 : f32_length p1 = (N * 3)%nat) by (destruct Rp; unfold shaped in Hp; lia).
    assert (Lc1 : f32_length c1 = (N * 3)%nat) by (destruct Rc; unfold shaped in Hc; lia).
    split; [repeat apply resized_set; exact Rp|].
    split; [apply resized_setTriple; exact Rc|].
    split; [lia|]. split; [exact HD|].
    unfold setTriple. split.
    + intros s0 Hs0. destruct (Hrest s0 Hs0) as [H1 H2].
      split; slots; assumption.
    + intros j Hj. destruct (Nat.eq_dec j (idx + k)) as [->|Hne].
      * unfold tripleAt. slots. apply holds3_Qred.
      * specialize (Hdone j). unfold tripleAt in *. slots. apply Hdone. lia.
  - intros [[p1 c1] idx1] rt' H. exact H.
Qed.

Lemma inBand_kept p c p' c' j col lo hi :
  (forall s0, (s0 < j * 3 + 3)%nat -> slot p' s0 = slot p s0 /\ slot c' s0 = slot c s0) ->
  inBand p c j col lo hi -> inBand p' c' j col lo hi.
Proof.
  intros H [Hc (y & Sy & By)]. split.
  - rewrite (tripleAt_slots_eq c c' j); [exact Hc|]. intros s0 Hs0. apply H. exact Hs0.
  - exists y. split; [|exact By]. destruct (H (j * 3 + 1)%nat) as [E _]; [lia|].
    congruence.
Qed.

Lemma cake_flame_left c :
  (1 <= c)%nat ->
  (baseCount c + topCount c + candleCount c + textCount c < c)%nat.
Proof.
  intro Hc. unfold baseCount, topCount, candleCount, textCount.
  unfold Math_floor, Qfloor, ofNat. cbn.
  Z.to_euclidean_division_equations. lia.
Qed.

(** X16.  The cake [initCatCake] builds as the target of cake mode.  The
    particles are split, in index order, into a base of [floor (0.4 c)]
    particles of the colour [new THREE.Color(0xFF69B4)] at heights in
    [-17.5, -2.5), a top of [floor (0.3 c)] particles of the colour
    [new THREE.Color(0xFFFFFF)] at heights in [0, 10), a candle of
    [floor (0.05 c)] particles with the channels 1, 0, 0 at heights in
    [10, 20) and [floor (0.2 c)] text particles with the channels 1, 1, 0;
    the two constructed colours are the bytes over 255 taken to the
    working colour space, the other two are written as numbers.  The flame
    starts right after them, and for a positive count at least one
    particle is left for it. *)
Theorem cake_bands :
  forall (config : EffectConfig) (m : SceneManager) (rt : Runtime),
    succeeds (initCatCake h config m) rt
      (fun m' _ =>
         exists cl,
           updateCallback m' = Some (CatCakeUpdate cl) /\
           let c := count config in
           let B := baseCount c in
           let T := topCount c in
           let K := candleCount c in
           let X := textCount c in
           flameStartIndex cl = (B + T + K + X)%nat /\
           ((1 <= c)%nat -> (flameStartIndex cl < c)%nat) /\
           (forall j, (j < B)%nat ->
              inBand (cakePositions cl) (cakeColors cl) j
                     (hexColor h 0xFF69B4) (-17.5) (-2.5)) /\
           (forall j, (B <= j < B + T)%nat ->
              inBand (cakePositions cl) (cakeColors cl) j (hexColor h 0xFFFFFF) 0 10) /\
           (forall j, (B + T <= j < B + T + K)%nat ->
              inBand (cakePositions cl) (cakeColors cl) j (mkColor 1 0 0) 10 20) /\
           (forall j, (B + T + K <= j < B + T + K + X)%nat ->
              holds3 (tripleAt (cakeColors cl) j) (1, 1, 0))).
Proof.
  intros config m rt. unfold initCatCake.
  pose proof (cake_bands_fit (count config)) as Fit.
  fold (baseCount (count config)) in *. fold (topCount (count config)) in *.
  fold (candleCount (count config)) in *. fold (textCount (count config)) in *.
  set (B := baseCount (count config)) in *.
  set (T := topCount (count config)) in *.
  set (K := candleCount (count config)) in *.
  set (X := textCount (count config)) in *.
  apply succeeds_bind, succeeds_newObject.
  apply succeeds_bind, succeeds_newFloat32Array.
  apply succeeds_bind, succeeds_newFloat32Array.
  apply succeeds_bind, succeeds_newFloat32Array.
  apply succeeds_bind. eapply succeeds_mono; [apply cakeRainInit_loop_ok|].
  intros [[pos1 vel1] col1] rt1 _.
  apply succeeds_bind, succeeds_newFloat32Array.
  apply succeeds_bind, succeeds_newFloat32Array.
  apply succeeds_bind. eapply succeeds_mono.
  { apply generateCanvasPositions_ok;
      first [apply ofNat_nonneg | apply ofNat_quarter_nonneg]. }
  intros txt rt2 (Lt & _).
  apply succeeds_bind. eapply succeeds_mono.
  { apply (cakeDisk_loop_content _ _ _ (-17.5) (-2.5) (count config));
      [unfold shaped; apply f32_length_new|unfold shaped; apply f32_length_new|lia|].
    intros u U1 U2. split; lra. }
  intros [[cp1 cc1] idx1] rt3 (Rp1 & Rc1 & -> & _ & _ & Band1).
  assert (Sp1 : shaped (count config) cp1).
  { eapply resized_shaped; [|exact Rp1]. unfold shaped. apply f32_length_new. }
  assert (Sc1 : shaped (count config) cc1).
  { eapply resized_shaped; [|exact Rc1]. unfold shaped. apply f32_length_new. }
  apply succeeds_bind. eapply succeeds_mono.
  { apply (cakeDisk_loop_content _ _ _ 0 10 (count config));
      [exact Sp1|exact Sc1|lia|].
    intros u U1 U2. split; lra. }
  intros [[cp2 cc2] idx2] rt4 (Rp2 & Rc2 & -> & _ & Keep2 & Band2).
  assert (Sp2 : shaped (count config) cp2) by exact (resized_shaped _ _ _ Sp1 Rp2).
  assert (Sc2 : shaped (count config) cc2) by exact (resized_shaped _ _ _ Sc1 Rc2).
  apply succeeds_bind. eapply succeeds_mono.
  { apply (cakeDisk_loop_content _ _ _ 10 20 (count config));
      [exact Sp2|exact Sc2|lia|].
    intros u U1 U2. split; lra. }
  intros [[cp3 cc3] idx3] rt5 (Rp3 & Rc3 & -> & _ & Keep3 & Band3).
  assert (Sp3 : shaped (count config) cp3) by exact (resized_shaped _ _ _ Sp2 Rp3).
  assert (Sc3 : shaped (count config) cc3) by exact (resized_shaped _ _ _ Sc2 Rc3).
  apply succeeds_bind. eapply succeeds_mono.
  { apply (cakeText_loop_content _ (count config));
      [exact Sp3|exact Sc3|lia|].
    rewrite Lt. apply cake_text_fits. }
  intros [[cp4 cc4] idx4] rt6 (Rp4 & Rc4 & -> & _ & Keep4 & Band4).
  apply succeeds_bind, succeeds_newObject.
  apply succeeds_bind, succeeds_newObject.
  apply succeeds_bind, succeeds_emit. apply succeeds_ret.
  eexists. split; [reflexivity|].
  cbn [flameStartIndex cakePositions cakeColors]. cbn zeta.
  fold B T K X. cbn [Nat.add] in *.
  split; [reflexivity|].
  split; [intro Hc; apply (cake_flame_left (count config) Hc)|].
  split; [|split; [|split]].
  - intros j Hj.
    apply (inBand_kept cp3 cc3); [intros s0 Hs0; apply Keep4; lia|].
    apply (inBand_kept cp2 cc2); [intros s0 Hs0; apply Keep3; lia|].
    apply (inBand_kept cp1 cc1); [intros s0 Hs0; apply Keep2; lia|].
    apply Band1. lia.
  - intros j Hj.
    apply (inBand_kept cp3 cc3); [intros s0 Hs0; apply Keep4; lia|].
    apply (inBand_kept cp2 cc2); [intros s0 Hs0; apply Keep3; lia|].
    apply Band2. lia.
  - intros j Hj.
    apply (inBand_kept cp3 cc3); [intros s0 Hs0; apply Keep4; lia|].
    apply Band3. lia.
  - intros j Hj. apply Band4. lia.
Qed.

End CakeBands.

Lemma cake_bands_witness :
  unitStream sampleHost /\
  succeeds (initCatCake sampleHost (sampleConfig 20) emptyManager) startRuntime
    (fun m' _ =>
       exists cl,
         updateCallback m' = Some (CatCakeUpdate cl) /\
         flameStartIndex cl = 19%nat /\
         inBand (cakePositions cl) (cakeColors cl) 0
                (hexColor sampleHost 0xFF69B4) (-17.5) (-2.5) /\
         inBand (cakePositions cl) (cakeColors cl) 14 (mkColor 1 0 0) 10 20).
Proof.
  split; [exact sampleStream_unit|].
  eapply succeeds_mono.
  { apply (cake_bands sampleHost sampleStream_unit (sampleConfig 20) emptyManager
             startRuntime). }
  intros m' rt' (cl & E & F & _ & B1 & _ & B3 & _).
  exists cl. split; [exact E|]. split; [exact F|]. split.
  - apply B1. vm_compute. lia.
  - apply B3. vm_compute. lia.
Defined.

Section StaleGesture.

Variable h : Host.
Hypothesis random_unit : unitStream h.
Hypothesis sqrt_above_one : sqrtAboveOne h.

(** A frame of cake mode on arrays in shape. *)
Lemma cakeMode_frame_ok time cl p col rt :
  cakeReady cl p -> colorAttr p = Some col -> isCatDetected cl = true ->
  succeeds (catCakeFrame h time cl p (position p) col) rt
    (fun p' rt' => cakeReady cl p' /\ drawsOnly rt rt').
Proof.
  intros (Hp & (col0 & Ecol & Hc) & Hv & Hcp & Hcc & Hfl) E Hd.
  rewrite E in Ecol. apply Some_inj in Ecol. subst col0.
  unfold catCakeFrame. rewrite Hd.
  apply succeeds_bind. eapply succeeds_mono.
  { apply cakeStatic_loop_ok; eauto. }
  intros [pos1 col1] rt1 ([Rp Rc] & D1). cbn [fst snd] in *.
  apply succeeds_bind. eapply succeeds_mono.
  { apply (range_shape (fun s s' => resized (fst s) (fst s') /\
                                    resized (snd s) (snd s'))).
    - intros [a1 a2]. split; apply resized_refl.
    - intros [a1 a2] [b1 b2] [c1 c2] [A1 A2] [B1 B2]. cbn [fst snd] in *.
      split; eapply resized_trans; eassumption.
    - intros i [p2 c2] rt2 Hi [Rp2 Rc2]. cbn [fst snd] in *.
      eapply succeeds_mono.
      { apply (cakeFlameBody_ok h (count (cake_config cl)));
          [exact (resized_shaped _ _ _ (resized_shaped _ _ _ Hp Rp) Rp2)
          |exact (resized_shaped _ _ _ (resized_shaped _ _ _ Hc Rc) Rc2)|lia]. }
      intros [p3 c3] rt3 ([A B] & D). cbn [fst snd] in *. auto. }
  intros [pos2 col2] rt2 ([Rp2 Rc2] & D2). cbn [fst snd] in *.
  apply succeeds_ret. split.
  - unfold cakeReady. cbn [position colorAttr setColorAttr setPosition setRotationY].
    split; [exact (resized_shaped _ _ _ (resized_shaped _ _ _ Hp Rp) Rp2)|].
    split; [eexists; split; [reflexivity|];
            exact (resized_shaped _ _ _ (resized_shaped _ _ _ Hc Rc) Rc2)|].
    auto.
  - eapply drawsOnly_trans; eassumption.
Qed.

(** X17.  The hand flag outlives an effect switch.  [setEffect] never
    writes [handStateIsActive]: the new effect starts with the value the
    last [updateHandState] left.  So when the cat effect is entered with
    the flag still set, its very first frame closes the latch and starts
    the birthday song, on a context created in that frame. *)
Theorem gesture_flag_survives_switch :
  forall (type : EffectType) (config : EffectConfig) (m : SceneManager) (rt : Runtime),
    succeeds (setEffect h type config m) rt
      (fun m1 _ => handStateIsActive m1 = handStateIsActive m) /\
    (hasAudioContext h = true -> handStateIsActive m = true ->
     succeeds (m1 <- setEffect h CREATIVE_CAT_CAKE config m ;; animate h m1) rt
       (fun m2 rt2 =>
          handStateIsActive m2 = true /\ isPlayingAudio m2 = true /\
          (exists cl, updateCallback m2 = Some (CatCakeUpdate cl) /\
                      isCatDetected cl = true) /\
          exists ctx,
            audioContext m2 = Some ctx /\ (fresh rt <= ctx)%nat /\
            In (AudioContextNew ctx) (history rt2))).
Proof.
  intros type config m rt. split.
  - eapply succeeds_mono; [apply setEffect_ok; assumption|].
    intros m1 rt1 (p & cb & _ & _ & _ & _ & _ & _ & _ & _ & Hh & _). exact Hh.
  - intros Hctx Hactive. apply succeeds_bind.
    eapply succeeds_mono; [apply setEffect_ok; assumption|].
    intros m1 rt1 (p & cb & Hp & Hcb & _ & _ & Ready & _ & Ha & Hf & Hh & _ & Hfresh & _).
    cbn [callbackReady] in Ready. destruct cb as [| | |cl| | |]; try contradiction.
    destruct Ready as (Hcfg & Hready & Hdet).
    pose proof Hready as (_ & (col & Ecol & _) & _).
    cut (succeeds (runCallback h (clock rt1 * 0.001) (CatCakeUpdate cl) m1) rt1
           (fun m2 rt2 =>
              handStateIsActive m2 = true /\ isPlayingAudio m2 = true /\
              (exists cl0, updateCallback m2 = Some (CatCakeUpdate cl0) /\
                           isCatDetected cl0 = true) /\
              exists ctx,
                audioContext m2 = Some ctx /\ (fresh rt <= ctx)%nat /\
                In (AudioContextNew ctx) (history rt2))).
    { intros (a & rt' & E & Q). exists a, rt'.
      split; [unfold animate; rewrite Hcb; exact E|exact Q]. }
    cbn [runCallback].
    apply succeeds_bind. unfold catCakeCallback. rewrite Hp.
    apply succeeds_bind, (colorArray_ok _ col); [exact Ecol|].
    apply succeeds_bind.
    destruct (playBirthdaySong_starts h m1 rt1 Hf Hctx)
      as (rt2 & plays & delay & Eplay & Hhist & _ & _ & _ & _ & Hfr2 & _).
    exists (withCatDetected cl true, withAudio m1 (Some (fresh rt1)) true), rt2.
    split.
    { rewrite catLatch_edge; [|congruence|exact Hdet].
      rewrite (bind_ok _ _ _ _ _ Eplay). reflexivity. }
    cbn beta iota.
    apply succeeds_bind. eapply succeeds_mono.
    { apply (cakeMode_frame_ok _ (withCatDetected cl true) p col);
        [exact Hready|exact Ecol|reflexivity]. }
    intros p' rt3 (_ & D). apply succeeds_ret. apply succeeds_ret.
    cbn [handStateIsActive isPlayingAudio updateCallback audioContext withCallback
         withParticles withAudio].
    split; [congruence|]. split; [reflexivity|].
    split; [eexists; split; reflexivity|].
    exists (fresh rt1). split; [reflexivity|]. split; [lia|].
    destruct D as (_ & _ & _ & _ & De). unfold history. rewrite De.
    fold (history rt2). rewrite Hhist. apply in_or_app. right. left. reflexivity.
Qed.

End StaleGesture.

Lemma gesture_flag_survives_switch_witness :
  unitStream sampleHost /\ sqrtAboveOne sampleHost /\
  succeeds (m1 <- setEffect sampleHost CREATIVE_CAT_CAKE (sampleConfig 4) sampleRaised ;;
            animate sampleHost m1) startRuntime
    (fun m2 _ => handStateIsActive m2 = true /\ isPlayingAudio m2 = true).
Proof.
  split; [exact sampleStream_unit|]. split; [exact sampleSqrt_above_one|].
  destruct (gesture_flag_survives_switch sampleHost sampleStream_unit
              sampleSqrt_above_one CREATIVE_CAT_CAKE (sampleConfig 4) sampleRaised
              startRuntime) as (_ & A).
  eapply succeeds_mono; [exact (A eq_refl eq_refl)|].
  intros m2 rt2 (H1 & H2 & _). split; assumption.
Defined.

Section Application.

Variable h : Host.
Hypothesis random_unit : unitStream h.
Hypothesis sqrt_above_one : sqrtAboveOne h.

(** X18.  What the application does with the manager.  On the first render
    [setEffect] runs twice: the heart firework over the default
    configuration (10000 particles) is built, released at once (removed,
    geometry and material disposed) and built again, so the scene ends
    with a single points object of three position slots per particle, the
    second one.
    A change sent by a control is merged into the configuration (fields
    not sent keep their value) and rebuilds the current effect over the
    merged configuration, with the hand flag as it was. *)
Theorem app_rebuilds_effect :
  succeeds (App_mount h) startRuntime
    (fun app rt =>
       activeEffect app = CREATIVE_HEART_FIREWORK /\ config app = DEFAULT_CONFIG /\
       exists first p,
         particles (managerRef app) = Some p /\
         scene (managerRef app) = [object_id p] /\
         f32_length (position p) = (count DEFAULT_CONFIG * 3)%nat /\
         object_id first <> object_id p /\
         history rt =
           [ SceneAdd (object_id first); SceneRemove (object_id first);
             GeometryDispose (geometry_id first); MaterialDispose (material_id first);
             SceneAdd (object_id p) ]) /\
  (forall (newConfig : PartialConfig) (app : App) (rt : Runtime),
     succeeds (App_configChange h newConfig app) rt
       (fun app' _ =>
          activeEffect app' = activeEffect app /\
          config app' = handleConfigChange newConfig (config app) /\
          (new_count newConfig = None -> count (config app') = count (config app)) /\
          (forall n, new_count newConfig = Some n -> count (config app') = n) /\
          handStateIsActive (managerRef app') = handStateIsActive (managerRef app) /\
          exists p,
            particles (managerRef app') = Some p /\
            f32_length (position p) = (count (config app') * 3)%nat)).
Proof.
  split.
  - unfold App_mount.
    apply succeeds_bind.
    eapply succeeds_mono; [apply setEffect_ok; assumption|].
    intros m1 rt1 (p1 & cb1 & Hp1 & _ & _ & _ & _ & Hsc1 & Ha1 & _ & _ & _ & Hid1 & Hh1).
    apply succeeds_bind.
    eapply succeeds_mono; [apply setEffect_ok; assumption|].
    intros m2 rt2 (p2 & cb2 & Hp2 & _ & Hs2 & _ & _ & Hsc2 & _ & _ & _ & _ & Hid2 & Hh2).
    apply succeeds_ret. cbn [activeEffect config managerRef].
    split; [reflexivity|]. split; [reflexivity|].
    exists p1, p2. split; [exact Hp2|].
    unfold sceneWithout, closeEvents, disposeEvents in *.
    rewrite Hp1, Ha1 in *. cbn [particles audioContext scene emptyManager] in *.
    split.
    { rewrite Hsc2, Hsc1. cbn [removeChild]. rewrite Nat.eqb_refl. reflexivity. }
    split; [exact Hs2|]. split; [lia|].
    rewrite Hh2, Hh1. reflexivity.
  - intros newConfig app rt. unfold App_configChange.
    apply succeeds_bind.
    eapply succeeds_mono; [apply setEffect_ok; assumption|].
    intros m1 rt1 (p1 & cb1 & Hp1 & _ & Hs1 & _ & _ & _ & _ & _ & Hh & _).
    apply succeeds_ret. cbn [activeEffect config managerRef].
    split; [reflexivity|]. split; [reflexivity|].
    split; [intro E; cbn [handleConfigChange count]; rewrite E; reflexivity|].
    split; [intros n E; cbn [handleConfigChange count]; rewrite E; reflexivity|].
    split; [exact Hh|]. exists p1. split; [exact Hp1|exact Hs1].
Qed.

End Application.

Lemma app_rebuilds_effect_witness :
  unitStream sampleHost /\ sqrtAboveOne sampleHost /\
  succeeds (App_mount sampleHost) startRuntime
    (fun app _ =>
       exists p, particles (managerRef app) = Some p /\
                 scene (managerRef app) = [object_id p]).
Proof.
  split; [exact sampleStream_unit|]. split; [exact sampleSqrt_above_one|].
  destruct (app_rebuilds_effect sampleHost sampleStream_unit sampleSqrt_above_one)
    as (A & _).
  eapply succeeds_mono; [exact A|].
  intros app rt (_ & _ & first & p & H1 & H2 & _). exists p. auto.
Defined.

Section NeverFaults.

Variable h : Host.
Hypothesis random_unit : unitStream h.
Hypothesis sqrt_above_one : sqrtAboveOne h.

Lemma heartFrame_ready time active cl p rt :
  heartReady cl p ->
  succeeds (heartFireworkFrame h time active cl p) rt
    (fun res _ => heartReady (fst res) (snd res) /\
                  heart_count (fst res) = heart_count cl).
Proof.
  intro R.
  destruct (heartGate active (phase cl) (launchHeight cl)) as [ph lh] eqn:G.
  destruct (Nat.eq_dec ph 0) as [->|N0].
  { eapply succeeds_mono; [apply (heartFrame_idle h cl p time active rt lh R G)|].
    intros res rt' (A & B & _). auto. }
  destruct (Nat.eq_dec ph 1) as [->|N1].
  { eapply succeeds_mono; [apply (heartFrame_launch h random_unit cl p time active rt lh R G)|].
    intros res rt' (A & B & _). auto. }
  pose proof R as (Hp & (col & Ec & Hc) & Hhp & Hhc & Hv).
  unfold heartFireworkFrame.
  apply succeeds_bind, (colorArray_ok _ col); [exact Ec|].
  rewrite G.
  destruct (Nat.eqb_spec ph 0) as [|_]; [contradiction|].
  destruct (Nat.eqb_spec ph 1) as [|_]; [contradiction|].
  destruct (Nat.eqb_spec ph 2) as [->|N2].
  - assert (Ha : active = true).
    { unfold heartGate in G. destruct active; [reflexivity|].
      destruct (Nat.eqb_spec (phase cl) 0) as [E|E]; cbn [negb] in G;
        injection G as G1 G2; lia. }
    subst active. apply succeeds_bind. eapply succeeds_mono.
    { apply (heartExplode_loop_ok h random_unit); assumption. }
    intros [[pos' col'] vel'] rt' (_ & Rp & Rc & Rv & _).
    apply succeeds_ret. cbn [fst snd]. split; [|reflexivity].
    apply heartReady_update; try assumption.
    + exact (resized_shaped _ _ _ Hp Rp).
    + exact (resized_shaped _ _ _ Hc Rc).
    + exact (resized_shaped _ _ _ Hv Rv).
  - apply succeeds_ret. cbn [fst snd]. split; [|reflexivity].
    unfold heartReady. cbn [heart_count withPhase heartPositions heartColors
                            explosionVelocities].
    split; [exact Hp|]. split; [exists col; auto|]. auto.
Qed.

Lemma playBirthdaySong_any m rt :
  exists m' rt',
    playBirthdaySong h m rt = Ok (m', rt') /\
    particles m' = particles m /\ updateCallback m' = updateCallback m /\
    handStateIsActive m' = handStateIsActive m /\ scene m' = scene m.
Proof.
  destruct (isPlayingAudio m) eqn:Flag.
  - exists m, rt. rewrite playBirthdaySong_guarded by exact Flag. auto.
  - destruct (hasAudioContext h) eqn:Ctx.
    + destruct (playBirthdaySong_starts h m rt Flag Ctx) as (rt' & _ & _ & E & _).
      eexists _, rt'. split; [exact E|]. auto.
    + unfold playBirthdaySong. rewrite Flag, Ctx. cbn [negb].
      eexists _, rt. split; [reflexivity|]. auto.
Qed.

Lemma rainMode_frame_ok time cl p col rt :
  cakeReady cl p -> colorAttr p = Some col -> isCatDetected cl = false ->
  succeeds (catCakeFrame h time cl p (position p) col) rt
    (fun p' rt' => cakeReady cl p' /\ drawsOnly rt rt').
Proof.
  intros (Hp & (col0 & Ecol & Hc) & Hv & Hcp & Hcc & Hfl) E Hd.
  rewrite E in Ecol. apply Some_inj in Ecol. subst col0.
  unfold catCakeFrame. rewrite Hd.
  apply succeeds_bind. eapply succeeds_mono.
  { apply cakeRain_loop_ok; assumption. }
  intros [pos1 col1] rt1 ((k & ->) & Rp & Rc & _). cbn [fst snd] in *.
  apply succeeds_ret. split; [|apply drawsOnly_afterDraws].
  unfold cakeReady. cbn [position colorAttr setColorAttr setPosition setRotationY].
  split; [exact (resized_shaped _ _ _ Hp Rp)|].
  split; [eexists; split; [reflexivity|]; exact (resized_shaped _ _ _ Hc Rc)|].
  auto.
Qed.

Lemma catCakeCallback_ready time cl m p rt :
  particles m = Some p -> cakeReady cl p ->
  succeeds (catCakeCallback h time cl m) rt
    (fun res _ =>
       cake_config (fst res) = cake_config cl /\
       updateCallback (snd res) = updateCallback m /\
       exists p', particles (snd res) = Some p' /\ cakeReady (fst res) p').
Proof.
  intros Hm R. pose proof R as (_ & (col & Ecol & _) & _).
  unfold catCakeCallback. rewrite Hm.
  apply succeeds_bind, (colorArray_ok _ col); [exact Ecol|].
  apply succeeds_bind. unfold catLatch.
  destruct (handStateIsActive m) eqn:Ha, (isCatDetected cl) eqn:Hd; cbn [andb negb].
  - apply succeeds_ret. apply succeeds_bind. eapply succeeds_mono.
    { apply (cakeMode_frame_ok h time cl p col); assumption. }
    intros p' rt' (R' & _). apply succeeds_ret. cbn [fst snd particles withParticles
                                                     updateCallback].
    split; [reflexivity|]. split; [reflexivity|]. exists p'. auto.
  - destruct (playBirthdaySong_any m rt) as (m1 & rt1 & E & Hp1 & Hcb1 & _).
    apply succeeds_bind. exists m1, rt1. split; [exact E|].
    apply succeeds_ret. apply succeeds_bind. eapply succeeds_mono.
    { apply (cakeMode_frame_ok h time (withCatDetected cl true) p col);
        [exact R|exact Ecol|reflexivity]. }
    intros p' rt' (R' & _). apply succeeds_ret. cbn [fst snd particles withParticles
                                                     updateCallback].
    split; [reflexivity|]. split; [exact Hcb1|]. exists p'. auto.
  - apply succeeds_ret. apply succeeds_bind. eapply succeeds_mono.
    { apply (rainMode_frame_ok time (withCatDetected cl false) p col);
        [exact R|exact Ecol|reflexivity]. }
    intros p' rt' (R' & _). apply succeeds_ret. cbn [fst snd particles withParticles
                                                     updateCallback].
    split; [reflexivity|]. split; [reflexivity|]. exists p'. auto.
  - apply succeeds_ret. apply succeeds_bind. eapply succeeds_mono.
    { apply (rainMode_frame_ok time cl p col); assumption. }
    intros p' rt' (R' & _). apply succeeds_ret. cbn [fst snd particles withParticles
                                                     updateCallback].
    split; [reflexivity|]. split; [reflexivity|]. exists p'. auto.
Qed.

Lemma animate_steady n m rt :
  steady n m -> succeeds (animate h m) rt (fun m' _ => steady n m').
Proof.
  unfold steady. intro S.
  destruct (particles m) as [p|] eqn:Hp, (updateCallback m) as [cb|] eqn:Hcb;
    try contradiction.
  2:{ exists m, rt. split; [unfold animate; rewrite Hcb; reflexivity|].
      rewrite Hp, Hcb. exact I. }
  destruct S as [Sp Scb].
  cut (succeeds (runCallback h (clock rt * 0.001) cb m) rt
         (fun m' _ => match particles m', updateCallback m' with
                      | Some p', Some cb' => frameReady n cb' p'
                      | None, None => True
                      | _, _ => False
                      end)).
  { intros (a & rt' & E & Q). exists a, rt'.
    split; [unfold animate; rewrite Hcb; exact E|exact Q]. }
  destruct cb as [c|c|c|c|c|c|c]; cbn [runCallback].
  - apply succeeds_ret. unfold galaxyCallback. rewrite Hp.
    cbn [particles updateCallback withParticles]. rewrite Hcb.
    split; [exact Sp|exact I].
  - destruct Scb as [Ecnt R]. apply succeeds_bind.
    unfold creativeTextCallback. rewrite Hp. apply succeeds_bind.
    assert (F : forall active,
              succeeds (creativeTextFrame h active c p) rt
                (fun res _ => textReady (fst res) (snd res) /\
                              text_config (fst res) = text_config c)).
    { intros [|].
      - eapply succeeds_mono; [apply textFrame_held; exact R|].
        intros res rt' (_ & A & B & _). auto.
      - eapply succeeds_mono; [apply textFrame_released; exact R|].
        intros res rt' (_ & A & B & _). auto. }
    eapply succeeds_mono; [apply F|].
    intros [c' p'] rt' [R' Ec]. cbn [fst snd] in *.
    apply succeeds_ret, succeeds_ret.
    cbn [particles updateCallback withParticles withCallback].
    split; [|split; [congruence|exact R']].
    destruct R' as (Sp' & _). rewrite Ec, Ecnt in Sp'. exact Sp'.
  - destruct Scb as [Ecnt R]. apply succeeds_bind.
    unfold heartFireworkCallback. rewrite Hp. apply succeeds_bind.
    eapply succeeds_mono; [apply heartFrame_ready; exact R|].
    intros [c' p'] rt' [R' Ec]. cbn [fst snd] in *.
    apply succeeds_ret, succeeds_ret.
    cbn [particles updateCallback withParticles withCallback].
    split; [|split; [congruence|exact R']].
    destruct R' as (Sp' & _). rewrite Ec, Ecnt in Sp'. exact Sp'.
  - destruct Scb as [Ecnt R]. apply succeeds_bind.
    eapply succeeds_mono; [apply (catCakeCallback_ready _ c m p); assumption|].
    intros [c' m'] rt' (Ec & _ & p' & Hp' & R'). cbn [fst snd] in *.
    apply succeeds_ret. cbn [particles updateCallback withCallback]. rewrite Hp'.
    split; [|split; [congruence|exact R']].
    destruct R' as (Sp' & _). rewrite Ec, Ecnt in Sp'. exact Sp'.
  - unfold waveCallback. rewrite Hp. apply succeeds_bind.
    rewrite <- Scb in Sp.
    eapply succeeds_mono; [apply wave_frame_loop; exact Sp|].
    intros pos' rt' (_ & Rp & _). apply succeeds_ret.
    cbn [particles updateCallback withParticles position setPosition]. rewrite Hcb.
    split; [|exact Scb]. rewrite <- Scb. exact (resized_shaped _ _ _ Sp Rp).
  - destruct Scb as [Ecnt [Rp Rv]]. unfold rainCallback. rewrite Hp.
    apply succeeds_bind.
    eapply succeeds_mono; [apply rain_loop_ok; assumption|].
    intros pos' rt' (_ & Rp' & _). apply succeeds_ret.
    cbn [particles updateCallback withParticles position setPosition]. rewrite Hcb.
    assert (Sp' : shaped (count (rain_config c)) pos')
      by exact (resized_shaped _ _ _ Rp Rp').
    split; [rewrite <- Ecnt; exact Sp'|]. split; [exact Ecnt|].
    split; [exact Sp'|exact Rv].
  - apply succeeds_ret. unfold sphereCallback. rewrite Hp.
    cbn [particles updateCallback withParticles]. rewrite Hcb.
    split; [exact Sp|exact I].
Qed.

Lemma setEffect_steady type config m rt :
  succeeds (setEffect h type config m) rt (fun m' _ => steady (count config) m').
Proof.
  eapply succeeds_mono; [apply setEffect_ok; assumption|].
  intros m' rt' (p & cb & Hp & Hcb & Sp & Hcol & Ready & _).
  unfold steady. rewrite Hp, Hcb. split; [exact Sp|].
  destruct type, cb; cbn [callbackReady hasColorAttr] in *; try contradiction;
    try exact I.
  - rewrite Ready. reflexivity.
  - destruct Ready as [-> R]. split; [reflexivity|exact R].
  - destruct Ready as (E & G & T). split; [rewrite E; reflexivity|].
    unfold textReady. rewrite E.
    split; [exact Sp|]. split; [exact Hcol|]. split; assumption.
  - destruct Ready as (E & R & _). split; [exact E|exact R].
  - destruct Ready as (-> & R & _). split; [reflexivity|exact R].
Qed.

Lemma fireDue_fields now pending :
  forall m,
    particles (snd (fireDue now pending m)) = particles m /\
    updateCallback (snd (fireDue now pending m)) = updateCallback m.
Proof.
  induction pending as [|[timer due] rest IH]; intro m; cbn [fireDue].
  - split; reflexivity.
  - destruct (Qleb due now).
    + specialize (IH (songTimeout m)).
      destruct (fireDue now rest (songTimeout m)) as [[w f] m'].
      cbn [snd] in *. unfold songTimeout in IH.
      destruct (isPlayingAudio m); exact IH.
    + specialize (IH m). destruct (fireDue now rest m) as [[w f] m'].
      cbn [snd] in *. exact IH.
Qed.

Lemma elapse_steady n dt m rt :
  steady n m -> succeeds (elapse dt m) rt (fun m' _ => steady n m').
Proof.
  intro S. unfold succeeds, elapse. cbn zeta.
  pose proof (fireDue_fields (clock rt + dt) (timers rt) m) as [Fp Fc].
  destruct (fireDue (clock rt + dt) (timers rt) m) as [[w f] m'].
  cbn [snd] in *. eexists _, _. split; [reflexivity|].
  unfold steady in *. rewrite Fp, Fc. exact S.
Qed.

Lemma run_steady inputs :
  forall n m rt,
    steady n m ->
    succeeds (run h inputs m) rt (fun m' _ => steady (lastCount inputs n) m').
Proof.
  induction inputs as [|i rest IH]; intros n m rt S; cbn [run lastCount].
  - apply succeeds_ret. exact S.
  - apply succeeds_bind. destruct i as [|b|type config|ms]; cbn [step].
    + eapply succeeds_mono; [apply animate_steady; exact S|].
      intros m' rt' S'. apply IH. exact S'.
    + apply succeeds_ret. apply IH. exact S.
    + eapply succeeds_mono; [apply setEffect_steady|].
      intros m' rt' S'. apply IH. exact S'.
    + eapply succeeds_mono; [apply elapse_steady; exact S|].
      intros m' rt' S'. apply IH. exact S'.
Qed.

(** X19.  The manager never fails.  Whatever sequence of [setEffect] calls
    (any effect, any configuration), hand updates, frames and waits reaches
    a fresh manager, no call throws and no arithmetic leaves the finite
    numbers; afterwards the callback and the arrays still fit together, and
    the position array has three slots for each particle of the
    configuration last passed to [setEffect]. *)
Theorem manager_never_faults :
  forall inputs : list Input,
    exists m rt,
      run h inputs emptyManager startRuntime = Ok (m, rt) /\
      steady (lastCount inputs 0) m /\
      forall p, particles m = Some p ->
                f32_length (position p) = (lastCount inputs 0 * 3)%nat.
Proof.
  intro inputs.
  destruct (run_steady inputs 0%nat emptyManager startRuntime I) as (m & rt & E & S).
  exists m, rt. split; [exact E|]. split; [exact S|].
  intros p Hp. unfold steady in S. rewrite Hp in S.
  destruct (updateCallback m); [|contradiction]. destruct S as [Sp _]. exact Sp.
Qed.

End NeverFaults.

Lemma manager_never_faults_witness :
  unitStream sampleHost /\ sqrtAboveOne sampleHost /\
  exists m rt,
    run sampleHost sampleSession emptyManager startRuntime = Ok (m, rt) /\
    forall p, particles m = Some p -> f32_length (position p) = (2 * 3)%nat.
Proof.
  split; [exact sampleStream_unit|]. split; [exact sampleSqrt_above_one|].
  destruct (manager_never_faults sampleHost sampleStream_unit sampleSqrt_above_one
              sampleSession) as (m & rt & E & _ & L).
  exists m, rt. split; [exact E|exact L].
Defined.

Lemma find_app_none {A} (f : A -> bool) (es l : list A) :
  (forall x, In x es -> f x = false) -> find f (es ++ l) = find f l.
Proof.
  induction es as [|e es IH]; intro H; cbn [app find]; [reflexivity|].
  rewrite (H e (or_introl eq_refl)). apply IH. intros x Hx. apply H. right. exact Hx.
Qed.

Lemma existsb_false {A} (f : A -> bool) (l : list A) :
  (forall x, In x l -> f x = false) -> existsb f l = false.
Proof.
  induction l as [|a l IH]; intro H; cbn [existsb]; [reflexivity|].
  rewrite (H a (or_introl eq_refl)). apply IH. intros x Hx. apply H. right. exact Hx.
Qed.

Lemma filter_none {A} (f : A -> bool) (l : list A) :
  (forall x, In x l -> f x = false) -> filter f l = [].
Proof.
  induction l as [|a l IH]; intro H; cbn [filter]; [reflexivity|].
  rewrite (H a (or_introl eq_refl)). apply IH. intros x Hx. apply H. right. exact Hx.
Qed.

Lemma filter_seq_single (f : nat -> bool) c :
  (forall x, f x = true -> x = c) ->
  forall n a, (List.length (filter f (seq a n)) <= 1)%nat /\
              (c < a -> filter f (seq a n) = [])%nat.
Proof.
  intro H. induction n as [|n IH]; intro a; cbn [seq filter].
  - split; [cbn; lia|reflexivity].
  - destruct (IH (S a)) as [L E]. destruct (f a) eqn:Fa.
    + apply H in Fa. subst a. rewrite E by lia. split; [cbn; lia|lia].
    + split; [exact L|]. intro Hc. apply E. lia.
Qed.

Section OneSong.

Variable h : Host.
Hypothesis random_unit : unitStream h.

Lemma songOver_silent rt c :
  shortNotes rt -> songOver rt c -> audible rt c = false.
Proof.
  intros Hs Ho. unfold audible, songOver in *.
  destruct (createdAt rt c) as [t0|]; [|reflexivity].
  apply andb_false_iff. right. apply existsb_false. intros x Hx.
  specialize (Hs x Hx). unfold soundsAt.
  destruct (snd x) as [| | | | | | c' note start stop | |]; try reflexivity.
  apply andb_false_iff. right. apply Qltb_false. lra.
Qed.

Lemma oneSong_audible m rt :
  oneSong h m rt -> (List.length (audibleContexts rt) <= 1)%nat.
Proof.
  intros [Hs [(_ & Hall & _)|(_ & c & t0 & tid & due & _ & _ & _ & _ & Hothers)]];
    unfold audibleContexts.
  - rewrite filter_none; [cbn; lia|].
    intros x _. apply (songOver_silent rt x Hs (Hall x)).
  - apply (filter_seq_single (audible rt) c).
    intros x Hx. destruct (Nat.eq_dec x c) as [E|N]; [exact E|].
    rewrite (songOver_silent rt x Hs (Hothers x N)) in Hx. discriminate.
Qed.

Lemma createdAt_more rt rt' es c :
  events rt' = es ++ events rt ->
  (forall x, In x es -> eventIs (AudioContextNew c) x = false) ->
  createdAt rt' c = createdAt rt c.
Proof.
  intros E H. unfold createdAt. rewrite E, find_app_none by exact H. reflexivity.
Qed.

Lemma scheduleNotes_events ctx ns :
  forall time rt,
    exists rt',
      scheduleNotes ctx ns time rt = Ok (timeAfter time ns, rt') /\
      events rt' =
        rev (map (fun p => (clock rt, playEvent ctx p)) (scheduled time ns))
        ++ events rt /\
      timers rt' = timers rt /\ fresh rt' = fresh rt /\
      clock rt' = clock rt /\ drawn rt' = drawn rt.
Proof.
  induction ns as [|[note dur] rest IH]; intros time rt.
  - exists rt. split; [reflexivity|]. split; [reflexivity|]. repeat split.
  - destruct (IH (time + dur) (afterEvent (OscillatorPlay ctx note time (time + dur)) rt))
      as (rt' & E & He & Ht & Hf & Hc & Hd).
    exists rt'. split; [exact E|]. split.
    + rewrite He. cbn [scheduled map rev events afterEvent clock playEvent fst snd].
      rewrite <- app_assoc. reflexivity.
    + repeat split; assumption.
Qed.

Lemma timeAfter_cons t note dur rest :
  timeAfter t ((note, dur) :: rest) = timeAfter (t + dur) rest.
Proof. reflexivity. Qed.

Lemma timeAfter_grows ns :
  forall t, (forall n, In n ns -> 0 <= snd n) -> t <= timeAfter t ns.
Proof.
  induction ns as [|[a d] l IH]; intros t H.
  - unfold timeAfter. cbn [fold_left]. lra.
  - rewrite timeAfter_cons.
    assert (0 <= d) by (apply (H (a, d)); left; reflexivity).
    assert (t + d <= timeAfter (t + d) l).
    { apply IH. intros n Hn. apply H. right. exact Hn. }
    lra.
Qed.

Lemma scheduled_short ns :
  forall from bound,
    timeAfter from ns <= bound ->
    (forall n, In n ns -> 0 <= snd n) ->
    forall p, In p (scheduled from ns) -> snd p <= bound.
Proof.
  induction ns as [|[note dur] rest IH]; intros from bound Hb Hpos p Hp;
    cbn [scheduled] in Hp; [destruct Hp|].
  rewrite timeAfter_cons in Hb.
  destruct Hp as [<-|Hp].
  - cbn [snd].
    assert (from + dur <= timeAfter (from + dur) rest).
    { apply timeAfter_grows. intros n Hn. apply Hpos. right. exact Hn. }
    lra.
  - apply (IH (from + dur) bound Hb); [|exact Hp].
    intros n Hn. apply Hpos. right. exact Hn.
Qed.

(** What starting a song does to the runtime. *)
Lemma playBirthdaySong_events m rt :
  isPlayingAudio m = false -> hasAudioContext h = true ->
  exists rt' es delay,
    playBirthdaySong h m rt = Ok (withAudio m (Some (fresh rt)) true, rt') /\
    events rt' = es ++ (clock rt, AudioContextNew (fresh rt)) :: events rt /\
    (forall x, In x es ->
       match snd x with
       | OscillatorPlay _ _ _ stop => stop <= 6
       | SetTimeout _ _ => True
       | _ => False
       end) /\
    timers rt' = timers rt ++ [(S (fresh rt), clock rt + delay)] /\
    delay == 6000 /\ clock rt' = clock rt /\ drawn rt' = drawn rt.
Proof.
  intros Hflag Hctx.
  unfold playBirthdaySong. rewrite Hflag, Hctx. cbn [negb].
  destruct (scheduleNotes_events (fresh rt) notes 0
              (afterEvent (AudioContextNew (fresh rt)) (afterNew rt)))
    as (rt1 & E & He & Ht & Hf & Hc & Hd).
  cbn [fresh clock timers drawn events afterNew afterEvent] in He, Ht, Hf, Hc, Hd.
  eexists _, _, (timeAfter 0 notes * 1000).
  split.
  { rewrite (bind_ok newObject _ rt (fresh rt) (afterNew rt) eq_refl).
    rewrite (bind_ok (emit _) _ (afterNew rt) tt
               (afterEvent (AudioContextNew (fresh rt)) (afterNew rt)) eq_refl).
    rewrite (bind_ok _ _ _ _ _ E).
    unfold setTimeout.
    rewrite (bind_ok (bind newObject _) _ rt1 tt
               (mkRuntime (drawn rt1) (S (fresh rt1)) (clock rt1)
                  (timers rt1 ++ [(fresh rt1, clock rt1 + timeAfter 0 notes * 1000)])
                  ((clock rt1, SetTimeout (fresh rt1) (timeAfter 0 notes * 1000))
                     :: events rt1)) eq_refl).
    cbn [withAudio audioContext isPlayingAudio scene particles updateCallback
         handStateIsActive ret].
    reflexivity. }
  cbn [fresh clock timers drawn events]. rewrite He, Ht, Hf, Hc, Hd.
  split; [rewrite app_comm_cons; reflexivity|].
  split.
  { intros x [<-|Hx]; [exact I|].
    apply in_rev in Hx. apply in_map_iff in Hx. destruct Hx as ([[n s] e] & <- & Hp).
    cbn [snd playEvent fst].
    apply (scheduled_short notes 0 6 (ltac:(vm_compute; discriminate))
             (ltac:(clear; intros n0 Hn; cbn [notes In] in Hn;
                    repeat (destruct Hn as [<-|Hn]; [vm_compute; discriminate|]);
                    destruct Hn)) (n, s, e) Hp). }
  split; [reflexivity|]. split; [vm_compute; reflexivity|]. split; reflexivity.
Qed.

Lemma eventIs_new_other c x :
  match snd x with
  | OscillatorPlay _ _ _ _ => True
  | SetTimeout _ _ => True
  | TimerFire _ => True
  | _ => False
  end -> eventIs (AudioContextNew c) x = false.
Proof. unfold eventIs. destruct (snd x); intro H; try reflexivity; destruct H. Qed.

(** A frame of the cat effect keeps the arrays in shape and at most one
    song under way. *)
Lemma cake_frame_oneSong m rt :
  showsCake m -> oneSong h m rt ->
  succeeds (animate h m) rt (fun m' rt' => showsCake m' /\ oneSong h m' rt').
Proof.
  intros (p & cl & Hp & Hcb & R) Inv.
  cut (succeeds (runCallback h (clock rt * 0.001) (CatCakeUpdate cl) m) rt
         (fun m' rt' => showsCake m' /\ oneSong h m' rt')).
  { intros (a & rt' & E & Q). exists a, rt'.
    split; [unfold animate; rewrite Hcb; exact E|exact Q]. }
  pose proof R as (_ & (col & Ecol & _) & _).
  cbn [runCallback]. apply succeeds_bind. unfold catCakeCallback. rewrite Hp.
  apply succeeds_bind, (colorArray_ok _ col); [exact Ecol|].
  (* the frame below the latch, on any manager with the same points *)
  assert (Below : forall cl1 m1 rt1 (Q : SceneManager -> Runtime -> Prop),
            cake_config cl1 = cake_config cl -> cake_velocities cl1 = cake_velocities cl ->
            cakePositions cl1 = cakePositions cl -> cakeColors cl1 = cakeColors cl ->
            flameStartIndex cl1 = flameStartIndex cl ->
            (forall p' rt2, cakeReady cl1 p' -> drawsOnly rt1 rt2 ->
               Q (withCallback (withParticles m1 (Some p')) (Some (CatCakeUpdate cl1))) rt2) ->
            succeeds (p' <- catCakeFrame h (clock rt * 0.001) cl1 p (position p) col ;;
                      ret (cl1, withParticles m1 (Some p'))) rt1
              (fun res rt2 =>
                 succeeds (let '(c, m0) := res in
                           ret (withCallback m0 (Some (CatCakeUpdate c)))) rt2 Q)).
  { intros cl1 m1 rt1 Q E1 E2 E3 E4 E5 HQ.
    assert (R1 : cakeReady cl1 p).
    { unfold cakeReady in *. rewrite E1, E2, E3, E4, E5. exact R. }
    apply succeeds_bind. destruct (isCatDetected cl1) eqn:D.
    - eapply succeeds_mono; [apply (cakeMode_frame_ok h _ cl1 p col); assumption|].
      intros p' rt2 (R' & Dr). apply succeeds_ret, succeeds_ret. apply HQ; assumption.
    - eapply succeeds_mono; [apply (rainMode_frame_ok h _ cl1 p col); assumption|].
      intros p' rt2 (R' & Dr). apply succeeds_ret, succeeds_ret. apply HQ; assumption. }
  (* a manager that differs from [m] at most in the hand state keeps [oneSong] *)
  assert (Keep : forall cl1 p' rt2,
            cakeReady cl1 p' -> drawsOnly rt rt2 ->
            showsCake (withCallback (withParticles m (Some p')) (Some (CatCakeUpdate cl1))) /\
            oneSong h (withCallback (withParticles m (Some p')) (Some (CatCakeUpdate cl1))) rt2).
  { intros cl1 p' rt2 R' (_ & _ & Dc & Dt & De). split.
    - exists p', cl1. auto.
    - destruct Inv as [Hs Hcase]. split.
      + unfold shortNotes. rewrite De. exact Hs.
      + unfold songOver, createdAt in *. rewrite Dt, Dc, De.
        cbn [isPlayingAudio withCallback withParticles]. exact Hcase. }
  apply succeeds_bind. unfold catLatch.
  destruct (handStateIsActive m) eqn:Ha, (isCatDetected cl) eqn:Hd; cbn [andb negb].
  - apply succeeds_ret. apply Below; try reflexivity. intros. apply Keep; assumption.
  - destruct (isPlayingAudio m) eqn:Flag.
    + apply succeeds_bind. exists m, rt.
      split; [apply playBirthdaySong_guarded; exact Flag|].
      apply succeeds_ret. apply Below; try reflexivity.
      intros. apply Keep; assumption.
    + destruct (hasAudioContext h) eqn:Ctx.
      * destruct (playBirthdaySong_events m rt Flag Ctx)
          as (rt1 & es & delay & E & He & Hes & Ht & Hdel & Hc & _).
        apply succeeds_bind. eexists _, rt1. split; [exact E|].
        apply succeeds_ret. apply Below; try reflexivity.
        intros p' rt2 R' (_ & _ & Dc & Dt & De).
        split; [exists p', (withCatDetected cl true); auto|].
        destruct Inv as [Hs [(Tm & Hall & _)|(Bad & _)]];
          [|cbn in Bad; congruence].
        split.
        -- unfold shortNotes. rewrite De, He. intros x Hx.
           apply in_app_or in Hx. destruct Hx as [Hx|[<-|Hx]].
           ++ specialize (Hes x Hx). destruct (snd x); try exact I; try exact Hes;
                destruct Hes.
           ++ exact I.
           ++ apply Hs. exact Hx.
        -- right. split; [reflexivity|].
           exists (fresh rt), (clock rt), (S (fresh rt)), (clock rt + delay).
           assert (New : forall c,
                     createdAt rt2 c =
                     if Nat.eqb (fresh rt) c then Some (clock rt) else createdAt rt c).
           { intro c. unfold createdAt. rewrite De, He.
             rewrite find_app_none.
             - cbn [find eventIs snd]. destruct (Nat.eqb c (fresh rt)) eqn:Q1;
                 rewrite Nat.eqb_sym, Q1; reflexivity.
             - intros x Hx. apply eventIs_new_other. specialize (Hes x Hx).
               destruct (snd x); try exact I; destruct Hes. }
           split; [rewrite New, Nat.eqb_refl; reflexivity|].
           split; [rewrite Dt, Ht, Tm; reflexivity|].
           split; [rewrite Hdel; reflexivity|].
           split; [rewrite Dc, Hc, Hdel; lra|].
           intros c' Hc'. unfold songOver. rewrite New.
           destruct (Nat.eqb_spec (fresh rt) c') as [Q1|_]; [congruence|].
           rewrite Dc, Hc. apply Hall.
      * apply succeeds_bind. eexists _, rt.
        split; [unfold playBirthdaySong; rewrite Flag, Ctx; reflexivity|].
        apply succeeds_ret. apply Below; try reflexivity.
        intros p' rt2 R' (_ & _ & Dc & Dt & De).
        split; [exists p', (withCatDetected cl true); auto|].
        destruct Inv as [Hs [(Tm & Hall & _)|(Bad & _)]]; [|congruence].
        split; [unfold shortNotes; rewrite De; exact Hs|].
        left. unfold songOver, createdAt in *. rewrite Dt, Dc, De.
        split; [exact Tm|]. split; [exact Hall|]. intros _. exact Ctx.
  - apply succeeds_ret. apply Below; try reflexivity. intros. apply Keep; assumption.
  - apply succeeds_ret. apply Below; try reflexivity. intros. apply Keep; assumption.
Qed.

Lemma wait_oneSong ms m rt :
  0 <= ms -> showsCake m -> oneSong h m rt ->
  succeeds (elapse ms m) rt (fun m' rt' => showsCake m' /\ oneSong h m' rt').
Proof.
  intros Hms (p & cl & Hp & Hcb & R) [Hs Hcase].
  unfold succeeds, elapse. cbn zeta.
  destruct Hcase
    as [(Tm & Hall & Hflag)
       |(Flag & c & t0 & tid & due & Hc & Tm & Hdue & Hlt & Hothers)];
    rewrite Tm; cbn [fireDue].
  - eexists _, _. split; [reflexivity|]. split; [exists p, cl; auto|].
    split.
    + unfold shortNotes. cbn [events rev map app]. exact Hs.
    + left. cbn [timers]. split; [reflexivity|]. split; [|exact Hflag].
      intro c. specialize (Hall c). unfold songOver, createdAt in *.
      cbn [events clock rev map app]. destruct (find _ (events rt)) as [[t e]|];
        cbn [option_map fst] in *; [lra|exact I].
  - destruct (Qleb due (clock rt + ms)) eqn:Due.
    + apply Qleb_true in Due.
      eexists _, _. split; [reflexivity|]. unfold songTimeout. rewrite Flag.
      split; [exists p, cl; auto|].
      assert (Same : forall c0,
                createdAt (mkRuntime (drawn rt) (fresh rt) (clock rt + ms) []
                             (map (fun t => (clock rt + ms, TimerFire t)) (rev [tid])
                              ++ events rt)) c0 = createdAt rt c0).
      { intro c0. unfold createdAt. reflexivity. }
      split.
      * unfold shortNotes. cbn [events rev map app]. intros x [<-|Hx]; [exact I|].
        apply Hs. exact Hx.
      * left. cbn [timers isPlayingAudio withAudio].
        split; [reflexivity|]. split; [|discriminate].
        intro c0. unfold songOver. rewrite Same. cbn [clock].
        destruct (Nat.eq_dec c0 c) as [->|N].
        -- rewrite Hc. lra.
        -- specialize (Hothers c0 N). unfold songOver in Hothers.
           destruct (createdAt rt c0); [lra|exact I].
    +
      assert (Due' : clock rt + ms < due).
      { apply Qnot_le_lt. intro L. apply Qleb_true in L. congruence. }
      eexists _, _. split; [reflexivity|]. split; [exists p, cl; auto|].
      split.
      * unfold shortNotes. cbn [events rev map app]. exact Hs.
      * right. split; [exact Flag|]. exists c, t0, tid, due.
        unfold songOver, createdAt in *. cbn [events clock timers rev map app].
        split; [exact Hc|]. split; [reflexivity|]. split; [exact Hdue|].
        split; [exact Due'|]. intros c' N. specialize (Hothers c' N).
        destruct (find (eventIs (AudioContextNew c')) (events rt)) as [[t e]|];
          cbn [option_map fst] in *; [lra|exact I].
Qed.

Lemma run_oneSong inputs :
  calm inputs ->
  forall m rt,
    showsCake m -> oneSong h m rt ->
    succeeds (run h inputs m) rt (fun m' rt' => showsCake m' /\ oneSong h m' rt').
Proof.
  induction 1 as [|i rest Hi Hrest IH]; intros m rt Sc Inv; cbn [run].
  - apply succeeds_ret. auto.
  - apply succeeds_bind. destruct i as [|b|type config|ms]; cbn [step].
    + eapply succeeds_mono; [apply cake_frame_oneSong; assumption|].
      intros m' rt' [A B]. apply IH; assumption.
    + apply succeeds_ret. apply IH.
      * destruct Sc as (p & cl & A & B & C). exists p, cl. auto.
      * exact Inv.
    + destruct Hi.
    + eapply succeeds_mono; [apply wait_oneSong; assumption|].
      intros m' rt' [A B]. apply IH; assumption.
Qed.

Lemma cake_start config :
  succeeds (setEffect h CREATIVE_CAT_CAKE config emptyManager) startRuntime
    (fun m rt => showsCake m /\ oneSong h m rt).
Proof.
  change (setEffect h CREATIVE_CAT_CAKE config emptyManager startRuntime)
    with (initCatCake h config emptyManager startRuntime).
  eapply succeeds_mono; [apply initCatCake_ok; assumption|].
  intros m rt (p & cb & Hp & Hcb & _ & _ & _ & Hflag & _ & _ & Ready & _ & _ & _ & _
               & He & Hc & Ht).
  cbn [callbackReady] in Ready. destruct cb; try contradiction.
  destruct Ready as (_ & R & _).
  split; [eexists _, _; eauto|]. split.
  - unfold shortNotes. rewrite He. intros x [<-|[]]. exact I.
  - left. split; [rewrite Ht; reflexivity|]. split.
    + intro ctx. unfold songOver, createdAt. rewrite He. exact I.
    + rewrite Hflag. discriminate.
Qed.

(** X20. One song at a time.  From the start of the page, after the cat
    effect is selected, any sequence of frames, hand reports and waits of
    non-negative length (without another effect switch) runs without an
    error, at the end of it at most one audio context is audible, and no
    context has been closed. *)
Theorem one_song_at_a_time :
  forall config inputs,
    calm inputs ->
    exists m rt,
      run h (Switch CREATIVE_CAT_CAKE config :: inputs) emptyManager startRuntime
        = Ok (m, rt) /\
      (List.length (audibleContexts rt) <= 1)%nat /\
      forall c, closed rt c = false.
Proof.
  intros config inputs Hcalm.
  assert (S : succeeds (run h (Switch CREATIVE_CAT_CAKE config :: inputs) emptyManager)
                startRuntime (fun m rt => showsCake m /\ oneSong h m rt)).
  { cbn [run step]. apply succeeds_bind.
    eapply succeeds_mono; [apply cake_start|].
    intros m rt [A B]. apply run_oneSong; assumption. }
  destruct S as (m & rt & E & _ & Inv).
  exists m, rt. split; [exact E|]. split; [exact (oneSong_audible m rt Inv)|].
  intro c. destruct Inv as [Hs _]. unfold closed. apply existsb_false.
  intros x Hx. specialize (Hs x Hx). unfold eventIs.
  destruct (snd x); try reflexivity. destruct Hs.
Qed.

End OneSong.

Lemma one_song_at_a_time_witness :
  unitStream sampleHost /\ calm sampleVisits /\
  exists m rt,
    run sampleHost (Switch CREATIVE_CAT_CAKE (sampleConfig 5) :: sampleVisits)
      emptyManager startRuntime = Ok (m, rt) /\
    (List.length (audibleContexts rt) <= 1)%nat.
Proof.
  assert (C : calm sampleVisits).
  { unfold calm, sampleVisits.
    repeat (apply Forall_cons; [first [exact I | vm_compute; discriminate]|]).
    apply Forall_nil. }
  split; [exact sampleStream_unit|]. split; [exact C|].
  destruct (one_song_at_a_time sampleHost sampleStream_unit (sampleConfig 5)
              sampleVisits C) as (m & rt & E & L & _).
  exists m, rt. split; [exact E|exact L].
Defined.

Lemma pow3_unit u : 0 <= u -> u < 1 -> 0 <= Math_pow3 u /\ Math_pow3 u <= 1.
Proof.
  intros L U. unfold Math_pow3.
  assert (A : 0 <= u * u) by (apply Qmult_le_0_compat; lra).
  assert (B : 0 <= u * (1 - u)) by (apply Qmult_le_0_compat; lra).
  assert (C : 0 <= (u * u) * u) by (apply Qmult_le_0_compat; lra).
  assert (D : 0 <= (u * u) * (1 - u)) by (apply Qmult_le_0_compat; lra).
  split; lra.
Qed.

Lemma scaled_within c r : -1 <= c -> c <= 1 -> 0 <= r -> - r <= c * r /\ c * r <= r.
Proof.
  intros L U R.
  assert (A : 0 <= (1 - c) * r) by (apply Qmult_le_0_compat; lra).
  assert (B : 0 <= (c + 1) * r) by (apply Qmult_le_0_compat; lra).
  split; lra.
Qed.

Section GalaxyBox.

Variable h : Host.
Hypothesis random_unit : unitStream h.
Hypothesis trig_bounded : trigBounded h.

Lemma galaxyJitter_within radius rt :
  0 <= radius ->
  succeeds (galaxyJitter h radius) rt
    (fun j rt' => rt' = afterDraws 2 rt /\
                  - (0.5 * radius) <= j /\ j <= 0.5 * radius).
Proof.
  intro R. unfold galaxyJitter.
  apply succeeds_bind, succeeds_random.
  apply succeeds_bind, succeeds_random.
  apply succeeds_ret.
  split; [unfold afterDraws, afterDraw; cbn; f_equal; lia|].
  destruct (random_unit (drawn rt)) as [L U].
  destruct (pow3_unit _ L U) as [P0 P1].
  set (w := Math_pow3 (random_stream h (drawn rt))) in *.
  assert (A : 0 <= w * radius) by (apply Qmult_le_0_compat; lra).
  assert (B : 0 <= (1 - w) * radius) by (apply Qmult_le_0_compat; lra).
  destruct (Qltb _ 0.5); split; lra.
Qed.

Lemma galaxyPoint_in_box ci co i rt :
  succeeds (galaxyPoint h ci co i) rt
    (fun v rt' => rt' = afterDraws 7 rt /\ inGalaxyBox (fst v)).
Proof.
  unfold galaxyPoint.
  apply succeeds_bind, succeeds_random.
  destruct (random_unit (drawn rt)) as [L U].
  set (radius := random_stream h (drawn rt) * 50).
  assert (R0 : 0 <= radius) by (unfold radius; lra).
  assert (R1 : radius < 50) by (unfold radius; lra).
  apply succeeds_bind.
  eapply succeeds_mono; [apply galaxyJitter_within; exact R0|].
  intros jx rt1 (-> & X0 & X1).
  apply succeeds_bind.
  eapply succeeds_mono; [apply galaxyJitter_within; exact R0|].
  intros jy rt2 (-> & Y0 & Y1).
  apply succeeds_bind.
  eapply succeeds_mono; [apply galaxyJitter_within; exact R0|].
  intros jz rt3 (-> & Z0 & Z1).
  apply succeeds_ret.
  split; [unfold afterDraws, afterDraw; cbn; f_equal; lia|].
  cbn [fst inGalaxyBox].
  set (angle := ofNat (i mod 3) * (Math_PI * 2 / 3) + radius * 0.5).
  destruct (trig_bounded angle) as [[S0 S1] [C0 C1]].
  destruct (scaled_within _ radius C0 C1 R0) as [Cx0 Cx1].
  destruct (scaled_within _ radius S0 S1 R0) as [Sz0 Sz1].
  repeat split; lra.
Qed.

Lemma galaxy_loop_in_box ci co n positions colors rt :
  shaped n positions ->
  succeeds (forUpTo n (galaxyParticle h ci co) (positions, colors)) rt
    (fun s rt' =>
       rt' = afterDraws (7 * n) rt /\ resized positions (fst s) /\
       forall i, (i < n)%nat ->
         exists v, tripleAt (fst s) i = Some v /\ inGalaxyBox v).
Proof.
  intro Hs.
  apply (succeeds_forUpTo
           (fun k s rt' =>
              rt' = afterDraws (7 * k) rt /\ resized positions (fst s) /\
              forall i, (i < k)%nat ->
                exists v, tripleAt (fst s) i = Some v /\ inGalaxyBox v)).
  - rewrite afterDraws_0. split; [reflexivity|]. split; [apply resized_refl|].
    intros i Hi. lia.
  - intros k [a1 c1] rt1 Hk (-> & Ra & Hdone). cbn [fst] in *.
    unfold galaxyParticle.
    apply succeeds_bind.
    eapply succeeds_mono; [apply galaxyPoint_in_box|].
    intros [[[x y] z] c] rt2 (-> & Box). cbn [fst] in Box.
    apply succeeds_ret. cbn [fst].
    split; [rewrite afterDraws_afterDraws; f_equal; lia|].
    split; [apply resized_setTriple; exact Ra|].
    intros i Hi. destruct (Nat.eq_dec i k) as [->|Hne].
    + rewrite tripleAt_setTriple_same by in_range.
      eexists. split; [reflexivity|].
      unfold inGalaxyBox in *. rewrite !Qred_correct. exact Box.
    + rewrite tripleAt_setTriple_other by congruence. apply Hdone. lia.
  - auto.
Qed.

(** X21.  The galaxy fits in a box.  With a sine and a cosine between -1
    and 1, every particle of [initGalaxy] has its x and z coordinates
    strictly between -75 and 75 and its y coordinate strictly between -25
    and 25; the call consumes seven draws per particle. *)
Theorem galaxy_in_box :
  forall (config : EffectConfig) (m : SceneManager) (rt : Runtime),
    succeeds (initGalaxy h config m) rt
      (fun m' rt' =>
         drawn rt' = (drawn rt + 7 * count config)%nat /\
         exists p,
           particles m' = Some p /\
           forall i, (i < count config)%nat ->
             exists v, tripleAt (position p) i = Some v /\ inGalaxyBox v).
Proof.
  intros config m rt. unfold initGalaxy.
  apply succeeds_bind, succeeds_newObject.
  apply succeeds_bind, succeeds_newFloat32Array.
  apply succeeds_bind, succeeds_newFloat32Array.
  apply succeeds_bind.
  eapply succeeds_mono.
  { apply galaxy_loop_in_box. unfold shaped. apply f32_length_new. }
  intros [pos1 col1] rt1 (-> & Ra & Hpts). cbn [fst] in *.
  apply succeeds_bind, succeeds_newObject.
  apply succeeds_bind, succeeds_newObject.
  apply succeeds_bind, succeeds_emit. apply succeeds_ret.
  split; [cbn; lia|].
  eexists. split; [reflexivity|]. cbn [position]. exact Hpts.
Qed.

End GalaxyBox.

Lemma galaxy_in_box_witness :
  unitStream circleHost /\ trigBounded circleHost /\
  succeeds (initGalaxy circleHost (sampleConfig 4) emptyManager) startRuntime
    (fun m' _ =>
       exists p, particles m' = Some p /\
         forall i, (i < 4)%nat ->
           exists v, tripleAt (position p) i = Some v /\ inGalaxyBox v).
Proof.
  split; [exact sampleStream_unit|]. split; [exact circleHost_bounded|].
  eapply succeeds_mono;
    [apply (galaxy_in_box circleHost sampleStream_unit circleHost_bounded)|].
  intros m' rt' (_ & p & Hp & Hbox). exists p. split; [exact Hp|exact Hbox].
Defined.
